(** * Bloodcheck: the image-analysis core

    A shallow embedding of the colour classifier, the white-balance
    estimator, the cluster engine and the analysis entry point of the
    Bloodcheck application, together with the properties its specification
    states about them.

    The source holds the application in three versions.  Two are embedded,
    each in its own module:
    - [Flash]: the version with flash-aware white balance
      ([computeWhiteBalanceGains (data, width, height, flashIsOn)]), shade
      correction and the two-way sample type;
    - [Bowl]: the version with the elliptical bowl mask, the urine and stool
      content profiles and the minimum-evidence gate.
    The third version (white balance without the flash flag, the profile
    table of [Bowl], neither mask nor gate) has no function that these two
    lack.  The HSL conversion, the profile matcher and the cluster engine are
    the same code in all of them and are embedded once, over the profile
    table.

    Of the rest of the application the file embeds what is computed from
    numbers alone: the lighting check ([measureBrightness], from the bytes
    it reads), the overlay rectangle and the crops of the component of the
    flash version ([App]), the crop previews and the highest severity of
    the component of the bowl version ([HealthScanApp]), and the QR-like
    pattern of the flash version.

    Numbers.  A JavaScript number is embedded as an exact rational ([Q]):
    the arithmetic of the source is kept operation by operation, its rounding
    to binary64 is not modelled.  Pixel coordinates, grid indices and counts,
    which the source keeps integral, are [nat]; the bytes of the image buffer
    are [Z].

    Rounding.  The rounding changes a result where a number falls on a
    bound: the hue of [rgbToHsl] can be rounded up to 360, or to just below
    a bound of a profile, and the sum that [isInBowlMask] compares with 1 to
    just above 1.  Two embeddings that keep the rounding stand beside the
    exact one: [rgbToHslRounded], over the rationals, with every operation
    rounded by a function of which only the properties of [Rounding] are
    used, and the module [Binary64], over the primitive binary64 numbers.
    The properties that depend on such a bound are stated so that they hold
    with the rounding as without. *)

From Stdlib Require Import List ZArith QArith Qminmax Qround Lqa Lia.
From Stdlib Require Import String Bool Arith PeanoNat Permutation Sorted.
From Stdlib Require PrimFloat.
Import ListNotations.

Local Open Scope string_scope.
Local Open Scope list_scope.
Local Open Scope Q_scope.

(** ** JavaScript comparisons on numbers *)

Definition Qleb (a b : Q) : bool := Qle_bool a b.
Definition Qltb (a b : Q) : bool := negb (Qle_bool b a).
Definition Qgeb (a b : Q) : bool := Qle_bool b a.
Definition Qgtb (a b : Q) : bool := negb (Qle_bool a b).

(** [Math.max (a, b, c)] and [Math.min (a, b, c)]. *)
Definition max3 (a b c : Q) : Q := Qmax (Qmax a b) c.
Definition min3 (a b c : Q) : Q := Qmin (Qmin a b) c.

(** ** Colour profiles *)

Record Profile : Type := mkProfile {
  label : string;
  hMin : Q; hMax : Q;
  sMin : Q; sMax : Q;
  lMin : Q; lMax : Q;
  color : string;
  severity : option string;
  hatchStyle : option string
}.

Record Hsl : Type := mkHsl { hue : Q; sat : Q; lig : Q }.

(** [rgbToHsl (r, g, b)]: hue in degrees, saturation and lightness in
    percent. *)
Definition rgbToHsl (r g b : Q) : Hsl :=
  let r := r / 255 in
  let g := g / 255 in
  let b := b / 255 in
  let mx := max3 r g b in
  let mn := min3 r g b in
  let l := (mx + mn) / 2 in
  if Qeq_bool mx mn then mkHsl (0 * 360) (0 * 100) (l * 100)
  else
    let d := mx - mn in
    let s := if Qgtb l 0.5 then d / (2 - mx - mn) else d / (mx + mn) in
    let h :=
      if Qeq_bool mx r then ((g - b) / d + (if Qltb g b then 6 else 0)) / 6
      else if Qeq_bool mx g then ((b - r) / d + 2) / 6
      else ((r - g) / d + 4) / 6 in
    mkHsl (h * 360) (s * 100) (l * 100).

(** The hue test of the matcher loop: a range with [hMin <= hMax] is an
    interval, a range with [hMin > hMax] wraps across 360. *)
Definition hueOk (p : Profile) (h : Q) : bool :=
  if Qleb (hMin p) (hMax p)
  then Qgeb h (hMin p) && Qleb h (hMax p)
  else Qgeb h (hMin p) || Qleb h (hMax p).

(** The condition under which the matcher loop returns [p]. *)
Definition profileMatches (p : Profile) (c : Hsl) : bool :=
  hueOk p (hue c)
  && Qgeb (sat c) (sMin p) && Qleb (sat c) (sMax p)
  && Qgeb (lig c) (lMin p) && Qleb (lig c) (lMax p).

(** The matcher loop, [for (const p of profiles) if (...) return p;
    return null], over an HSL triple and over an RGB triple. *)
Definition matchesHsl (profiles : list Profile) (c : Hsl) : option Profile :=
  find (fun p => profileMatches p c) profiles.

Definition matchesRgb (profiles : list Profile) (r g b : Q) : option Profile :=
  matchesHsl profiles (rgbToHsl r g b).

(** ** Arrays *)

(** [arr[i] = v] on an index inside the array. *)
Fixpoint setNth {A : Type} (i : nat) (v : A) (l : list A) : list A :=
  match l, i with
  | [], _ => []
  | _ :: l', O => v :: l'
  | a :: l', S i' => a :: setNth i' v l'
  end.

(** [arr.sort (cmp)], as a stable insertion sort: [before x y] says that the
    comparator does not put [y] strictly before [x]. *)
Fixpoint insertBy {A : Type} (before : A -> A -> bool) (x : A) (l : list A)
  : list A :=
  match l with
  | [] => [x]
  | y :: l' => if before x y then x :: y :: l' else y :: insertBy before x l'
  end.

Definition sortBy {A : Type} (before : A -> A -> bool) (l : list A) : list A :=
  fold_right (insertBy before) [] l.

(** The values [0, step, 2 * step, ...] below [n], the range of
    [for (let i = 0; i < n; i += step)]. *)
Definition stride (step n : nat) : list nat :=
  map (fun k => step * k)%nat (seq 0 ((n + (step - 1)) / step)).

(** [set.has (i)] on a set of cell indices kept as a list. *)
Definition has (i : nat) (set : list nat) : bool :=
  existsb (Nat.eqb i) set.

(** ** The cluster engine *)

Record MatchedPixel : Type := mkPixel {
  px : nat;
  py : nat;
  profile : Profile
}.

(** A cell of the cluster grid: [{count, profiles}], where [profiles] is an
    object from profile label to tally; its keys keep their insertion
    order, as [Object.entries] lists them. *)
Definition Tally : Type := list (string * nat).

Record Cell : Type := mkCell {
  count : nat;
  profiles : Tally
}.

Definition emptyCell : Cell := mkCell 0 [].

Record Finding : Type := mkFinding {
  fx : nat; fy : nat; fw : nat; fh : nat;
  flabel : string;
  fcolor : string;
  fseverity : option string;
  fhatchStyle : option string;
  fpixels : nat
}.

Definition GRID : nat := 12.
Definition THRESHOLD : nat := 3.

(** [Math.ceil (n / GRID)] on a natural number. *)
Definition ceilDiv (n d : nat) : nat := ((n + (d - 1)) / d)%nat.

(** [o[k] = (o[k] || 0) + v]. *)
Fixpoint bump (k : string) (v : nat) (o : Tally) : Tally :=
  match o with
  | [] => [(k, v)]
  | (k', v') :: o' =>
      if String.eqb k' k then (k', (v' + v)%nat) :: o'
      else (k', v') :: bump k v o'
  end.

(** [Object.entries (o).forEach (([k, v]) => pT[k] = (pT[k] || 0) + v)]. *)
Definition addAll (o pT : Tally) : Tally :=
  fold_left (fun pT kv => bump (fst kv) (snd kv) pT) o pT.

Definition cellIndex (gridW : nat) (p : MatchedPixel) : nat :=
  ((py p / GRID) * gridW + px p / GRID)%nat.

(** The body of [pixels.forEach]; [None] is the [TypeError] raised when the
    pixel's cell index is outside the grid array. *)
Definition addPixel (gridW : nat) (grid : option (list Cell))
  (p : MatchedPixel) : option (list Cell) :=
  match grid with
  | None => None
  | Some g =>
      let idx := cellIndex gridW p in
      match nth_error g idx with
      | None => None
      | Some cell =>
          Some (setNth idx
                  (mkCell (S (count cell))
                     (bump (label (profile p)) 1 (profiles cell))) g)
      end
  end.

Definition buildGrid (pixels : list MatchedPixel) (gridW gridH : nat)
  : option (list Cell) :=
  fold_left (addPixel gridW) pixels (Some (repeat emptyCell (gridW * gridH))).

(** [grid[i].count >= THRESHOLD]. *)
Definition active (grid : list Cell) (i : nat) : bool :=
  (THRESHOLD <=? count (nth i grid emptyCell))%nat.

(** The state of one flood fill. *)
Record Fill : Type := mkFill {
  queue : list nat;
  visited : list nat;
  minX : nat; maxX : nat; minY : nat; maxY : nat;
  totalPixels : nat;
  profileTotals : Tally
}.

(** The four candidate neighbours [[cx-1,cy],[cx+1,cy],[cx,cy-1],[cx,cy+1]],
    those outside the grid dropped ([nx < 0 || ny < 0 || nx >= gridW ||
    ny >= gridH]), as cell indices [ny * gridW + nx]. *)
Definition neighbours (gridW gridH cx cy : nat) : list nat :=
  let cand := [(Z.of_nat cx - 1, Z.of_nat cy); (Z.of_nat cx + 1, Z.of_nat cy);
               (Z.of_nat cx, Z.of_nat cy - 1); (Z.of_nat cx, Z.of_nat cy + 1)]%Z in
  flat_map (fun '(nx, ny) =>
    if ((nx <? 0) || (ny <? 0) || (nx >=? Z.of_nat gridW)
        || (ny >=? Z.of_nat gridH))%Z
    then []
    else [Z.to_nat (ny * Z.of_nat gridW + nx)]) cand.

(** [if (!visited.has (ni) && grid[ni].count >= THRESHOLD)
    { visited.add (ni); queue.push (ni); }] *)
Definition enqueue (grid : list Cell) (st : Fill) (ni : nat) : Fill :=
  if negb (has ni (visited st)) && active grid ni
  then mkFill (queue st ++ [ni]) (visited st ++ [ni])
         (minX st) (maxX st) (minY st) (maxY st)
         (totalPixels st) (profileTotals st)
  else st.

(** One turn of the [while (queue.length)] loop, on the cell [ci] that
    [queue.shift ()] returned and the rest of the queue. *)
Definition visitCell (grid : list Cell) (gridW gridH : nat) (st : Fill)
  (ci : nat) (rest : list nat) : Fill :=
  let cx := (ci mod gridW)%nat in
  let cy := (ci / gridW)%nat in
  let cell := nth ci grid emptyCell in
  let st1 :=
    mkFill rest (visited st)
      (Nat.min (minX st) cx) (Nat.max (maxX st) cx)
      (Nat.min (minY st) cy) (Nat.max (maxY st) cy)
      (totalPixels st + count cell)%nat
      (addAll (profiles cell) (profileTotals st)) in
  fold_left (enqueue grid) (neighbours gridW gridH cx cy) st1.

(** The [while (queue.length)] loop.  [fuel] bounds the number of turns; the
    loop is done when the queue of the state returned is empty. *)
Fixpoint floodFill (fuel : nat) (grid : list Cell) (gridW gridH : nat)
  (st : Fill) : Fill :=
  match queue st with
  | [] => st
  | ci :: rest =>
      match fuel with
      | O => st
      | S fuel' =>
          floodFill fuel' grid gridW gridH (visitCell grid gridW gridH st ci rest)
      end
  end.

(** [Object.entries (profileTotals).sort ((a, b) => b[1] - a[1])[0]]. *)
Definition dominant (pT : Tally) : option (string * nat) :=
  hd_error (sortBy (fun a b => negb (snd a <? snd b)%nat) pT).

(** [profiles.find (p => p.label === l)]. *)
Definition findProfile (table : list Profile) (l : string) : option Profile :=
  find (fun p => String.eqb (label p) l) table.

(** The body of the two nested [for] loops over the grid, at the cell
    [(gx, gy)]; the state is the [visited] set and the [boxes] found so far,
    [None] once a [TypeError] was raised. *)
Definition clusterStep (table : list Profile) (grid : list Cell)
  (gridW gridH : nat) (acc : option (list nat * list Finding))
  (g : nat * nat) : option (list nat * list Finding) :=
  match acc with
  | None => None
  | Some (vis, boxes) =>
      let '(gx, gy) := g in
      let idx := (gy * gridW + gx)%nat in
      if has idx vis || negb (active grid idx) then Some (vis, boxes)
      else
        let st := floodFill (List.length grid) grid gridW gridH
                    (mkFill [idx] (vis ++ [idx]) gx gx gy gy 0 []) in
        if (totalPixels st <? 8)%nat then Some (visited st, boxes)
        else
          match dominant (profileTotals st) with
          | None => None
          | Some dom =>
              match findProfile table (fst dom) with
              | None => None
              | Some prof =>
                  Some (visited st,
                        boxes ++
                        [mkFinding (minX st * GRID) (minY st * GRID)
                           ((maxX st - minX st + 1) * GRID)
                           ((maxY st - minY st + 1) * GRID)
                           (label prof) (color prof) (severity prof)
                           (hatchStyle prof) (totalPixels st)])
              end
          end
  end.

(** The cells in the order of [for (gy ...) for (gx ...)]. *)
Definition rasterCells (gridW gridH : nat) : list (nat * nat) :=
  flat_map (fun gy => map (fun gx => (gx, gy)) (seq 0 gridW)) (seq 0 gridH).

(** [clusterDetections (pixels, width, height)] over the profile table
    [table]; [None] is a [TypeError]. *)
Definition clusterDetections (table : list Profile)
  (pixels : list MatchedPixel) (width height : nat) : option (list Finding) :=
  let gridW := ceilDiv width GRID in
  let gridH := ceilDiv height GRID in
  match buildGrid pixels gridW gridH with
  | None => None
  | Some grid =>
      match fold_left (clusterStep table grid gridW gridH)
              (rasterCells gridW gridH) (Some ([], [])) with
      | None => None
      | Some (_, boxes) => Some boxes
      end
  end.

(** ** The image buffer *)

(** [data[i]] on the byte array of an image; [None] is [undefined], the
    value of a read past the end of the array. *)
Definition byteAt (data : list Z) (i : nat) : option Z := nth_error data i.

(** [data[i]] as a number, on an index inside the array. *)
Definition channel (data : list Z) (i : nat) : Q := inject_Z (nth i data 0%Z).

(** A count or a coordinate, as a number. *)
Definition natQ (n : nat) : Q := inject_Z (Z.of_nat n).

(** [0.299 * r + 0.587 * g + 0.114 * b]. *)
Definition luminance (r g b : Q) : Q := 0.299 * r + 0.587 * g + 0.114 * b.

(** ** The version with flash-aware white balance *)

Module Flash.

Definition BLOOD_PROFILES : list Profile :=
  [ mkProfile "Bright Red" 0 15 45 100 25 55
      "#60a5fa" (Some "look_into") (Some "vertical");
    mkProfile "Dark Red" 340 360 40 100 15 40
      "#60a5fa" (Some "look_into") (Some "vertical");
    mkProfile "Maroon" 0 20 30 80 10 25
      "#fb923c" (Some "monitor") (Some "diagonal");
    mkProfile "Brown" 15 40 25 70 8 22
      "#fb923c" (Some "monitor") (Some "diagonal");
    mkProfile "Dark/Tarry" 0 360 0 30 2 10
      "#c084fc" (Some "keep_watch") (Some "dots") ].

Definition TARGET_WHITE_AMBIENT : Q := 240.
Definition TARGET_WHITE_FLASH : Q := 250.

(** [median (arr)] on an array of bytes. *)
Definition median (arr : list Z) : Q :=
  match arr with
  | [] => 0
  | _ =>
      let s := sortBy Z.leb arr in
      let m := (List.length s / 2)%nat in
      if Nat.odd (List.length s) then inject_Z (nth m s 0%Z)
      else (inject_Z (nth (m - 1) s 0%Z) + inject_Z (nth m s 0%Z)) / 2
  end.

Record Gains : Type := mkGains { gainR : Q; gainG : Q; gainB : Q }.

(** [cl = v => Math.min (1.6, Math.max (0.6, v))]. *)
Definition cl (v : Q) : Q := Qmin 1.6 (Qmax 0.6 v).

(** The luminances of the first pass, before they are sorted. *)
Definition sampledLuminances (data : list Z) : list Q :=
  map (fun i => luminance (channel data i) (channel data (i + 1))
                  (channel data (i + 2)))
      (stride 16 (List.length data)).

(** [lums[Math.floor (lums.length * 0.85)]] after [lums.sort]. *)
Definition brightThreshold (data : list Z) : Q :=
  let lums := sortBy Qleb (sampledLuminances data) in
  nth (Z.to_nat (Qfloor (inject_Z (Z.of_nat (List.length lums)) * 0.85)))
      lums 0.

(** The test of the second pass on the pixel at byte index [i]. *)
Definition qualifies (data : list Z) (thresh : Q) (i : nat) : bool :=
  let r := channel data i in
  let g := channel data (i + 1) in
  let b := channel data (i + 2) in
  Qgeb (luminance r g b) thresh && Qgeb r 140 && Qgeb g 140 && Qgeb b 140.

(** The byte indices of the pixels that the second pass keeps. *)
Definition qualifying (data : list Z) : list nat :=
  filter (qualifies data (brightThreshold data))
         (stride 16 (List.length data)).

(** [computeWhiteBalanceGains (data, width, height, flashIsOn)], on a
    buffer that holds whole pixels (its length is a multiple of 4). *)
Definition computeWhiteBalanceGains (data : list Z) (width height : nat)
  (flashIsOn : bool) : Gains :=
  let TARGET := if flashIsOn then TARGET_WHITE_FLASH else TARGET_WHITE_AMBIENT in
  let kept := qualifying data in
  let rs := map (fun i => nth i data 0%Z) kept in
  let gs := map (fun i => nth (i + 1) data 0%Z) kept in
  let bs := map (fun i => nth (i + 2) data 0%Z) kept in
  if (List.length rs <? 20)%nat then mkGains 1 1 1
  else mkGains (cl (TARGET / median rs)) (cl (TARGET / median gs))
         (cl (TARGET / median bs)).

Definition SHADE_GRID : nat := 8.

Record ShadeGrid : Type := mkShade {
  cellAvg : list Q;
  globalAvg : Q;
  cellW : Q;
  cellH : Q
}.

(** [Math.min (Math.floor (v / cell), SHADE_GRID - 1)]. *)
Definition shadeIndex (v : nat) (cell : Q) : nat :=
  Z.to_nat (Z.min (Qfloor (natQ v / cell)) (Z.of_nat SHADE_GRID - 1)).

(** The body of the loops of [buildShadeGrid] at the pixel [(x, y)], on the
    arrays [sums] and [counts]. *)
Definition shadeSample (data : list Z) (width : nat) (gains : Gains)
  (cW cH : Q) (y : nat) (acc : list Q * list nat) (x : nat)
  : list Q * list nat :=
  let gy := shadeIndex y cH in
  let i := ((y * width + x) * 4)%nat in
  let r := Qmin 255 (channel data i * gainR gains) in
  let g := Qmin 255 (channel data (i + 1) * gainG gains) in
  let b := Qmin 255 (channel data (i + 2) * gainB gains) in
  let gx := shadeIndex x cW in
  let idx := (gy * SHADE_GRID + gx)%nat in
  (setNth idx (nth idx (fst acc) 0 + luminance r g b) (fst acc),
   setNth idx (S (nth idx (snd acc) 0%nat)) (snd acc)).

(** [buildShadeGrid (data, width, height, gains)], on a buffer that holds
    the whole image. *)
Definition buildShadeGrid (data : list Z) (width height : nat)
  (gains : Gains) : ShadeGrid :=
  let cW := natQ width / natQ SHADE_GRID in
  let cH := natQ height / natQ SHADE_GRID in
  let cells := (SHADE_GRID * SHADE_GRID)%nat in
  let acc :=
    fold_left
      (fun acc y =>
         fold_left (shadeSample data width gains cW cH y) (stride 2 width) acc)
      (stride 2 height) (repeat 0 cells, repeat 0%nat cells) in
  let sums := fst acc in
  let counts := snd acc in
  let gS := fold_left Qplus sums 0 in
  let gC := fold_left Nat.add counts 0%nat in
  mkShade
    (map (fun sc => if (snd sc =? 0)%nat then 128 else fst sc / natQ (snd sc))
       (combine sums counts))
    (if (gC =? 0)%nat then 128 else gS / natQ gC)
    cW cH.

(** [Math.min (1.5, Math.max (0.7, shade.globalAvg /
    (shade.cellAvg[gy * SHADE_GRID + gx] || 1)))]. *)
Definition shadeFactor (shade : ShadeGrid) (gx gy : nat) : Q :=
  let cellLum := nth (gy * SHADE_GRID + gx) (cellAvg shade) 0 in
  Qmin 1.5
    (Qmax 0.7 (globalAvg shade / (if Qeq_bool cellLum 0 then 1 else cellLum))).

(** The values of [for (v = Math.floor (start); v < start + span; v += step)];
    there are at most [bound + 1] of them when [start + span <= bound]. *)
Definition rangeFrom (start span : Q) (step bound : nat) : list nat :=
  filter (fun v => Qltb (natQ v) (start + span))
    (map (fun k => (Z.to_nat (Qfloor start) + step * k)%nat) (seq 0 (S bound))).

(** [classifySampleType (data, width, height, gains, shade)], on a buffer
    that holds the whole image. *)
Definition classifySampleType (data : list Z) (width height : nat)
  (gains : Gains) (shade : ShadeGrid) : string :=
  let cx := natQ width * 0.3 in
  let cy := natQ height * 0.3 in
  let cw := natQ width * 0.4 in
  let ch := natQ height * 0.4 in
  let acc :=
    fold_left
      (fun acc y =>
         let gy := shadeIndex y (cellH shade) in
         fold_left
           (fun (acc : Q * Q * nat) x =>
              let i := ((y * width + x) * 4)%nat in
              let r := channel data i * gainR gains in
              let g := channel data (i + 1) * gainG gains in
              let b := channel data (i + 2) * gainB gains in
              let gx := shadeIndex x (cellW shade) in
              let sf := shadeFactor shade gx gy in
              let c := rgbToHsl (Qmin 255 (r * sf)) (Qmin 255 (g * sf))
                         (Qmin 255 (b * sf)) in
              (fst (fst acc) + lig c, snd (fst acc) + sat c, S (snd acc)))
           (rangeFrom cx cw 3 width) acc)
      (rangeFrom cy ch 3 height) (0, 0, 0%nat) in
  let lumS := fst (fst acc) in
  let satS := snd (fst acc) in
  let n := snd acc in
  if negb (n =? 0)%nat && Qgtb (lumS / natQ n) 55 && Qltb (satS / natQ n) 30
  then "urine" else "stool".

Definition matchesBlood (r g b : Q) : option Profile :=
  matchesRgb BLOOD_PROFILES r g b.

Definition clusterDetections := clusterDetections BLOOD_PROFILES.

Record Analysis : Type := mkAnalysis {
  detections : list Finding;
  sampleType : string
}.

(** The body of the sampling loops of [analyzeImageData] at the pixel
    [(x, y)], on the array [bloodPixels]. *)
Definition correctPixel (data : list Z) (width : nat) (gains : Gains)
  (shade : ShadeGrid) (y : nat) (bloodPixels : list MatchedPixel) (x : nat)
  : list MatchedPixel :=
  let gy := shadeIndex y (cellH shade) in
  let i := ((y * width + x) * 4)%nat in
  if match byteAt data (i + 3) with Some a => (a <? 128)%Z | None => false end
  then bloodPixels
  else
    let r := channel data i * gainR gains in
    let g := channel data (i + 1) * gainG gains in
    let b := channel data (i + 2) * gainB gains in
    let gx := shadeIndex x (cellW shade) in
    let sf := shadeFactor shade gx gy in
    let r := Qmin 255 (Qmax 0 (r * sf)) in
    let g := Qmin 255 (Qmax 0 (g * sf)) in
    let b := Qmin 255 (Qmax 0 (b * sf)) in
    match matchesBlood r g b with
    | Some prof => bloodPixels ++ [mkPixel x y prof]
    | None => bloodPixels
    end.

(** [analyzeImageData (imageData, width, height, flashIsOn)], on a buffer
    that holds the whole image; [None] is a [TypeError] raised by
    [clusterDetections]. *)
Definition analyzeImageData (data : list Z) (width height : nat)
  (flashIsOn : bool) : option Analysis :=
  let gains := computeWhiteBalanceGains data width height flashIsOn in
  let shade := buildShadeGrid data width height gains in
  let sampleType := classifySampleType data width height gains shade in
  let bloodPixels :=
    fold_left
      (fun acc y =>
         fold_left (correctPixel data width gains shade y) (stride 2 width) acc)
      (stride 2 height) [] in
  match clusterDetections bloodPixels width height with
  | None => None
  | Some boxes => Some (mkAnalysis boxes sampleType)
  end.

End Flash.

(** ** The version with the bowl mask and the minimum-evidence gate *)

Module Bowl.

Definition BLOOD_PROFILES : list Profile :=
  [ mkProfile "Bright Red" 0 15 45 100 25 55 "#ef4444" (Some "urgent") None;
    mkProfile "Dark Red" 340 360 40 100 15 40 "#991b1b" (Some "urgent") None;
    mkProfile "Maroon" 0 20 30 80 10 25 "#7f1d1d" (Some "warning") None;
    mkProfile "Brown Blood" 15 40 25 70 8 22 "#b45309" (Some "warning") None;
    mkProfile "Black (Tarry)" 0 360 0 30 2 10 "#1f2937" (Some "caution") None ].

(** The keys of [CONTENT_PROFILES] and of [contentCounts]. *)
Inductive ContentKey : Type := Urine | Stool.

Definition CONTENT_PROFILES : list (ContentKey * Profile) :=
  [ (Urine, mkProfile "Urine" 35 70 15 80 35 80 "#facc15" None None);
    (Stool, mkProfile "Stool" 10 35 20 75 12 45 "#92400e" None None) ].

Definition centerX : Q := 0.5.
Definition centerY : Q := 0.56.
Definition radiusX : Q := 0.38.
Definition radiusY : Q := 0.44.

Definition MIN_BLOOD_PIXELS : nat := 36.
Definition MIN_BLOOD_RATIO : Q := 0.002.
Definition MIN_URINE_RATIO : Q := 0.02.
Definition MIN_STOOL_RATIO : Q := 0.02.

(** [isInBowlMask (x, y, width, height)].  A radius of zero makes the
    quotient of the source infinite or undefined and the test false. *)
Definition isInBowlMask (x y width height : nat) : bool :=
  let cx := natQ width * centerX in
  let cy := natQ height * centerY in
  let rx := natQ width * radiusX in
  let ry := natQ height * radiusY in
  if Qeq_bool rx 0 || Qeq_bool ry 0 then false
  else
    let dx := (natQ x - cx) / rx in
    let dy := (natQ y - cy) / ry in
    Qleb (dx * dx + dy * dy) 1.

Definition matchesBlood (r g b : Q) : option Profile :=
  matchesRgb BLOOD_PROFILES r g b.

Definition matchesContent (r g b : Q) : option ContentKey :=
  option_map fst
    (find (fun kp => profileMatches (snd kp) (rgbToHsl r g b))
       CONTENT_PROFILES).

Definition clusterDetections := clusterDetections BLOOD_PROFILES.

Record ContentCounts : Type := mkCounts { urine : nat; stool : nat }.

(** [contentCounts[key]++]. *)
Definition countContent (c : ContentCounts) (key : ContentKey)
  : ContentCounts :=
  match key with
  | Urine => mkCounts (S (urine c)) (stool c)
  | Stool => mkCounts (urine c) (S (stool c))
  end.

(** What the sampling loops of [analyzeImageData] accumulate. *)
Record Scan : Type := mkScan {
  bloodPixels : list MatchedPixel;
  contentCounts : ContentCounts;
  bowlSamples : nat
}.

(** The body of the sampling loops at the pixel [(x, y)].  A channel read
    past the end of the buffer is [undefined]: [a < 128] is then false, and
    every range test of the two matchers is false. *)
Definition samplePixel (data : list Z) (width height : nat) (y : nat)
  (st : Scan) (x : nat) : Scan :=
  if negb (isInBowlMask x y width height) then st
  else
    let i := ((y * width + x) * 4)%nat in
    let r := byteAt data i in
    let g := byteAt data (i + 1) in
    let b := byteAt data (i + 2) in
    let a := byteAt data (i + 3) in
    if match a with Some a => (a <? 128)%Z | None => false end then st
    else
      let rgb :=
        match r, g, b with
        | Some r, Some g, Some b => Some (inject_Z r, inject_Z g, inject_Z b)
        | _, _, _ => None
        end in
      let contentType :=
        match rgb with
        | Some (r, g, b) => matchesContent r g b
        | None => None
        end in
      let profile :=
        match rgb with
        | Some (r, g, b) => matchesBlood r g b
        | None => None
        end in
      mkScan
        (match profile with
         | Some p => bloodPixels st ++ [mkPixel x y p]
         | None => bloodPixels st
         end)
        (match contentType with
         | Some key => countContent (contentCounts st) key
         | None => contentCounts st
         end)
        (S (bowlSamples st)).

(** The two sampling loops, [for (y = 0; y < height; y += 2)
    for (x = 0; x < width; x += 2)]. *)
Definition scan (data : list Z) (width height : nat) : Scan :=
  fold_left
    (fun st y => fold_left (samplePixel data width height y) (stride 2 width) st)
    (stride 2 height) (mkScan [] (mkCounts 0 0) 0).

Record ContentSummary : Type := mkSummary { urineRatio : Q; stoolRatio : Q }.

Record AnalysisResult : Type := mkResult {
  detections : list Finding;
  bloodPixelCount : nat;
  bloodRatio : Q;
  sampleType : string;
  contentSummary : ContentSummary
}.

(** [bowlSamples ? n / bowlSamples : 0]. *)
Definition ratio (n bowlSamples : nat) : Q :=
  match bowlSamples with
  | O => 0
  | _ => natQ n / natQ bowlSamples
  end.

(** The verdict [hasUrine && hasStool ? "both" : hasUrine ? "urine" :
    hasStool ? "stool" : "unknown"]. *)
Definition verdict (hasUrine hasStool : bool) : string :=
  if hasUrine && hasStool then "both"
  else if hasUrine then "urine"
  else if hasStool then "stool"
  else "unknown".

(** [analyzeImageData (imageData, width, height)]; [None] is a [TypeError]
    raised by [clusterDetections]. *)
Definition analyzeImageData (data : list Z) (width height : nat)
  : option AnalysisResult :=
  let sc := scan data width height in
  let n := List.length (bloodPixels sc) in
  let bloodRatio := ratio n (bowlSamples sc) in
  let contentSummary :=
    mkSummary (ratio (urine (contentCounts sc)) (bowlSamples sc))
              (ratio (stool (contentCounts sc)) (bowlSamples sc)) in
  let hasUrine := Qgeb (urineRatio contentSummary) MIN_URINE_RATIO in
  let hasStool := Qgeb (stoolRatio contentSummary) MIN_STOOL_RATIO in
  let sampleType := verdict hasUrine hasStool in
  if (n <? MIN_BLOOD_PIXELS)%nat || Qltb bloodRatio MIN_BLOOD_RATIO
  then Some (mkResult [] n bloodRatio sampleType contentSummary)
  else
    match clusterDetections (bloodPixels sc) width height with
    | None => None
    | Some boxes => Some (mkResult boxes n bloodRatio sampleType contentSummary)
    end.

End Bowl.

(** ** Vocabulary for the white-balance estimator *)

(** [m] is the median of [arr]: the middle value of [arr] sorted, or the
    mean of the two middle values when their number is even. *)
Definition isMedian (arr : list Z) (m : Q) : Prop :=
  exists s,
    Permutation s arr /\ Sorted Z.le s /\
    m = if Nat.odd (List.length s)
        then inject_Z (nth (List.length s / 2) s 0%Z)
        else (inject_Z (nth (List.length s / 2 - 1) s 0%Z)
              + inject_Z (nth (List.length s / 2) s 0%Z)) / 2.

(** [out] is [v] clamped to [[lo, hi]]. *)
Definition clamped (lo hi v out : Q) : Prop :=
  (v < lo -> out == lo) /\ (lo <= v <= hi -> out == v) /\
  (hi < v -> out == hi).

(** ** Vocabulary for the cluster engine *)

(** Column and row of a cell index, [ci % gridW] and
    [Math.floor (ci / gridW)]. *)
Definition col (gridW i : nat) : nat := (i mod gridW)%nat.
Definition row (gridW i : nat) : nat := (i / gridW)%nat.

(** Two cells are 4-adjacent: same row and neighbouring columns, or same
    column and neighbouring rows. *)
Definition adjacent (gridW a b : nat) : bool :=
  ((row gridW a =? row gridW b)%nat
   && ((col gridW a + 1 =? col gridW b)%nat
       || (col gridW b + 1 =? col gridW a)%nat))
  || ((col gridW a =? col gridW b)%nat
      && ((row gridW a + 1 =? row gridW b)%nat
          || (row gridW b + 1 =? row gridW a)%nat)).

(** A cell that counts for clustering: inside the grid and active. *)
Definition live (grid : list Cell) (i : nat) : bool :=
  (i <? List.length grid)%nat && active grid i.

(** [linked gridW grid a b]: a chain of 4-adjacent live cells leads from
    [a] to [b]. *)
Inductive linked (gridW : nat) (grid : list Cell) : nat -> nat -> Prop :=
| linked_here (a : nat) : live grid a = true -> linked gridW grid a a
| linked_next (a b c : nat) :
    linked gridW grid a b -> adjacent gridW b c = true ->
    live grid c = true -> linked gridW grid a c.

(** A connected component of the live cells, listed without repetition:
    every listed cell is live and linked to a listed cell [s], and every
    live cell adjacent to a listed cell is listed. *)
Definition component (gridW : nat) (grid : list Cell) (cells : list nat)
  : Prop :=
  NoDup cells /\
  (exists s, In s cells /\ forall c, In c cells -> linked gridW grid s c) /\
  (forall c d, In c cells -> live grid d = true ->
               adjacent gridW c d = true -> In d cells).

(** The total of [grid[ci].count] over the cells of a list. *)
Definition sumCounts (grid : list Cell) (cells : list nat) : nat :=
  fold_left (fun t ci => (t + count (nth ci grid emptyCell))%nat) cells 0%nat.

(** The tallies of the cells of a list, merged in the order of the list. *)
Definition mergeTallies (grid : list Cell) (cells : list nat) : Tally :=
  fold_left (fun pT ci => addAll (profiles (nth ci grid emptyCell)) pT)
    cells [].

(** The least and the greatest of [f] over the cells of a list, from an
    initial bound. *)
Definition minOver (f : nat -> nat) (cells : list nat) (init : nat) : nat :=
  fold_left (fun m ci => Nat.min m (f ci)) cells init.
Definition maxOver (f : nat -> nat) (cells : list nat) (init : nat) : nat :=
  fold_left (fun m ci => Nat.max m (f ci)) cells init.

(** The sum of the tallies of a tally object. *)
Definition sumTally (o : Tally) : nat := list_sum (map snd o).

(** The tally of the label [k] in a tally object, [o[k] || 0]. *)
Fixpoint tallyOf (k : string) (o : Tally) : nat :=
  match o with
  | [] => 0%nat
  | (k', v) :: o' => if String.eqb k' k then v else tallyOf k o'
  end.

(** The Finding that [clusterDetections] emits for the cells that one flood
    fill from [seed] visited, if any: none below 8 pixels. *)
Definition findingOf (table : list Profile) (grid : list Cell) (gridW : nat)
  (seed : nat) (cells : list nat) : list Finding :=
  if (sumCounts grid cells <? 8)%nat then []
  else
    match dominant (mergeTallies grid cells) with
    | None => []
    | Some dom =>
        match findProfile table (fst dom) with
        | None => []
        | Some prof =>
            let x0 := minOver (col gridW) cells (col gridW seed) in
            let x1 := maxOver (col gridW) cells (col gridW seed) in
            let y0 := minOver (row gridW) cells (row gridW seed) in
            let y1 := maxOver (row gridW) cells (row gridW seed) in
            [mkFinding (x0 * GRID) (y0 * GRID)
               ((x1 - x0 + 1) * GRID) ((y1 - y0 + 1) * GRID)
               (label prof) (color prof) (severity prof) (hatchStyle prof)
               (sumCounts grid cells)]
        end
    end.

(** The matched pixels that fall in the cells of a list, and among them
    those of one label. *)
Definition pixelsIn (gridW : nat) (cells : list nat)
  (pixels : list MatchedPixel) : list MatchedPixel :=
  filter (fun p => has (cellIndex gridW p) cells) pixels.

Definition pixelsOf (k : string) (pixels : list MatchedPixel)
  : list MatchedPixel :=
  filter (fun p => String.eqb (label (profile p)) k) pixels.

(** The invariant of the [while] loop of one flood fill that started at
    [seed] with the cells [V0] already visited: [done] lists the cells
    dequeued so far. *)
Definition fillInv (gridW : nat) (grid : list Cell) (V0 : list nat)
  (seed : nat) (done : list nat) (st : Fill) : Prop :=
  visited st = V0 ++ done ++ queue st /\
  NoDup (visited st) /\
  In seed (done ++ queue st) /\
  (forall c, In c (done ++ queue st) ->
             live grid c = true /\ linked gridW grid seed c) /\
  (forall c d, In c done -> live grid d = true ->
               adjacent gridW c d = true -> In d (visited st)) /\
  totalPixels st = sumCounts grid done /\
  profileTotals st = mergeTallies grid done /\
  minX st = minOver (col gridW) done (col gridW seed) /\
  maxX st = maxOver (col gridW) done (col gridW seed) /\
  minY st = minOver (row gridW) done (row gridW seed) /\
  maxY st = maxOver (row gridW) done (row gridW seed).

(** The pixels of a list that fall in the cell [i]. *)
Definition pixelsAt (gridW i : nat) (pixels : list MatchedPixel)
  : list MatchedPixel :=
  filter (fun p => (cellIndex gridW p =? i)%nat) pixels.

(** What the grid holds once [pixels.forEach] has tallied [pixels]. *)
Definition gridInv (gridW gridH : nat) (pixels : list MatchedPixel)
  (grid : list Cell) : Prop :=
  List.length grid = (gridW * gridH)%nat /\
  (forall p, In p pixels -> (cellIndex gridW p < gridW * gridH)%nat) /\
  forall i,
    count (nth i grid emptyCell) = List.length (pixelsAt gridW i pixels) /\
    sumTally (profiles (nth i grid emptyCell)) = count (nth i grid emptyCell) /\
    NoDup (map fst (profiles (nth i grid emptyCell))) /\
    (forall k, tallyOf k (profiles (nth i grid emptyCell))
               = List.length (pixelsOf k (pixelsAt gridW i pixels))) /\
    (forall k, In k (map fst (profiles (nth i grid emptyCell))) ->
               exists p, In p pixels /\ label (profile p) = k).

(** The findings of a list of flood fills, each given by its seed and the
    cells it visited. *)
Definition findingsOf (table : list Profile) (grid : list Cell) (gridW : nat)
  (fills : list (nat * list nat)) : list Finding :=
  flat_map (fun f => findingOf table grid gridW (fst f) (snd f)) fills.

(** The invariant of the loops over the grid once the cells below [k] were
    tried: [fills] lists the flood fills run so far. *)
Definition clusterInv (table : list Profile) (grid : list Cell) (gridW : nat)
  (k : nat) (fills : list (nat * list nat))
  (acc : option (list nat * list Finding)) : Prop :=
  acc = Some (List.concat (map snd fills), findingsOf table grid gridW fills) /\
  NoDup (List.concat (map snd fills)) /\
  (forall f, In f fills ->
             component gridW grid (snd f) /\ In (fst f) (snd f)) /\
  (forall i, (i < k)%nat -> live grid i = true ->
             In i (List.concat (map snd fills))).

(** A group of cells listed so that every cell after the first is
    4-adjacent to a cell listed before it: the group is 4-connected. *)
Fixpoint chainedFrom (gridW : nat) (seen rest : list nat) : bool :=
  match rest with
  | [] => true
  | c :: rest' =>
      existsb (fun s => adjacent gridW s c) seen
      && chainedFrom gridW (seen ++ [c]) rest'
  end.

Definition chained (gridW : nat) (cells : list nat) : bool :=
  match cells with
  | [] => false
  | c :: rest => chainedFrom gridW [c] rest
  end.

(** No cell of one group is a cell of the other or 4-adjacent to one: at
    least one cell that belongs to neither group lies between them. *)
Definition apart (gridW : nat) (A B : list nat) : bool :=
  forallb (fun a =>
    forallb (fun b => negb (a =? b)%nat && negb (adjacent gridW a b)) B) A.

(** The box of the Finding [f] is the bounding box of the cells of a list,
    scaled to pixels. *)
Definition boundingBox (gridW : nat) (cells : list nat) (f : Finding) : Prop :=
  (forall c, In c cells ->
     (fx f <= col gridW c * GRID /\
      col gridW c * GRID + GRID <= fx f + fw f /\
      fy f <= row gridW c * GRID /\
      row gridW c * GRID + GRID <= fy f + fh f)%nat) /\
  (exists c, In c cells /\ fx f = (col gridW c * GRID)%nat) /\
  (exists c, In c cells /\ (fx f + fw f = col gridW c * GRID + GRID)%nat) /\
  (exists c, In c cells /\ fy f = (row gridW c * GRID)%nat) /\
  (exists c, In c cells /\ (fy f + fh f = row gridW c * GRID + GRID)%nat).

(** ** Vocabulary for the analysis entry point *)

Module BowlSpec.

Import Bowl.

(** The sampled positions [(x, y)], in the order of the two loops. *)
Definition positions (width height : nat) : list (nat * nat) :=
  flat_map (fun y => map (fun x => (x, y)) (stride 2 width)) (stride 2 height).

(** The pixel at [(x, y)] is not skipped for its alpha: [!(a < 128)]. *)
Definition opaque (data : list Z) (width : nat) (xy : nat * nat) : bool :=
  match byteAt data ((snd xy * width + fst xy) * 4 + 3) with
  | Some a => negb (a <? 128)%Z
  | None => true
  end.

(** The in-region sampled pixels: inside the bowl mask and not skipped. *)
Definition inRegion (data : list Z) (width height : nat) (xy : nat * nat)
  : bool :=
  isInBowlMask (fst xy) (snd xy) width height && opaque data width xy.

Definition sampled (data : list Z) (width height : nat) : list (nat * nat) :=
  filter (inRegion data width height) (positions width height).

(** The colour of the pixel at [(x, y)], when its three channels are inside
    the buffer. *)
Definition colourAt (data : list Z) (width : nat) (xy : nat * nat)
  : option (Q * Q * Q) :=
  let i := ((snd xy * width + fst xy) * 4)%nat in
  match byteAt data i, byteAt data (i + 1), byteAt data (i + 2) with
  | Some r, Some g, Some b => Some (inject_Z r, inject_Z g, inject_Z b)
  | _, _, _ => None
  end.

Definition bloodAt (data : list Z) (width : nat) (xy : nat * nat)
  : option Profile :=
  match colourAt data width xy with
  | Some (r, g, b) => matchesBlood r g b
  | None => None
  end.

Definition contentAt (data : list Z) (width : nat) (xy : nat * nat)
  : option ContentKey :=
  match colourAt data width xy with
  | Some (r, g, b) => matchesContent r g b
  | None => None
  end.

(** The matched blood pixels among a list of positions. *)
Definition matched (data : list Z) (width : nat) (l : list (nat * nat))
  : list MatchedPixel :=
  flat_map (fun xy => match bloodAt data width xy with
                      | Some p => [mkPixel (fst xy) (snd xy) p]
                      | None => []
                      end) l.

Definition isUrine (data : list Z) (width : nat) (xy : nat * nat) : bool :=
  match contentAt data width xy with Some Urine => true | _ => false end.

Definition isStool (data : list Z) (width : nat) (xy : nat * nat) : bool :=
  match contentAt data width xy with Some Stool => true | _ => false end.

(** [a === b] on two values read from a buffer. *)
Definition sameBytes (a b : option Z) : bool :=
  match a, b with
  | Some x, Some y => (x =? y)%Z
  | None, None => true
  | _, _ => false
  end.

End BowlSpec.

(** ** Example data *)

(** A profile whose hue range wraps from 340 to 20. *)
Definition wrapProfile : Profile :=
  mkProfile "Wrap" 340 20 40 100 15 40 "#000000" None None.

(** A buffer of [n] pixels of one colour. *)
Definition uniformImage (n : nat) (r g b a : Z) : list Z :=
  List.concat (repeat [r; g; b; a] n).

(** The declared blood profiles of the flash version, by name. *)
Definition brightRed : Profile := nth 0 Flash.BLOOD_PROFILES wrapProfile.
Definition maroon : Profile := nth 2 Flash.BLOOD_PROFILES wrapProfile.

(** Matched pixels of one profile at the sampled positions of the rectangle
    from [(x0, y0)], [nx] samples wide and [ny] samples high. *)
Definition patch (x0 y0 nx ny : nat) (p : Profile) : list MatchedPixel :=
  flat_map (fun j => map (fun i => mkPixel (x0 + 2 * i) (y0 + 2 * j) p)
                       (seq 0 nx)) (seq 0 ny).

(** Two groups on a grid of 5 by 1 cells: cells 0 and 1, and cell 4; the
    cells 2 and 3 between them are empty. *)
Definition twoGroupPixels : list MatchedPixel :=
  patch 0 0 4 1 brightRed ++ patch 12 0 4 1 brightRed
  ++ patch 48 0 4 2 maroon.

(** One cell with four Maroon pixels tallied before four Bright Red ones. *)
Definition tiePixels : list MatchedPixel :=
  patch 0 0 4 1 maroon ++ patch 0 2 4 1 brightRed.

(** The image of [width] by [height] pixels whose pixel at [(x, y)] is
    [f x y]. *)
Definition imageOf (width height : nat) (f : nat -> nat -> list Z) : list Z :=
  flat_map (fun y => flat_map (fun x => f x y) (seq 0 width)) (seq 0 height).

(** White porcelain with a bright red patch of 8 by 4 pixels at (12, 12),
    inside the mask. *)
Definition redPatchImage : list Z :=
  imageOf 24 24 (fun x y =>
    if ((12 <=? x) && (x <? 20) && (12 <=? y) && (y <? 16))%nat
    then [200; 30; 30; 255]%Z else [240; 240; 240; 255]%Z).


(** A fully transparent image: no pixel is sampled. *)
Definition transparentImage : list Z := uniformImage 64 200 30 30 0.

(** A fully uniform mid-gray image. *)
Definition grayImage : list Z := uniformImage 576 128 128 128 255.

(** White porcelain whose pixel at (12, 12) is red and transparent. *)
Definition transparentSpotImage : list Z :=
  imageOf 24 24 (fun x y =>
    if ((x =? 12) && (y =? 12))%nat
    then [200; 30; 30; 0]%Z else [240; 240; 240; 255]%Z).

(** The same image with the transparent pixel green, and with a red pixel
    at (13, 13), a position that the sampling loops step over. *)
Definition unsampledSpotImage : list Z :=
  imageOf 24 24 (fun x y =>
    if ((x =? 12) && (y =? 12))%nat then [0; 255; 0; 0]%Z
    else if ((x =? 13) && (y =? 13))%nat then [200; 30; 30; 255]%Z
    else [240; 240; 240; 255]%Z).

(** ** Vocabulary for the shade grid *)

(** The invariant of the sampling loops of [buildShadeGrid], on the arrays
    [sums] and [counts]: 64 sums and 64 counts, the sum of a cell being at
    most 255 times its count. *)
Definition shadeInv (acc : list Q * list nat) : Prop :=
  List.length (fst acc) = 64%nat /\ List.length (snd acc) = 64%nat /\
  forall i, 0 <= nth i (fst acc) 0 <= 255 * natQ (nth i (snd acc) 0%nat).

(** ** The lighting check *)

Definition LIGHT_DIM_MAX : Q := 38.
Definition LIGHT_BRIGHT_MIN : Q := 220.

(** [Math.round (x)]: the integer nearest to [x], a half rounded up. *)
Definition jsRound (x : Q) : Z := Qfloor (x + (1 # 2)).

(** [{status, value}]; the value [None] is [NaN]. *)
Record Light : Type := mkLight {
  status : string;
  value : option Q
}.

(** [measureBrightness (videoEl, scratchCanvas)], from the bytes [d] that it
    reads off the scratch canvas, on a buffer that holds whole pixels.
    Without a sample the average is [0 / 0], which is below and above
    nothing. *)
Definition measureBrightness (d : list Z) : Light :=
  let acc :=
    fold_left
      (fun (acc : Q * nat) i =>
         (fst acc + luminance (channel d i) (channel d (i + 1))
                      (channel d (i + 2)),
          S (snd acc)))
      (stride 16 (List.length d)) (0, 0%nat) in
  let sum := fst acc in
  let count := snd acc in
  match count with
  | O => mkLight "ok" None
  | S _ =>
      let avg := sum / natQ count in
      if Qltb avg LIGHT_DIM_MAX then mkLight "dim" (Some avg)
      else if Qgtb avg LIGHT_BRIGHT_MIN then mkLight "bright" (Some avg)
      else mkLight "ok" (Some avg)
  end.

(** [!lightingStatus || lightingStatus.status === "ok"]. *)
Definition canCapture (lightingStatus : option Light) : bool :=
  match lightingStatus with
  | None => true
  | Some l => String.eqb (status l) "ok"
  end.

(** [lightingStatus ? Math.round ((lightingStatus.value / 255) * 100) : 50];
    [None] is [NaN]. *)
Definition barPct (lightingStatus : option Light) : option Z :=
  match lightingStatus with
  | None => Some 50%Z
  | Some l =>
      match value l with
      | Some v => Some (jsRound (v / 255 * 100))
      | None => None
      end
  end.

(** ** The component of the flash version *)

Module App.

Record Rect : Type := mkRect { rx : Z; ry : Z; rw : Z; rh : Z }.

(** The rectangle that the overlay draws around a Finding, and the top of
    its number label: [pad = 8], [fs = Math.max (13, img.width * 0.021)],
    [bh = fs + 8], [by = ry - bh - 3 < 0 ? ry + rh + 3 : ry - bh - 3]. *)
Definition overlayRect (box : Finding) (imgW imgH : nat) : Rect :=
  let pad := 8%Z in
  let rx := Z.max 0 (Z.of_nat (fx box) - pad) in
  let ry := Z.max 0 (Z.of_nat (fy box) - pad) in
  mkRect rx ry
    (Z.min (Z.of_nat imgW - rx) (Z.of_nat (fw box) + pad * 2))
    (Z.min (Z.of_nat imgH - ry) (Z.of_nat (fh box) + pad * 2)).

Definition labelTop (box : Finding) (imgW imgH : nat) : Q :=
  let r := overlayRect box imgW imgH in
  let fs := Qmax 13 (natQ imgW * 0.021) in
  let bh := fs + 8 in
  if Qltb (inject_Z (ry r) - bh - 3) 0
  then inject_Z (ry r) + inject_Z (rh r) + 3
  else inject_Z (ry r) - bh - 3.

(** The crop of a Finding, [(sx, sy, sw, sh)] in the image, and the place
    [(lx, ly)] in the crop where its hatch and outline are drawn, of the
    size of the box: [pad = 24]. *)
Record CropView : Type := mkCropView {
  sx : Z; sy : Z; sw : Z; sh : Z;
  lx : Z; ly : Z
}.

Definition cropView (box : Finding) (imgW imgH : nat) : CropView :=
  let pad := 24%Z in
  let x := Z.of_nat (fx box) in
  let y := Z.of_nat (fy box) in
  let sx := Z.max 0 (x - pad) in
  let sy := Z.max 0 (y - pad) in
  mkCropView sx sy
    (Z.min (Z.of_nat imgW - sx) (Z.of_nat (fw box) + pad * 2))
    (Z.min (Z.of_nat imgH - sy) (Z.of_nat (fh box) + pad * 2))
    (if (x <? pad)%Z then pad - x else 0)%Z
    (if (y <? pad)%Z then pad - y else 0)%Z.

End App.

(** ** The component of the bowl version *)

Module HealthScanApp.

Definition FINDING_CROP_PAD_RATIO : Q := 0.32.
Definition FINDING_CROP_MIN_PAD : Z := 14.

Record Crop : Type := mkCrop { cropX : Z; cropY : Z; cropW : Z; cropH : Z }.

(** [pad = Math.max (FINDING_CROP_MIN_PAD,
    Math.round (Math.max (box.w, box.h) * FINDING_CROP_PAD_RATIO))].  The
    product of an integer and 0.32 is never half-way between two integers,
    so that the rounding of the product to binary64 does not change the
    integer that [Math.round] returns. *)
Definition cropPad (box : Finding) : Z :=
  Z.max FINDING_CROP_MIN_PAD
    (jsRound (inject_Z (Z.max (Z.of_nat (fw box)) (Z.of_nat (fh box)))
              * FINDING_CROP_PAD_RATIO)).

(** The crop preview of a Finding: [cropX, cropY, cropW, cropH]. *)
Definition findingCrop (box : Finding) (imgW imgH : nat) : Crop :=
  let pad := cropPad box in
  let cropX := Z.max 0 (Z.of_nat (fx box) - pad) in
  let cropY := Z.max 0 (Z.of_nat (fy box) - pad) in
  mkCrop cropX cropY
    (Z.min (Z.of_nat imgW - cropX) (Z.of_nat (fw box) + pad * 2))
    (Z.min (Z.of_nat imgH - cropY) (Z.of_nat (fh box) + pad * 2)).

(** Where the crop is drawn in the thumbnail of 96 by 96 pixels:
    [dx, dy, dw, dh], on a crop of positive width and height. *)
Record Placement : Type := mkPlacement { dx : Q; dy : Q; dw : Q; dh : Q }.

Definition thumbPlacement (c : Crop) : Placement :=
  let thumbSize := 96 in
  let scale := Qmin (thumbSize / inject_Z (cropW c))
                    (thumbSize / inject_Z (cropH c)) in
  let dw := inject_Z (cropW c) * scale in
  let dh := inject_Z (cropH c) * scale in
  mkPlacement ((thumbSize - dw) / 2) ((thumbSize - dh) / 2) dw dh.

(** [d.severity === s]. *)
Definition severityIs (s : string) (d : Finding) : bool :=
  match fseverity d with
  | Some s' => String.eqb s' s
  | None => false
  end.

(** [highestSeverity]; [None] is [null]. *)
Definition highestSeverity (detections : list Finding) : option string :=
  match detections with
  | [] => None
  | _ =>
      Some (if existsb (severityIs "urgent") detections then "urgent"
            else if existsb (severityIs "warning") detections then "warning"
            else "caution")
  end.

End HealthScanApp.

(** ** The QR-like pattern of the flash version *)

(** [m[y][x]] and [m[y][x] = v] on a matrix kept as the list of its rows,
    at a position inside the matrix. *)
Definition getCell (m : list (list nat)) (y x : nat) : nat :=
  nth x (nth y m []) 0%nat.

Definition setCell (m : list (list nat)) (y x v : nat) : list (list nat) :=
  setNth y (setNth x v (nth y m [])) m.

(** [y === 0 || y === 6 || x === 0 || x === 6 ||
    (y >= 2 && y <= 4 && x >= 2 && x <= 4)]. *)
Definition finderDark (y x : nat) : bool :=
  ((y =? 0) || (y =? 6) || (x =? 0) || (x =? 6)
   || ((2 <=? y) && (y <=? 4) && (2 <=? x) && (x <=? 4)))%nat.

(** The body of [[[0, 0], [0, n - 7], [n - 7, 0]].forEach]: the finder
    pattern whose corner is at row [r] and column [c]. *)
Definition drawFinder (m : list (list nat)) (rc : nat * nat)
  : list (list nat) :=
  fold_left
    (fun m y =>
       fold_left
         (fun m x =>
            if finderDark y x then setCell m (fst rc + y) (snd rc + x) 1%nat
            else m)
         (seq 0 7) m)
    (seq 0 7) m.

(** [for (let i = 8; i < n - 8; i++)
    { m[6][i] = i % 2 === 0 ? 1 : 0; m[i][6] = i % 2 === 0 ? 1 : 0; }]. *)
Definition drawTiming (n : nat) (m : list (list nat)) : list (list nat) :=
  fold_left
    (fun m i =>
       let v := if (i mod 2 =? 0)%nat then 1%nat else 0%nat in
       setCell (setCell m 6 i v) i 6 v)
    (seq 8 (n - 8 - 8)) m.

(** [(text.charCodeAt (ci % text.length) >> (x % 8)) & 1], on the UTF-16
    code units of [text]; without text the character code is [NaN] and
    the bit 0. *)
Definition textBit (text : list nat) (ci x : nat) : nat :=
  match text with
  | [] => 0%nat
  | _ =>
      Nat.b2n (Nat.testbit (nth (ci mod List.length text) text 0%nat)
                 (x mod 8))
  end.

(** The body of the two filling loops at the module [(y, x)]:
    [if (!m[y][x]) { m[y][x] = ...; ci++; }]. *)
Definition fillCell (text : list nat) (acc : list (list nat) * nat)
  (yx : nat * nat) : list (list nat) * nat :=
  if (getCell (fst acc) (fst yx) (snd yx) =? 0)%nat
  then (setCell (fst acc) (fst yx) (snd yx)
          (textBit text (snd acc) (snd yx)),
        S (snd acc))
  else acc.

(** The modules in the order of [for (y ...) for (x ...)]. *)
Definition moduleOrder (n : nat) : list (nat * nat) :=
  flat_map (fun y => map (fun x => (y, x)) (seq 0 n)) (seq 0 n).

(** The matrix before it is filled: zeros, the three finder patterns and
    the two timing lines. *)
Definition qrBase (n : nat) : list (list nat) :=
  drawTiming n
    (fold_left drawFinder [(0, 0); (0, n - 7); (n - 7, 0)]%nat
       (repeat (repeat 0%nat n) n)).

(** [makeQRPattern (text, size)]: [{matrix, cell}]. *)
Definition makeQRPattern (text : list nat) (size : Q)
  : list (list nat) * Q :=
  let n := 21%nat in
  let cell := size / natQ n in
  (fst (fold_left (fillCell text) (moduleOrder n) (qrBase n, 0%nat)), cell).

(** ** Vocabulary for the QR-like pattern *)

(** A square matrix of side [n]. *)
Definition shaped (n : nat) (m : list (list nat)) : Prop :=
  List.length m = n /\ forall y, (y < n)%nat -> List.length (nth y m []) = n.

(** The modules that the filling loops find light, in their order. *)
Definition lightModules (m : list (list nat)) (ps : list (nat * nat))
  : list (nat * nat) :=
  filter (fun p => (getCell m (fst p) (snd p) =? 0)%nat) ps.

(** The flood fills of the loops over the grid once the cells below [k]
    were tried, with their seeds: every seed is below [k] and is the least
    cell of its fill, and the seeds increase. *)
Definition seedsInv (k : nat) (fills : list (nat * list nat)) : Prop :=
  (forall f, In f fills ->
     (fst f < k)%nat /\ forall c, In c (snd f) -> (fst f <= c)%nat) /\
  StronglySorted lt (map fst fills).

(** Four Bright Red pixels in the cell 1, listed before four Maroon pixels
    in the cell 0, on a grid of 2 by 1 cells. *)
Definition splitTiePixels : list MatchedPixel :=
  patch 12 0 4 1 brightRed ++ patch 0 0 4 1 maroon.

(** ** The HSL conversion and the bowl mask in binary64 *)

(** The two functions whose results the rounding of the source can change,
    over the primitive binary64 numbers, operation by operation as the
    source has them.  [Math.max] and [Math.min] are taken on numbers that
    are not [NaN]. *)
Module Binary64.

Import PrimFloat.
Local Open Scope float_scope.
#[local] Set Warnings "-inexact-float".

Definition max3 (a b c : float) : float :=
  let m := if a <? b then b else a in if m <? c then c else m.
Definition min3 (a b c : float) : float :=
  let m := if b <? a then b else a in if c <? m then c else m.

Record Hsl : Type := mkHsl { hue : float; sat : float; lig : float }.

Definition rgbToHsl (r g b : float) : Hsl :=
  let r := r / 255 in
  let g := g / 255 in
  let b := b / 255 in
  let mx := max3 r g b in
  let mn := min3 r g b in
  let l := (mx + mn) / 2 in
  if mx =? mn then mkHsl (0 * 360) (0 * 100) (l * 100)
  else
    let d := mx - mn in
    let s := if 0.5 <? l then d / (2 - mx - mn) else d / (mx + mn) in
    let h :=
      if mx =? r then ((g - b) / d + (if g <? b then 6 else 0)) / 6
      else if mx =? g then ((b - r) / d + 2) / 6
      else ((r - g) / d + 4) / 6 in
    mkHsl (h * 360) (s * 100) (l * 100).

Definition isInBowlMask (x y width height : float) : bool :=
  let cx := width * 0.5 in
  let cy := height * 0.56 in
  let rx := width * 0.38 in
  let ry := height * 0.44 in
  let dx := (x - cx) / rx in
  let dy := (y - cy) / ry in
  dx * dx + dy * dy <=? 1.

End Binary64.

(** ** The HSL conversion with its rounding *)

(** What the rounding of binary64 arithmetic to the nearest representable
    number has in common with every rounding that the bounds of [rgbToHsl]
    need: it keeps the order, it leaves a rounded number and the integers of
    the source as they are, it commutes with the change of sign, and the
    difference of two distinct representable numbers does not round to 0
    (binary64 has subnormal numbers). *)
Record Rounding (rnd : Q -> Q) : Prop := mkRounding {
  rnd_mono : forall x y, x <= y -> rnd x <= rnd y;
  rnd_idem : forall x, rnd (rnd x) == rnd x;
  rnd_opp : forall x, rnd (- x) == - rnd x;
  rnd_int : forall n : Z, (Z.abs n <= 360)%Z -> rnd (inject_Z n) == inject_Z n;
  rnd_sub : forall x y, rnd x == x -> rnd y == y -> rnd (x - y) == 0 -> x == y
}.

(** [rgbToHsl (r, g, b)] with the result of every arithmetic operation
    rounded by [rnd], on channels that are numbers.  [Math.max], [Math.min]
    and the comparisons are exact. *)
Definition rgbToHslRounded (rnd : Q -> Q) (r g b : Q) : Hsl :=
  let r := rnd (r / 255) in
  let g := rnd (g / 255) in
  let b := rnd (b / 255) in
  let mx := max3 r g b in
  let mn := min3 r g b in
  let l := rnd (rnd (mx + mn) / 2) in
  if Qeq_bool mx mn
  then mkHsl (rnd (0 * 360)) (rnd (0 * 100)) (rnd (l * 100))
  else
    let d := rnd (mx - mn) in
    let s := if Qgtb l 0.5 then rnd (d / rnd (rnd (2 - mx) - mn))
             else rnd (d / rnd (mx + mn)) in
    let h :=
      if Qeq_bool mx r
      then rnd (rnd (rnd (rnd (g - b) / d) + (if Qltb g b then 6 else 0)) / 6)
      else if Qeq_bool mx g then rnd (rnd (rnd (rnd (b - r) / d) + 2) / 6)
      else rnd (rnd (rnd (rnd (r - g) / d) + 4) / 6) in
    mkHsl (rnd (h * 360)) (rnd (s * 100)) (rnd (l * 100)).

(** ** Vocabulary for the order of a flood fill and of its tallies *)

(** The side on which the neighbour [d] of the cell [c] lies, numbered in
    the order in which the flood fill tries the four neighbours: 0 for
    [[cx-1,cy]], 1 for [[cx+1,cy]], 2 for [[cx,cy-1]], 3 for [[cx,cy+1]]. *)
Definition side (gridW c d : nat) : nat :=
  if (col gridW d + 1 =? col gridW c)%nat then 0%nat
  else if (col gridW c + 1 =? col gridW d)%nat then 1%nat
  else if (row gridW d + 1 =? row gridW c)%nat then 2%nat
  else 3%nat.

(** The first cell of a list that is 4-adjacent to [c], with its position,
    counted from [i]. *)
Fixpoint firstAdjacent (gridW : nat) (cells : list nat) (c i : nat)
  : option (nat * nat) :=
  match cells with
  | [] => None
  | p :: rest =>
      if adjacent gridW p c then Some (i, p)
      else firstAdjacent gridW rest c (S i)
  end.

(** From where the cell [c] is found when the cells are found in the order
    of a list: from the first listed cell that it is 4-adjacent to, at the
    position [i], on the side [s] of that cell; as the number
    [4 * i + s]. *)
Definition foundFrom (gridW : nat) (cells : list nat) (c : nat) : option nat :=
  option_map (fun ip => (4 * fst ip + side gridW (snd ip) c)%nat)
    (firstAdjacent gridW cells c 0).

(** The cells are listed in the order in which a flood fill from [seed]
    finds them: [seed] first; every other cell is 4-adjacent to a cell
    listed before it; a cell found from an earlier cell of the list comes
    before a cell found from a later one, and of two cells found from the
    same cell the one on the side tried first comes first. *)
Definition fillOrder (gridW seed : nat) (cells : list nat) : Prop :=
  exists rest keys,
    cells = seed :: rest /\
    map (foundFrom gridW cells) rest = map Some keys /\
    StronglySorted lt keys /\
    forall j, (j < List.length keys)%nat -> (nth j keys 0 < 4 * S j)%nat.

(** One step of [firstSeen]: the label [k] joins the labels seen so far
    unless it is among them. *)
Definition see (seen : list string) (k : string) : list string :=
  if existsb (String.eqb k) seen then seen else seen ++ [k].

(** The labels of a list, each once, in the order of their first
    occurrence. *)
Definition firstSeen (l : list string) : list string := fold_left see l [].

(** The invariant of the [while] loop of one flood fill on the order of the
    cells found so far, [done] then the queue: every cell but [seed] was
    found from a cell of [done]. *)
Definition fillOrderInv (gridW seed : nat) (done : list nat) (st : Fill)
  : Prop :=
  exists rest keys,
    done ++ queue st = seed :: rest /\
    map (foundFrom gridW (done ++ queue st)) rest = map Some keys /\
    StronglySorted lt keys /\
    (forall k, In k keys -> (k < 4 * List.length done)%nat) /\
    forall j, (j < List.length keys)%nat -> (nth j keys 0 < 4 * S j)%nat.

(** * Properties *)

(** ** Comparisons and arithmetic on rationals *)

Lemma Qleb_le a b : Qleb a b = true <-> a <= b.
Proof. apply Qle_bool_iff. Qed.

Lemma Qgeb_le a b : Qgeb a b = true <-> b <= a.
Proof. apply Qle_bool_iff. Qed.

Lemma Qltb_lt a b : Qltb a b = true <-> a < b.
Proof.
  unfold Qltb. rewrite negb_true_iff, <- not_true_iff_false, Qle_bool_iff.
  split; [apply Qnot_le_lt | apply Qlt_not_le].
Qed.

Lemma Qgtb_lt a b : Qgtb a b = true <-> b < a.
Proof.
  unfold Qgtb. rewrite negb_true_iff, <- not_true_iff_false, Qle_bool_iff.
  split; [apply Qnot_le_lt | apply Qlt_not_le].
Qed.

Lemma Qltb_ge a b : Qltb a b = false <-> b <= a.
Proof. unfold Qltb. rewrite negb_false_iff. apply Qle_bool_iff. Qed.

Lemma Qgtb_le a b : Qgtb a b = false <-> a <= b.
Proof. unfold Qgtb. rewrite negb_false_iff. apply Qle_bool_iff. Qed.

Lemma Qeq_bool_false a b : Qeq_bool a b = false <-> ~ a == b.
Proof. rewrite <- not_true_iff_false, Qeq_bool_iff. tauto. Qed.

Lemma max3_spec a b c :
  a <= max3 a b c /\ b <= max3 a b c /\ c <= max3 a b c /\
  (max3 a b c == a \/ max3 a b c == b \/ max3 a b c == c).
Proof.
  unfold max3.
  destruct (Q.max_spec a b) as [[H1 H2] | [H1 H2]];
  destruct (Q.max_spec (Qmax a b) c) as [[H3 H4] | [H3 H4]];
  rewrite ?H4; rewrite H2 in *; repeat split; try lra; auto.
Qed.

Lemma min3_spec a b c :
  min3 a b c <= a /\ min3 a b c <= b /\ min3 a b c <= c /\
  (min3 a b c == a \/ min3 a b c == b \/ min3 a b c == c).
Proof.
  unfold min3.
  destruct (Q.min_spec a b) as [[H1 H2] | [H1 H2]];
  destruct (Q.min_spec (Qmin a b) c) as [[H3 H4] | [H3 H4]];
  rewrite ?H4; rewrite H2 in *; repeat split; try lra; auto.
Qed.

Lemma Qdiv_between a d lo hi :
  0 < d -> lo * d <= a -> a <= hi * d -> lo <= a / d <= hi.
Proof.
  intros Hd H1 H2. split.
  - apply Qle_shift_div_l; assumption.
  - apply Qle_shift_div_r; assumption.
Qed.

Lemma Qdiv_below a d hi : 0 < d -> a < hi * d -> a / d < hi.
Proof. intros. apply Qlt_shift_div_r; assumption. Qed.

Lemma unit_channel v : 0 <= v <= 255 -> 0 <= v / 255 <= 1.
Proof. intros. apply Qdiv_between; lra. Qed.

(** Divisions by the constants of the source, as multiplications. *)
Ltac qconst :=
  unfold Qdiv in *;
  change (/ 2) with (1 # 2) in *; change (/ 6) with (1 # 6) in *;
  change (/ 255) with (1 # 255) in *.

(** ** The colour classifier *)

Section UnitChannels.

(** The three channels after the division by 255. *)
Variables r g b : Q.
Hypothesis Hr : 0 <= r <= 1.
Hypothesis Hg : 0 <= g <= 1.
Hypothesis Hb : 0 <= b <= 1.

Let mx := max3 r g b.
Let mn := min3 r g b.

Lemma max3_unit : 0 <= mx <= 1.
Proof.
  destruct (max3_spec r g b) as (_ & _ & _ & [E | [E | E]]);
    unfold mx; rewrite E; assumption.
Qed.

Lemma min3_unit : 0 <= mn <= 1.
Proof.
  destruct (min3_spec r g b) as (_ & _ & _ & [E | [E | E]]);
    unfold mn; rewrite E; assumption.
Qed.

Lemma min3_le_max3 : mn <= mx.
Proof.
  destruct (max3_spec r g b) as (H & _). destruct (min3_spec r g b) as (H' & _).
  unfold mx, mn. lra.
Qed.

(** The divisors of [rgbToHsl] are positive whenever they are used. *)
Lemma hsl_divisors :
  ~ mx == mn ->
  0 < mx - mn /\
  0 < (if Qgtb ((mx + mn) / 2) 0.5 then 2 - mx - mn else mx + mn).
Proof.
  intros Hne. pose proof max3_unit as Hx. pose proof min3_unit as Hn.
  pose proof min3_le_max3 as Hle. clearbody mx mn.
  assert (Hd : 0 < mx - mn) by lra.
  split; [exact Hd |].
  destruct (Qgtb ((mx + mn) / 2) 0.5) eqn:E; lra.
Qed.

End UnitChannels.

Lemma rgbToHsl_range (r g b : Q) :
  0 <= r <= 255 -> 0 <= g <= 255 -> 0 <= b <= 255 ->
  (0 <= hue (rgbToHsl r g b) /\ hue (rgbToHsl r g b) < 360) /\
  0 <= sat (rgbToHsl r g b) <= 100 /\
  0 <= lig (rgbToHsl r g b) <= 100.
Proof.
  intros Hr Hg Hb. unfold rgbToHsl.
  apply unit_channel in Hr, Hg, Hb.
  set (r' := r / 255) in *. set (g' := g / 255) in *. set (b' := b / 255) in *.
  clearbody r' g' b'. clear r g b.
  pose proof (max3_unit r' g' b' Hr Hg Hb) as Hmx.
  pose proof (min3_unit r' g' b' Hr Hg Hb) as Hmn.
  destruct (max3_spec r' g' b') as (Mr & Mg & Mb & Mx).
  destruct (min3_spec r' g' b') as (mr & mg & mb & _).
  set (mx := max3 r' g' b') in *. set (mn := min3 r' g' b') in *.
  clearbody mx mn.
  assert (Hl : 0 <= (mx + mn) / 2 * 100 <= 100) by (qconst; lra).
  destruct (Qeq_bool mx mn) eqn:Eq; cbn [hue sat lig].
  - clear Mx. qconst. repeat split; lra.
  - apply Qeq_bool_false in Eq.
    assert (Hd : 0 < mx - mn) by lra.
    split; [| clear Mx; split; [| exact Hl]].
    + (* the hue, by the channel that is the maximum *)
      destruct (Qeq_bool mx r') eqn:E1; [| destruct (Qeq_bool mx g') eqn:E2].
      * clear Mx. apply Qeq_bool_iff in E1.
        destruct (Qltb g' b') eqn:Lt.
        -- apply Qltb_lt in Lt.
           assert (Hq : -1 <= (g' - b') / (mx - mn) <= 0)
             by (apply Qdiv_between; lra).
           assert (Hq' : (g' - b') / (mx - mn) < 0)
             by (apply Qdiv_below; lra).
           set (q := (g' - b') / (mx - mn)) in *. clearbody q. qconst. lra.
        -- apply Qltb_ge in Lt.
           assert (Hq : 0 <= (g' - b') / (mx - mn) <= 1)
             by (apply Qdiv_between; lra).
           set (q := (g' - b') / (mx - mn)) in *. clearbody q. qconst. lra.
      * clear Mx. apply Qeq_bool_iff in E2.
        assert (Hq : -1 <= (b' - r') / (mx - mn) <= 1)
          by (apply Qdiv_between; lra).
        set (q := (b' - r') / (mx - mn)) in *. clearbody q. qconst. lra.
      * apply Qeq_bool_false in E1, E2.
        assert (E3 : mx == b') by tauto. clear Mx.
        assert (Hq : -1 <= (r' - g') / (mx - mn) <= 1)
          by (apply Qdiv_between; lra).
        set (q := (r' - g') / (mx - mn)) in *. clearbody q. qconst. lra.
    + (* the saturation, by the side of the lightness *)
      destruct (Qgtb ((mx + mn) / 2) 0.5) eqn:Gt.
      * apply Qgtb_lt in Gt.
        assert (Hq : 0 <= (mx - mn) / (2 - mx - mn) <= 1)
          by (apply Qdiv_between; qconst; lra).
        set (q := (mx - mn) / (2 - mx - mn)) in *. clearbody q. qconst. lra.
      * apply Qgtb_le in Gt.
        assert (Hq : 0 <= (mx - mn) / (mx + mn) <= 1)
          by (apply Qdiv_between; qconst; lra).
        set (q := (mx - mn) / (mx + mn)) in *. clearbody q. qconst. lra.
Qed.


Lemma matchesHsl_in (table : list Profile) (c : Hsl) (p : Profile) :
  matchesHsl table c = Some p -> In p table.
Proof. unfold matchesHsl. intros H. apply find_some in H. tauto. Qed.


Lemma bowl_labels_distinct : NoDup (map label Bowl.BLOOD_PROFILES).
Proof.
  cbn. repeat constructor; cbn; intuition discriminate.
Qed.


(** C6.  A profile whose hue range wraps ([hMin > hMax]) passes the hue test
    exactly when [hue >= hMin] or [hue <= hMax], and the matcher returns it
    exactly when moreover saturation and lightness are in range; a profile
    with [hMin = 340] and [hMax = 20] matches the hues 350 and 10 and does not
    match the hue 180. *)
Theorem hue_wrap_around (p : Profile) (c : Hsl) :
  hMax p < hMin p ->
  (hueOk p (hue c) = true <-> hMin p <= hue c \/ hue c <= hMax p) /\
  (matchesHsl [p] c = Some p <->
   (hMin p <= hue c \/ hue c <= hMax p) /\
   sMin p <= sat c <= sMax p /\ lMin p <= lig c <= lMax p) /\
  (hMin p == 340 -> hMax p == 20 ->
   sMin p <= sat c <= sMax p -> lMin p <= lig c <= lMax p ->
   matchesHsl [p] (mkHsl 350 (sat c) (lig c)) = Some p /\
   matchesHsl [p] (mkHsl 10 (sat c) (lig c)) = Some p /\
   matchesHsl [p] (mkHsl 180 (sat c) (lig c)) = None).
Proof.
  intros Hwrap.
  assert (Hhue : forall h, hueOk p h = true <-> hMin p <= h \/ h <= hMax p).
  { intros h. unfold hueOk.
    destruct (Qleb (hMin p) (hMax p)) eqn:E.
    - apply Qleb_le in E. lra.
    - rewrite orb_true_iff, Qgeb_le, Qleb_le. tauto. }
  assert (Hall : forall c',
    matchesHsl [p] c' = Some p <->
    (hMin p <= hue c' \/ hue c' <= hMax p) /\
    sMin p <= sat c' <= sMax p /\ lMin p <= lig c' <= lMax p).
  { intros c'. unfold matchesHsl. cbn [find].
    destruct (profileMatches p c') eqn:E.
    - split; [intros _ | reflexivity].
      unfold profileMatches in E.
      rewrite !andb_true_iff, Hhue, !Qgeb_le, !Qleb_le in E. tauto.
    - split; [discriminate |]. intros H.
      apply not_true_iff_false in E. exfalso. apply E.
      unfold profileMatches.
      rewrite !andb_true_iff, Hhue, !Qgeb_le, !Qleb_le. tauto. }
  split; [apply Hhue | split; [apply Hall |]].
  intros Hmin Hmax Hs Hl. repeat split.
  - apply Hall. cbn [hue sat lig]. rewrite Hmin. split; [left; lra | tauto].
  - apply Hall. cbn [hue sat lig]. rewrite Hmax. split; [right; lra | tauto].
  - destruct (matchesHsl [p] (mkHsl 180 (sat c) (lig c))) as [q |] eqn:E;
      [| reflexivity].
    assert (q = p) as ->.
    { apply matchesHsl_in in E. destruct E as [E | []]. symmetry. exact E. }
    apply Hall in E. cbn [hue sat lig] in E. rewrite Hmin, Hmax in E. lra.
Qed.

Lemma hue_wrap_around_witness :
  matchesHsl [wrapProfile] (mkHsl 350 50 30) = Some wrapProfile /\
  matchesHsl [wrapProfile] (mkHsl 10 50 30) = Some wrapProfile /\
  matchesHsl [wrapProfile] (mkHsl 180 50 30) = None.
Proof.
  assert (Hw : hMax wrapProfile < hMin wrapProfile) by reflexivity.
  destruct (hue_wrap_around wrapProfile (mkHsl 350 50 30) Hw) as (_ & _ & H).
  apply H; cbn; try reflexivity; split; discriminate.
Defined.



(** ** The colour classifier under rounding *)

(** Without rounding, [rgbToHslRounded] is [rgbToHsl]. *)
Lemma rgbToHslRounded_exact (r g b : Q) :
  rgbToHslRounded (fun x => x) r g b = rgbToHsl r g b.
Proof. reflexivity. Qed.

Lemma exact_rounding : Rounding (fun x => x).
Proof.
  constructor; intros; try reflexivity; try assumption.
  lra.
Qed.

Section RoundedHsl.

Variable rnd : Q -> Q.
Hypothesis R : Rounding rnd.

Lemma rnd_proper (x y : Q) : x == y -> rnd x == rnd y.
Proof.
  intros E. apply Qle_antisym; apply (rnd_mono rnd R); rewrite E; apply Qle_refl.
Qed.

(** A number between two integers of the source rounds to a number between
    them. *)
Lemma rnd_between (lo hi : Z) (x : Q) :
  (Z.abs lo <= 360)%Z -> (Z.abs hi <= 360)%Z ->
  lo # 1 <= x <= hi # 1 -> lo # 1 <= rnd x <= hi # 1.
Proof.
  intros Hlo Hhi [H1 H2]. split.
  - rewrite <- (rnd_int rnd R lo Hlo). apply (rnd_mono rnd R), H1.
  - rewrite <- (rnd_int rnd R hi Hhi). apply (rnd_mono rnd R), H2.
Qed.

Lemma unit_rounded (v : Q) :
  0 <= v <= 255 -> 0 <= rnd (v / 255) <= 1.
Proof.
  intros Hv. apply (rnd_between 0 1); [simpl; lia | simpl; lia |].
  apply unit_channel, Hv.
Qed.

(** The last steps of the hue, [(t / 6) * 360]. *)
Lemma hue_tail (t : Q) :
  0 <= t <= 6 -> 0 <= rnd (rnd (rnd t / 6) * 360) <= 360.
Proof.
  intros Ht.
  pose proof (rnd_between 0 6 t ltac:(simpl; lia) ltac:(simpl; lia) Ht) as H1.
  set (t1 := rnd t) in *. clearbody t1.
  assert (H2 : 0 <= t1 / 6 <= 1) by (qconst; lra).
  apply (rnd_between 0 1) in H2; [| simpl; lia | simpl; lia].
  set (t2 := rnd (t1 / 6)) in *. clearbody t2.
  apply (rnd_between 0 360); [simpl; lia | simpl; lia |].
  lra.
Qed.

(** The last step of the saturation and of the lightness, [t * 100]. *)
Lemma percent_tail (t : Q) : 0 <= t <= 1 -> 0 <= rnd (t * 100) <= 100.
Proof.
  intros Ht. apply (rnd_between 0 100); [simpl; lia | simpl; lia |].
  lra.
Qed.

Section Channels.

(** The three channels after the division by 255 and its rounding. *)
Variables r g b : Q.
Hypothesis Hr : 0 <= r <= 1.
Hypothesis Hg : 0 <= g <= 1.
Hypothesis Hb : 0 <= b <= 1.
Hypothesis Rr : rnd r == r.
Hypothesis Rg : rnd g == g.
Hypothesis Rb : rnd b == b.

Let mx := max3 r g b.
Let mn := min3 r g b.

Lemma max3_rounded : rnd mx == mx.
Proof.
  destruct (max3_spec r g b) as (_ & _ & _ & [E | [E | E]]); unfold mx;
    rewrite (rnd_proper _ _ E), E; assumption.
Qed.

Lemma min3_rounded : rnd mn == mn.
Proof.
  destruct (min3_spec r g b) as (_ & _ & _ & [E | [E | E]]); unfold mn;
    rewrite (rnd_proper _ _ E), E; assumption.
Qed.

(** The rounded chroma is positive when the maximum differs from the
    minimum. *)
Lemma chroma_rounded : ~ mx == mn -> 0 < rnd (mx - mn).
Proof.
  intros Hne. pose proof (min3_le_max3 r g b) as Hle. fold mx mn in Hle.
  assert (H0 : 0 <= rnd (mx - mn)).
  { rewrite <- (rnd_int rnd R 0) by (simpl; lia).
    apply (rnd_mono rnd R). change (inject_Z 0) with 0. lra. }
  destruct (Qlt_le_dec 0 (rnd (mx - mn))) as [H | H]; [exact H |].
  exfalso. apply Hne.
  apply (rnd_sub rnd R); [apply max3_rounded | apply min3_rounded |].
  apply Qle_antisym; assumption.
Qed.

(** A rounded difference of two channels over the rounded chroma. *)
Lemma channel_quotient (u : Q) :
  ~ mx == mn -> - (mx - mn) <= u <= mx - mn ->
  -1 <= rnd (rnd u / rnd (mx - mn)) <= 1 /\
  (u <= 0 -> rnd (rnd u / rnd (mx - mn)) <= 0) /\
  (0 <= u -> 0 <= rnd (rnd u / rnd (mx - mn))).
Proof.
  intros Hne [Hu1 Hu2]. pose proof (chroma_rounded Hne) as Hd.
  assert (Hhi : rnd u <= rnd (mx - mn)) by (apply (rnd_mono rnd R), Hu2).
  assert (Hlo : - rnd (mx - mn) <= rnd u).
  { rewrite <- (rnd_opp rnd R). apply (rnd_mono rnd R), Hu1. }
  assert (H0 : rnd 0 == 0) by (apply (rnd_int rnd R 0); simpl; lia).
  set (d := rnd (mx - mn)) in *. clearbody d.
  assert (Hq : -1 <= rnd u / d <= 1) by (apply Qdiv_between; lra).
  split; [| split].
  - apply (rnd_between (-1) 1); [simpl; lia | simpl; lia | exact Hq].
  - intros Hneg.
    assert (Hru : rnd u <= 0)
      by (rewrite <- H0; apply (rnd_mono rnd R), Hneg).
    rewrite <- H0. apply (rnd_mono rnd R).
    apply Qle_shift_div_r; [exact Hd | lra].
  - intros Hpos.
    assert (Hru : 0 <= rnd u)
      by (rewrite <- H0; apply (rnd_mono rnd R), Hpos).
    rewrite <- H0. apply (rnd_mono rnd R).
    apply Qle_shift_div_l; [exact Hd | lra].
Qed.

(** The saturation divisor is at least the rounded chroma. *)
Lemma saturation_divisor (l : Q) :
  rnd (mx - mn)
  <= (if Qgtb l 0.5 then rnd (rnd (2 - mx) - mn) else rnd (mx + mn)).
Proof.
  pose proof (max3_unit r g b Hr Hg Hb) as Hx. fold mx in Hx.
  pose proof (min3_unit r g b Hr Hg Hb) as Hn. fold mn in Hn.
  destruct (Qgtb l 0.5).
  - assert (H1 : 1 <= rnd (2 - mx)).
    { rewrite <- (rnd_int rnd R 1) by (simpl; lia).
      apply (rnd_mono rnd R). change (inject_Z 1) with 1. lra. }
    apply (rnd_mono rnd R). lra.
  - apply (rnd_mono rnd R). lra.
Qed.

End Channels.

Lemma rgbToHslRounded_range (r g b : Q) :
  0 <= r <= 255 -> 0 <= g <= 255 -> 0 <= b <= 255 ->
  0 <= hue (rgbToHslRounded rnd r g b) <= 360 /\
  0 <= sat (rgbToHslRounded rnd r g b) <= 100 /\
  0 <= lig (rgbToHslRounded rnd r g b) <= 100.
Proof.
  intros Hr Hg Hb. unfold rgbToHslRounded.
  apply unit_rounded in Hr, Hg, Hb.
  pose proof (rnd_idem rnd R (r / 255)) as Rr.
  pose proof (rnd_idem rnd R (g / 255)) as Rg.
  pose proof (rnd_idem rnd R (b / 255)) as Rb.
  set (r' := rnd (r / 255)) in *. set (g' := rnd (g / 255)) in *.
  set (b' := rnd (b / 255)) in *. clearbody r' g' b'. clear r g b.
  pose proof (max3_unit r' g' b' Hr Hg Hb) as Hmx.
  pose proof (min3_unit r' g' b' Hr Hg Hb) as Hmn.
  pose proof (channel_quotient r' g' b' Rr Rg Rb) as Hq.
  pose proof (chroma_rounded r' g' b' Rr Rg Rb) as Hd.
  pose proof (saturation_divisor r' g' b' Hr Hg Hb) as He.
  destruct (max3_spec r' g' b') as (Mr & Mg & Mb & Mx).
  destruct (min3_spec r' g' b') as (mr & mg & mb & _).
  set (mx := max3 r' g' b') in *. set (mn := min3 r' g' b') in *.
  clearbody mx mn.
  assert (Hl : 0 <= rnd (rnd (mx + mn) / 2) <= 1).
  { assert (H1 : 0 <= rnd (mx + mn) <= 2).
    { apply (rnd_between 0 2); [simpl; lia | simpl; lia | lra]. }
    apply (rnd_between 0 1); [simpl; lia | simpl; lia |].
    set (t := rnd (mx + mn)) in *. clearbody t. qconst. lra. }
  assert (Hlig : 0 <= rnd (rnd (rnd (mx + mn) / 2) * 100) <= 100)
    by (apply percent_tail, Hl).
  assert (Hzero : forall k, rnd (0 * k) == 0).
  { intros k. rewrite (rnd_proper (0 * k) 0) by apply Qmult_0_l.
    apply (rnd_int rnd R 0). simpl. lia. }
  destruct (Qeq_bool mx mn) eqn:Eq; cbn [hue sat lig].
  - rewrite !Hzero. repeat split; try lra; apply Hlig.
  - apply Qeq_bool_false in Eq. specialize (Hd Eq).
    split; [| split; [| exact Hlig]].
    + (* the hue, by the channel that is the maximum *)
      destruct (Qeq_bool mx r') eqn:E1; [| destruct (Qeq_bool mx g') eqn:E2].
      * apply Qeq_bool_iff in E1.
        destruct (Hq (g' - b') Eq ltac:(lra)) as (Q1 & Q2 & Q3).
        apply hue_tail. destruct (Qltb g' b') eqn:Lt.
        -- apply Qltb_lt in Lt. specialize (Q2 ltac:(lra)). lra.
        -- apply Qltb_ge in Lt. specialize (Q3 ltac:(lra)). lra.
      * apply Qeq_bool_iff in E2.
        destruct (Hq (b' - r') Eq ltac:(lra)) as (Q1 & _).
        apply hue_tail. lra.
      * apply Qeq_bool_false in E1, E2.
        assert (E3 : mx == b') by tauto.
        destruct (Hq (r' - g') Eq ltac:(lra)) as (Q1 & _).
        apply hue_tail. lra.
    + (* the saturation: the divisor is at least the chroma *)
      apply percent_tail.
      specialize (He (rnd (rnd (mx + mn) / 2))).
      set (e := if Qgtb (rnd (rnd (mx + mn) / 2)) 0.5
                then rnd (rnd (2 - mx) - mn) else rnd (mx + mn)) in *.
      assert (Hs : 0 <= rnd (mx - mn) / e <= 1)
        by (apply Qdiv_between; lra).
      assert (Hs' : 0 <= rnd (rnd (mx - mn) / e) <= 1)
        by (apply (rnd_between 0 1); [simpl; lia | simpl; lia | exact Hs]).
      unfold e in Hs'. destruct (Qgtb (rnd (rnd (mx + mn) / 2)) 0.5); exact Hs'.
Qed.

End RoundedHsl.

(** C10, as the code has it.  For channels in [0, 255], with every
    rounding of the arithmetic that keeps the order as without rounding,
    [rgbToHsl] returns a hue in [0, 360], a saturation in [0, 100] and a
    lightness in [0, 100]; its divisors (the chroma [max - min] and the
    saturation divisor, as rounded) are positive whenever the maximum
    differs from the minimum, which is the only case that divides by them;
    and [matchesBlood] returns one of the five declared profiles or none. *)
Theorem rgbToHsl_bounded_matchesBlood_total (rnd : Q -> Q) (r g b : Q) :
  Rounding rnd ->
  0 <= r <= 255 -> 0 <= g <= 255 -> 0 <= b <= 255 ->
  let c := rgbToHslRounded rnd r g b in
  let mx := max3 (rnd (r / 255)) (rnd (g / 255)) (rnd (b / 255)) in
  let mn := min3 (rnd (r / 255)) (rnd (g / 255)) (rnd (b / 255)) in
  let l := rnd (rnd (mx + mn) / 2) in
  (0 <= hue c <= 360 /\ 0 <= sat c <= 100 /\ 0 <= lig c <= 100) /\
  (~ mx == mn ->
   0 < rnd (mx - mn) /\
   0 < (if Qgtb l 0.5 then rnd (rnd (2 - mx) - mn) else rnd (mx + mn))) /\
  (0 <= hue (rgbToHsl r g b) <= 360 /\
   0 <= sat (rgbToHsl r g b) <= 100 /\
   0 <= lig (rgbToHsl r g b) <= 100) /\
  List.length Flash.BLOOD_PROFILES = 5%nat /\
  (Flash.matchesBlood r g b = None \/
   exists p, Flash.matchesBlood r g b = Some p /\ In p Flash.BLOOD_PROFILES) /\
  (matchesHsl Flash.BLOOD_PROFILES c = None \/
   exists p, matchesHsl Flash.BLOOD_PROFILES c = Some p /\
             In p Flash.BLOOD_PROFILES).
Proof.
  intros R Hr Hg Hb c mx mn l.
  split; [apply (rgbToHslRounded_range rnd R r g b Hr Hg Hb) |].
  split; [| split; [| split; [reflexivity | split]]].
  - intros Hne.
    pose proof (unit_rounded rnd R r Hr) as Ur.
    pose proof (unit_rounded rnd R g Hg) as Ug.
    pose proof (unit_rounded rnd R b Hb) as Ub.
    assert (Hd : 0 < rnd (mx - mn)).
    { apply (chroma_rounded rnd R); try apply (rnd_idem rnd R). exact Hne. }
    split; [exact Hd |].
    pose proof (saturation_divisor rnd R _ _ _ Ur Ug Ub l) as He.
    fold mx mn in He. lra.
  - destruct (rgbToHsl_range r g b Hr Hg Hb) as ((H1 & H2) & Hs & Hl).
    split; [split; [exact H1 | apply Qlt_le_weak, H2] | split; assumption].
  - destruct (Flash.matchesBlood r g b) as [p |] eqn:E;
      [right | left; reflexivity].
    exists p. split; [reflexivity |]. apply (matchesHsl_in _ _ _ E).
  - destruct (matchesHsl Flash.BLOOD_PROFILES c) as [p |] eqn:E;
      [right | left; reflexivity].
    exists p. split; [reflexivity |]. apply (matchesHsl_in _ _ _ E).
Qed.

(** Without rounding, on a red pixel. *)
Lemma rgbToHsl_bounded_matchesBlood_total_witness :
  0 <= hue (rgbToHsl 200 30 30) <= 360 /\
  0 <= sat (rgbToHsl 200 30 30) <= 100 /\
  0 <= lig (rgbToHsl 200 30 30) <= 100.
Proof.
  assert (H : 0 <= 200 <= 255) by (split; discriminate).
  assert (H' : 0 <= 30 <= 255) by (split; discriminate).
  pose proof (rgbToHsl_bounded_matchesBlood_total (fun x => x) 200 30 30
                exact_rounding H H' H') as T.
  cbv zeta in T. rewrite rgbToHslRounded_exact in T. tauto.
Defined.

Section Binary64Hue.

Import PrimFloat.

(** C10 as the specification states it, with the hue in [0, 360).  The
    flash version corrects the bytes (255, 3, 2) of a pixel, with the gains
    of a background (200, 234, 156) and the shade factor 1.5, to a red
    channel of 255 and a green channel one unit in the last place below the
    blue one; [(g - b) / d] is then so small that [(g - b) / d + 6] rounds
    to 6, and the hue is exactly 360. *)
Lemma hue_reaches_360 :
  let sf := 1.5%float in
  let r := (255 * (240 / 200) * sf)%float in
  let r := (if 255 <? r then 255 else r)%float in
  let g := (3 * (240 / 234) * sf)%float in
  let b := (2 * (240 / 156) * sf)%float in
  ((0 <=? r) && (r <=? 255) && (0 <=? g) && (g <? b) && (b <=? 255))%float
  = true /\
  Binary64.hue (Binary64.rgbToHsl r g b) = 360%float /\
  (Binary64.hue (Binary64.rgbToHsl r g b) <? 360)%float = false.
Proof. vm_compute. repeat split. Qed.

(** Where the rounding changes a match: the hue of (33, 18, 13) is 15 in
    exact arithmetic, the lower bound of Brown Blood, which matches (the
    bowl version passes the bytes on as they are); in binary64 it is just
    below 15. *)
Example hue_rounded_below_15 :
  (hue (rgbToHsl 33 18 13) == 15)%Q /\
  option_map label (Bowl.matchesBlood 33 18 13) = Some "Brown Blood" /\
  (Binary64.hue (Binary64.rgbToHsl 33 18 13) <? 15)%float = true.
Proof. vm_compute. repeat split. Qed.

End Binary64Hue.

(** ** The white-balance estimator *)

Lemma insertBy_perm {A : Type} (before : A -> A -> bool) (x : A) (l : list A) :
  Permutation (insertBy before x l) (x :: l).
Proof.
  induction l as [| y l IH]; cbn; [reflexivity |].
  destruct (before x y); [reflexivity |].
  rewrite IH. apply perm_swap.
Qed.

Lemma sortBy_perm {A : Type} (before : A -> A -> bool) (l : list A) :
  Permutation (sortBy before l) l.
Proof.
  induction l as [| x l IH]; cbn; [reflexivity |].
  rewrite insertBy_perm. constructor. exact IH.
Qed.

Lemma sortBy_length {A : Type} (before : A -> A -> bool) (l : list A) :
  List.length (sortBy before l) = List.length l.
Proof. apply Permutation_length, sortBy_perm. Qed.

Lemma sortBy_in {A : Type} (before : A -> A -> bool) (l : list A) (x : A) :
  In x (sortBy before l) <-> In x l.
Proof.
  split; apply Permutation_in; [| symmetry]; apply sortBy_perm.
Qed.

Lemma insertBy_Zleb_sorted (x : Z) (l : list Z) :
  Sorted Z.le l -> Sorted Z.le (insertBy Z.leb x l).
Proof.
  induction l as [| y l IH]; simpl; intros Hs.
  - repeat constructor.
  - destruct (Z.leb x y) eqn:E.
    + constructor; [exact Hs |]. constructor. apply Z.leb_le, E.
    + apply Z.leb_gt in E. inversion Hs as [| ? ? Hs' Hd]; subst.
      constructor; [apply IH, Hs' |].
      destruct l as [| z l]; simpl.
      * constructor. lia.
      * destruct (Z.leb x z); constructor; [lia |].
        inversion Hd; subst. assumption.
Qed.

Lemma sortBy_Zleb_sorted (l : list Z) : Sorted Z.le (sortBy Z.leb l).
Proof.
  induction l as [| x l IH]; simpl; [constructor |].
  apply insertBy_Zleb_sorted, IH.
Qed.

Lemma median_isMedian (arr : list Z) :
  arr <> [] -> isMedian arr (Flash.median arr).
Proof.
  intros Hne. exists (sortBy Z.leb arr).
  split; [apply sortBy_perm |]. split; [apply sortBy_Zleb_sorted |].
  unfold Flash.median. destruct arr; [contradiction | reflexivity].
Qed.

Lemma median_lower (arr : list Z) (lo : Z) :
  arr <> [] -> (forall x, In x arr -> (lo <= x)%Z) ->
  inject_Z lo <= Flash.median arr.
Proof.
  intros Hne Hall. unfold Flash.median.
  destruct arr as [| a arr]; [contradiction |].
  set (s := sortBy Z.leb (a :: arr)).
  assert (Hlen : (0 < List.length s)%nat)
    by (unfold s; rewrite sortBy_length; cbn; lia).
  assert (Hnth : forall k, (k < List.length s)%nat ->
                 inject_Z lo <= inject_Z (nth k s 0%Z)).
  { intros k Hk. rewrite <- Zle_Qle. apply Hall.
    apply (sortBy_in Z.leb). apply nth_In. exact Hk. }
  assert (Hm : (List.length s / 2 < List.length s)%nat)
    by (apply Nat.div_lt; lia).
  destruct (Nat.odd (List.length s)).
  - apply Hnth, Hm.
  - pose proof (Hnth (List.length s / 2)%nat Hm) as H1.
    assert (Hm' : (List.length s / 2 - 1 < List.length s)%nat) by lia.
    pose proof (Hnth _ Hm') as H2.
    set (u := inject_Z (nth (List.length s / 2 - 1) s 0%Z)) in *.
    set (v := inject_Z (nth (List.length s / 2) s 0%Z)) in *.
    clearbody u v. unfold Qdiv. change (/ 2) with (1 # 2). lra.
Qed.

Lemma cl_clamped (v : Q) : clamped 0.6 1.6 v (Flash.cl v).
Proof.
  unfold clamped, Flash.cl.
  destruct (Q.max_spec 0.6 v) as [[H1 H2] | [H1 H2]];
  destruct (Q.min_spec 1.6 (Qmax 0.6 v)) as [[H3 H4] | [H3 H4]];
  rewrite H4; rewrite H2 in *; repeat split; intros; lra.
Qed.

Lemma cl_range (v : Q) : 0.6 <= Flash.cl v <= 1.6.
Proof.
  unfold Flash.cl. split.
  - apply Q.min_glb; [lra | apply Q.le_max_l].
  - apply Q.le_min_l.
Qed.

Lemma qualifying_channels (data : list Z) (i : nat) :
  In i (Flash.qualifying data) ->
  (140 <= nth i data 0)%Z /\ (140 <= nth (i + 1) data 0)%Z /\
  (140 <= nth (i + 2) data 0)%Z.
Proof.
  unfold Flash.qualifying. rewrite filter_In. intros [_ H].
  unfold Flash.qualifies in H. rewrite !andb_true_iff, !Qgeb_le in H.
  unfold channel in H. change 140 with (inject_Z 140) in H.
  rewrite <- !Zle_Qle in H. tauto.
Qed.

Lemma median_qualifying (data : list Z) (k : nat) :
  (k <= 2)%nat -> Flash.qualifying data <> [] ->
  140 <= Flash.median (map (fun i => nth (i + k) data 0%Z)
                         (Flash.qualifying data)).
Proof.
  intros Hk Hne. apply (median_lower _ 140).
  - destruct (Flash.qualifying data); [contradiction | discriminate].
  - intros x Hx. apply in_map_iff in Hx. destruct Hx as (i & <- & Hi).
    apply qualifying_channels in Hi.
    destruct k as [| [| [| k]]]; try lia; try tauto.
    rewrite Nat.add_0_r. tauto.
Qed.

(** C5.  On a buffer of whole pixels, [computeWhiteBalanceGains] returns
    the identity gains (1, 1, 1) when fewer than 20 sampled pixels qualify
    (luminance at or above the bright threshold and every channel at least
    140); otherwise each gain is [target / median] of that channel over the
    qualifying pixels, clamped to [0.6, 1.6], where [target] is 250 with
    flash and 240 without, and [median] is the median of the channel values
    ([isMedian]) and at least 140; in both cases every gain lies in
    [0.6, 1.6]. *)
Theorem white_balance_gains (data : list Z) (width height : nat)
  (flashIsOn : bool) :
  (List.length data mod 4 = 0)%nat ->
  let kept := Flash.qualifying data in
  let target := if flashIsOn then 250 else 240 in
  let rs := map (fun i => nth i data 0%Z) kept in
  let gs := map (fun i => nth (i + 1) data 0%Z) kept in
  let bs := map (fun i => nth (i + 2) data 0%Z) kept in
  let G := Flash.computeWhiteBalanceGains data width height flashIsOn in
  (forall i, In i kept <->
     In i (stride 16 (List.length data)) /\
     Flash.brightThreshold data
       <= luminance (channel data i) (channel data (i + 1))
            (channel data (i + 2)) /\
     140 <= channel data i /\ 140 <= channel data (i + 1) /\
     140 <= channel data (i + 2)) /\
  ((List.length kept < 20)%nat -> G = Flash.mkGains 1 1 1) /\
  ((20 <= List.length kept)%nat ->
     isMedian rs (Flash.median rs) /\ isMedian gs (Flash.median gs) /\
     isMedian bs (Flash.median bs) /\
     140 <= Flash.median rs /\ 140 <= Flash.median gs /\
     140 <= Flash.median bs /\
     clamped 0.6 1.6 (target / Flash.median rs) (Flash.gainR G) /\
     clamped 0.6 1.6 (target / Flash.median gs) (Flash.gainG G) /\
     clamped 0.6 1.6 (target / Flash.median bs) (Flash.gainB G)) /\
  0.6 <= Flash.gainR G <= 1.6 /\
  0.6 <= Flash.gainG G <= 1.6 /\
  0.6 <= Flash.gainB G <= 1.6.
Proof.
  intros _ kept target rs gs bs G.
  assert (Hlen : List.length rs = List.length kept) by apply length_map.
  split; [| split; [| split]].
  - intros i. unfold kept, Flash.qualifying. rewrite filter_In.
    unfold Flash.qualifies. rewrite !andb_true_iff, !Qgeb_le. tauto.
  - intros Hlt. unfold G, Flash.computeWhiteBalanceGains.
    fold kept. fold rs. rewrite Hlen.
    apply Nat.ltb_lt in Hlt. rewrite Hlt. reflexivity.
  - intros Hge.
    assert (Hne : kept <> []) by (intros E; rewrite E in Hge; cbn in Hge; lia).
    assert (Mr : 140 <= Flash.median rs).
    { unfold rs.
      rewrite (map_ext _ (fun i => nth (i + 0) data 0%Z))
        by (intros; rewrite Nat.add_0_r; reflexivity).
      apply median_qualifying; [lia | exact Hne]. }
    assert (Mg : 140 <= Flash.median gs)
      by (apply median_qualifying; [lia | exact Hne]).
    assert (Mb : 140 <= Flash.median bs)
      by (apply median_qualifying; [lia | exact Hne]).
    assert (Hmap : forall f : nat -> Z, map f kept <> []).
    { intros f. destruct kept; [contradiction | discriminate]. }
    split; [apply median_isMedian, Hmap |].
    split; [apply median_isMedian, Hmap |].
    split; [apply median_isMedian, Hmap |].
    repeat split; try assumption;
      unfold G, Flash.computeWhiteBalanceGains; fold kept; fold rs; fold gs;
      fold bs; rewrite Hlen;
      apply Nat.ltb_ge in Hge; rewrite Hge; cbn [Flash.gainR Flash.gainG Flash.gainB];
      destruct flashIsOn; apply cl_clamped.
  - unfold G, Flash.computeWhiteBalanceGains.
    destruct (_ <? 20)%nat; cbn [Flash.gainR Flash.gainG Flash.gainB].
    + repeat split; discriminate.
    + repeat split; apply cl_range.
Qed.

(** Eighty pixels of one bright colour, shot with flash: twenty sampled
    pixels qualify. *)
Lemma white_balance_gains_witness :
  (20 <= List.length (Flash.qualifying (uniformImage 80 200 220 250 255)))%nat /\
  Flash.gainR (Flash.computeWhiteBalanceGains
                 (uniformImage 80 200 220 250 255) 8 10 true) == 1.25 /\
  0.6 <= Flash.gainR (Flash.computeWhiteBalanceGains
                        (uniformImage 80 200 220 250 255) 8 10 true) <= 1.6.
Proof.
  pose proof (white_balance_gains (uniformImage 80 200 220 250 255) 8 10 true
                eq_refl) as T.
  cbv zeta in T. destruct T as (_ & _ & T & T').
  assert (H : (20 <= List.length
                 (Flash.qualifying (uniformImage 80 200 220 250 255)))%nat)
    by (vm_compute; lia).
  split; [exact H |]. split; [| tauto].
  destruct (T H) as (_ & _ & _ & _ & _ & _ & (_ & C & _) & _).
  rewrite C; [reflexivity |]. vm_compute. split; discriminate.
Defined.

(** A dark image has no qualifying pixel and keeps the identity gains; a
    dim white one has its gains clamped at 1.6. *)
Example white_balance_identity :
  Flash.computeWhiteBalanceGains (uniformImage 80 40 40 40 255) 8 10 false
  = Flash.mkGains 1 1 1.
Proof. reflexivity. Qed.

Example white_balance_clamped :
  Flash.gainR (Flash.computeWhiteBalanceGains
                 (uniformImage 80 141 141 141 255) 8 10 false) == 1.6.
Proof. reflexivity. Qed.

(** ** The cluster engine: cells and neighbours *)

Local Open Scope nat_scope.

Lemma has_In (i : nat) (set : list nat) : has i set = true <-> In i set.
Proof.
  unfold has. rewrite existsb_exists. split.
  - intros (x & Hx & E). apply Nat.eqb_eq in E. subst. exact Hx.
  - intros H. exists i. split; [exact H | apply Nat.eqb_refl].
Qed.

Lemma has_not_In (i : nat) (set : list nat) : has i set = false <-> ~ In i set.
Proof. rewrite <- has_In. symmetry. apply not_true_iff_false. Qed.

Lemma setNth_length {A : Type} (i : nat) (v : A) (l : list A) :
  List.length (setNth i v l) = List.length l.
Proof.
  revert i. induction l as [| a l IH]; intros [| i]; cbn; auto.
Qed.

Lemma setNth_nth_same {A : Type} (i : nat) (v d : A) (l : list A) :
  i < List.length l -> nth i (setNth i v l) d = v.
Proof.
  revert i. induction l as [| a l IH]; intros [| i]; cbn; intros H;
    try lia; auto. apply IH. lia.
Qed.

Lemma setNth_nth_other {A : Type} (i j : nat) (v d : A) (l : list A) :
  i <> j -> nth j (setNth i v l) d = nth j l d.
Proof.
  revert i j. induction l as [| a l IH]; intros [| i] [| j]; cbn; intros H;
    try lia; auto.
Qed.

Lemma cell_col (g x y : nat) : x < g -> col g (y * g + x) = x.
Proof.
  intros H. unfold col. rewrite Nat.add_comm, Nat.Div0.mod_add.
  apply Nat.mod_small, H.
Qed.

Lemma cell_row (g x y : nat) : x < g -> row g (y * g + x) = y.
Proof.
  intros H. unfold row. rewrite Nat.add_comm, Nat.div_add by lia.
  rewrite Nat.div_small by exact H. reflexivity.
Qed.

Lemma cell_of_row_col (g i : nat) : i = row g i * g + col g i.
Proof.
  unfold row, col. destruct g as [| g].
  - cbn. lia.
  - pose proof (Nat.div_mod_eq i (S g)). lia.
Qed.

Lemma col_lt (g i : nat) : 0 < g -> col g i < g.
Proof. intros H. apply Nat.mod_upper_bound. lia. Qed.

Lemma row_lt (g h i : nat) : i < g * h -> row g i < h.
Proof.
  intros H. unfold row. apply Nat.Div0.div_lt_upper_bound. exact H.
Qed.

Lemma cell_lt (g h x y : nat) : x < g -> y < h -> y * g + x < g * h.
Proof. intros. nia. Qed.

Lemma adjacent_sym (g a b : nat) : adjacent g a b = adjacent g b a.
Proof.
  unfold adjacent.
  rewrite (Nat.eqb_sym (row g a) (row g b)), (Nat.eqb_sym (col g a) (col g b)).
  rewrite (orb_comm (col g a + 1 =? col g b)), (orb_comm (row g a + 1 =? row g b)).
  reflexivity.
Qed.

Lemma adjacent_neq (g a b : nat) : adjacent g a b = true -> a <> b.
Proof.
  unfold adjacent. intros H ->.
  rewrite !orb_true_iff, !andb_true_iff, !orb_true_iff, !Nat.eqb_eq in H. lia.
Qed.

(** The neighbours that the flood fill tries are the 4-adjacent cells
    inside the grid. *)
Lemma neighbours_spec (g h ci ni : nat) :
  ci < g * h ->
  In ni (neighbours g h (col g ci) (row g ci)) <->
  ni < g * h /\ adjacent g ci ni = true.
Proof.
  intros Hci.
  assert (Hg : 0 < g) by nia.
  pose proof (col_lt g ci Hg) as Hc. pose proof (row_lt g h ci Hci) as Hr.
  set (cx := col g ci) in *. set (cy := row g ci) in *.
  unfold neighbours. cbn [flat_map]. rewrite !app_nil_r.
  rewrite !in_app_iff.
  assert (Hadj : adjacent g ci ni = true <->
    (row g ni = cy /\ (cx + 1 = col g ni \/ col g ni + 1 = cx)) \/
    (col g ni = cx /\ (cy + 1 = row g ni \/ row g ni + 1 = cy))).
  { unfold adjacent. fold cx cy.
    rewrite !orb_true_iff, !andb_true_iff, !orb_true_iff, !Nat.eqb_eq.
    intuition lia. }
  rewrite Hadj. clear Hadj.
  pose proof (cell_of_row_col g ni) as Hni.
  split.
  - intros H.
    assert (Hcase : exists x y, ni = y * g + x /\ x < g /\ y < h /\
              ((y = cy /\ (cx + 1 = x \/ x + 1 = cx)) \/
               (x = cx /\ (cy + 1 = y \/ y + 1 = cy)))).
    { destruct H as [H | [H | [H | H]]];
        match type of H with
        | In _ (if ?c then _ else _) => destruct c eqn:E; [destruct H |]
        end;
        destruct H as [H | []];
        rewrite !orb_false_iff in E; destruct E as (((E1 & E2) & E3) & E4);
        apply Z.ltb_ge in E1, E2; rewrite Z.geb_leb in E3, E4;
        apply Z.leb_gt in E3, E4.
      - exists (cx - 1), cy. repeat split; try lia; nia.
      - exists (cx + 1), cy. repeat split; try lia; nia.
      - exists cx, (cy - 1). repeat split; try lia; nia.
      - exists cx, (cy + 1). repeat split; try lia; nia. }
    destruct Hcase as (x & y & -> & Hx & Hy & Hxy).
    rewrite cell_col, cell_row by assumption.
    split; [apply cell_lt; assumption | tauto].
  - intros [Hlt Hxy].
    pose proof (col_lt g ni Hg) as Hc'. pose proof (row_lt g h ni Hlt) as Hr'.
    set (x := col g ni) in *. set (y := row g ni) in *.
    destruct Hxy as [[Ey [Ex | Ex]] | [Ex [Ey | Ey]]].
    + right. left.
      replace ((Z.of_nat cx + 1 <? 0) || (Z.of_nat cy <? 0)
               || (Z.of_nat cx + 1 >=? Z.of_nat g)
               || (Z.of_nat cy >=? Z.of_nat h))%Z%bool with false
        by (symmetry; rewrite !orb_false_iff, !Z.ltb_ge, !Z.geb_leb, !Z.leb_gt; lia).
      left. try lia; nia.
    + left.
      replace ((Z.of_nat cx - 1 <? 0) || (Z.of_nat cy <? 0)
               || (Z.of_nat cx - 1 >=? Z.of_nat g)
               || (Z.of_nat cy >=? Z.of_nat h))%Z%bool with false
        by (symmetry; rewrite !orb_false_iff, !Z.ltb_ge, !Z.geb_leb, !Z.leb_gt; lia).
      left. try lia; nia.
    + right. right. right.
      replace ((Z.of_nat cx <? 0) || (Z.of_nat cy + 1 <? 0)
               || (Z.of_nat cx >=? Z.of_nat g)
               || (Z.of_nat cy + 1 >=? Z.of_nat h))%Z%bool with false
        by (symmetry; rewrite !orb_false_iff, !Z.ltb_ge, !Z.geb_leb, !Z.leb_gt; lia).
      left. try lia; nia.
    + right. right. left.
      replace ((Z.of_nat cx <? 0) || (Z.of_nat cy - 1 <? 0)
               || (Z.of_nat cx >=? Z.of_nat g)
               || (Z.of_nat cy - 1 >=? Z.of_nat h))%Z%bool with false
        by (symmetry; rewrite !orb_false_iff, !Z.ltb_ge, !Z.geb_leb, !Z.leb_gt; lia).
      left. try lia; nia.
Qed.

(** ** The cluster engine: one flood fill *)

Lemma NoDup_bounded_length (l : list nat) (n : nat) :
  NoDup l -> (forall x, In x l -> x < n) -> List.length l <= n.
Proof.
  intros Hnd Hlt. rewrite <- (length_seq n 0).
  apply NoDup_incl_length; [exact Hnd |].
  intros x Hx. apply in_seq. specialize (Hlt x Hx). lia.
Qed.

Lemma NoDup_app_apart {A : Type} (l1 l2 : list A) (a : A) :
  NoDup (l1 ++ l2) -> In a l1 -> In a l2 -> False.
Proof.
  induction l1 as [| x l1 IH]; simpl; intros Hnd H1 H2; [contradiction |].
  inversion Hnd; subst. destruct H1 as [-> | H1].
  - apply H3, in_or_app. right. exact H2.
  - apply IH; assumption.
Qed.

Lemma live_lt (grid : list Cell) (i : nat) :
  live grid i = true -> i < List.length grid.
Proof. unfold live. rewrite andb_true_iff, Nat.ltb_lt. tauto. Qed.

Lemma live_active (grid : list Cell) (i : nat) :
  live grid i = true -> active grid i = true.
Proof. unfold live. rewrite andb_true_iff. tauto. Qed.

Section FloodFill.

Variables (gridW gridH : nat) (grid : list Cell).
Hypothesis grid_length : List.length grid = gridW * gridH.

Lemma enqueue_cases (st : Fill) (ni : nat) :
  (~ In ni (visited st) /\ active grid ni = true /\
   enqueue grid st ni =
     mkFill (queue st ++ [ni]) (visited st ++ [ni]) (minX st) (maxX st)
       (minY st) (maxY st) (totalPixels st) (profileTotals st)) \/
  ((In ni (visited st) \/ active grid ni = false) /\ enqueue grid st ni = st).
Proof.
  unfold enqueue. destruct (has ni (visited st)) eqn:E1.
  - right. split; [left; apply has_In, E1 | reflexivity].
  - destruct (active grid ni) eqn:E2.
    + left. split; [apply has_not_In, E1 | split; reflexivity].
    + right. split; [right; reflexivity | reflexivity].
Qed.

(** What the [forEach] over the neighbours does to the state: it appends to
    the queue and to the visited set the active neighbours not yet
    visited. *)
Lemma enqueue_fold (L : list nat) (st : Fill) :
  let st' := fold_left (enqueue grid) L st in
  exists new,
    queue st' = queue st ++ new /\
    visited st' = visited st ++ new /\
    minX st' = minX st /\ maxX st' = maxX st /\
    minY st' = minY st /\ maxY st' = maxY st /\
    totalPixels st' = totalPixels st /\
    profileTotals st' = profileTotals st /\
    (NoDup (visited st) -> NoDup (visited st')) /\
    (forall x, In x new -> In x L /\ active grid x = true) /\
    (forall x, In x L -> active grid x = true -> In x (visited st')).
Proof.
  revert st. induction L as [| ni L IH]; intros st; cbn [fold_left].
  - exists []. rewrite !app_nil_r. repeat split; auto; contradiction.
  - destruct (IH (enqueue grid st ni)) as
      (new & Hq & Hv & H1 & H2 & H3 & H4 & H5 & H6 & Hnd & Hnew & Hall).
    destruct (enqueue_cases st ni) as [(Hnot & Hact & E) | (Hskip & E)];
      rewrite E in *; clear E.
    + cbn [queue visited minX maxX minY maxY totalPixels profileTotals]
        in Hq, Hv, H1, H2, H3, H4, H5, H6, Hnd.
      exists (ni :: new). rewrite <- !app_assoc in Hq, Hv.
      split; [exact Hq |]. split; [exact Hv |].
      do 6 (split; [assumption |]).
      split; [| split].
      * intros Hnd0. apply Hnd. apply NoDup_app; [exact Hnd0 | |].
        -- repeat constructor. intros [].
        -- intros x Hx [<- | []]. contradiction.
      * intros x [<- | Hx].
        -- split; [left; reflexivity | exact Hact].
        -- split; [right |]; apply Hnew, Hx.
      * intros x [<- | Hx] Hax; [| apply Hall; assumption].
        rewrite Hv. apply in_or_app. right. left. reflexivity.
    + exists new.
      split; [exact Hq |]. split; [exact Hv |].
      do 6 (split; [assumption |]).
      split; [exact Hnd | split].
      * intros x Hx. split; [right |]; apply Hnew, Hx.
      * intros x [<- | Hx] Hax; [| apply Hall; assumption].
        destruct Hskip as [Hin | Hin]; [| congruence].
        rewrite Hv. apply in_or_app. left. exact Hin.
Qed.

Variables (V0 : list nat) (seed : nat).

Lemma visitCell_inv (done : list nat) (st : Fill) (ci : nat) (rest : list nat) :
  fillInv gridW grid V0 seed done st -> queue st = ci :: rest ->
  fillInv gridW grid V0 seed (done ++ [ci])
    (visitCell grid gridW gridH st ci rest).
Proof.
  intros (Hvis & Hnd & Hseed & Hlive & Hclosed & Htot & HpT & Hx0 & Hx1 & Hy0 & Hy1) Hq.
  rewrite Hq in *.
  assert (Hci : live grid ci = true /\ linked gridW grid seed ci)
    by (apply Hlive, in_or_app; right; left; reflexivity).
  destruct Hci as [Hci Hlink].
  assert (Hlt : ci < gridW * gridH)
    by (rewrite <- grid_length; apply live_lt, Hci).
  unfold visitCell.
  change (ci mod gridW) with (col gridW ci).
  change (ci / gridW) with (row gridW ci).
  match goal with
  | |- fillInv _ _ _ _ _ (fold_left _ ?L ?s) =>
      destruct (enqueue_fold L s) as
        (new & Eq & Ev & E1 & E2 & E3 & E4 & E5 & E6 & Endup & Enew & Eall)
  end.
  cbn [queue visited minX maxX minY maxY totalPixels profileTotals] in *.
  assert (Hsplit : forall c, In c ((done ++ [ci]) ++ rest ++ new) ->
                             In c (done ++ ci :: rest) \/ In c new).
  { intros c. rewrite !in_app_iff. cbn. tauto. }
  unfold fillInv. rewrite Eq, Ev, E1, E2, E3, E4, E5, E6.
  repeat split.
  - rewrite Hvis, <- !app_assoc. reflexivity.
  - rewrite <- Ev. apply Endup, Hnd.
  - rewrite !in_app_iff in *. cbn in *. tauto.
  - apply Hsplit in H. destruct H as [H | H]; [apply Hlive, H |].
    apply Enew in H. destruct H as [H Hact].
    apply neighbours_spec in H; [| exact Hlt]. destruct H as [Hn Hadj].
    unfold live. rewrite Hact, andb_true_r. apply Nat.ltb_lt.
    rewrite grid_length. exact Hn.
  - apply Hsplit in H. destruct H as [H | H]; [apply Hlive, H |].
    apply Enew in H. destruct H as [H Hact].
    apply neighbours_spec in H; [| exact Hlt]. destruct H as [Hn Hadj].
    apply linked_next with ci; [exact Hlink | exact Hadj |].
    unfold live. rewrite Hact, andb_true_r. apply Nat.ltb_lt.
    rewrite grid_length. exact Hn.
  - intros c d Hc Hd Hadj. apply in_app_or in Hc. destruct Hc as [Hc | [<- | []]].
    + apply in_or_app. left. apply (Hclosed c d); assumption.
    + rewrite <- Ev. apply Eall; [| apply live_active, Hd].
      apply neighbours_spec; [exact Hlt |]. split; [| exact Hadj].
      rewrite <- grid_length. apply live_lt, Hd.
  - unfold sumCounts. rewrite fold_left_app. cbn. f_equal. exact Htot.
  - unfold mergeTallies. rewrite fold_left_app. cbn. f_equal. exact HpT.
  - unfold minOver. rewrite fold_left_app. cbn. f_equal. exact Hx0.
  - unfold maxOver. rewrite fold_left_app. cbn. f_equal. exact Hx1.
  - unfold minOver. rewrite fold_left_app. cbn. f_equal. exact Hy0.
  - unfold maxOver. rewrite fold_left_app. cbn. f_equal. exact Hy1.
Qed.

(** The loop ends within [gridW * gridH] turns, since every turn dequeues a
    cell that was never dequeued before. *)
Lemma floodFill_inv (fuel : nat) (done : list nat) (st : Fill) :
  fillInv gridW grid V0 seed done st ->
  gridW * gridH <= fuel + List.length done ->
  exists done',
    fillInv gridW grid V0 seed done' (floodFill fuel grid gridW gridH st) /\
    queue (floodFill fuel grid gridW gridH st) = [].
Proof.
  revert done st. induction fuel as [| fuel IH]; intros done st Hinv Hfuel.
  - cbn [floodFill]. destruct (queue st) as [| ci rest] eqn:Hq.
    + exists done. split; assumption.
    + exfalso.
      destruct Hinv as (Hvis & Hnd & _ & Hlive & _).
      rewrite Hvis, Hq in Hnd. apply NoDup_app_remove_l in Hnd.
      apply NoDup_bounded_length with (n := gridW * gridH) in Hnd.
      * rewrite length_app in Hnd. cbn in Hnd. lia.
      * intros x Hx. rewrite <- grid_length. apply live_lt, Hlive.
        rewrite Hq. exact Hx.
  - cbn [floodFill]. destruct (queue st) as [| ci rest] eqn:Hq.
    + exists done. split; assumption.
    + apply (IH (done ++ [ci])).
      * apply visitCell_inv; assumption.
      * rewrite length_app. cbn. lia.
Qed.

Lemma floodFill_spec :
  NoDup V0 -> ~ In seed V0 -> live grid seed = true ->
  exists done,
    fillInv gridW grid V0 seed done
      (floodFill (List.length grid) grid gridW gridH
         (mkFill [seed] (V0 ++ [seed]) (col gridW seed) (col gridW seed)
            (row gridW seed) (row gridW seed) 0 [])) /\
    queue (floodFill (List.length grid) grid gridW gridH
             (mkFill [seed] (V0 ++ [seed]) (col gridW seed) (col gridW seed)
                (row gridW seed) (row gridW seed) 0 [])) = [].
Proof.
  intros Hnd Hnot Hlive.
  apply (floodFill_inv _ []); [| cbn; rewrite grid_length; lia].
  unfold fillInv. cbn. repeat split; auto.
  - apply NoDup_app; [exact Hnd | repeat constructor; intros [] |].
    intros x Hx [<- | []]. contradiction.
  - destruct H as [<- | []]. exact Hlive.
  - destruct H as [<- | []]. constructor. exact Hlive.
  - intros c d [].
Qed.

End FloodFill.

(** ** The cluster engine: tallies and the grid *)

Lemma tallyOf_bump (k k' : string) (v : nat) (o : Tally) :
  tallyOf k' (bump k v o)
  = tallyOf k' o + (if String.eqb k k' then v else 0).
Proof.
  induction o as [| [k0 v0] o IH]; cbn.
  - destruct (String.eqb k k'); lia.
  - destruct (String.eqb k0 k) eqn:E0; cbn.
    + apply String.eqb_eq in E0. subst k0.
      destruct (String.eqb k k'); lia.
    + destruct (String.eqb k0 k') eqn:E1; [| exact IH].
      apply String.eqb_eq in E1. subst k0.
      rewrite String.eqb_sym, E0. lia.
Qed.

Lemma bump_keys (k : string) (v : nat) (o : Tally) :
  map fst (bump k v o)
  = if existsb (String.eqb k) (map fst o) then map fst o
    else map fst o ++ [k].
Proof.
  induction o as [| [k0 v0] o IH]; cbn; [reflexivity |].
  rewrite (String.eqb_sym k k0).
  destruct (String.eqb k0 k); cbn; [reflexivity |].
  rewrite IH. destruct (existsb _ _); reflexivity.
Qed.

Lemma bump_keys_In (k k' : string) (v : nat) (o : Tally) :
  In k' (map fst (bump k v o)) <-> k' = k \/ In k' (map fst o).
Proof.
  rewrite bump_keys. destruct (existsb _ _) eqn:E.
  - apply existsb_exists in E. destruct E as (x & Hx & E).
    apply String.eqb_eq in E. subst x.
    split; [tauto | intros [-> | H]; assumption].
  - rewrite in_app_iff. cbn. intuition auto.
Qed.

Lemma bump_keys_NoDup (k : string) (v : nat) (o : Tally) :
  NoDup (map fst o) -> NoDup (map fst (bump k v o)).
Proof.
  intros H. rewrite bump_keys. destruct (existsb _ _) eqn:E; [exact H |].
  apply NoDup_app; [exact H | repeat constructor; intros [] |].
  intros x Hx [<- | []].
  apply not_true_iff_false in E. apply E, existsb_exists.
  exists k. split; [exact Hx | apply String.eqb_refl].
Qed.

Lemma sumTally_bump (k : string) (v : nat) (o : Tally) :
  sumTally (bump k v o) = sumTally o + v.
Proof.
  unfold sumTally. induction o as [| [k0 v0] o IH]; simpl; [lia |].
  destruct (String.eqb k0 k); simpl; [lia |].
  rewrite IH. lia.
Qed.

Lemma tallyOf_absent (k : string) (o : Tally) :
  ~ In k (map fst o) -> tallyOf k o = 0.
Proof.
  induction o as [| [k0 v0] o IH]; cbn; [reflexivity |].
  intros H. destruct (String.eqb k0 k) eqn:E.
  - apply String.eqb_eq in E. tauto.
  - apply IH. tauto.
Qed.

Lemma tallyOf_entry (k : string) (v : nat) (o : Tally) :
  NoDup (map fst o) -> In (k, v) o -> tallyOf k o = v.
Proof.
  induction o as [| [k0 v0] o IH]; cbn; [contradiction |].
  intros Hnd [E | Hin]; inversion Hnd; subst.
  - injection E as -> ->. rewrite String.eqb_refl. reflexivity.
  - destruct (String.eqb k0 k) eqn:E; [| apply IH; assumption].
    apply String.eqb_eq in E. subst k0. exfalso. apply H1.
    apply (in_map fst) in Hin. exact Hin.
Qed.

Lemma addAll_tallyOf (k : string) (o pT : Tally) :
  NoDup (map fst o) ->
  tallyOf k (addAll o pT) = tallyOf k pT + tallyOf k o.
Proof.
  unfold addAll. revert pT.
  induction o as [| [k0 v0] o IH]; intros pT Hnd; cbn; [lia |].
  inversion Hnd; subst. rewrite IH by assumption. rewrite tallyOf_bump.
  destruct (String.eqb k0 k) eqn:E; [| lia].
  apply String.eqb_eq in E. subst k0.
  rewrite (tallyOf_absent k o) by assumption. lia.
Qed.

Lemma addAll_sumTally (o pT : Tally) :
  sumTally (addAll o pT) = sumTally pT + sumTally o.
Proof.
  unfold addAll. revert pT.
  induction o as [| [k0 v0] o IH]; intros pT; cbn [fold_left fst snd].
  - change (sumTally []) with 0. lia.
  - rewrite IH, sumTally_bump.
    change (sumTally ((k0, v0) :: o)) with (v0 + sumTally o). lia.
Qed.

Lemma addAll_keys_In (k : string) (o pT : Tally) :
  In k (map fst (addAll o pT)) <-> In k (map fst pT) \/ In k (map fst o).
Proof.
  unfold addAll. revert pT.
  induction o as [| [k0 v0] o IH]; intros pT; cbn; [tauto |].
  rewrite IH, bump_keys_In. intuition auto.
Qed.

Lemma addAll_keys_NoDup (o pT : Tally) :
  NoDup (map fst pT) -> NoDup (map fst (addAll o pT)).
Proof.
  unfold addAll. revert pT.
  induction o as [| [k0 v0] o IH]; intros pT H; cbn; [exact H |].
  apply IH, bump_keys_NoDup, H.
Qed.

Lemma buildGrid_snoc (ps : list MatchedPixel) (p : MatchedPixel) (g h : nat) :
  buildGrid (ps ++ [p]) g h = addPixel g (buildGrid ps g h) p.
Proof. unfold buildGrid. rewrite fold_left_app. reflexivity. Qed.

Lemma nth_repeat_empty (i n : nat) : nth i (repeat emptyCell n) emptyCell = emptyCell.
Proof.
  revert i. induction n as [| n IH]; intros [| i]; cbn; auto.
Qed.

Lemma buildGrid_inv (pixels : list MatchedPixel) (g h : nat) (grid : list Cell) :
  buildGrid pixels g h = Some grid -> gridInv g h pixels grid.
Proof.
  revert grid. induction pixels as [| p ps IH] using rev_ind; intros grid.
  - unfold buildGrid. cbn. intros [= <-]. unfold gridInv.
    rewrite repeat_length. split; [reflexivity |]. split; [intros p [] |].
    intros i. rewrite nth_repeat_empty. cbn.
    repeat split; [constructor | intros k [] ].
  - rewrite buildGrid_snoc. destruct (buildGrid ps g h) as [g0 |]; [| discriminate].
    specialize (IH g0 eq_refl). destruct IH as (Hlen & Hin & Hcell).
    unfold addPixel.
    destruct (nth_error g0 (cellIndex g p)) as [cell |] eqn:Hnth; [| discriminate].
    intros [= <-].
    assert (Hlt : cellIndex g p < List.length g0)
      by (apply nth_error_Some; congruence).
    assert (Hcell0 : cell = nth (cellIndex g p) g0 emptyCell)
      by (symmetry; apply nth_error_nth, Hnth).
    unfold gridInv. rewrite setNth_length. split; [exact Hlen |]. split.
    + intros q Hq. apply in_app_or in Hq. destruct Hq as [Hq | [<- | []]].
      * apply Hin, Hq.
      * rewrite <- Hlen. exact Hlt.
    + intros i. unfold pixelsAt, pixelsOf in *. rewrite filter_app. cbn [filter].
      destruct (Nat.eq_dec (cellIndex g p) i) as [E | E].
      * subst i. rewrite setNth_nth_same by exact Hlt.
        rewrite Nat.eqb_refl. cbn [count profiles].
        destruct (Hcell (cellIndex g p)) as (H1 & H2 & H3 & H4 & H5).
        rewrite <- Hcell0 in *.
        repeat split.
        -- rewrite length_app, H1. cbn. lia.
        -- rewrite sumTally_bump, H2. lia.
        -- apply bump_keys_NoDup, H3.
        -- intros k. rewrite tallyOf_bump, H4, filter_app, length_app.
           cbn [filter]. destruct (String.eqb (label (profile p)) k); reflexivity.
        -- intros k Hk. apply bump_keys_In in Hk. destruct Hk as [-> | Hk].
           ++ exists p. split; [apply in_or_app; right; left |]; reflexivity.
           ++ destruct (H5 k Hk) as (q & Hq & Eq).
              exists q. split; [apply in_or_app; left |]; assumption.
      * rewrite setNth_nth_other by exact E.
        apply Nat.eqb_neq in E. rewrite E. rewrite app_nil_r.
        destruct (Hcell i) as (H1 & H2 & H3 & H4 & H5).
        repeat split; try assumption.
        intros k Hk. destruct (H5 k Hk) as (q & Hq & Eq).
        exists q. split; [apply in_or_app; left |]; assumption.
Qed.

Lemma buildGrid_total (pixels : list MatchedPixel) (g h : nat) :
  (forall p, In p pixels -> cellIndex g p < g * h) ->
  exists grid, buildGrid pixels g h = Some grid.
Proof.
  induction pixels as [| p ps IH] using rev_ind; intros Hin.
  - eexists. reflexivity.
  - rewrite buildGrid_snoc.
    destruct IH as (g0 & E).
    { intros q Hq. apply Hin, in_or_app. left. exact Hq. }
    rewrite E. unfold addPixel.
    destruct (nth_error g0 (cellIndex g p)) eqn:Hnth; [eexists; reflexivity |].
    exfalso. apply nth_error_None in Hnth.
    apply buildGrid_inv in E. destruct E as (Hlen & _).
    assert (Hp : In p (ps ++ [p])) by (apply in_or_app; right; left; reflexivity).
    specialize (Hin p Hp). lia.
Qed.

(** ** The cluster engine: totals of a list of cells *)

Lemma fold_left_add {A : Type} (f : A -> nat) (l : list A) (a : nat) :
  fold_left (fun t x => t + f x) l a = a + list_sum (map f l).
Proof.
  revert a. induction l as [| x l IH]; intros a; simpl; [lia |].
  rewrite IH. lia.
Qed.

Lemma filter_or_length {A : Type} (f g : A -> bool) (l : list A) :
  (forall x, f x = true -> g x = false) ->
  List.length (filter (fun x => f x || g x) l)
  = List.length (filter f l) + List.length (filter g l).
Proof.
  intros Hfg. induction l as [| x l IH]; simpl; [reflexivity |].
  destruct (f x) eqn:Ef; simpl.
  - rewrite (Hfg x Ef). simpl. rewrite IH. reflexivity.
  - destruct (g x); simpl; rewrite IH; lia.
Qed.

Lemma filter_comm {A : Type} (f g : A -> bool) (l : list A) :
  filter f (filter g l) = filter g (filter f l).
Proof.
  induction l as [| x l IH]; simpl; [reflexivity |].
  destruct (f x) eqn:Ef, (g x) eqn:Eg; simpl; rewrite ?Ef, ?Eg, IH; reflexivity.
Qed.

(** The pixels that fall in a list of distinct cells, counted cell by
    cell. *)
Lemma pixelsIn_length (g : nat) (cells : list nat) (pixels : list MatchedPixel) :
  NoDup cells ->
  list_sum (map (fun c => List.length (pixelsAt g c pixels)) cells)
  = List.length (pixelsIn g cells pixels).
Proof.
  intros Hnd. induction cells as [| c cells IH]; simpl.
  - unfold pixelsIn. simpl. induction pixels; simpl; auto.
  - inversion Hnd; subst. rewrite IH by assumption.
    unfold pixelsIn, pixelsAt. simpl. symmetry. apply filter_or_length.
    intros p Hp. apply Nat.eqb_eq in Hp. rewrite Hp.
    apply has_not_In. assumption.
Qed.

Section Totals.

Variables (g h : nat) (pixels : list MatchedPixel) (grid : list Cell).
Hypothesis grid_ok : gridInv g h pixels grid.

Lemma sumCounts_pixels (cells : list nat) :
  NoDup cells -> sumCounts grid cells = List.length (pixelsIn g cells pixels).
Proof.
  intros Hnd. unfold sumCounts. rewrite fold_left_add. simpl.
  rewrite <- pixelsIn_length by exact Hnd. f_equal.
  apply map_ext. intros c. apply grid_ok.
Qed.

Lemma mergeTallies_acc (k : string) (cells : list nat) (pT : Tally) :
  let merged :=
    fold_left (fun pT ci => addAll (profiles (nth ci grid emptyCell)) pT)
      cells pT in
  (NoDup (map fst pT) -> NoDup (map fst merged)) /\
  sumTally merged = sumTally pT + sumCounts grid cells /\
  tallyOf k merged
  = tallyOf k pT
    + list_sum (map (fun c => List.length (pixelsOf k (pixelsAt g c pixels)))
                  cells) /\
  (In k (map fst merged) ->
   In k (map fst pT) \/ exists p, In p pixels /\ label (profile p) = k).
Proof.
  revert pT. induction cells as [| c cells IH]; intros pT; simpl.
  - unfold sumCounts. simpl. repeat split; auto; lia.
  - destruct (IH (addAll (profiles (nth c grid emptyCell)) pT))
      as (H1 & H2 & H3 & H4).
    destruct grid_ok as (_ & _ & Hcell).
    destruct (Hcell c) as (C1 & C2 & C3 & C4 & C5).
    repeat split.
    + intros Hnd. apply H1, addAll_keys_NoDup, Hnd.
    + rewrite H2, addAll_sumTally, C2. unfold sumCounts. simpl.
      rewrite !fold_left_add. lia.
    + rewrite H3, addAll_tallyOf, C4 by exact C3. lia.
    + intros Hk. destruct (H4 Hk) as [Hk' | Hk']; [| right; exact Hk'].
      apply addAll_keys_In in Hk'. destruct Hk' as [Hk' | Hk'].
      * left. exact Hk'.
      * right. apply C5, Hk'.
Qed.

Lemma mergeTallies_keys_NoDup (cells : list nat) :
  NoDup (map fst (mergeTallies grid cells)).
Proof.
  apply (proj1 (mergeTallies_acc "" cells [])). constructor.
Qed.

Lemma mergeTallies_sum (cells : list nat) :
  sumTally (mergeTallies grid cells) = sumCounts grid cells.
Proof.
  apply (proj1 (proj2 (mergeTallies_acc "" cells []))).
Qed.

Lemma mergeTallies_label (k : string) (cells : list nat) :
  In k (map fst (mergeTallies grid cells)) ->
  exists p, In p pixels /\ label (profile p) = k.
Proof.
  intros Hk.
  destruct (proj2 (proj2 (proj2 (mergeTallies_acc k cells []))) Hk) as [[] | H].
  exact H.
Qed.

(** The merged tally of a label over distinct cells is the number of
    matched pixels of that label in those cells. *)
Lemma mergeTallies_pixels (k : string) (cells : list nat) :
  NoDup cells ->
  tallyOf k (mergeTallies grid cells)
  = List.length (pixelsOf k (pixelsIn g cells pixels)).
Proof.
  intros Hnd.
  change (mergeTallies grid cells)
    with (fold_left (fun pT ci => addAll (profiles (nth ci grid emptyCell)) pT)
            cells []).
  rewrite (proj1 (proj2 (proj2 (mergeTallies_acc k cells [])))). simpl.
  unfold pixelsOf, pixelsIn.
  rewrite filter_comm. fold (pixelsOf k pixels).
  fold (pixelsIn g cells (pixelsOf k pixels)).
  rewrite <- pixelsIn_length by exact Hnd. f_equal.
  apply map_ext. intros c. unfold pixelsOf, pixelsAt.
  rewrite filter_comm. reflexivity.
Qed.

End Totals.

(** ** The dominant label *)

(** The head of the entries sorted by descending tally is the first entry
    whose tally is the greatest: every entry before it is strictly smaller,
    every entry after it is at most as large. *)
Lemma dominant_first_max (pT : Tally) :
  match dominant pT with
  | Some (k, v) =>
      exists before after,
        pT = before ++ (k, v) :: after /\
        (forall e, In e before -> snd e < v) /\
        (forall e, In e after -> snd e <= v)
  | None => pT = []
  end.
Proof.
  unfold dominant. induction pT as [| [k0 v0] pT IH]; simpl; [reflexivity |].
  destruct (sortBy _ pT) as [| [k1 v1] sorted] eqn:Es; simpl in *.
  - subst pT. exists [], []. repeat split; intros e [].
  - destruct IH as (before & after & -> & Hb & Ha).
    destruct (v0 <? v1) eqn:E; simpl.
    + apply Nat.ltb_lt in E.
      exists ((k0, v0) :: before), after. repeat split; [| exact Ha].
      intros e [<- | He]; [exact E | apply Hb, He].
    + apply Nat.ltb_ge in E.
      exists [], (before ++ (k1, v1) :: after). repeat split; [intros e [] |].
      intros e He. apply in_app_or in He. destruct He as [He | [<- | He]].
      * specialize (Hb e He). lia.
      * exact E.
      * specialize (Ha e He). lia.
Qed.

Lemma findProfile_label (table : list Profile) (k : string) :
  In k (map label table) ->
  exists prof, findProfile table k = Some prof /\ label prof = k /\
               In prof table.
Proof.
  unfold findProfile. intros Hk.
  destruct (find _ table) as [prof |] eqn:E.
  - apply find_some in E. destruct E as [Hin E]. apply String.eqb_eq in E.
    exists prof. auto.
  - apply in_map_iff in Hk. destruct Hk as (p & <- & Hp).
    apply (find_none _ _ E) in Hp. rewrite String.eqb_refl in Hp. discriminate.
Qed.

(** ** The cluster engine: the loops over the grid *)

Lemma map_seq_shift {A : Type} (f : nat -> A) (a n : nat) :
  map f (seq a n) = map (fun x => f (a + x)) (seq 0 n).
Proof.
  revert f a. induction n as [| n IH]; intros f a; simpl.
  - reflexivity.
  - rewrite Nat.add_0_r. f_equal.
    rewrite (IH f (S a)), (IH (fun x => f (a + x)) 1).
    apply map_ext. intros x. f_equal. lia.
Qed.

(** The two nested loops visit the cell indices in increasing order. *)
Lemma rasterCells_indices (g h : nat) :
  rasterCells g h = map (fun i => (col g i, row g i)) (seq 0 (g * h)).
Proof.
  unfold rasterCells. induction h as [| h IH].
  - rewrite Nat.mul_0_r. reflexivity.
  - rewrite seq_S, flat_map_app, IH. simpl. rewrite app_nil_r.
    replace (g * S h) with (g * h + g) by lia.
    rewrite seq_app, map_app. f_equal. simpl.
    rewrite (map_seq_shift (fun i => (col g i, row g i)) (g * h) g).
    apply map_ext_in. intros x Hx.
    apply in_seq in Hx.
    replace (g * h + x) with (h * g + x) by lia.
    rewrite cell_col, cell_row by lia. reflexivity.
Qed.

Lemma in_concat_fills (fills : list (nat * list nat)) (i : nat) :
  In i (List.concat (map snd fills)) <-> exists f, In f fills /\ In i (snd f).
Proof.
  rewrite in_concat. split.
  - intros (l & Hl & Hi). apply in_map_iff in Hl. destruct Hl as (f & <- & Hf).
    exists f. auto.
  - intros (f & Hf & Hi). exists (snd f). split; [apply in_map, Hf | exact Hi].
Qed.

Section Cluster.

Variables (table : list Profile) (g h : nat) (pixels : list MatchedPixel).
Variable grid : list Cell.
Hypothesis grid_ok : gridInv g h pixels grid.
Hypothesis labels_ok :
  forall p, In p pixels -> In (label (profile p)) (map label table).

Lemma clusterStep_inv (k : nat) (fills : list (nat * list nat))
  (acc : option (list nat * list Finding)) :
  k < g * h -> clusterInv table grid g k fills acc ->
  exists fills',
    clusterInv table grid g (S k) fills'
      (clusterStep table grid g h acc (col g k, row g k)).
Proof.
  intros Hk (-> & Hnd & Hcomp & Hcover).
  pose proof grid_ok as (Hlen & _).
  unfold clusterStep. rewrite <- (cell_of_row_col g k).
  set (vis := List.concat (map snd fills)) in *.
  destruct (has k vis || negb (active grid k)) eqn:Eskip.
  - (* the cell is visited already, or it is not active *)
    exists fills. split; [reflexivity |]. split; [exact Hnd |].
    split; [exact Hcomp |].
    intros i Hi Hlive. destruct (Nat.eq_dec i k) as [-> | Hne].
    + apply live_active in Hlive. rewrite Hlive, orb_false_r in Eskip.
      apply has_In, Eskip.
    + apply Hcover; [lia | exact Hlive].
  - (* a flood fill starts at the cell *)
    apply orb_false_iff in Eskip. destruct Eskip as [Enot Eact].
    apply has_not_In in Enot. apply negb_false_iff in Eact.
    assert (Hlive : live grid k = true).
    { unfold live. rewrite Eact, andb_true_r. apply Nat.ltb_lt. lia. }
    destruct (floodFill_spec g h grid Hlen vis k Hnd Enot Hlive)
      as (done & Hinv & Hq).
    set (st := floodFill (List.length grid) grid g h _) in *. clearbody st.
    destruct Hinv as (Hvis & Hnd' & Hseed & Hlinked & Hclosed & Htot & HpT
                      & Hx0 & Hx1 & Hy0 & Hy1).
    rewrite Hq, app_nil_r in *.
    assert (Hdone : component g grid done /\ In k done).
    { split; [| exact Hseed]. rewrite Hvis in Hnd'. repeat split.
      - apply NoDup_app_remove_l in Hnd'. exact Hnd'.
      - exists k. split; [exact Hseed |]. intros c Hc. apply Hlinked, Hc.
      - intros c d Hc Hd Hadj.
        specialize (Hclosed c d Hc Hd Hadj). rewrite Hvis in Hclosed.
        apply in_app_or in Hclosed. destruct Hclosed as [Hin | Hin]; [| exact Hin].
        exfalso. apply in_concat_fills in Hin. destruct Hin as (f & Hf & Hdf).
        destruct (Hcomp f Hf) as ((_ & _ & Hcl) & _).
        assert (Hcf : In c (snd f)).
        { apply (Hcl d c Hdf); [apply Hlinked, Hc |].
          rewrite adjacent_sym. exact Hadj. }
        apply (NoDup_app_apart _ _ c Hnd'); [| exact Hc].
        apply in_concat_fills. exists f. auto. }
    assert (Hfills : List.concat (map snd (fills ++ [(k, done)])) = visited st).
    { rewrite map_app, concat_app. simpl. rewrite app_nil_r. symmetry. exact Hvis. }
    assert (Hinv' : forall boxes,
      boxes = findingsOf table grid g (fills ++ [(k, done)]) ->
      clusterInv table grid g (S k) (fills ++ [(k, done)])
        (Some (visited st, boxes))).
    { intros boxes ->. unfold clusterInv. rewrite Hfills.
      split; [reflexivity |]. split; [exact Hnd' |]. split.
      - intros f Hf. apply in_app_or in Hf. destruct Hf as [Hf | [<- | []]];
          [apply Hcomp, Hf | exact Hdone].
      - intros i Hi Hli. rewrite Hvis. apply in_or_app.
        destruct (Nat.eq_dec i k) as [-> | Hne]; [right; exact Hseed | left].
        apply Hcover; [lia | exact Hli]. }
    exists (fills ++ [(k, done)]).
    unfold findingsOf in *. rewrite flat_map_app in Hinv'. simpl in Hinv'.
    rewrite app_nil_r in Hinv'. unfold findingOf in Hinv'.
    rewrite <- Htot, <- HpT, <- Hx0, <- Hx1, <- Hy0, <- Hy1 in Hinv'.
    destruct (totalPixels st <? 8) eqn:E8.
    + apply Hinv'. rewrite app_nil_r. reflexivity.
    + apply Nat.ltb_ge in E8.
      pose proof (dominant_first_max (profileTotals st)) as Hdom.
      destruct (dominant (profileTotals st)) as [[k0 v0] |].
      * destruct Hdom as (before & after & Hsplit & _).
        assert (Hkey : In k0 (map fst (profileTotals st))).
        { rewrite Hsplit, map_app. apply in_or_app. right. left. reflexivity. }
        rewrite HpT in Hkey.
        destruct (mergeTallies_label g h pixels grid grid_ok k0 done Hkey)
          as (p & Hp & Elab).
        specialize (labels_ok p Hp). rewrite Elab in labels_ok.
        destruct (findProfile_label table k0 labels_ok) as (prof & Ef & _).
        simpl fst in *. rewrite Ef in *. apply Hinv'. reflexivity.
      * exfalso.
        pose proof (mergeTallies_sum g h pixels grid grid_ok done) as Hsum.
        rewrite <- HpT, <- Htot, Hdom in Hsum. unfold sumTally in Hsum.
        simpl in Hsum. lia.
Qed.

Lemma clusterLoop_inv (n : nat) :
  n <= g * h ->
  exists fills,
    clusterInv table grid g n fills
      (fold_left (clusterStep table grid g h)
         (map (fun i => (col g i, row g i)) (seq 0 n)) (Some ([], []))).
Proof.
  induction n as [| n IH]; intros Hn.
  - exists []. simpl. unfold clusterInv. simpl.
    split; [reflexivity |]. split; [constructor |]. split.
    + intros f [].
    + intros i Hi. lia.
  - destruct IH as (fills & Hinv); [lia |].
    rewrite seq_S, map_app, fold_left_app. simpl.
    apply (clusterStep_inv n fills); [lia | exact Hinv].
Qed.

End Cluster.

(** [clusterDetections] returns, without raising, one Finding for every
    connected component of the live cells that holds at least 8 matched
    pixels, and the flood fills partition the live cells. *)
Lemma clusterDetections_fills (table : list Profile)
  (pixels : list MatchedPixel) (width height : nat) :
  let g := ceilDiv width GRID in
  let h := ceilDiv height GRID in
  (forall p, In p pixels -> cellIndex g p < g * h) ->
  (forall p, In p pixels -> In (label (profile p)) (map label table)) ->
  exists grid fills,
    buildGrid pixels g h = Some grid /\
    gridInv g h pixels grid /\
    clusterDetections table pixels width height
    = Some (findingsOf table grid g fills) /\
    NoDup (List.concat (map snd fills)) /\
    (forall f, In f fills -> component g grid (snd f) /\ In (fst f) (snd f)) /\
    (forall i, live grid i = true -> In i (List.concat (map snd fills))).
Proof.
  intros g h Hin Hlab.
  destruct (buildGrid_total pixels g h Hin) as (grid & Hgrid).
  pose proof (buildGrid_inv pixels g h grid Hgrid) as Hok.
  destruct (clusterLoop_inv table g h pixels grid Hok Hlab (g * h) (le_n _))
    as (fills & Hacc & Hnd & Hcomp & Hcover).
  exists grid, fills.
  split; [exact Hgrid |]. split; [exact Hok |]. split; [| split; [exact Hnd |]].
  - unfold clusterDetections. fold g h. rewrite Hgrid, rasterCells_indices, Hacc.
    reflexivity.
  - split; [exact Hcomp |].
    intros i Hi. apply Hcover; [| exact Hi].
    destruct Hok as (Hlen & _). rewrite <- Hlen. apply live_lt, Hi.
Qed.

(** ** Connected groups of cells *)

Lemma linked_live (g : nat) (grid : list Cell) (a b : nat) :
  linked g grid a b -> live grid a = true /\ live grid b = true.
Proof.
  induction 1 as [a Ha | a b c Hab IH Hadj Hc]; [auto |].
  split; [apply IH | exact Hc].
Qed.

Lemma linked_trans (g : nat) (grid : list Cell) (a b c : nat) :
  linked g grid a b -> linked g grid b c -> linked g grid a c.
Proof.
  intros Hab Hbc. induction Hbc as [b Hb | b c d Hbc IH Hadj Hd].
  - exact Hab.
  - apply linked_next with c; auto.
Qed.

Lemma linked_sym (g : nat) (grid : list Cell) (a b : nat) :
  linked g grid a b -> linked g grid b a.
Proof.
  induction 1 as [a Ha | a b c Hab IH Hadj Hc].
  - constructor. exact Ha.
  - apply linked_trans with b; [| exact IH].
    apply linked_next with c.
    + constructor. exact Hc.
    + rewrite adjacent_sym. exact Hadj.
    + apply (linked_live _ _ _ _ Hab).
Qed.

(** A component holds every cell linked to one of its cells. *)
Lemma component_closed (g : nat) (grid : list Cell) (cells : list nat)
  (a b : nat) :
  component g grid cells -> In a cells -> linked g grid a b -> In b cells.
Proof.
  intros (_ & _ & Hcl) Ha Hab.
  induction Hab as [a Hlive | a b c Hab IH Hadj Hc]; [exact Ha |].
  apply (Hcl b c); auto.
Qed.

Lemma component_linked (g : nat) (grid : list Cell) (cells : list nat)
  (a b : nat) :
  component g grid cells -> In a cells -> In b cells -> linked g grid a b.
Proof.
  intros (_ & (s & Hs & Hall) & _) Ha Hb.
  apply linked_trans with s; [apply linked_sym |]; apply Hall; assumption.
Qed.

(** In a chained list of live cells, every cell is linked to the first. *)
Lemma chainedFrom_linked (g : nat) (grid : list Cell) (a0 : nat)
  (seen rest : list nat) :
  chainedFrom g seen rest = true ->
  (forall c, In c (seen ++ rest) -> live grid c = true) ->
  (forall c, In c seen -> linked g grid a0 c) ->
  forall c, In c (seen ++ rest) -> linked g grid a0 c.
Proof.
  revert seen. induction rest as [| r rest IH]; intros seen Hch Hlive Hseen c Hc.
  - rewrite app_nil_r in Hc. apply Hseen, Hc.
  - simpl in Hch. apply andb_true_iff in Hch. destruct Hch as [Hadj Hch].
    apply existsb_exists in Hadj. destruct Hadj as (s & Hs & Hadj).
    assert (E : seen ++ r :: rest = (seen ++ [r]) ++ rest)
      by (rewrite <- app_assoc; reflexivity).
    rewrite E in Hc, Hlive. apply (IH (seen ++ [r])); auto.
    intros x Hx. apply in_app_or in Hx. destruct Hx as [Hx | [<- | []]].
    + apply Hseen, Hx.
    + apply linked_next with s; [apply Hseen, Hs | exact Hadj |].
      apply Hlive. apply in_or_app. left. apply in_or_app. right. left.
      reflexivity.
Qed.

Lemma chained_linked (g : nat) (grid : list Cell) (cells : list nat) :
  chained g cells = true ->
  (forall c, In c cells -> live grid c = true) ->
  forall a b, In a cells -> In b cells -> linked g grid a b.
Proof.
  intros Hch Hlive a b Ha Hb. destruct cells as [| a0 rest]; [discriminate |].
  assert (H0 : forall c, In c (a0 :: rest) -> linked g grid a0 c).
  { apply (chainedFrom_linked g grid a0 [a0] rest Hch Hlive).
    intros c [<- | []]. constructor. apply Hlive. left. reflexivity. }
  apply linked_trans with a0; [apply linked_sym |]; apply H0; assumption.
Qed.

Lemma apart_spec (g : nat) (A B : list nat) (a b : nat) :
  apart g A B = true -> In a A -> In b B ->
  a <> b /\ adjacent g a b = false.
Proof.
  unfold apart. rewrite forallb_forall. intros H Ha Hb.
  specialize (H a Ha). rewrite forallb_forall in H. specialize (H b Hb).
  apply andb_true_iff in H. destruct H as [H1 H2].
  apply negb_true_iff in H1, H2. apply Nat.eqb_neq in H1. auto.
Qed.

Lemma apart_sym (g : nat) (A B : list nat) :
  apart g A B = true -> apart g B A = true.
Proof.
  intros H. unfold apart. rewrite forallb_forall. intros b Hb.
  rewrite forallb_forall. intros a Ha.
  destruct (apart_spec g A B a b H Ha Hb) as [Hne Hadj].
  rewrite adjacent_sym, Hadj. simpl. rewrite andb_true_r.
  apply negb_true_iff, Nat.eqb_neq. auto.
Qed.

Section TwoGroups.

Variables (g : nat) (grid : list Cell) (A B : list nat).
Hypothesis live_groups : forall i, live grid i = true <-> In i A \/ In i B.
Hypothesis A_chained : chained g A = true.
Hypothesis AB_apart : apart g A B = true.

(** Whatever is linked to a cell of [A] is a cell of [A]. *)
Lemma linked_stays (a c : nat) : In a A -> linked g grid a c -> In c A.
Proof.
  intros Ha Hac. induction Hac as [a Hlive | a b c Hab IH Hadj Hc]; [exact Ha |].
  specialize (IH Ha). apply live_groups in Hc. destruct Hc as [Hc | Hc]; [exact Hc |].
  destruct (apart_spec g A B b c AB_apart IH Hc) as [_ Hno]. congruence.
Qed.

(** A component that meets [A] has exactly the cells of [A]. *)
Lemma component_is_group (cells : list nat) (a : nat) :
  component g grid cells -> In a cells -> In a A ->
  forall i, In i cells <-> In i A.
Proof.
  intros Hcomp Hac HaA i. split.
  - intros Hi. apply (linked_stays a); [exact HaA |].
    apply (component_linked g grid cells); assumption.
  - intros Hi. apply (component_closed g grid cells a); [exact Hcomp | exact Hac |].
    apply chained_linked with A; auto.
    intros c Hc. apply live_groups. left. exact Hc.
Qed.

End TwoGroups.

(** ** The Finding of a flood fill *)

Lemma minOver_spec (f : nat -> nat) (cells : list nat) (init : nat) :
  minOver f cells init <= init /\
  (forall c, In c cells -> minOver f cells init <= f c) /\
  (minOver f cells init = init \/
   exists c, In c cells /\ minOver f cells init = f c).
Proof.
  unfold minOver. revert init.
  induction cells as [| x cells IH]; intros init; simpl.
  - split; [lia |]. split; [intros c [] | left; reflexivity].
  - destruct (IH (Nat.min init (f x))) as (H1 & H2 & H3).
    split; [lia |]. split.
    + intros c [<- | Hc]; [lia | apply H2, Hc].
    + destruct H3 as [H3 | (c & Hc & H3)].
      * destruct (Nat.min_spec init (f x)) as [[_ E] | [_ E]].
        -- left. rewrite H3. exact E.
        -- right. exists x. split; [left; reflexivity | rewrite H3; exact E].
      * right. exists c. split; [right; exact Hc | exact H3].
Qed.

Lemma maxOver_spec (f : nat -> nat) (cells : list nat) (init : nat) :
  init <= maxOver f cells init /\
  (forall c, In c cells -> f c <= maxOver f cells init) /\
  (maxOver f cells init = init \/
   exists c, In c cells /\ maxOver f cells init = f c).
Proof.
  unfold maxOver. revert init.
  induction cells as [| x cells IH]; intros init; simpl.
  - split; [lia |]. split; [intros c [] | left; reflexivity].
  - destruct (IH (Nat.max init (f x))) as (H1 & H2 & H3).
    split; [lia |]. split.
    + intros c [<- | Hc]; [lia | apply H2, Hc].
    + destruct H3 as [H3 | (c & Hc & H3)].
      * destruct (Nat.max_spec init (f x)) as [[_ E] | [_ E]].
        -- right. exists x. split; [left; reflexivity | rewrite H3; exact E].
        -- left. rewrite H3. exact E.
      * right. exists c. split; [right; exact Hc | exact H3].
Qed.

Lemma pixelsIn_ext (g : nat) (cells cells' : list nat)
  (pixels : list MatchedPixel) :
  (forall i, In i cells <-> In i cells') ->
  pixelsIn g cells pixels = pixelsIn g cells' pixels.
Proof.
  intros H. unfold pixelsIn. apply filter_ext. intros p.
  destruct (has (cellIndex g p) cells) eqn:E.
  - symmetry. apply has_In, H, has_In, E.
  - symmetry. apply has_not_In. rewrite <- H. apply has_not_In, E.
Qed.

Lemma boundingBox_ext (g : nat) (cells cells' : list nat) (f : Finding) :
  (forall i, In i cells <-> In i cells') ->
  boundingBox g cells f -> boundingBox g cells' f.
Proof.
  intros H (H0 & (c1 & I1 & E1) & (c2 & I2 & E2) & (c3 & I3 & E3)
            & (c4 & I4 & E4)).
  split; [intros c Hc; apply H0, H, Hc |].
  split; [exists c1 | split; [exists c2 | split; [exists c3 | exists c4]]];
    (split; [apply H; assumption | assumption]).
Qed.

Section FindingOf.

Variables (table : list Profile) (g h : nat) (pixels : list MatchedPixel).
Variable grid : list Cell.
Hypothesis grid_ok : gridInv g h pixels grid.
Hypothesis labels_ok :
  forall p, In p pixels -> In (label (profile p)) (map label table).

Lemma findingOf_small (seed : nat) (cells : list nat) :
  NoDup cells -> List.length (pixelsIn g cells pixels) < 8 ->
  findingOf table grid g seed cells = [].
Proof.
  intros Hnd Hlt. unfold findingOf.
  rewrite (sumCounts_pixels g h pixels grid grid_ok cells Hnd).
  apply Nat.ltb_lt in Hlt. rewrite Hlt. reflexivity.
Qed.

(** A flood fill that gathered at least 8 matched pixels emits one Finding:
    its box is the bounding box of the cells, its pixel count is the number
    of matched pixels in them, and its label is the first entry of greatest
    tally among the merged tallies, every tally being the number of matched
    pixels of its label in the cells. *)
Lemma findingOf_emits (seed : nat) (cells : list nat) :
  NoDup cells -> In seed cells ->
  8 <= List.length (pixelsIn g cells pixels) ->
  exists f v before after prof,
    findingOf table grid g seed cells = [f] /\
    boundingBox g cells f /\
    fpixels f = List.length (pixelsIn g cells pixels) /\
    mergeTallies grid cells = before ++ (flabel f, v) :: after /\
    (forall e, In e before -> snd e < v) /\
    (forall e, In e after -> snd e <= v) /\
    (forall k, List.length (pixelsOf k (pixelsIn g cells pixels))
               = tallyOf k (mergeTallies grid cells)) /\
    v = List.length (pixelsOf (flabel f) (pixelsIn g cells pixels)) /\
    In prof table /\ label prof = flabel f /\ color prof = fcolor f /\
    severity prof = fseverity f /\ hatchStyle prof = fhatchStyle f.
Proof.
  intros Hnd Hseed H8. unfold findingOf.
  pose proof (sumCounts_pixels g h pixels grid grid_ok cells Hnd) as Hsum.
  rewrite Hsum.
  apply Nat.ltb_ge in H8. rewrite H8. apply Nat.ltb_ge in H8.
  pose proof (dominant_first_max (mergeTallies grid cells)) as Hdom.
  destruct (dominant (mergeTallies grid cells)) as [[k v] |].
  - destruct Hdom as (before & after & Hsplit & Hb & Ha).
    assert (Hkey : In k (map fst (mergeTallies grid cells))).
    { rewrite Hsplit, map_app. apply in_or_app. right. left. reflexivity. }
    destruct (mergeTallies_label g h pixels grid grid_ok k cells Hkey)
      as (p & Hp & Elab).
    pose proof (labels_ok p Hp) as Hlab. rewrite Elab in Hlab.
    destruct (findProfile_label table k Hlab) as (prof & Ef & El & Hin).
    simpl fst. rewrite Ef.
    eexists. exists v, before, after, prof.
    split; [reflexivity |]. simpl.
    assert (Htally : forall k', List.length (pixelsOf k' (pixelsIn g cells pixels))
                                = tallyOf k' (mergeTallies grid cells)).
    { intros k'. symmetry.
      apply (mergeTallies_pixels g h pixels grid grid_ok k' cells Hnd). }
    split; [| rewrite El; repeat split; auto].
    + (* the bounding box *)
      destruct (minOver_spec (col g) cells (col g seed)) as (X1 & X2 & X3).
      destruct (maxOver_spec (col g) cells (col g seed)) as (X4 & X5 & X6).
      destruct (minOver_spec (row g) cells (row g seed)) as (Y1 & Y2 & Y3).
      destruct (maxOver_spec (row g) cells (row g seed)) as (Y4 & Y5 & Y6).
      set (x0 := minOver (col g) cells (col g seed)) in *.
      set (x1 := maxOver (col g) cells (col g seed)) in *.
      set (y0 := minOver (row g) cells (row g seed)) in *.
      set (y1 := maxOver (row g) cells (row g seed)) in *.
      unfold boundingBox, GRID. simpl.
      split; [| split; [| split; [| split]]].
      * intros c Hc. specialize (X2 c Hc). specialize (X5 c Hc).
        specialize (Y2 c Hc). specialize (Y5 c Hc). lia.
      * destruct X3 as [E | (c & Hc & E)];
          [exists seed | exists c]; split; auto; lia.
      * destruct X6 as [E | (c & Hc & E)];
          [exists seed | exists c]; split; auto; lia.
      * destruct Y3 as [E | (c & Hc & E)];
          [exists seed | exists c]; split; auto; lia.
      * destruct Y6 as [E | (c & Hc & E)];
          [exists seed | exists c]; split; auto; lia.
    + rewrite Htally. symmetry. apply tallyOf_entry.
      * apply (mergeTallies_keys_NoDup g h pixels grid grid_ok).
      * rewrite Hsplit. apply in_or_app. right. left. reflexivity.
  - exfalso.
    pose proof (mergeTallies_sum g h pixels grid grid_ok cells) as Hs.
    rewrite Hdom, Hsum in Hs. unfold sumTally in Hs. simpl in Hs. lia.
Qed.

End FindingOf.

(** ** Two separate groups *)

Lemma chained_nonempty (g : nat) (cells : list nat) :
  chained g cells = true -> exists c, In c cells.
Proof.
  destruct cells as [| c rest]; [discriminate |].
  intros _. exists c. left. reflexivity.
Qed.

Section TwoFills.

Variables (g : nat) (grid : list Cell) (A B : list nat).
Variable fills : list (nat * list nat).
Hypothesis live_groups : forall i, live grid i = true <-> In i A \/ In i B.
Hypothesis A_chained : chained g A = true.
Hypothesis B_chained : chained g B = true.
Hypothesis AB_apart : apart g A B = true.
Hypothesis fills_components :
  forall f, In f fills -> component g grid (snd f) /\ In (fst f) (snd f).

Let same (cells group : list nat) : Prop :=
  forall i, In i cells <-> In i group.

Lemma fill_is_group (f : nat * list nat) :
  In f fills -> same (snd f) A \/ same (snd f) B.
Proof.
  intros Hf. destruct (fills_components f Hf) as [Hcomp Hseed].
  assert (Hlive : live grid (fst f) = true).
  { apply (linked_live g grid (fst f) (fst f)).
    apply (component_linked g grid (snd f)); assumption. }
  apply live_groups in Hlive. unfold same. destruct Hlive as [HA | HB].
  - left. apply (component_is_group g grid A B live_groups A_chained AB_apart
                   (snd f) (fst f)); assumption.
  - right.
    apply (component_is_group g grid B A) with (a := fst f); try assumption.
    + intros i. rewrite live_groups. tauto.
    + apply apart_sym, AB_apart.
Qed.

End TwoFills.

(** The flood fills are two, one per group. *)
Lemma two_fills (g : nat) (grid : list Cell) (A B : list nat)
  (fills : list (nat * list nat)) :
  (forall i, live grid i = true <-> In i A \/ In i B) ->
  chained g A = true -> chained g B = true -> apart g A B = true ->
  NoDup (List.concat (map snd fills)) ->
  (forall f, In f fills -> component g grid (snd f) /\ In (fst f) (snd f)) ->
  (forall i, live grid i = true -> In i (List.concat (map snd fills))) ->
  exists fa fb,
    (fills = [fa; fb] \/ fills = [fb; fa]) /\
    (forall i, In i (snd fa) <-> In i A) /\
    (forall i, In i (snd fb) <-> In i B).
Proof.
  intros live_groups A_chained B_chained AB_apart fills_apart fills_components
    fills_cover.
  pose (same := fun cells group : list nat =>
                  forall i, In i cells <-> In i group).
  pose proof (fill_is_group g grid A B fills live_groups A_chained B_chained
                AB_apart fills_components) as fill_is_group.
  destruct (chained_nonempty g A A_chained) as (a & Ha).
  destruct (chained_nonempty g B B_chained) as (b & Hb).
  assert (Hca : In a (List.concat (map snd fills)))
    by (apply fills_cover, live_groups; left; exact Ha).
  assert (Hcb : In b (List.concat (map snd fills)))
    by (apply fills_cover, live_groups; right; exact Hb).
  assert (Hsame : forall (f1 f2 : nat * list nat) G rest,
            same (snd f1) G -> same (snd f2) G -> (exists c, In c G) ->
            NoDup (snd f1 ++ rest) -> (forall c, In c (snd f2) -> In c rest) ->
            False).
  { intros f1 f2 G rest H1 H2 (c & Hc) Hnd Hin.
    apply (NoDup_app_apart _ _ c Hnd); [apply H1, Hc | apply Hin, H2, Hc]. }
  destruct fills as [| f1 [| f2 [| f3 rest]]].
  - destruct Hca.
  - (* one fill cannot hold both groups *)
    exfalso. simpl in Hca, Hcb. rewrite app_nil_r in Hca, Hcb.
    destruct (fill_is_group f1 (or_introl eq_refl)) as [H1 | H1].
    + apply H1 in Hcb. destruct (apart_spec g A B b b AB_apart Hcb Hb). congruence.
    + apply H1 in Hca. destruct (apart_spec g A B a a AB_apart Ha Hca). congruence.
  - simpl in fills_apart. rewrite app_nil_r in fills_apart.
    destruct (fill_is_group f1 (or_introl eq_refl)) as [H1 | H1];
      destruct (fill_is_group f2 (or_intror (or_introl eq_refl))) as [H2 | H2].
    + exfalso. apply (Hsame f1 f2 A (snd f2)); eauto.
    + exists f1, f2. auto.
    + exists f2, f1. auto.
    + exfalso. apply (Hsame f1 f2 B (snd f2)); eauto.
  - (* of three fills, two would hold the same group *)
    exfalso. simpl in fills_apart.
    assert (Hnd23 : NoDup (snd f2 ++ snd f3 ++ List.concat (map snd rest)))
      by (apply NoDup_app_remove_l in fills_apart; exact fills_apart).
    assert (I12 : forall c, In c (snd f2) ->
              In c (snd f2 ++ snd f3 ++ List.concat (map snd rest)))
      by (intros c Hc; apply in_or_app; left; exact Hc).
    assert (I13 : forall c, In c (snd f3) ->
              In c (snd f2 ++ snd f3 ++ List.concat (map snd rest)))
      by (intros c Hc; apply in_or_app; right; apply in_or_app; left; exact Hc).
    assert (I23 : forall c, In c (snd f3) ->
              In c (snd f3 ++ List.concat (map snd rest)))
      by (intros c Hc; apply in_or_app; left; exact Hc).
    destruct (fill_is_group f1 (or_introl eq_refl)) as [H1 | H1];
      destruct (fill_is_group f2 (or_intror (or_introl eq_refl))) as [H2 | H2];
      destruct (fill_is_group f3 (or_intror (or_intror (or_introl eq_refl))))
        as [H3 | H3];
      first [ apply (Hsame f1 f2 A _ H1 H2 (ex_intro _ a Ha) fills_apart I12)
            | apply (Hsame f1 f2 B _ H1 H2 (ex_intro _ b Hb) fills_apart I12)
            | apply (Hsame f1 f3 A _ H1 H3 (ex_intro _ a Ha) fills_apart I13)
            | apply (Hsame f1 f3 B _ H1 H3 (ex_intro _ b Hb) fills_apart I13)
            | apply (Hsame f2 f3 A _ H2 H3 (ex_intro _ a Ha) Hnd23 I23)
            | apply (Hsame f2 f3 B _ H2 H3 (ex_intro _ b Hb) Hnd23 I23) ].
Qed.


(** C8.  When the active cells of the cluster grid (at least 3 matched
    pixels) are the cells of two groups [A] and [B], each 4-connected and
    holding at least 8 matched pixels, and no cell of one group is a cell of
    the other or 4-adjacent to one (as when more than one empty cell lies
    between them), [clusterDetections] returns exactly two Findings: one
    whose box is the bounding box of [A] and one whose box is the bounding
    box of [B], each with the pixel count of its own group. *)
Theorem separate_groups_two_findings (table : list Profile)
  (pixels : list MatchedPixel) (width height : nat) (A B : list nat) :
  let g := ceilDiv width GRID in
  let h := ceilDiv height GRID in
  (forall p, In p pixels -> cellIndex g p < g * h) ->
  (forall p, In p pixels -> In (label (profile p)) (map label table)) ->
  (forall i, In i A \/ In i B <->
             i < g * h /\ THRESHOLD <= List.length (pixelsAt g i pixels)) ->
  chained g A = true -> chained g B = true -> apart g A B = true ->
  8 <= List.length (pixelsIn g A pixels) ->
  8 <= List.length (pixelsIn g B pixels) ->
  exists fA fB,
    (clusterDetections table pixels width height = Some [fA; fB] \/
     clusterDetections table pixels width height = Some [fB; fA]) /\
    boundingBox g A fA /\ boundingBox g B fB /\
    fpixels fA = List.length (pixelsIn g A pixels) /\
    fpixels fB = List.length (pixelsIn g B pixels).
Proof.
  intros g h Hin Hlab Hactive HA HB Hapart HA8 HB8.
  destruct (clusterDetections_fills table pixels width height Hin Hlab)
    as (grid & fills & Hgrid & Hok & Hres & Hnd & Hcomp & Hcover).
  fold g h in Hgrid, Hok, Hcomp, Hcover, Hres.
  assert (Hlive : forall i, live grid i = true <-> In i A \/ In i B).
  { intros i. rewrite Hactive. unfold live, active.
    destruct Hok as (Hlen & _ & Hcell). destruct (Hcell i) as (Hc & _).
    rewrite andb_true_iff, Nat.ltb_lt, Nat.leb_le, Hlen, Hc. reflexivity. }
  destruct (two_fills g grid A B fills Hlive HA HB Hapart Hnd Hcomp Hcover)
    as (fa & fb & Hfills & HsA & HsB).
  assert (Hfa : In fa fills /\ In fb fills).
  { destruct Hfills as [-> | ->]; simpl; auto. }
  destruct Hfa as [Hfa Hfb].
  destruct (Hcomp fa Hfa) as ((NdA & _) & SeedA).
  destruct (Hcomp fb Hfb) as ((NdB & _) & SeedB).
  rewrite <- (pixelsIn_ext g (snd fa) A pixels HsA) in HA8 |- *.
  rewrite <- (pixelsIn_ext g (snd fb) B pixels HsB) in HB8 |- *.
  destruct (findingOf_emits table g h pixels grid Hok Hlab (fst fa) (snd fa)
              NdA SeedA HA8) as (fA & _ & _ & _ & _ & EA & BA & PA & _).
  destruct (findingOf_emits table g h pixels grid Hok Hlab (fst fb) (snd fb)
              NdB SeedB HB8) as (fB & _ & _ & _ & _ & EB & BB & PB & _).
  exists fA, fB. split; [| split; [| split; [| split]]].
  - rewrite Hres. unfold findingsOf.
    destruct Hfills as [-> | ->]; cbn [flat_map]; rewrite EA, EB; auto.
  - apply (boundingBox_ext g (snd fa)); assumption.
  - apply (boundingBox_ext g (snd fb)); assumption.
  - exact PA.
  - exact PB.
Qed.

Lemma separate_groups_two_findings_witness :
  exists fA fB,
    (clusterDetections Flash.BLOOD_PROFILES twoGroupPixels 60 12
     = Some [fA; fB] \/
     clusterDetections Flash.BLOOD_PROFILES twoGroupPixels 60 12
     = Some [fB; fA]) /\
    boundingBox 5 [0; 1] fA /\ boundingBox 5 [4] fB /\
    fpixels fA = 8 /\ fpixels fB = 8.
Proof.
  apply (separate_groups_two_findings Flash.BLOOD_PROFILES twoGroupPixels
           60 12 [0; 1] [4]).
  - intros p Hp. apply Nat.ltb_lt. revert p Hp. apply forallb_forall.
    reflexivity.
  - intros p Hp.
    assert (E : existsb (String.eqb (label (profile p)))
                  (map label Flash.BLOOD_PROFILES) = true)
      by (revert p Hp; apply forallb_forall; reflexivity).
    apply existsb_exists in E. destruct E as (k & Hk & E).
    apply String.eqb_eq in E. rewrite E. exact Hk.
  - intros i. do 5 (destruct i as [| i]; [vm_compute; intuition lia |]).
    vm_compute. intuition lia.
  - reflexivity.
  - reflexivity.
  - reflexivity.
  - vm_compute. lia.
  - vm_compute. lia.
Defined.

(** The two Findings of the example, as computed. *)
Example two_groups_computed :
  option_map (map (fun f => (fx f, fy f, fw f, fh f, flabel f, fpixels f)))
    (Flash.clusterDetections twoGroupPixels 60 12)
  = Some [(0, 0, 24, 12, "Bright Red", 8); (48, 0, 12, 12, "Maroon", 8)].
Proof. reflexivity. Qed.

(** Two groups that touch are merged into one box. *)
Example touching_groups_merged :
  option_map (map (fun f => (fx f, fy f, fw f, fh f, flabel f, fpixels f)))
    (Flash.clusterDetections
       (patch 0 0 4 1 brightRed ++ patch 12 0 4 2 maroon) 60 12)
  = Some [(0, 0, 24, 12, "Maroon", 12)].
Proof. reflexivity. Qed.

(** ** The order of the tallies *)

Lemma mem_In (k : string) (l : list string) :
  existsb (String.eqb k) l = true <-> In k l.
Proof.
  rewrite existsb_exists. split.
  - intros (x & Hx & E). apply String.eqb_eq in E. subst. exact Hx.
  - intros H. exists k. split; [exact H | apply String.eqb_refl].
Qed.

Lemma mem_not_In (k : string) (l : list string) :
  existsb (String.eqb k) l = false <-> ~ In k l.
Proof. rewrite <- mem_In. symmetry. apply not_true_iff_false. Qed.

Lemma firstSeen_fold (l : list string) : firstSeen l = fold_left see l [].
Proof. reflexivity. Qed.

(** The labels seen from [acc] on are [acc], then the labels first seen
    that are not in [acc]. *)
Lemma see_fold (l acc : list string) :
  fold_left see l acc
  = acc ++ filter (fun k => negb (existsb (String.eqb k) acc)) (firstSeen l).
Proof.
  rewrite firstSeen_fold.
  induction l as [| k l IH] using rev_ind; simpl.
  - rewrite app_nil_r. reflexivity.
  - rewrite !fold_left_app. simpl. rewrite IH. unfold see at 1 3.
    set (F := fold_left see l []).
    set (keep := fun k0 => negb (existsb (String.eqb k0) acc)).
    rewrite existsb_app.
    destruct (existsb (String.eqb k) F) eqn:EF.
    + destruct (existsb (String.eqb k) acc) eqn:EA; simpl; [reflexivity |].
      assert (E : existsb (String.eqb k) (filter keep F) = true).
      { apply mem_In, filter_In. split; [apply mem_In, EF |].
        unfold keep. rewrite EA. reflexivity. }
      rewrite E. reflexivity.
    + assert (E : existsb (String.eqb k) (filter keep F) = false).
      { apply mem_not_In. intros H. apply filter_In in H.
        apply mem_not_In in EF. tauto. }
      rewrite E, orb_false_r, filter_app. cbn [filter].
      replace (keep k) with (negb (existsb (String.eqb k) acc)) by reflexivity.
      destruct (existsb (String.eqb k) acc); cbn [negb];
        rewrite ?app_nil_r, ?app_assoc; reflexivity.
Qed.

Lemma see_NoDup (l acc : list string) :
  NoDup acc -> NoDup (fold_left see l acc).
Proof.
  revert acc. induction l as [| k l IH]; intros acc H; simpl; [exact H |].
  apply IH. unfold see. destruct (existsb (String.eqb k) acc) eqn:E; [exact H |].
  apply NoDup_app; [exact H | repeat constructor; intros [] |].
  intros x Hx [<- | []]. apply mem_not_In in E. contradiction.
Qed.

Lemma firstSeen_NoDup (l : list string) : NoDup (firstSeen l).
Proof. apply see_NoDup. constructor. Qed.

(** A list without repetition is seen as it is. *)
Lemma see_distinct (l acc : list string) :
  NoDup (acc ++ l) -> fold_left see l acc = acc ++ l.
Proof.
  revert acc. induction l as [| k l IH]; intros acc H; simpl.
  - rewrite app_nil_r. reflexivity.
  - assert (E : existsb (String.eqb k) acc = false).
    { apply mem_not_In. intros Hin.
      apply (NoDup_app_apart acc (k :: l) k H Hin). left. reflexivity. }
    unfold see at 2. rewrite E. rewrite IH; rewrite <- app_assoc; [reflexivity |].
    exact H.
Qed.

(** Seeing the labels of a list, or them once each in the order of their
    first occurrence, is the same. *)
Lemma see_firstSeen (l acc : list string) :
  fold_left see (firstSeen l) acc = fold_left see l acc.
Proof.
  rewrite (see_fold l acc), (see_fold (firstSeen l) acc). f_equal. f_equal.
  rewrite firstSeen_fold at 1. apply (see_distinct (firstSeen l) []).
  apply firstSeen_NoDup.
Qed.

Lemma addAll_keys (o pT : Tally) :
  map fst (addAll o pT) = fold_left see (map fst o) (map fst pT).
Proof.
  unfold addAll. revert pT.
  induction o as [| [k v] o IH]; intros pT; simpl; [reflexivity |].
  rewrite IH, bump_keys. reflexivity.
Qed.

(** The keys of the tally object of a cell are the labels of the pixels of
    the cell, in the order in which the pixel list brings them. *)
Lemma buildGrid_keys (pixels : list MatchedPixel) (g h : nat)
  (grid : list Cell) (i : nat) :
  buildGrid pixels g h = Some grid ->
  map fst (profiles (nth i grid emptyCell))
  = firstSeen (map (fun p => label (profile p)) (pixelsAt g i pixels)).
Proof.
  revert grid. induction pixels as [| p ps IH] using rev_ind; intros grid.
  - unfold buildGrid. cbn. intros [= <-]. rewrite nth_repeat_empty. reflexivity.
  - rewrite buildGrid_snoc. destruct (buildGrid ps g h) as [g0 |]; [| discriminate].
    specialize (IH g0 eq_refl). unfold addPixel.
    destruct (nth_error g0 (cellIndex g p)) as [cell |] eqn:Hnth; [| discriminate].
    intros [= <-].
    assert (Hlt : cellIndex g p < List.length g0)
      by (apply nth_error_Some; congruence).
    assert (Hcell0 : cell = nth (cellIndex g p) g0 emptyCell)
      by (symmetry; apply nth_error_nth, Hnth).
    unfold pixelsAt in *. rewrite filter_app. cbn [filter].
    destruct (Nat.eq_dec (cellIndex g p) i) as [E | E].
    + subst i. rewrite setNth_nth_same by exact Hlt.
      rewrite Nat.eqb_refl. cbn [profiles].
      rewrite map_app, firstSeen_fold, fold_left_app, <- firstSeen_fold, <- IH.
      rewrite bump_keys, <- Hcell0. reflexivity.
    + rewrite setNth_nth_other by exact E.
      apply Nat.eqb_neq in E. rewrite E, app_nil_r. exact IH.
Qed.

(** The keys of the merged tallies of a list of cells are the labels of the
    pixels of those cells, cell after cell, each label once, in the order of
    their first occurrence. *)
Lemma mergeTallies_keys (pixels : list MatchedPixel) (g h : nat)
  (grid : list Cell) (cells : list nat) :
  buildGrid pixels g h = Some grid ->
  map fst (mergeTallies grid cells)
  = firstSeen
      (flat_map (fun c => map (fun p => label (profile p)) (pixelsAt g c pixels))
         cells).
Proof.
  intros Hgrid. unfold mergeTallies. rewrite firstSeen_fold.
  assert (H : forall pT : Tally,
            map fst (fold_left (fun pT ci =>
                       addAll (profiles (nth ci grid emptyCell)) pT) cells pT)
            = fold_left see
                (flat_map (fun c => map (fun p => label (profile p))
                                      (pixelsAt g c pixels)) cells)
                (map fst pT)).
  { induction cells as [| c cells IH]; intros pT; simpl; [reflexivity |].
    rewrite IH, addAll_keys, fold_left_app.
    rewrite (buildGrid_keys pixels g h grid c Hgrid), see_firstSeen.
    reflexivity. }
  apply (H []).
Qed.

(** ** The order of a flood fill *)

(** The neighbours that the flood fill tries, in its order: left, right,
    above, below, those outside the grid left out. *)
Lemma neighbours_nat (g h cx cy : nat) :
  cx < g -> cy < h ->
  neighbours g h cx cy
  = (if 0 <? cx then [cy * g + (cx - 1)] else [])
    ++ (if cx + 1 <? g then [cy * g + (cx + 1)] else [])
    ++ (if 0 <? cy then [(cy - 1) * g + cx] else [])
    ++ (if cy + 1 <? h then [(cy + 1) * g + cx] else []).
Proof.
  intros Hx Hy. unfold neighbours. cbn [flat_map]. rewrite app_nil_r.
  assert (Hcand : forall (nx ny : Z) (x y : nat) (inside : bool),
            (nx = Z.of_nat x -> ny = Z.of_nat y -> inside = true ->
             x < g /\ y < h) ->
            (inside = true -> nx = Z.of_nat x /\ ny = Z.of_nat y) ->
            (inside = false ->
             (nx < 0 \/ ny < 0 \/ Z.of_nat g <= nx \/ Z.of_nat h <= ny)%Z) ->
            (if ((nx <? 0) || (ny <? 0) || (nx >=? Z.of_nat g)
                 || (ny >=? Z.of_nat h))%Z
             then [] else [Z.to_nat (ny * Z.of_nat g + nx)])
            = if inside then [y * g + x] else []).
  { intros nx ny x y inside Hin Heq Hout. destruct inside.
    - destruct (Heq eq_refl) as [-> ->].
      destruct (Hin eq_refl eq_refl eq_refl) as [Hx' Hy'].
      replace ((Z.of_nat x <? 0) || (Z.of_nat y <? 0)
               || (Z.of_nat x >=? Z.of_nat g)
               || (Z.of_nat y >=? Z.of_nat h))%Z%bool with false
        by (symmetry; rewrite !orb_false_iff, !Z.ltb_ge, !Z.geb_leb, !Z.leb_gt;
            lia).
      f_equal. rewrite <- Nat2Z.inj_mul, <- Nat2Z.inj_add. apply Nat2Z.id.
    - replace ((nx <? 0) || (ny <? 0) || (nx >=? Z.of_nat g)
               || (ny >=? Z.of_nat h))%Z%bool with true; [reflexivity |].
      symmetry. rewrite !orb_true_iff, !Z.ltb_lt, !Z.geb_leb, !Z.leb_le.
      specialize (Hout eq_refl). lia. }
  rewrite (Hcand (Z.of_nat cx - 1)%Z (Z.of_nat cy) (cx - 1) cy (0 <? cx)),
    (Hcand (Z.of_nat cx + 1)%Z (Z.of_nat cy) (cx + 1) cy (cx + 1 <? g)),
    (Hcand (Z.of_nat cx) (Z.of_nat cy - 1)%Z cx (cy - 1) (0 <? cy)),
    (Hcand (Z.of_nat cx) (Z.of_nat cy + 1)%Z cx (cy + 1) (cy + 1 <? h));
    try reflexivity;
    try (intros _ _ E; apply Nat.ltb_lt in E; lia);
    try (intros E; apply Nat.ltb_lt in E; lia);
    try (intros E; apply Nat.ltb_ge in E; lia).
Qed.

Lemma side_at (g ci x y : nat) :
  x < g ->
  side g ci (y * g + x)
  = if x + 1 =? col g ci then 0
    else if col g ci + 1 =? x then 1
    else if y + 1 =? row g ci then 2 else 3.
Proof. intros H. unfold side. rewrite cell_col, cell_row by exact H. reflexivity. Qed.

(** The sides of the neighbours tried increase. *)
Lemma neighbours_sides (g h ci : nat) :
  ci < g * h ->
  StronglySorted lt (map (side g ci) (neighbours g h (col g ci) (row g ci))).
Proof.
  intros Hci.
  assert (Hg : 0 < g) by nia.
  pose proof (col_lt g ci Hg) as Hc. pose proof (row_lt g h ci Hci) as Hr.
  rewrite neighbours_nat by assumption.
  set (cx := col g ci) in *. set (cy := row g ci) in *.
  assert (S0 : 0 < cx -> side g ci (cy * g + (cx - 1)) = 0).
  { intros H. rewrite side_at by lia. fold cx.
    replace (cx - 1 + 1 =? cx) with true by (symmetry; apply Nat.eqb_eq; lia).
    reflexivity. }
  assert (S1 : cx + 1 < g -> side g ci (cy * g + (cx + 1)) = 1).
  { intros H. rewrite side_at by lia. fold cx.
    replace (cx + 1 + 1 =? cx) with false by (symmetry; apply Nat.eqb_neq; lia).
    rewrite Nat.eqb_refl. reflexivity. }
  assert (S2 : 0 < cy -> side g ci ((cy - 1) * g + cx) = 2).
  { intros H. rewrite side_at by lia. fold cx cy.
    replace (cx + 1 =? cx) with false by (symmetry; apply Nat.eqb_neq; lia).
    replace (cy - 1 + 1 =? cy) with true by (symmetry; apply Nat.eqb_eq; lia).
    reflexivity. }
  assert (S3 : side g ci ((cy + 1) * g + cx) = 3).
  { rewrite side_at by lia. fold cx cy.
    replace (cx + 1 =? cx) with false by (symmetry; apply Nat.eqb_neq; lia).
    replace (cy + 1 + 1 =? cy) with false by (symmetry; apply Nat.eqb_neq; lia).
    reflexivity. }
  destruct (0 <? cx) eqn:E0; [apply Nat.ltb_lt in E0 |];
    destruct (cx + 1 <? g) eqn:E1; [apply Nat.ltb_lt in E1 | |
                                    apply Nat.ltb_lt in E1 |];
    destruct (0 <? cy) eqn:E2; try apply Nat.ltb_lt in E2;
    destruct (cy + 1 <? h) eqn:E3;
    cbn [app map]; rewrite ?S0, ?S1, ?S2, ?S3 by assumption;
    repeat (constructor; try lia).
Qed.

Lemma firstAdjacent_app (g : nat) (l1 l2 : list nat) (c i : nat) :
  firstAdjacent g (l1 ++ l2) c i
  = match firstAdjacent g l1 c i with
    | Some r => Some r
    | None => firstAdjacent g l2 c (i + List.length l1)
    end.
Proof.
  revert i. induction l1 as [| p l1 IH]; intros i; simpl.
  - rewrite Nat.add_0_r. reflexivity.
  - destruct (adjacent g p c); [reflexivity |].
    rewrite IH. replace (S i + List.length l1) with (i + S (List.length l1)) by lia.
    reflexivity.
Qed.

Lemma firstAdjacent_none (g : nat) (l : list nat) (c i : nat) :
  (forall p, In p l -> adjacent g p c = false) ->
  firstAdjacent g l c i = None.
Proof.
  revert i. induction l as [| p l IH]; intros i H; simpl; [reflexivity |].
  rewrite (H p (or_introl eq_refl)). apply IH. intros q Hq. apply H. right. exact Hq.
Qed.

Lemma StronglySorted_app_lt (l1 l2 : list nat) :
  StronglySorted lt l1 -> StronglySorted lt l2 ->
  (forall a b, In a l1 -> In b l2 -> a < b) ->
  StronglySorted lt (l1 ++ l2).
Proof.
  intros H1 H2 H. induction l1 as [| a l1 IH]; simpl; [exact H2 |].
  inversion H1 as [| ? ? Hs Ha]; subst. constructor.
  - apply IH; [exact Hs |]. intros x y Hx Hy. apply H; [right |]; assumption.
  - apply Forall_app. split; [exact Ha |].
    apply Forall_forall. intros b Hb. apply H; [left; reflexivity | exact Hb].
Qed.

Lemma StronglySorted_shift (n : nat) (l : list nat) :
  StronglySorted lt l -> StronglySorted lt (map (fun s => n + s) l).
Proof.
  induction 1 as [| a l Hs IH Ha]; simpl; constructor; [exact IH |].
  rewrite Forall_forall in *. intros x Hx. apply in_map_iff in Hx.
  destruct Hx as (y & <- & Hy). specialize (Ha y Hy). lia.
Qed.

Section FloodOrder.

Variables (gridW gridH : nat) (grid : list Cell).
Hypothesis grid_length : List.length grid = gridW * gridH.

(** The [forEach] over the neighbours appends the cells it enqueues in the
    order in which it tries them. *)
Lemma enqueue_fold_sorted (f : nat -> nat) (L : list nat) (st : Fill) :
  StronglySorted lt (map f L) ->
  let st' := fold_left (enqueue grid) L st in
  exists new,
    queue st' = queue st ++ new /\
    visited st' = visited st ++ new /\
    StronglySorted lt (map f new) /\
    forall x, In x new ->
      In x L /\ ~ In x (visited st) /\ active grid x = true.
Proof.
  revert st. induction L as [| ni L IH]; intros st Hs; cbn [fold_left].
  - exists []. rewrite !app_nil_r. repeat split; [constructor | | |];
      destruct H.
  - simpl in Hs. inversion Hs as [| ? ? Hs' Hni]; subst.
    destruct (IH (enqueue grid st ni) Hs') as (new & Hq & Hv & Hsn & Hnew).
    destruct (enqueue_cases grid st ni) as [(Hnot & Hact & E) | (Hskip & E)];
      rewrite E in *; clear E.
    + cbn [queue visited] in Hq, Hv, Hnew.
      exists (ni :: new). rewrite <- !app_assoc in Hq, Hv.
      split; [exact Hq |]. split; [exact Hv |]. split.
      * simpl. constructor; [exact Hsn |].
        apply Forall_forall. intros y Hy. apply in_map_iff in Hy.
        destruct Hy as (x & <- & Hx). rewrite Forall_forall in Hni.
        apply Hni, in_map. apply (Hnew x Hx).
      * intros x [<- | Hx].
        -- split; [left; reflexivity | split; assumption].
        -- destruct (Hnew x Hx) as (H1 & H2 & H3).
           split; [right; exact H1 | split; [| exact H3]].
           intros Hin. apply H2, in_or_app. left. exact Hin.
    + exists new. split; [exact Hq |]. split; [exact Hv |].
      split; [exact Hsn |].
      intros x Hx. destruct (Hnew x Hx) as (H1 & H2 & H3).
      split; [right; exact H1 | split; assumption].
Qed.

Variables (V0 : list nat) (seed : nat).

Lemma visitCell_order (done : list nat) (st : Fill) (ci : nat)
  (rest : list nat) :
  fillInv gridW grid V0 seed done st ->
  fillOrderInv gridW seed done st -> queue st = ci :: rest ->
  fillOrderInv gridW seed (done ++ [ci]) (visitCell grid gridW gridH st ci rest).
Proof.
  intros (Hvis & Hnd & _ & Hlive & Hclosed & _)
         (r0 & keys0 & HL & Hkeys & Hsorted & Hfrom & Hpos) Hq.
  rewrite Hq in *.
  assert (Hci : live grid ci = true)
    by (apply Hlive, in_or_app; right; left; reflexivity).
  assert (Hlt : ci < gridW * gridH)
    by (rewrite <- grid_length; apply live_lt, Hci).
  unfold visitCell.
  change (ci mod gridW) with (col gridW ci).
  change (ci / gridW) with (row gridW ci).
  match goal with
  | |- fillOrderInv _ _ _ (fold_left _ ?L ?s) =>
      destruct (enqueue_fold_sorted (side gridW ci) L s
                  (neighbours_sides gridW gridH ci Hlt))
        as (new & Eq & Ev & Esorted & Enew)
  end.
  cbn [queue visited] in Eq, Ev, Enew.
  set (Lz := done ++ ci :: rest) in *.
  assert (Hnewcell : forall d, In d new ->
            adjacent gridW ci d = true /\ live grid d = true /\
            ~ In d (visited st)).
  { intros d Hd. destruct (Enew d Hd) as (H1 & H2 & H3).
    apply neighbours_spec in H1; [| exact Hlt]. destruct H1 as [Hn Hadj].
    split; [exact Hadj |]. split; [| exact H2].
    unfold live. rewrite H3, andb_true_r. apply Nat.ltb_lt.
    rewrite grid_length. exact Hn. }
  assert (Hfound : forall d, In d new ->
            foundFrom gridW (Lz ++ new) d
            = Some (4 * List.length done + side gridW ci d)).
  { intros d Hd. destruct (Hnewcell d Hd) as (Hadj & Hld & Hnot).
    unfold foundFrom, Lz. rewrite <- app_assoc, firstAdjacent_app.
    rewrite firstAdjacent_none.
    - simpl. rewrite Hadj. reflexivity.
    - intros p Hp. apply not_true_iff_false. intros Hpd.
      apply Hnot, (Hclosed p d Hp Hld Hpd). }
  assert (Hold : forall c, In c r0 ->
            foundFrom gridW (Lz ++ new) c = foundFrom gridW Lz c).
  { intros c Hc.
    assert (Hsome : exists k, foundFrom gridW Lz c = Some k).
    { apply (in_map (foundFrom gridW Lz)) in Hc. rewrite Hkeys in Hc.
      apply in_map_iff in Hc. destruct Hc as (k & E & _). exists k. auto. }
    destruct Hsome as (k & Ek). unfold foundFrom in *.
    rewrite firstAdjacent_app.
    destruct (firstAdjacent gridW Lz c 0); [reflexivity | discriminate]. }
  exists (r0 ++ new),
    (keys0 ++ map (fun s => 4 * List.length done + s) (map (side gridW ci) new)).
  rewrite Eq.
  assert (EL : (done ++ [ci]) ++ rest ++ new = Lz ++ new)
    by (unfold Lz; rewrite <- !app_assoc; reflexivity).
  rewrite EL. split; [rewrite HL; reflexivity |]. split; [| split; [| split]].
  - rewrite !map_app. f_equal.
    + rewrite <- Hkeys. apply map_ext_in, Hold.
    + rewrite !map_map. apply map_ext_in, Hfound.
  - apply StronglySorted_app_lt; [exact Hsorted | |].
    + apply StronglySorted_shift, Esorted.
    + intros a b Ha Hb. specialize (Hfrom a Ha).
      apply in_map_iff in Hb. destruct Hb as (s & <- & _). lia.
  - intros k Hk. rewrite length_app. simpl.
    apply in_app_or in Hk. destruct Hk as [Hk | Hk].
    + specialize (Hfrom k Hk). lia.
    + apply in_map_iff in Hk. destruct Hk as (s & <- & Hs).
      apply in_map_iff in Hs. destruct Hs as (d & <- & _).
      assert (side gridW ci d <= 3)
        by (unfold side; repeat destruct (_ =? _); lia).
      lia.
  - intros j Hj. rewrite length_app in Hj.
    destruct (Nat.lt_ge_cases j (List.length keys0)) as [Hlo | Hhi].
    + rewrite app_nth1 by exact Hlo. apply Hpos, Hlo.
    + rewrite app_nth2 by exact Hhi.
      set (newkeys := map (fun s => 4 * List.length done + s)
                        (map (side gridW ci) new)) in *.
      assert (Hin : In (nth (j - List.length keys0) newkeys 0) newkeys)
        by (apply nth_In; lia).
      unfold newkeys in Hin at 2.
      apply in_map_iff in Hin. destruct Hin as (s & <- & Hs).
      apply in_map_iff in Hs. destruct Hs as (d & <- & _).
      assert (side gridW ci d <= 3)
        by (unfold side; repeat destruct (_ =? _); lia).
      assert (Hlen : List.length keys0 = List.length r0).
      { apply (f_equal (@List.length _)) in Hkeys.
        rewrite !length_map in Hkeys. symmetry. exact Hkeys. }
      assert (Hr0 : S (List.length r0) = List.length done + S (List.length rest)).
      { apply (f_equal (@List.length _)) in HL. unfold Lz in HL.
        rewrite length_app in HL. simpl in HL. lia. }
      lia.
Qed.

Lemma floodFill_order_inv (fuel : nat) (done : list nat) (st : Fill) :
  fillInv gridW grid V0 seed done st ->
  fillOrderInv gridW seed done st ->
  gridW * gridH <= fuel + List.length done ->
  exists done',
    fillInv gridW grid V0 seed done' (floodFill fuel grid gridW gridH st) /\
    fillOrderInv gridW seed done' (floodFill fuel grid gridW gridH st) /\
    queue (floodFill fuel grid gridW gridH st) = [].
Proof.
  revert done st. induction fuel as [| fuel IH]; intros done st Hinv Hord Hfuel.
  - cbn [floodFill]. destruct (queue st) as [| ci rest] eqn:Hq.
    + exists done. split; [exact Hinv |]. split; [exact Hord |].
      first [reflexivity | exact Hq].
    + exfalso.
      destruct Hinv as (Hvis & Hnd & _ & Hlive & _).
      rewrite Hvis, Hq in Hnd. apply NoDup_app_remove_l in Hnd.
      apply NoDup_bounded_length with (n := gridW * gridH) in Hnd.
      * rewrite length_app in Hnd. cbn in Hnd. lia.
      * intros x Hx. rewrite <- grid_length. apply live_lt, Hlive.
        rewrite Hq. exact Hx.
  - cbn [floodFill]. destruct (queue st) as [| ci rest] eqn:Hq.
    + exists done. split; [exact Hinv |]. split; [exact Hord |].
      first [reflexivity | exact Hq].
    + apply (IH (done ++ [ci])).
      * apply visitCell_inv; assumption.
      * apply visitCell_order; assumption.
      * rewrite length_app. cbn. lia.
Qed.

(** One flood fill from a live cell not yet visited ends with an empty
    queue, and the cells it adds to the visited set are in the order of
    [fillOrder]. *)
Lemma floodFill_order :
  NoDup V0 -> ~ In seed V0 -> live grid seed = true ->
  exists done,
    fillInv gridW grid V0 seed done
      (floodFill (List.length grid) grid gridW gridH
         (mkFill [seed] (V0 ++ [seed]) (col gridW seed) (col gridW seed)
            (row gridW seed) (row gridW seed) 0 [])) /\
    queue (floodFill (List.length grid) grid gridW gridH
             (mkFill [seed] (V0 ++ [seed]) (col gridW seed) (col gridW seed)
                (row gridW seed) (row gridW seed) 0 [])) = [] /\
    fillOrder gridW seed done.
Proof.
  intros Hnd Hnot Hlive.
  destruct (floodFill_order_inv (List.length grid) []
              (mkFill [seed] (V0 ++ [seed]) (col gridW seed) (col gridW seed)
                 (row gridW seed) (row gridW seed) 0 []))
    as (done & Hinv & (rest & keys & HL & Hkeys & Hsorted & _ & Hpos) & Hq).
  - unfold fillInv. cbn. repeat split; auto.
    + apply NoDup_app; [exact Hnd | repeat constructor; intros [] |].
      intros x Hx [<- | []]. contradiction.
    + destruct H as [<- | []]. exact Hlive.
    + destruct H as [<- | []]. constructor. exact Hlive.
    + intros c d [].
  - exists [], []. cbn. repeat split; [constructor | intros k [] | intros j Hj; lia].
  - cbn; rewrite grid_length; lia.
  - exists done. split; [exact Hinv |]. split; [exact Hq |].
    rewrite Hq, app_nil_r in HL, Hkeys. exists rest, keys. auto.
Qed.

End FloodOrder.

(** ** The order of a flood fill is one order *)

Lemma firstAdjacent_bound (g : nat) (l : list nat) (c i j p : nat) :
  firstAdjacent g l c i = Some (j, p) -> i <= j < i + List.length l.
Proof.
  revert i. induction l as [| q l IH]; intros i; simpl; [discriminate |].
  destruct (adjacent g q c).
  - intros [= <- <-]. lia.
  - intros H. apply IH in H. lia.
Qed.

(** A cell found from a cell of a prefix of the list is found from there
    whatever follows the prefix. *)
Lemma foundFrom_prefix (g : nat) (P rest rest' : list nat) (c k : nat) :
  foundFrom g (P ++ rest) c = Some k -> k < 4 * List.length P ->
  foundFrom g (P ++ rest') c = Some k.
Proof.
  unfold foundFrom. rewrite !firstAdjacent_app.
  destruct (firstAdjacent g P c 0) as [r |]; [auto |].
  destruct (firstAdjacent g rest c (0 + List.length P)) as [[j p] |] eqn:E;
    [| discriminate].
  apply firstAdjacent_bound in E. simpl. intros [= <-] Hk. lia.
Qed.

Lemma firstn_snoc {A : Type} (n : nat) (l : list A) (d : A) :
  n < List.length l -> firstn (S n) l = firstn n l ++ [nth n l d].
Proof.
  revert n. induction l as [| a l IH]; intros [| n] H; simpl in *; try lia;
    [reflexivity |].
  f_equal. apply IH. lia.
Qed.

Lemma nth_firstn_lt {A : Type} (m n : nat) (l : list A) (d : A) :
  m < n -> nth m (firstn n l) d = nth m l d.
Proof.
  revert m n. induction l as [| a l IH]; intros m n H.
  - rewrite firstn_nil. reflexivity.
  - destruct n as [| n]; [lia |]. destruct m as [| m]; simpl; [reflexivity |].
    apply IH. lia.
Qed.

Lemma StronglySorted_nth (l : list nat) (i j : nat) :
  StronglySorted lt l -> i < j -> j < List.length l -> nth i l 0 < nth j l 0.
Proof.
  intros Hs. revert i j. induction Hs as [| a l Hs IH Ha]; intros i j Hij Hj;
    simpl in *; [lia |].
  destruct j as [| j]; [lia |]. destruct i as [| i].
  - rewrite Forall_forall in Ha. apply Ha, nth_In. lia.
  - apply IH; lia.
Qed.

Lemma keys_nth (g : nat) (l r : list nat) (keys : list nat) (n : nat) :
  map (foundFrom g l) r = map Some keys -> n < List.length r ->
  foundFrom g l (nth n r 0) = Some (nth n keys 0).
Proof.
  intros Hk Hn.
  assert (Hlen : List.length keys = List.length r).
  { apply (f_equal (@List.length _)) in Hk. rewrite !length_map in Hk. lia. }
  rewrite <- (map_nth (foundFrom g l)), <- (map_nth Some), Hk.
  apply nth_indep. rewrite length_map. lia.
Qed.

(** The order of a flood fill is determined by the seed and the set of the
    cells: two lists of the same cells in the order of [fillOrder] from the
    same seed are the same list. *)
Lemma fillOrder_unique (g seed : nat) (l l' : list nat) :
  NoDup l -> NoDup l' -> (forall c, In c l <-> In c l') ->
  fillOrder g seed l -> fillOrder g seed l' -> l = l'.
Proof.
  intros Hnd Hnd' Hsame (r & keys & -> & Hk & Hs & Hpos)
         (r' & keys' & -> & Hk' & Hs' & Hpos').
  assert (Hlen : List.length r = List.length r').
  { assert (H1 : List.length (seed :: r) <= List.length (seed :: r'))
      by (apply NoDup_incl_length; [exact Hnd | intros c; apply Hsame]).
    assert (H2 : List.length (seed :: r') <= List.length (seed :: r))
      by (apply NoDup_incl_length; [exact Hnd' | intros c; apply Hsame]).
    simpl in H1, H2. lia. }
  assert (Lk : List.length keys = List.length r).
  { apply (f_equal (@List.length _)) in Hk. rewrite !length_map in Hk. lia. }
  assert (Lk' : List.length keys' = List.length r').
  { apply (f_equal (@List.length _)) in Hk'. rewrite !length_map in Hk'. lia. }
  inversion Hnd as [| ? ? Hseed Hndr]; subst.
  inversion Hnd' as [| ? ? Hseed' Hndr']; subst.
  (* where a cell of one list is in the other *)
  assert (Hother : forall (r1 r2 : list nat) (n : nat),
            NoDup r1 -> ~ In seed r1 ->
            (forall c, In c (seed :: r1) <-> In c (seed :: r2)) ->
            firstn n r1 = firstn n r2 -> n < List.length r1 ->
            nth n r1 0 <> nth n r2 0 ->
            exists m, n < m /\ m < List.length r2 /\ nth m r2 0 = nth n r1 0).
  { intros r1 r2 n Hn1 Hs1 Hiff Hpre Hn Hne.
    assert (Ha : In (nth n r1 0) r2).
    { assert (H : In (nth n r1 0) (seed :: r2))
        by (apply Hiff; right; apply nth_In, Hn).
      destruct H as [E | H]; [| exact H].
      exfalso. apply Hs1. rewrite E. apply nth_In, Hn. }
    apply (In_nth _ _ 0) in Ha. destruct Ha as (m & Hm & Em).
    exists m. split; [| split; assumption].
    destruct (Nat.lt_trichotomy m n) as [Hlt | [-> | Hgt]]; [| | exact Hgt].
    - exfalso.
      assert (E : nth m r1 0 = nth n r1 0).
      { rewrite <- (nth_firstn_lt m n r1 0 Hlt), Hpre,
          (nth_firstn_lt m n r2 0 Hlt). exact Em. }
      apply (proj1 (NoDup_nth r1 0) Hn1) in E; lia.
    - exfalso. apply Hne. symmetry. exact Em. }
  assert (Hpre : forall n, n <= List.length r -> firstn n r = firstn n r').
  { induction n as [| n IH]; intros Hn; [reflexivity |].
    specialize (IH ltac:(lia)).
    rewrite (firstn_snoc n r 0), (firstn_snoc n r' 0), IH by lia.
    f_equal. f_equal.
    destruct (Nat.eq_dec (nth n r 0) (nth n r' 0)) as [E | Hne]; [exact E |].
    exfalso.
    destruct (Hother r r' n Hndr Hseed Hsame IH ltac:(lia) Hne)
      as (m & Hnm & Hm & Em).
    destruct (Hother r' r n Hndr' Hseed'
                (fun c => iff_sym (Hsame c)) (eq_sym IH) ltac:(lia)
                (fun E => Hne (eq_sym E)))
      as (m' & Hnm' & Hm' & Em').
    set (P := seed :: firstn n r).
    assert (EP : seed :: r = P ++ skipn n r)
      by (unfold P; simpl; rewrite firstn_skipn; reflexivity).
    assert (EP' : seed :: r' = P ++ skipn n r')
      by (unfold P; rewrite IH; simpl; rewrite firstn_skipn; reflexivity).
    assert (LP : List.length P = S n)
      by (unfold P; simpl; rewrite length_firstn; lia).
    (* the cell of the first list, in the second *)
    pose proof (keys_nth g (seed :: r) r keys n Hk ltac:(lia)) as Ka.
    pose proof (Hpos n ltac:(lia)) as Pa.
    rewrite EP in Ka.
    apply (foundFrom_prefix g P _ (skipn n r')) in Ka; [| lia].
    rewrite <- EP', <- Em in Ka.
    rewrite (keys_nth g (seed :: r') r' keys' m Hk' Hm) in Ka.
    (* the cell of the second list, in the first *)
    pose proof (keys_nth g (seed :: r') r' keys' n Hk' ltac:(lia)) as Kb.
    pose proof (Hpos' n ltac:(lia)) as Pb.
    rewrite EP' in Kb.
    apply (foundFrom_prefix g P _ (skipn n r)) in Kb; [| lia].
    rewrite <- EP, <- Em' in Kb.
    rewrite (keys_nth g (seed :: r) r keys m' Hk Hm') in Kb.
    injection Ka as Ka. injection Kb as Kb.
    pose proof (StronglySorted_nth keys n m' Hs Hnm' ltac:(lia)).
    pose proof (StronglySorted_nth keys' n m Hs' Hnm ltac:(lia)).
    lia. }
  f_equal. rewrite <- (firstn_all r), <- (firstn_all r'), <- Hlen.
  apply Hpre. lia.
Qed.

(** ** The dominant profile of a Finding *)

Section ClusterFills.

Variables (table : list Profile) (g h : nat) (pixels : list MatchedPixel).
Variable grid : list Cell.
Hypothesis grid_ok : gridInv g h pixels grid.
Hypothesis labels_ok :
  forall p, In p pixels -> In (label (profile p)) (map label table).

(** One turn of the loops over the grid keeps the flood fills run so far
    and adds at most one, seeded at the cell tried and in the order of
    [fillOrder]. *)
Lemma clusterStep_ordered (k : nat) (fills : list (nat * list nat))
  (acc : option (list nat * list Finding)) :
  k < g * h -> clusterInv table grid g k fills acc -> seedsInv k fills ->
  (forall f, In f fills -> fillOrder g (fst f) (snd f)) ->
  exists fills',
    clusterInv table grid g (S k) fills'
      (clusterStep table grid g h acc (col g k, row g k)) /\
    seedsInv (S k) fills' /\
    (forall f, In f fills' -> fillOrder g (fst f) (snd f)).
Proof.
  intros Hk (-> & Hnd & Hcomp & Hcover) (Hseeds & Hsorted) Hord.
  pose proof grid_ok as (Hlen & _).
  assert (Hkeep : seedsInv (S k) fills).
  { split; [| exact Hsorted]. intros f Hf. destruct (Hseeds f Hf). auto. }
  unfold clusterStep. rewrite <- (cell_of_row_col g k).
  set (vis := List.concat (map snd fills)) in *.
  destruct (has k vis || negb (active grid k)) eqn:Eskip.
  - exists fills. split; [| split; [exact Hkeep | exact Hord]].
    split; [reflexivity |]. split; [exact Hnd |]. split; [exact Hcomp |].
    intros i Hi Hlive. destruct (Nat.eq_dec i k) as [-> | Hne].
    + apply live_active in Hlive. rewrite Hlive, orb_false_r in Eskip.
      apply has_In, Eskip.
    + apply Hcover; [lia | exact Hlive].
  - apply orb_false_iff in Eskip. destruct Eskip as [Enot Eact].
    apply has_not_In in Enot. apply negb_false_iff in Eact.
    assert (Hlive : live grid k = true).
    { unfold live. rewrite Eact, andb_true_r. apply Nat.ltb_lt. lia. }
    destruct (floodFill_order g h grid Hlen vis k Hnd Enot Hlive)
      as (done & Hinv & Hq & Hdord).
    set (st := floodFill (List.length grid) grid g h _) in *. clearbody st.
    destruct Hinv as (Hvis & Hnd' & Hseed & Hlinked & Hclosed & Htot & HpT
                      & Hx0 & Hx1 & Hy0 & Hy1).
    rewrite Hq, app_nil_r in *.
    assert (Hdone : component g grid done /\ In k done).
    { split; [| exact Hseed]. rewrite Hvis in Hnd'. repeat split.
      - apply NoDup_app_remove_l in Hnd'. exact Hnd'.
      - exists k. split; [exact Hseed |]. intros c Hc. apply Hlinked, Hc.
      - intros c d Hc Hd Hadj.
        specialize (Hclosed c d Hc Hd Hadj). rewrite Hvis in Hclosed.
        apply in_app_or in Hclosed. destruct Hclosed as [Hin | Hin]; [| exact Hin].
        exfalso. apply in_concat_fills in Hin. destruct Hin as (f & Hf & Hdf).
        destruct (Hcomp f Hf) as ((_ & _ & Hcl) & _).
        assert (Hcf : In c (snd f)).
        { apply (Hcl d c Hdf); [apply Hlinked, Hc |].
          rewrite adjacent_sym. exact Hadj. }
        apply (NoDup_app_apart _ _ c Hnd'); [| exact Hc].
        apply in_concat_fills. exists f. auto. }
    assert (Hfills : List.concat (map snd (fills ++ [(k, done)])) = visited st).
    { rewrite map_app, concat_app. simpl. rewrite app_nil_r. symmetry. exact Hvis. }
    assert (Hnew : seedsInv (S k) (fills ++ [(k, done)])).
    { split.
      - intros f Hf. apply in_app_or in Hf.
        destruct Hf as [Hf | [<- | []]]; [destruct (Hseeds f Hf); auto |].
        simpl. split; [lia |]. intros c Hc.
        destruct (le_dec k c) as [Hle | Hgt]; [exact Hle |]. exfalso.
        rewrite Hvis in Hnd'.
        apply (NoDup_app_apart _ _ c Hnd'); [| exact Hc].
        apply Hcover; [lia | apply Hlinked, Hc].
      - rewrite map_app. simpl.
        apply StronglySorted_app_lt;
          [exact Hsorted | repeat constructor |].
        intros a b Ha [<- | []]. apply in_map_iff in Ha.
        destruct Ha as (f & <- & Hf). apply (Hseeds f Hf). }
    assert (Hord' : forall f, In f (fills ++ [(k, done)]) ->
                              fillOrder g (fst f) (snd f)).
    { intros f Hf. apply in_app_or in Hf.
      destruct Hf as [Hf | [<- | []]]; [apply Hord, Hf | exact Hdord]. }
    assert (Hinv' : forall boxes,
      boxes = findingsOf table grid g (fills ++ [(k, done)]) ->
      clusterInv table grid g (S k) (fills ++ [(k, done)])
        (Some (visited st, boxes))).
    { intros boxes ->. unfold clusterInv. rewrite Hfills.
      split; [reflexivity |]. split; [exact Hnd' |]. split.
      - intros f Hf. apply in_app_or in Hf. destruct Hf as [Hf | [<- | []]];
          [apply Hcomp, Hf | exact Hdone].
      - intros i Hi Hli. rewrite Hvis. apply in_or_app.
        destruct (Nat.eq_dec i k) as [-> | Hne]; [right; exact Hseed | left].
        apply Hcover; [lia | exact Hli]. }
    exists (fills ++ [(k, done)]). split; [| split; [exact Hnew | exact Hord']].
    unfold findingsOf in *. rewrite flat_map_app in Hinv'. simpl in Hinv'.
    rewrite app_nil_r in Hinv'. unfold findingOf in Hinv'.
    rewrite <- Htot, <- HpT, <- Hx0, <- Hx1, <- Hy0, <- Hy1 in Hinv'.
    destruct (totalPixels st <? 8) eqn:E8.
    + apply Hinv'. rewrite app_nil_r. reflexivity.
    + apply Nat.ltb_ge in E8.
      pose proof (dominant_first_max (profileTotals st)) as Hdom.
      destruct (dominant (profileTotals st)) as [[k0 v0] |].
      * destruct Hdom as (before & after & Hsplit & _).
        assert (Hkey : In k0 (map fst (profileTotals st))).
        { rewrite Hsplit, map_app. apply in_or_app. right. left. reflexivity. }
        rewrite HpT in Hkey.
        destruct (mergeTallies_label g h pixels grid grid_ok k0 done Hkey)
          as (p & Hp & Elab).
        pose proof (labels_ok p Hp) as Hlab. rewrite Elab in Hlab.
        destruct (findProfile_label table k0 Hlab) as (prof & Ef & _).
        simpl fst in *. rewrite Ef in *. apply Hinv'. reflexivity.
      * exfalso.
        pose proof (mergeTallies_sum g h pixels grid grid_ok done) as Hsum.
        rewrite <- HpT, <- Htot, Hdom in Hsum. unfold sumTally in Hsum.
        simpl in Hsum. lia.
Qed.

Lemma clusterLoop_ordered (n : nat) :
  n <= g * h ->
  exists fills,
    clusterInv table grid g n fills
      (fold_left (clusterStep table grid g h)
         (map (fun i => (col g i, row g i)) (seq 0 n)) (Some ([], []))) /\
    seedsInv n fills /\
    (forall f, In f fills -> fillOrder g (fst f) (snd f)).
Proof.
  induction n as [| n IH]; intros Hn.
  - exists []. simpl. split; [| split].
    + unfold clusterInv. simpl.
      split; [reflexivity |]. split; [constructor |]. split.
      * intros f [].
      * intros i Hi. lia.
    + split; [intros f [] | constructor].
    + intros f [].
  - destruct IH as (fills & Hinv & Hseeds & Hord); [lia |].
    rewrite seq_S, map_app, fold_left_app. simpl.
    apply (clusterStep_ordered n fills); [lia | assumption ..].
Qed.

End ClusterFills.

(** C9, as the code has it.  Every Finding that [clusterDetections] returns
    comes from a connected component of the live cells, the one whose
    bounding box is its box, whose cells the flood fill found in the order
    of [fillOrder] from the least cell of the component; by
    [fillOrder_unique] there is one such order.  The labels of the matched
    pixels of the component enter the merged tally object in the order of
    their first occurrence, the cells taken in that order and the pixels of
    a cell in the order of the pixel list.  The label of the Finding has the
    greatest tally of matched pixels in the component, and it is the first
    of the labels, in the order in which they entered, with that tally:
    every label before it has a strictly smaller tally.  The order of the
    profile table plays no part. *)
Theorem dominant_label_first_greatest (table : list Profile)
  (pixels : list MatchedPixel) (width height : nat) :
  let g := ceilDiv width GRID in
  let h := ceilDiv height GRID in
  (forall p, In p pixels -> cellIndex g p < g * h) ->
  (forall p, In p pixels -> In (label (profile p)) (map label table)) ->
  exists grid boxes,
    buildGrid pixels g h = Some grid /\
    clusterDetections table pixels width height = Some boxes /\
    forall f, In f boxes ->
      exists seed cells before after,
        component g grid cells /\
        boundingBox g cells f /\
        fillOrder g seed cells /\
        (forall c, In c cells -> seed <= c) /\
        fpixels f = List.length (pixelsIn g cells pixels) /\
        let tally k := List.length (pixelsOf k (pixelsIn g cells pixels)) in
        firstSeen
          (flat_map (fun c => map (fun p => label (profile p))
                                (pixelsAt g c pixels)) cells)
        = before ++ flabel f :: after /\
        (forall k, tally k <= tally (flabel f)) /\
        (forall k, In k before -> tally k < tally (flabel f)).
Proof.
  intros g h Hin Hlab.
  destruct (buildGrid_total pixels g h Hin) as (grid & Hgrid).
  pose proof (buildGrid_inv pixels g h grid Hgrid) as Hok.
  destruct (clusterLoop_ordered table g h pixels grid Hok Hlab (g * h)
              (le_n _))
    as (fills & (Hacc & Hnd & Hcomp & _) & (Hseeds & _) & Hord).
  exists grid, (findingsOf table grid g fills).
  split; [exact Hgrid |]. split.
  { unfold clusterDetections. fold g h. rewrite Hgrid, rasterCells_indices, Hacc.
    reflexivity. }
  intros f Hf. unfold findingsOf in Hf. apply in_flat_map in Hf.
  destruct Hf as ((seed & cells) & Hfill & Hf). simpl in Hf.
  destruct (Hcomp _ Hfill) as (Hc & Hseed). simpl in Hc, Hseed.
  pose proof Hc as (Hndc & _).
  destruct (Nat.lt_ge_cases (List.length (pixelsIn g cells pixels)) 8) as [H8 | H8].
  - rewrite (findingOf_small table g h pixels grid Hok seed cells Hndc H8) in Hf.
    destruct Hf.
  - destruct (findingOf_emits table g h pixels grid Hok Hlab seed cells
                Hndc Hseed H8)
      as (f' & v & before & after & prof & E & Hbox & Hpix & Hsplit & Hb & Ha
          & Htally & Hv & _).
    rewrite E in Hf. destruct Hf as [<- | []].
    pose proof (mergeTallies_keys_NoDup g h pixels grid Hok cells) as Hkeys.
    exists seed, cells, (map fst before), (map fst after).
    split; [exact Hc |]. split; [exact Hbox |]. split; [apply (Hord _ Hfill) |].
    split; [apply (Hseeds _ Hfill) |]. split; [exact Hpix |].
    cbv beta zeta. rewrite <- Hv.
    split; [| split].
    + rewrite <- (mergeTallies_keys pixels g h grid cells Hgrid), Hsplit.
      rewrite map_app. reflexivity.
    + intros k. rewrite Htally.
      destruct (in_dec string_dec k (map fst (mergeTallies grid cells)))
        as [Hk | Hk].
      * apply in_map_iff in Hk. destruct Hk as ((k' & v') & Ek & He).
        simpl in Ek. subst k'.
        rewrite (tallyOf_entry k v' _ Hkeys He).
        rewrite Hsplit in He. apply in_app_or in He.
        destruct He as [He | [He | He]].
        -- specialize (Hb _ He). simpl in Hb. lia.
        -- injection He as _ <-. lia.
        -- specialize (Ha _ He). simpl in Ha. lia.
      * rewrite (tallyOf_absent k _ Hk). lia.
    + intros k Hk. apply in_map_iff in Hk. destruct Hk as ((k' & v') & Ek & He).
      simpl in Ek. subst k'. rewrite Htally.
      assert (He' : In (k, v') (mergeTallies grid cells))
        by (rewrite Hsplit; apply in_or_app; left; exact He).
      rewrite (tallyOf_entry k v' _ Hkeys He').
      apply (Hb _ He).
Qed.

Lemma dominant_label_first_greatest_witness :
  exists boxes,
    clusterDetections Flash.BLOOD_PROFILES splitTiePixels 24 12 = Some boxes /\
    forall f, In f boxes ->
      exists seed cells before after,
        fillOrder 2 seed cells /\
        (forall c, In c cells -> seed <= c) /\
        firstSeen
          (flat_map (fun c => map (fun p => label (profile p))
                                (pixelsAt 2 c splitTiePixels)) cells)
        = before ++ flabel f :: after /\
        forall k, In k before ->
          List.length (pixelsOf k (pixelsIn 2 cells splitTiePixels))
          < List.length (pixelsOf (flabel f) (pixelsIn 2 cells splitTiePixels)).
Proof.
  destruct (dominant_label_first_greatest Flash.BLOOD_PROFILES splitTiePixels
              24 12)
    as (grid & boxes & _ & Hres & Hall).
  - intros p Hp. apply Nat.ltb_lt. revert p Hp. apply forallb_forall.
    vm_compute. reflexivity.
  - intros p Hp.
    assert (E : existsb (String.eqb (label (profile p)))
                  (map label Flash.BLOOD_PROFILES) = true)
      by (revert p Hp; apply forallb_forall; vm_compute; reflexivity).
    apply existsb_exists in E. destruct E as (k & Hk & E).
    apply String.eqb_eq in E. rewrite E. exact Hk.
  - exists boxes. split; [exact Hres |].
    intros f Hf.
    destruct (Hall f Hf)
      as (seed & cells & before & after & _ & _ & Ho & Hs & _ & Hl & _ & Hb).
    exists seed, cells, before, after. auto.
Defined.

(** The order of the flood fill decides a tie: the cell 0 is found first,
    so that Maroon enters the tally object before Bright Red, although the
    Bright Red pixels come first in the pixel list and Bright Red is
    declared first. *)
Example flood_order_decides_tie :
  option_map (map (fun f => (flabel f, fpixels f)))
    (Flash.clusterDetections splitTiePixels 24 12)
  = Some [("Maroon", 8)] /\
  fillOrder 2 0 [0; 1] /\
  firstSeen (flat_map (fun c => map (fun p => label (profile p))
                                 (pixelsAt 2 c splitTiePixels)) [0; 1])
  = ["Maroon"; "Bright Red"].
Proof.
  split; [vm_compute; reflexivity |]. split; [| vm_compute; reflexivity].
  exists [1], [1]. split; [reflexivity |]. split; [vm_compute; reflexivity |].
  split; [repeat constructor |].
  intros j Hj. destruct j as [| j]; simpl in *; lia.
Qed.

(** A tie is not broken by the order of the profile table (C9 as the
    specification states it): a component in which Maroon and Bright Red tie
    at four pixels each, the Maroon pixels coming first in the pixel list,
    yields a Maroon Finding, although Bright Red is declared before Maroon
    in the profile table. *)
Lemma tie_not_broken_by_declaration_order :
  exists f,
    Flash.clusterDetections tiePixels 24 24 = Some [f] /\
    flabel f = "Maroon" /\
    List.length (pixelsOf "Bright Red" tiePixels) = 4 /\
    List.length (pixelsOf "Maroon" tiePixels) = 4 /\
    map label (firstn 3 Flash.BLOOD_PROFILES)
    = ["Bright Red"; "Dark Red"; "Maroon"] /\
    ~ (forall f', Flash.clusterDetections tiePixels 24 24 = Some [f'] ->
                  flabel f' = "Bright Red").
Proof.
  eexists. split; [reflexivity |]. repeat split.
  intros H. specialize (H _ eq_refl). discriminate H.
Qed.

(** ** The cluster engine: errors, pixel counts and boxes *)

Lemma addPixel_none (gridW : nat) (l : list MatchedPixel) :
  fold_left (addPixel gridW) l None = None.
Proof. induction l as [| p l IH]; simpl; [reflexivity | exact IH]. Qed.

(** A pixel whose cell index is outside the grid array makes
    [pixels.forEach] raise. *)
Lemma buildGrid_outside (pixels : list MatchedPixel) (g h : nat)
  (p : MatchedPixel) :
  In p pixels -> g * h <= cellIndex g p -> buildGrid pixels g h = None.
Proof.
  intros Hp Hout. apply in_split in Hp. destruct Hp as (l1 & l2 & ->).
  unfold buildGrid. rewrite fold_left_app. simpl.
  fold (buildGrid l1 g h).
  destruct (buildGrid l1 g h) as [grid |] eqn:E; [| apply addPixel_none].
  apply buildGrid_inv in E. destruct E as (Hlen & _).
  assert (En : addPixel g (Some grid) p = None).
  { unfold addPixel.
    assert (H : nth_error grid (cellIndex g p) = None)
      by (apply nth_error_None; lia).
    rewrite H. reflexivity. }
  rewrite En. apply addPixel_none.
Qed.

Lemma div_lt_ceilDiv (x w : nat) : x < w -> x / GRID < ceilDiv w GRID.
Proof.
  intros H. unfold ceilDiv, GRID. change (12 - 1) with 11.
  apply Nat.Div0.div_lt_upper_bound.
  pose proof (Nat.div_mod_eq (w + 11) 12).
  pose proof (Nat.mod_upper_bound (w + 11) 12). lia.
Qed.

Lemma ceilDiv_mul_lt (w : nat) : ceilDiv w GRID * GRID < w + GRID.
Proof.
  unfold ceilDiv, GRID. change (12 - 1) with 11.
  pose proof (Nat.div_mod_eq (w + 11) 12).
  pose proof (Nat.mod_upper_bound (w + 11) 12). lia.
Qed.

(** The cell of a pixel inside the image is inside the grid, in the column
    and the row of the pixel. *)
Lemma pixel_cell (width height : nat) (p : MatchedPixel) :
  px p < width -> py p < height ->
  let g := ceilDiv width GRID in
  cellIndex g p < g * ceilDiv height GRID /\
  col g (cellIndex g p) = px p / GRID /\
  row g (cellIndex g p) = py p / GRID.
Proof.
  intros Hx Hy g.
  pose proof (div_lt_ceilDiv (px p) width Hx) as Hgx.
  pose proof (div_lt_ceilDiv (py p) height Hy) as Hgy.
  fold g in Hgx. unfold cellIndex.
  split; [apply cell_lt; assumption |].
  split; [apply cell_col | apply cell_row]; exact Hgx.
Qed.

Lemma findingsOf_In (table : list Profile) (grid : list Cell) (g : nat)
  (fills : list (nat * list nat)) (f : Finding) :
  In f (findingsOf table grid g fills) <->
  exists fl, In fl fills /\ In f (findingOf table grid g (fst fl) (snd fl)).
Proof. unfold findingsOf. apply in_flat_map. Qed.

Lemma has_app (i : nat) (a b : list nat) :
  has i (a ++ b) = has i a || has i b.
Proof. unfold has. apply existsb_app. Qed.

Lemma pixelsIn_app (g : nat) (a b : list nat) (pixels : list MatchedPixel) :
  NoDup (a ++ b) ->
  List.length (pixelsIn g (a ++ b) pixels)
  = List.length (pixelsIn g a pixels) + List.length (pixelsIn g b pixels).
Proof.
  intros Hnd. unfold pixelsIn.
  rewrite (filter_ext _ (fun p => has (cellIndex g p) a || has (cellIndex g p) b))
    by (intros p; apply has_app).
  apply filter_or_length. intros p Ha. apply has_not_In. intros Hb.
  apply has_In in Ha. apply (NoDup_app_apart a b (cellIndex g p) Hnd Ha Hb).
Qed.

Lemma filter_length_mono {A : Type} (f g : A -> bool) (l : list A) :
  (forall x, In x l -> f x = true -> g x = true) ->
  List.length (filter f l) <= List.length (filter g l).
Proof.
  induction l as [| x l IH]; intros H; simpl; [lia |].
  assert (IH' : List.length (filter f l) <= List.length (filter g l))
    by (apply IH; intros y Hy; apply H; right; exact Hy).
  destruct (f x) eqn:Ef.
  - rewrite (H x (or_introl eq_refl) Ef). simpl. lia.
  - destruct (g x); simpl; lia.
Qed.

Section Boxes.

Variables (table : list Profile) (g h : nat) (pixels : list MatchedPixel).
Variable grid : list Cell.
Hypothesis grid_ok : gridInv g h pixels grid.
Hypothesis labels_ok :
  forall p, In p pixels -> In (label (profile p)) (map label table).

(** What a Finding of a flood fill is, when there is one. *)
Lemma findingOf_In (seed : nat) (cells : list nat) (f : Finding) :
  NoDup cells -> In seed cells ->
  In f (findingOf table grid g seed cells) ->
  findingOf table grid g seed cells = [f] /\
  boundingBox g cells f /\
  fpixels f = List.length (pixelsIn g cells pixels) /\
  8 <= fpixels f /\
  exists prof,
    In prof table /\ label prof = flabel f /\ color prof = fcolor f /\
    severity prof = fseverity f /\ hatchStyle prof = fhatchStyle f.
Proof.
  intros Hnd Hseed Hf.
  destruct (lt_dec (List.length (pixelsIn g cells pixels)) 8) as [Hlt | Hge].
  - rewrite (findingOf_small table g h pixels grid grid_ok seed cells Hnd Hlt)
      in Hf. destruct Hf.
  - destruct (findingOf_emits table g h pixels grid grid_ok labels_ok seed cells
                Hnd Hseed ltac:(lia))
      as (f0 & v & before & after & prof & E & Hbox & Hpix & _ & _ & _ & _ & _
          & Hprof).
    rewrite E in Hf. destruct Hf as [<- | []].
    split; [exact E |]. split; [exact Hbox |]. split; [exact Hpix |].
    split; [lia |]. exists prof. exact Hprof.
Qed.

Lemma findingOf_pixels_le (seed : nat) (cells : list nat) :
  NoDup cells -> In seed cells ->
  list_sum (map fpixels (findingOf table grid g seed cells))
  <= List.length (pixelsIn g cells pixels).
Proof.
  intros Hnd Hseed.
  destruct (findingOf table grid g seed cells) as [| f l] eqn:E; [simpl; lia |].
  destruct (findingOf_In seed cells f Hnd Hseed) as (E' & _ & Hpix & _).
  { rewrite E. left. reflexivity. }
  rewrite E in E'. injection E' as ->. simpl. lia.
Qed.

Lemma findingsOf_pixels_le (fills : list (nat * list nat)) :
  NoDup (List.concat (map snd fills)) ->
  (forall f, In f fills -> NoDup (snd f) /\ In (fst f) (snd f)) ->
  list_sum (map fpixels (findingsOf table grid g fills))
  <= List.length (pixelsIn g (List.concat (map snd fills)) pixels).
Proof.
  induction fills as [| f fills IH]; intros Hnd Hf; [simpl; lia |].
  unfold findingsOf in *. cbn [flat_map map List.concat] in Hnd |- *.
  rewrite map_app, list_sum_app, (pixelsIn_app g _ _ pixels Hnd).
  destruct (Hf f (or_introl eq_refl)) as [Hndf Hseed].
  pose proof (findingOf_pixels_le (fst f) (snd f) Hndf Hseed).
  assert (list_sum (map fpixels
                      (flat_map (fun f => findingOf table grid g (fst f) (snd f))
                         fills))
          <= List.length (pixelsIn g (List.concat (map snd fills)) pixels)).
  { apply IH.
    - apply NoDup_app_remove_l in Hnd. exact Hnd.
    - intros f' Hf'. apply Hf. right. exact Hf'. }
  lia.
Qed.

End Boxes.

(** The Findings of [clusterDetections], one by one: each is the Finding of
    a connected component of the live cells, and together they count no
    matched pixel twice. *)
Lemma clusterDetections_boxes (table : list Profile)
  (pixels : list MatchedPixel) (width height : nat) :
  let g := ceilDiv width GRID in
  let h := ceilDiv height GRID in
  (forall p, In p pixels -> cellIndex g p < g * h) ->
  (forall p, In p pixels -> In (label (profile p)) (map label table)) ->
  exists grid boxes,
    gridInv g h pixels grid /\
    clusterDetections table pixels width height = Some boxes /\
    list_sum (map fpixels boxes) <= List.length pixels /\
    forall f, In f boxes ->
      exists cells,
        component g grid cells /\ boundingBox g cells f /\
        fpixels f = List.length (pixelsIn g cells pixels) /\
        8 <= fpixels f /\
        exists prof,
          In prof table /\ label prof = flabel f /\ color prof = fcolor f /\
          severity prof = fseverity f /\ hatchStyle prof = fhatchStyle f.
Proof.
  intros g h Hin Hlab.
  destruct (clusterDetections_fills table pixels width height Hin Hlab)
    as (grid & fills & _ & Hok & Hres & Hnd & Hcomp & _).
  fold g h in Hok, Hres, Hcomp.
  exists grid, (findingsOf table grid g fills).
  split; [exact Hok |]. split; [exact Hres |]. split.
  - etransitivity.
    + apply (findingsOf_pixels_le table g h pixels grid Hok Hlab fills Hnd).
      intros f Hf. destruct (Hcomp f Hf) as ((Hndf & _) & Hseed). auto.
    + unfold pixelsIn. apply filter_length_le.
  - intros f Hf. apply findingsOf_In in Hf. destruct Hf as (fl & Hfl & Hf).
    destruct (Hcomp fl Hfl) as (Hc & Hseed).
    destruct (findingOf_In table g h pixels grid Hok Hlab (fst fl) (snd fl) f
                (proj1 Hc) Hseed Hf) as (_ & Hbox & Hpix & H8 & Hprof).
    exists (snd fl). auto.
Qed.

(** The box of a component of live cells, for pixels that lie inside the
    image: it is aligned to the grid, starts inside the image, ends inside
    the grid, and holds every matched pixel of the component. *)
Lemma component_box (pixels : list MatchedPixel) (width height : nat)
  (grid : list Cell) (cells : list nat) (f : Finding) :
  let g := ceilDiv width GRID in
  let h := ceilDiv height GRID in
  (forall p, In p pixels -> px p < width /\ py p < height) ->
  gridInv g h pixels grid -> component g grid cells -> boundingBox g cells f ->
  (exists a b c d,
     fx f = a * GRID /\ fy f = b * GRID /\
     fw f = S c * GRID /\ fh f = S d * GRID) /\
  fx f < width /\ fy f < height /\
  fx f + fw f < width + GRID /\ fy f + fh f < height + GRID /\
  forall p, In p (pixelsIn g cells pixels) ->
    fx f <= px p < fx f + fw f /\ fy f <= py p < fy f + fh f.
Proof.
  intros g h Hin (Hlen & _ & Hcell) (Hnd & (s & Hs & Hlink) & _)
    (Hall & (c1 & I1 & E1) & (c2 & I2 & E2) & (c3 & I3 & E3) & (c4 & I4 & E4)).
  assert (Hlive : forall c, In c cells ->
            c < g * h /\
            exists p, In p pixels /\ cellIndex g p = c).
  { intros c Hc. destruct (linked_live g grid s c (Hlink c Hc)) as [_ Hl].
    split; [rewrite <- Hlen; apply live_lt, Hl |].
    apply live_active in Hl. unfold active, THRESHOLD in Hl.
    apply Nat.leb_le in Hl. destruct (Hcell c) as (Hcount & _).
    rewrite Hcount in Hl. unfold pixelsAt in Hl.
    destruct (filter (fun p => cellIndex g p =? c) pixels) as [| p l] eqn:E;
      [simpl in Hl; lia |].
    assert (Hp : In p (filter (fun p => cellIndex g p =? c) pixels))
      by (rewrite E; left; reflexivity).
    apply filter_In in Hp. destruct Hp as [Hp Ec]. apply Nat.eqb_eq in Ec.
    exists p. auto. }
  assert (Hpos : forall c, In c cells ->
            col g c * GRID < width /\ row g c * GRID < height /\
            col g c < g /\ row g c < h).
  { intros c Hc. destruct (Hlive c Hc) as (Hlt & p & Hp & <-).
    destruct (Hin p Hp) as [Hx Hy].
    destruct (pixel_cell width height p Hx Hy) as (_ & Ec & Er).
    fold g in Ec, Er. rewrite Ec, Er.
    pose proof (Nat.Div0.mul_div_le (px p) GRID).
    pose proof (Nat.Div0.mul_div_le (py p) GRID).
    pose proof (div_lt_ceilDiv (px p) width Hx).
    pose proof (div_lt_ceilDiv (py p) height Hy).
    fold g in H1. fold h in H2. lia. }
  pose proof (ceilDiv_mul_lt width) as Hgw. fold g in Hgw.
  pose proof (ceilDiv_mul_lt height) as Hgh. fold h in Hgh.
  destruct (Hall c2 I2) as (A1 & _ & _ & _).
  destruct (Hall c4 I4) as (_ & _ & A3 & _).
  destruct (Hpos c1 I1) as (P1 & _ & _ & _).
  destruct (Hpos c3 I3) as (_ & P3 & _ & _).
  destruct (Hpos c2 I2) as (_ & _ & P2 & _).
  destruct (Hpos c4 I4) as (_ & _ & _ & P4).
  unfold GRID in *.
  split; [| split; [lia | split; [lia | split; [nia | split; [nia |]]]]].
  - exists (col g c1), (row g c3), (col g c2 - col g c1), (row g c4 - row g c3).
    lia.
  - intros p Hp. unfold pixelsIn in Hp. apply filter_In in Hp.
    destruct Hp as [Hp Hc]. apply has_In in Hc.
    destruct (Hin p Hp) as [Hx Hy].
    destruct (pixel_cell width height p Hx Hy) as (_ & Ec & Er).
    change (ceilDiv width GRID) with g in Ec, Er.
    destruct (Hall _ Hc) as (B1 & B2 & B3 & B4).
    rewrite Ec in B1, B2. rewrite Er in B3, B4. unfold GRID in *.
    pose proof (Nat.div_mod_eq (px p) 12).
    pose proof (Nat.mod_upper_bound (px p) 12).
    pose proof (Nat.div_mod_eq (py p) 12).
    pose proof (Nat.mod_upper_bound (py p) 12). lia.
Qed.

(** The Findings of matched pixels that lie inside the image. *)
Lemma clusterDetections_inside (table : list Profile)
  (pixels : list MatchedPixel) (width height : nat) (boxes : list Finding) :
  (forall p, In p pixels -> px p < width /\ py p < height) ->
  (forall p, In p pixels -> In (label (profile p)) (map label table)) ->
  clusterDetections table pixels width height = Some boxes ->
  list_sum (map fpixels boxes) <= List.length pixels /\
  forall f, In f boxes ->
    8 <= fpixels f /\
    (exists prof,
       In prof table /\ label prof = flabel f /\ color prof = fcolor f /\
       severity prof = fseverity f /\ hatchStyle prof = fhatchStyle f) /\
    (exists a b c d,
       fx f = a * GRID /\ fy f = b * GRID /\
       fw f = S c * GRID /\ fh f = S d * GRID) /\
    fx f < width /\ fy f < height /\
    fx f + fw f < width + GRID /\ fy f + fh f < height + GRID.
Proof.
  intros Hin Hlab Hres.
  destruct (clusterDetections_boxes table pixels width height) as
    (grid & boxes' & Hok & Hres' & Hsum & Hbox); [| exact Hlab |].
  { intros p Hp. destruct (Hin p Hp) as [Hx Hy].
    apply (pixel_cell width height p Hx Hy). }
  rewrite Hres in Hres'. injection Hres' as <-.
  split; [exact Hsum |]. intros f Hf.
  destruct (Hbox f Hf) as (cells & Hcomp & Hbb & _ & H8 & Hprof).
  destruct (component_box pixels width height grid cells f Hin Hok Hcomp Hbb)
    as (Hal & Hx & Hy & Hxw & Hyh & _).
  auto 10.
Qed.

(** X1.  [clusterDetections] raises a [TypeError] exactly when some matched
    pixel falls in a cell outside the grid array (the labels of the pixels
    being labels of the profile table); it raises none when every pixel lies
    inside the image. *)
Theorem clusterDetections_raises_iff (table : list Profile)
  (pixels : list MatchedPixel) (width height : nat) :
  let g := ceilDiv width GRID in
  let h := ceilDiv height GRID in
  (forall p, In p pixels -> In (label (profile p)) (map label table)) ->
  (clusterDetections table pixels width height = None <->
   exists p, In p pixels /\ g * h <= cellIndex g p) /\
  ((forall p, In p pixels -> px p < width /\ py p < height) ->
   exists boxes, clusterDetections table pixels width height = Some boxes).
Proof.
  intros g h Hlab.
  assert (Hsome : (forall p, In p pixels -> cellIndex g p < g * h) ->
            exists boxes, clusterDetections table pixels width height = Some boxes).
  { intros Hin.
    destruct (clusterDetections_fills table pixels width height Hin Hlab)
      as (grid & fills & _ & _ & Hres & _).
    eexists. exact Hres. }
  split; [split |].
  - intros Hnone.
    destruct (Exists_dec (fun p => g * h <= cellIndex g p) pixels
                (fun p => le_dec (g * h) (cellIndex g p))) as [Hex | Hno].
    + apply Exists_exists in Hex. exact Hex.
    + exfalso. destruct Hsome as (boxes & E); [| congruence].
      intros p Hp. destruct (le_dec (g * h) (cellIndex g p)) as [Hle | Hlt];
        [| lia].
      exfalso. apply Hno, Exists_exists. exists p. auto.
  - intros (p & Hp & Hout). unfold clusterDetections. fold g h.
    rewrite (buildGrid_outside pixels g h p Hp Hout). reflexivity.
  - intros Hin. apply Hsome. intros p Hp. destruct (Hin p Hp) as [Hx Hy].
    apply (pixel_cell width height p Hx Hy).
Qed.

(** A pixel at [y = 12] of an image 12 pixels high falls in a cell that
    the grid does not have; a pixel at [y = 11] does not. *)
Lemma clusterDetections_raises_iff_witness :
  clusterDetections Flash.BLOOD_PROFILES [mkPixel 0 12 brightRed] 12 12 = None /\
  exists boxes,
    clusterDetections Flash.BLOOD_PROFILES [mkPixel 0 11 brightRed] 12 12
    = Some boxes.
Proof.
  split.
  - apply (clusterDetections_raises_iff Flash.BLOOD_PROFILES
             [mkPixel 0 12 brightRed] 12 12).
    + intros p [<- | []]. simpl. auto.
    + exists (mkPixel 0 12 brightRed). split; [left; reflexivity |].
      vm_compute. lia.
  - apply (clusterDetections_raises_iff Flash.BLOOD_PROFILES
             [mkPixel 0 11 brightRed] 12 12).
    + intros p [<- | []]. simpl. auto.
    + intros p [<- | []]. simpl. lia.
Defined.

(** X2.  Every Finding of [clusterDetections] reports at least 8 matched
    pixels, no matched pixel is counted in two Findings (the pixel counts of
    the Findings add up to at most the number of matched pixels, so there
    are at most an eighth as many Findings as matched pixels), and the
    label, colour, severity and hatch style of a Finding are those of one
    profile of the table. *)
Theorem findings_count_pixels_once (table : list Profile)
  (pixels : list MatchedPixel) (width height : nat) :
  let g := ceilDiv width GRID in
  let h := ceilDiv height GRID in
  (forall p, In p pixels -> cellIndex g p < g * h) ->
  (forall p, In p pixels -> In (label (profile p)) (map label table)) ->
  exists boxes,
    clusterDetections table pixels width height = Some boxes /\
    (forall f, In f boxes -> 8 <= fpixels f) /\
    list_sum (map fpixels boxes) <= List.length pixels /\
    8 * List.length boxes <= List.length pixels /\
    forall f, In f boxes ->
      exists prof,
        In prof table /\ label prof = flabel f /\ color prof = fcolor f /\
        severity prof = fseverity f /\ hatchStyle prof = fhatchStyle f.
Proof.
  intros g h Hin Hlab.
  destruct (clusterDetections_boxes table pixels width height Hin Hlab)
    as (grid & boxes & _ & Hres & Hsum & Hbox).
  exists boxes. split; [exact Hres |].
  assert (H8 : forall f, In f boxes -> 8 <= fpixels f).
  { intros f Hf. destruct (Hbox f Hf) as (cells & _ & _ & _ & H & _). exact H. }
  split; [exact H8 |]. split; [exact Hsum |]. split.
  - assert (Hrec : forall l : list Finding,
              (forall f, In f l -> 8 <= fpixels f) ->
              8 * List.length l <= list_sum (map fpixels l)).
    { induction l as [| x l IHl]; intros Hl; simpl; [lia |].
      pose proof (Hl x (or_introl eq_refl)).
      assert (8 * List.length l <= list_sum (map fpixels l))
        by (apply IHl; intros; apply Hl; right; assumption).
      lia. }
    pose proof (Hrec boxes H8). lia.
  - intros f Hf. destruct (Hbox f Hf) as (cells & _ & _ & _ & _ & H). exact H.
Qed.

Lemma findings_count_pixels_once_witness :
  exists boxes,
    clusterDetections Flash.BLOOD_PROFILES twoGroupPixels 60 12 = Some boxes /\
    (forall f, In f boxes -> 8 <= fpixels f) /\
    list_sum (map fpixels boxes) <= 16.
Proof.
  destruct (findings_count_pixels_once Flash.BLOOD_PROFILES twoGroupPixels
              60 12) as (boxes & H1 & H2 & H3 & _).
  - intros p Hp. apply Nat.ltb_lt. revert p Hp. apply forallb_forall.
    reflexivity.
  - intros p Hp.
    assert (E : existsb (String.eqb (label (profile p)))
                  (map label Flash.BLOOD_PROFILES) = true)
      by (revert p Hp; apply forallb_forall; reflexivity).
    apply existsb_exists in E. destruct E as (k & Hk & E).
    apply String.eqb_eq in E. rewrite E. exact Hk.
  - exists boxes. split; [exact H1 |]. split; [exact H2 | exact H3].
Defined.

(** X3.  For matched pixels inside the image, the box of every Finding is
    aligned to the 12-pixel grid and at least one cell wide and high; it
    starts inside the image and ends less than one cell past its right and
    bottom edges; and it holds at least as many matched pixels as the
    Finding reports. *)
Theorem finding_boxes_on_grid (table : list Profile)
  (pixels : list MatchedPixel) (width height : nat) :
  (forall p, In p pixels -> px p < width /\ py p < height) ->
  (forall p, In p pixels -> In (label (profile p)) (map label table)) ->
  exists boxes,
    clusterDetections table pixels width height = Some boxes /\
    forall f, In f boxes ->
      (exists a b c d,
         fx f = a * GRID /\ fy f = b * GRID /\
         fw f = S c * GRID /\ fh f = S d * GRID) /\
      fx f < width /\ fy f < height /\
      fx f + fw f < width + GRID /\ fy f + fh f < height + GRID /\
      fpixels f
      <= List.length
           (filter (fun p => (fx f <=? px p) && (px p <? fx f + fw f)
                             && (fy f <=? py p) && (py p <? fy f + fh f))
              pixels).
Proof.
  intros Hin Hlab.
  destruct (clusterDetections_boxes table pixels width height) as
    (grid & boxes & Hok & Hres & _ & Hbox); [| exact Hlab |].
  { intros p Hp. destruct (Hin p Hp) as [Hx Hy].
    apply (pixel_cell width height p Hx Hy). }
  exists boxes. split; [exact Hres |]. intros f Hf.
  destruct (Hbox f Hf) as (cells & Hcomp & Hbb & Hpix & _).
  destruct (component_box pixels width height grid cells f Hin Hok Hcomp Hbb)
    as (Hal & Hx & Hy & Hxw & Hyh & Hins).
  split; [exact Hal |]. split; [exact Hx |]. split; [exact Hy |].
  split; [exact Hxw |]. split; [exact Hyh |].
  rewrite Hpix. unfold pixelsIn. apply filter_length_mono.
  intros p Hp Hc.
  destruct (Hins p) as ((I1 & I2) & I3 & I4).
  { unfold pixelsIn. apply filter_In. auto. }
  apply Nat.leb_le in I1, I3. apply Nat.ltb_lt in I2, I4.
  rewrite I1, I2, I3, I4. reflexivity.
Qed.

Lemma finding_boxes_on_grid_witness :
  exists boxes,
    clusterDetections Flash.BLOOD_PROFILES twoGroupPixels 58 10 = Some boxes /\
    forall f, In f boxes -> fx f < 58 /\ fx f + fw f < 70 /\ fy f + fh f < 22.
Proof.
  destruct (finding_boxes_on_grid Flash.BLOOD_PROFILES twoGroupPixels 58 10)
    as (boxes & H1 & H2).
  - intros p Hp.
    assert (E : (px p <? 58) && (py p <? 10) = true)
      by (revert p Hp; apply forallb_forall; reflexivity).
    apply andb_true_iff in E. rewrite !Nat.ltb_lt in E. exact E.
  - intros p Hp.
    assert (E : existsb (String.eqb (label (profile p)))
                  (map label Flash.BLOOD_PROFILES) = true)
      by (revert p Hp; apply forallb_forall; reflexivity).
    apply existsb_exists in E. destruct E as (k & Hk & E).
    apply String.eqb_eq in E. rewrite E. exact Hk.
  - exists boxes. split; [exact H1 |]. intros f Hf.
    destruct (H2 f Hf) as (_ & Hx & _ & Hxw & Hyh & _).
    unfold GRID in *. lia.
Defined.

(** ** The cluster engine: one group, no group, one flood fill *)

Lemma apart_nil (g : nat) (A : list nat) : apart g A [] = true.
Proof. unfold apart. apply forallb_forall. reflexivity. Qed.

(** When the live cells form one 4-connected group, the flood fills are
    one, over that group. *)
Lemma one_fill (g : nat) (grid : list Cell) (A : list nat)
  (fills : list (nat * list nat)) :
  (forall i, live grid i = true <-> In i A) ->
  chained g A = true ->
  NoDup (List.concat (map snd fills)) ->
  (forall f, In f fills -> component g grid (snd f) /\ In (fst f) (snd f)) ->
  (forall i, live grid i = true -> In i (List.concat (map snd fills))) ->
  exists fa, fills = [fa] /\ forall i, In i (snd fa) <-> In i A.
Proof.
  intros Hlive Hch Hnd Hcomp Hcover.
  assert (Hgroups : forall i, live grid i = true <-> In i A \/ In i [])
    by (intros i; rewrite Hlive; simpl; tauto).
  assert (Hsame : forall f, In f fills -> forall i, In i (snd f) <-> In i A).
  { intros f Hf. destruct (Hcomp f Hf) as [Hc Hseed].
    apply (component_is_group g grid A [] Hgroups Hch (apart_nil g A)
             (snd f) (fst f) Hc Hseed).
    apply Hlive. apply (linked_live g grid (fst f) (fst f)).
    apply (component_linked g grid (snd f)); assumption. }
  destruct (chained_nonempty g A Hch) as (a & Ha).
  destruct fills as [| f1 [| f2 rest]].
  - exfalso. apply (Hcover a), Hlive, Ha.
  - exists f1. split; [reflexivity |]. apply Hsame. left. reflexivity.
  - exfalso. simpl in Hnd.
    apply (NoDup_app_apart _ _ a Hnd).
    + apply (Hsame f1); [left; reflexivity | exact Ha].
    + apply in_or_app. left.
      apply (Hsame f2); [right; left; reflexivity | exact Ha].
Qed.

(** X4.  When the active cells of the cluster grid (at least 3 matched
    pixels) form one 4-connected group, whatever its shape,
    [clusterDetections] returns exactly one Finding, whose box is the
    bounding box of the group and whose pixel count is the number of matched
    pixels in it, if the group holds at least 8 matched pixels, and no
    Finding otherwise. *)
Theorem connected_group_one_finding (table : list Profile)
  (pixels : list MatchedPixel) (width height : nat) (A : list nat) :
  let g := ceilDiv width GRID in
  let h := ceilDiv height GRID in
  (forall p, In p pixels -> cellIndex g p < g * h) ->
  (forall p, In p pixels -> In (label (profile p)) (map label table)) ->
  (forall i, In i A <->
             i < g * h /\ THRESHOLD <= List.length (pixelsAt g i pixels)) ->
  chained g A = true ->
  (8 <= List.length (pixelsIn g A pixels) ->
   exists f,
     clusterDetections table pixels width height = Some [f] /\
     boundingBox g A f /\
     fpixels f = List.length (pixelsIn g A pixels)) /\
  (List.length (pixelsIn g A pixels) < 8 ->
   clusterDetections table pixels width height = Some []).
Proof.
  intros g h Hin Hlab Hactive HA.
  destruct (clusterDetections_fills table pixels width height Hin Hlab)
    as (grid & fills & Hgrid & Hok & Hres & Hnd & Hcomp & Hcover).
  fold g h in Hgrid, Hok, Hcomp, Hcover, Hres.
  assert (Hlive : forall i, live grid i = true <-> In i A).
  { intros i. rewrite Hactive. unfold live, active.
    destruct Hok as (Hlen & _ & Hcell). destruct (Hcell i) as (Hc & _).
    rewrite andb_true_iff, Nat.ltb_lt, Nat.leb_le, Hlen, Hc. reflexivity. }
  destruct (one_fill g grid A fills Hlive HA Hnd Hcomp Hcover)
    as (fa & -> & Hsame).
  destruct (Hcomp fa (or_introl eq_refl)) as ((NdA & _) & SeedA).
  rewrite <- (pixelsIn_ext g (snd fa) A pixels Hsame).
  rewrite Hres. unfold findingsOf. cbn [flat_map]. rewrite app_nil_r.
  split.
  - intros H8.
    destruct (findingOf_emits table g h pixels grid Hok Hlab (fst fa) (snd fa)
                NdA SeedA H8) as (f & _ & _ & _ & _ & E & Hbox & Hpix & _).
    exists f. rewrite E. split; [reflexivity |].
    split; [apply (boundingBox_ext g (snd fa)); assumption | exact Hpix].
  - intros Hlt.
    rewrite (findingOf_small table g h pixels grid Hok (fst fa) (snd fa) NdA Hlt).
    reflexivity.
Qed.

(** An L-shaped group of three cells on a grid of 2 by 2 cells. *)
Lemma connected_group_one_finding_witness :
  exists f,
    clusterDetections Flash.BLOOD_PROFILES
      (patch 0 0 3 1 brightRed ++ patch 12 0 3 1 maroon
       ++ patch 12 12 3 1 maroon) 24 24 = Some [f] /\
    boundingBox 2 [0; 1; 3] f /\ fpixels f = 9.
Proof.
  apply (connected_group_one_finding Flash.BLOOD_PROFILES
           (patch 0 0 3 1 brightRed ++ patch 12 0 3 1 maroon
            ++ patch 12 12 3 1 maroon) 24 24 [0; 1; 3]).
  - intros p Hp. apply Nat.ltb_lt. revert p Hp. apply forallb_forall.
    reflexivity.
  - intros p Hp.
    assert (E : existsb (String.eqb (label (profile p)))
                  (map label Flash.BLOOD_PROFILES) = true)
      by (revert p Hp; apply forallb_forall; reflexivity).
    apply existsb_exists in E. destruct E as (k & Hk & E).
    apply String.eqb_eq in E. rewrite E. exact Hk.
  - intros i. do 4 (destruct i as [| i]; [vm_compute; intuition lia |]).
    vm_compute. intuition lia.
  - reflexivity.
  - vm_compute. lia.
Defined.

(** X5.  Matched pixels spread so thin that no cell of the grid holds 3 of
    them yield no Finding, however many they are in total. *)
Theorem sparse_pixels_no_finding (table : list Profile)
  (pixels : list MatchedPixel) (width height : nat) :
  let g := ceilDiv width GRID in
  let h := ceilDiv height GRID in
  (forall p, In p pixels -> cellIndex g p < g * h) ->
  (forall i, List.length (pixelsAt g i pixels) < THRESHOLD) ->
  clusterDetections table pixels width height = Some [].
Proof.
  intros g h Hin Hthin. unfold clusterDetections. fold g h.
  destruct (buildGrid_total pixels g h Hin) as (grid & Hgrid).
  rewrite Hgrid.
  destruct (buildGrid_inv pixels g h grid Hgrid) as (_ & _ & Hcell).
  assert (Hidle : forall l,
            fold_left (clusterStep table grid g h) l (Some ([], []))
            = Some ([], [])).
  { induction l as [| [gx gy] l IH]; simpl; [reflexivity |].
    assert (E : active grid (gy * g + gx) = false).
    { unfold active. apply Nat.leb_gt.
      destruct (Hcell (gy * g + gx)) as (-> & _). apply Hthin. }
    rewrite E. simpl. exact IH. }
  rewrite Hidle. reflexivity.
Qed.

(** Twelve matched pixels, two in each of six cells. *)
Lemma sparse_pixels_no_finding_witness :
  List.length (flat_map (fun k => patch (12 * k) 0 2 1 brightRed) (seq 0 6))
  = 12 /\
  clusterDetections Flash.BLOOD_PROFILES
    (flat_map (fun k => patch (12 * k) 0 2 1 brightRed) (seq 0 6)) 72 12
  = Some [].
Proof.
  split; [reflexivity |].
  apply (sparse_pixels_no_finding Flash.BLOOD_PROFILES
           (flat_map (fun k => patch (12 * k) 0 2 1 brightRed) (seq 0 6)) 72 12).
  - intros p Hp. apply Nat.ltb_lt. revert p Hp. apply forallb_forall.
    reflexivity.
  - intros i. do 6 (destruct i as [| i]; [vm_compute; lia |]).
    vm_compute. lia.
Defined.

(** X6.  One flood fill, started at a live cell [seed] that was not visited
    before, ends within as many turns of its [while] loop as the grid has
    cells, with an empty queue; when the cells visited before are closed
    under adjacency (as the cells of earlier flood fills are), the cells it
    adds to [visited] are, without repetition, exactly the live cells that a
    chain of 4-adjacent live cells links to [seed]; [totalPixels] is the sum
    of their counts and [minX, maxX, minY, maxY] bound their columns and
    rows. *)
Theorem floodFill_visits_component (gridW gridH : nat) (grid : list Cell)
  (V0 : list nat) (seed : nat) :
  List.length grid = gridW * gridH ->
  NoDup V0 -> ~ In seed V0 -> live grid seed = true ->
  (forall c d, In c V0 -> live grid d = true -> adjacent gridW c d = true ->
               In d V0) ->
  let st := floodFill (List.length grid) grid gridW gridH
              (mkFill [seed] (V0 ++ [seed]) (col gridW seed) (col gridW seed)
                 (row gridW seed) (row gridW seed) 0 []) in
  exists cells,
    queue st = [] /\ visited st = V0 ++ cells /\ NoDup cells /\
    (forall c, In c cells <-> linked gridW grid seed c) /\
    totalPixels st = sumCounts grid cells /\
    (forall c, In c cells ->
       minX st <= col gridW c <= maxX st /\
       minY st <= row gridW c <= maxY st).
Proof.
  intros Hlen HndV Hfresh Hlive Hclosed st.
  destruct (floodFill_spec gridW gridH grid Hlen V0 seed HndV Hfresh Hlive)
    as (done & Hinv & Hq).
  fold st in Hinv, Hq.
  destruct Hinv as (Hvis & Hnd & Hseed & Hlinked & Hcl & Htot & _
                    & Hx0 & Hx1 & Hy0 & Hy1).
  rewrite Hq, app_nil_r in *.
  exists done. split; [reflexivity |]. split; [exact Hvis |].
  rewrite Hvis in Hnd.
  split; [apply NoDup_app_remove_l in Hnd; exact Hnd |].
  split; [| split; [exact Htot |]].
  - intros c. split; [intros Hc; apply Hlinked, Hc |].
    assert (Hall : forall a d, linked gridW grid a d -> a = seed -> In d done).
    { intros a d Hl. induction Hl as [a Ha | a b d Hab IH Hadj Hd]; intros ->.
      - exact Hseed.
      - specialize (IH eq_refl).
        pose proof (Hcl b d IH Hd Hadj) as Hin. rewrite Hvis in Hin.
        apply in_app_or in Hin. destruct Hin as [Hin | Hin]; [| exact Hin].
        exfalso. apply (NoDup_app_apart _ _ b Hnd); [| exact IH].
        apply (Hclosed d b Hin).
        + apply (linked_live gridW grid seed b Hab).
        + rewrite adjacent_sym. exact Hadj. }
    intros Hl. apply (Hall seed c Hl eq_refl).
  - intros c Hc. rewrite Hx0, Hx1, Hy0, Hy1.
    destruct (minOver_spec (col gridW) done (col gridW seed)) as (_ & X & _).
    destruct (maxOver_spec (col gridW) done (col gridW seed)) as (_ & X' & _).
    destruct (minOver_spec (row gridW) done (row gridW seed)) as (_ & Y & _).
    destruct (maxOver_spec (row gridW) done (row gridW seed)) as (_ & Y' & _).
    specialize (X c Hc). specialize (X' c Hc).
    specialize (Y c Hc). specialize (Y' c Hc). lia.
Qed.

(** A grid of 3 by 2 cells whose live cells are 0, 1 and 4 (linked) and
    none else: the fill from cell 0 visits the three of them. *)
Lemma floodFill_visits_component_witness :
  exists cells,
    queue (floodFill 6
             [mkCell 3 []; mkCell 4 []; emptyCell;
              emptyCell; mkCell 5 []; emptyCell] 3 2
             (mkFill [0] [0] 0 0 0 0 0 [])) = [] /\
    visited (floodFill 6
               [mkCell 3 []; mkCell 4 []; emptyCell;
                emptyCell; mkCell 5 []; emptyCell] 3 2
               (mkFill [0] [0] 0 0 0 0 0 [])) = cells /\
    NoDup cells /\
    (forall c, In c cells <->
       linked 3 [mkCell 3 []; mkCell 4 []; emptyCell;
                 emptyCell; mkCell 5 []; emptyCell] 0 c).
Proof.
  destruct (floodFill_visits_component 3 2
              [mkCell 3 []; mkCell 4 []; emptyCell;
               emptyCell; mkCell 5 []; emptyCell] [] 0)
    as (cells & Hq & Hv & Hnd & Hl & _).
  - reflexivity.
  - constructor.
  - intros [].
  - reflexivity.
  - intros c d [].
  - exists cells. split; [exact Hq |]. split; [exact Hv |].
    split; [exact Hnd | exact Hl].
Defined.

(** X7.  When [pixels.forEach] raises no error, the grid has one cell per
    grid position, the count of every cell is the number of matched pixels
    that fall in it, its tally of every label is the number of those pixels
    with that label, the tallies of a cell add up to its count, and the
    counts of the cells add up to the number of matched pixels. *)
Theorem grid_counts_every_pixel (pixels : list MatchedPixel)
  (gridW gridH : nat) (grid : list Cell) :
  buildGrid pixels gridW gridH = Some grid ->
  List.length grid = gridW * gridH /\
  (forall i, count (nth i grid emptyCell)
             = List.length (pixelsAt gridW i pixels)) /\
  (forall i k, tallyOf k (profiles (nth i grid emptyCell))
               = List.length (pixelsOf k (pixelsAt gridW i pixels))) /\
  (forall i, sumTally (profiles (nth i grid emptyCell))
             = count (nth i grid emptyCell)) /\
  list_sum (map count grid) = List.length pixels.
Proof.
  intros Hgrid.
  pose proof (buildGrid_inv pixels gridW gridH grid Hgrid) as Hok.
  destruct Hok as (Hlen & Hin & Hcell).
  split; [exact Hlen |].
  split; [intros i; apply (Hcell i) |].
  split; [intros i k; apply (Hcell i) |].
  split; [intros i; apply (Hcell i) |].
  assert (E : map count grid
              = map (fun c => List.length (pixelsAt gridW c pixels))
                  (seq 0 (gridW * gridH))).
  { rewrite <- Hlen. apply (nth_ext _ _ 0 0).
    - rewrite !length_map, length_seq. reflexivity.
    - intros n Hn. rewrite length_map in Hn.
      rewrite (nth_indep _ 0 (count emptyCell)) by (rewrite length_map; exact Hn).
      rewrite map_nth.
      rewrite (nth_indep _ 0 ((fun c => List.length (pixelsAt gridW c pixels)) 0))
        by (rewrite length_map, length_seq; exact Hn).
      rewrite (map_nth (fun c => List.length (pixelsAt gridW c pixels))).
      rewrite seq_nth by exact Hn. simpl. apply (Hcell n). }
  rewrite E, (pixelsIn_length gridW _ pixels (seq_NoDup _ _)).
  unfold pixelsIn. f_equal. apply forallb_filter_id.
  apply forallb_forall. intros p Hp. apply has_In, in_seq.
  specialize (Hin p Hp). lia.
Qed.

Lemma grid_counts_every_pixel_witness :
  exists grid,
    buildGrid twoGroupPixels 5 1 = Some grid /\
    List.length grid = 5 /\
    list_sum (map count grid) = 16.
Proof.
  eexists. split; [vm_compute; reflexivity |].
  match goal with
  | |- List.length ?g = _ /\ _ =>
      destruct (grid_counts_every_pixel twoGroupPixels 5 1 g) as (H1 & _ & _ & _ & H2)
  end.
  - vm_compute. reflexivity.
  - split; [exact H1 | exact H2].
Defined.

(** ** The cluster engine: the order of the Findings *)

Section ClusterOrder.

Variables (table : list Profile) (g h : nat) (pixels : list MatchedPixel).
Variable grid : list Cell.
Hypothesis grid_ok : gridInv g h pixels grid.
Hypothesis labels_ok :
  forall p, In p pixels -> In (label (profile p)) (map label table).

(** One turn of the loops over the grid keeps the flood fills run so far
    and adds at most one, seeded at the cell tried. *)
Lemma clusterStep_seeds (k : nat) (fills : list (nat * list nat))
  (acc : option (list nat * list Finding)) :
  k < g * h -> clusterInv table grid g k fills acc -> seedsInv k fills ->
  exists fills',
    clusterInv table grid g (S k) fills'
      (clusterStep table grid g h acc (col g k, row g k)) /\
    seedsInv (S k) fills'.
Proof.
  intros Hk (-> & Hnd & Hcomp & Hcover) (Hseeds & Hsorted).
  pose proof grid_ok as (Hlen & _).
  assert (Hkeep : seedsInv (S k) fills).
  { split; [| exact Hsorted]. intros f Hf. destruct (Hseeds f Hf). auto. }
  unfold clusterStep. rewrite <- (cell_of_row_col g k).
  set (vis := List.concat (map snd fills)) in *.
  destruct (has k vis || negb (active grid k)) eqn:Eskip.
  - exists fills. split; [| exact Hkeep].
    split; [reflexivity |]. split; [exact Hnd |]. split; [exact Hcomp |].
    intros i Hi Hlive. destruct (Nat.eq_dec i k) as [-> | Hne].
    + apply live_active in Hlive. rewrite Hlive, orb_false_r in Eskip.
      apply has_In, Eskip.
    + apply Hcover; [lia | exact Hlive].
  - apply orb_false_iff in Eskip. destruct Eskip as [Enot Eact].
    apply has_not_In in Enot. apply negb_false_iff in Eact.
    assert (Hlive : live grid k = true).
    { unfold live. rewrite Eact, andb_true_r. apply Nat.ltb_lt. lia. }
    destruct (floodFill_spec g h grid Hlen vis k Hnd Enot Hlive)
      as (done & Hinv & Hq).
    set (st := floodFill (List.length grid) grid g h _) in *. clearbody st.
    destruct Hinv as (Hvis & Hnd' & Hseed & Hlinked & Hclosed & Htot & HpT
                      & Hx0 & Hx1 & Hy0 & Hy1).
    rewrite Hq, app_nil_r in *.
    assert (Hdone : component g grid done /\ In k done).
    { split; [| exact Hseed]. rewrite Hvis in Hnd'. repeat split.
      - apply NoDup_app_remove_l in Hnd'. exact Hnd'.
      - exists k. split; [exact Hseed |]. intros c Hc. apply Hlinked, Hc.
      - intros c d Hc Hd Hadj.
        specialize (Hclosed c d Hc Hd Hadj). rewrite Hvis in Hclosed.
        apply in_app_or in Hclosed. destruct Hclosed as [Hin | Hin]; [| exact Hin].
        exfalso. apply in_concat_fills in Hin. destruct Hin as (f & Hf & Hdf).
        destruct (Hcomp f Hf) as ((_ & _ & Hcl) & _).
        assert (Hcf : In c (snd f)).
        { apply (Hcl d c Hdf); [apply Hlinked, Hc |].
          rewrite adjacent_sym. exact Hadj. }
        apply (NoDup_app_apart _ _ c Hnd'); [| exact Hc].
        apply in_concat_fills. exists f. auto. }
    assert (Hfills : List.concat (map snd (fills ++ [(k, done)])) = visited st).
    { rewrite map_app, concat_app. simpl. rewrite app_nil_r. symmetry. exact Hvis. }
    assert (Hnew : seedsInv (S k) (fills ++ [(k, done)])).
    { split.
      - intros f Hf. apply in_app_or in Hf.
        destruct Hf as [Hf | [<- | []]]; [destruct (Hseeds f Hf); auto |].
        simpl. split; [lia |]. intros c Hc.
        destruct (le_dec k c) as [Hle | Hgt]; [exact Hle |]. exfalso.
        rewrite Hvis in Hnd'.
        apply (NoDup_app_apart _ _ c Hnd'); [| exact Hc].
        apply Hcover; [lia | apply Hlinked, Hc].
      - rewrite map_app. simpl.
        assert (Happ : forall l : list nat,
                  StronglySorted lt l -> (forall x, In x l -> x < k) ->
                  StronglySorted lt (l ++ [k])).
        { induction l as [| a l IH]; intros Hs Hl; simpl.
          - constructor; [constructor | constructor].
          - inversion Hs as [| ? ? Hs' Ha]; subst.
            constructor.
            + apply IH; [exact Hs' | intros x Hx; apply Hl; right; exact Hx].
            + apply Forall_app. split; [exact Ha |].
              constructor; [apply Hl; left; reflexivity | constructor]. }
        apply Happ; [exact Hsorted |].
        intros x Hx. apply in_map_iff in Hx. destruct Hx as (f & <- & Hf).
        apply (Hseeds f Hf). }
    assert (Hinv' : forall boxes,
      boxes = findingsOf table grid g (fills ++ [(k, done)]) ->
      clusterInv table grid g (S k) (fills ++ [(k, done)])
        (Some (visited st, boxes))).
    { intros boxes ->. unfold clusterInv. rewrite Hfills.
      split; [reflexivity |]. split; [exact Hnd' |]. split.
      - intros f Hf. apply in_app_or in Hf. destruct Hf as [Hf | [<- | []]];
          [apply Hcomp, Hf | exact Hdone].
      - intros i Hi Hli. rewrite Hvis. apply in_or_app.
        destruct (Nat.eq_dec i k) as [-> | Hne]; [right; exact Hseed | left].
        apply Hcover; [lia | exact Hli]. }
    exists (fills ++ [(k, done)]). split; [| exact Hnew].
    unfold findingsOf in *. rewrite flat_map_app in Hinv'. simpl in Hinv'.
    rewrite app_nil_r in Hinv'. unfold findingOf in Hinv'.
    rewrite <- Htot, <- HpT, <- Hx0, <- Hx1, <- Hy0, <- Hy1 in Hinv'.
    destruct (totalPixels st <? 8) eqn:E8.
    + apply Hinv'. rewrite app_nil_r. reflexivity.
    + apply Nat.ltb_ge in E8.
      pose proof (dominant_first_max (profileTotals st)) as Hdom.
      destruct (dominant (profileTotals st)) as [[k0 v0] |].
      * destruct Hdom as (before & after & Hsplit & _).
        assert (Hkey : In k0 (map fst (profileTotals st))).
        { rewrite Hsplit, map_app. apply in_or_app. right. left. reflexivity. }
        rewrite HpT in Hkey.
        destruct (mergeTallies_label g h pixels grid grid_ok k0 done Hkey)
          as (p & Hp & Elab).
        pose proof (labels_ok p Hp) as Hlab. rewrite Elab in Hlab.
        destruct (findProfile_label table k0 Hlab) as (prof & Ef & _).
        simpl fst in *. rewrite Ef in *. apply Hinv'. reflexivity.
      * exfalso.
        pose proof (mergeTallies_sum g h pixels grid grid_ok done) as Hsum.
        rewrite <- HpT, <- Htot, Hdom in Hsum. unfold sumTally in Hsum.
        simpl in Hsum. lia.
Qed.

Lemma clusterLoop_seeds (n : nat) :
  n <= g * h ->
  exists fills,
    clusterInv table grid g n fills
      (fold_left (clusterStep table grid g h)
         (map (fun i => (col g i, row g i)) (seq 0 n)) (Some ([], []))) /\
    seedsInv n fills.
Proof.
  induction n as [| n IH]; intros Hn.
  - exists []. simpl. split.
    + unfold clusterInv. simpl.
      split; [reflexivity |]. split; [constructor |]. split.
      * intros f [].
      * intros i Hi. lia.
    + split; [intros f [] | constructor].
  - destruct IH as (fills & Hinv & Hseeds); [lia |].
    rewrite seq_S, map_app, fold_left_app. simpl.
    apply (clusterStep_seeds n fills); [lia | exact Hinv | exact Hseeds].
Qed.

(** The top edge of the Finding of a flood fill is the row of its seed. *)
Lemma findingOf_top (seed : nat) (cells : list nat) (f : Finding) :
  NoDup cells -> In seed cells -> (forall c, In c cells -> seed <= c) ->
  In f (findingOf table grid g seed cells) ->
  fy f = row g seed * GRID.
Proof.
  intros Hnd Hseed Hmin Hf.
  destruct (findingOf_In table g h pixels grid grid_ok labels_ok seed cells f
              Hnd Hseed Hf) as (_ & (Hall & _ & _ & (c & Hc & Ec) & _) & _).
  destruct (Hall seed Hseed) as (_ & _ & Hle & _).
  assert (Hrow : row g seed <= row g c).
  { unfold row. apply Nat.Div0.div_le_mono, Hmin, Hc. }
  unfold GRID in *. lia.
Qed.

End ClusterOrder.

(** X26.  [clusterDetections] lists the Findings from top to bottom: a
    Finding listed before another one starts at the same height or higher
    (the loops over the grid go row by row, and the top edge of a Finding
    is the row of the first cell of its group that they meet). *)
Theorem findings_listed_top_down (table : list Profile)
  (pixels : list MatchedPixel) (width height : nat) :
  let g := ceilDiv width GRID in
  let h := ceilDiv height GRID in
  (forall p, In p pixels -> cellIndex g p < g * h) ->
  (forall p, In p pixels -> In (label (profile p)) (map label table)) ->
  exists boxes,
    clusterDetections table pixels width height = Some boxes /\
    StronglySorted (fun f1 f2 => fy f1 <= fy f2) boxes.
Proof.
  intros g h Hin Hlab.
  destruct (buildGrid_total pixels g h Hin) as (grid & Hgrid).
  pose proof (buildGrid_inv pixels g h grid Hgrid) as Hok.
  destruct (clusterLoop_seeds table g h pixels grid Hok Hlab (g * h) (le_n _))
    as (fills & (Hacc & Hnd & Hcomp & _) & (Hseeds & Hsorted)).
  exists (findingsOf table grid g fills). split.
  - unfold clusterDetections. fold g h. rewrite Hgrid, rasterCells_indices, Hacc.
    reflexivity.
  - assert (Htop : forall fl f, In fl fills ->
              In f (findingOf table grid g (fst fl) (snd fl)) ->
              fy f = row g (fst fl) * GRID).
    { intros fl f Hfl Hf. destruct (Hcomp fl Hfl) as ((Hndf & _) & Hseed).
      apply (findingOf_top table g h pixels grid Hok Hlab (fst fl) (snd fl) f
               Hndf Hseed); [apply (Hseeds fl Hfl) | exact Hf]. }
    assert (Hone : forall fl, In fl fills ->
              findingOf table grid g (fst fl) (snd fl) = [] \/
              exists f, findingOf table grid g (fst fl) (snd fl) = [f]).
    { intros fl Hfl.
      destruct (findingOf table grid g (fst fl) (snd fl)) as [| f l] eqn:E;
        [left; reflexivity | right].
      destruct (Hcomp fl Hfl) as ((Hndf & _) & Hseed).
      destruct (findingOf_In table g h pixels grid Hok Hlab (fst fl) (snd fl) f
                  Hndf Hseed) as (E' & _).
      { rewrite E. left. reflexivity. }
      exists f. rewrite <- E. exact E'. }
    clear Hacc Hnd Hcomp Hseeds.
    induction fills as [| fl fills IH]; [constructor |].
    simpl in Hsorted. inversion Hsorted as [| ? ? Hs Hlt]; subst.
    unfold findingsOf. cbn [flat_map].
    fold (findingsOf table grid g fills).
    assert (IH' : StronglySorted (fun f1 f2 => fy f1 <= fy f2)
                    (findingsOf table grid g fills)).
    { apply IH; [exact Hs | |].
      - intros fl' f Hfl'. apply Htop. right. exact Hfl'.
      - intros fl' Hfl'. apply Hone. right. exact Hfl'. }
    destruct (Hone fl (or_introl eq_refl)) as [E | (f & E)]; rewrite E;
      [exact IH' |].
    cbn [app]. constructor; [exact IH' |].
    apply Forall_forall. intros f' Hf'.
    apply findingsOf_In in Hf'. destruct Hf' as (fl' & Hfl' & Hf').
    rewrite (Htop fl f (or_introl eq_refl)) by (rewrite E; left; reflexivity).
    rewrite (Htop fl' f' (or_intror Hfl') Hf').
    rewrite Forall_forall in Hlt.
    assert (Hseed : fst fl < fst fl') by (apply Hlt, in_map, Hfl').
    assert (Hrow : row g (fst fl) <= row g (fst fl')).
    { unfold row. apply Nat.Div0.div_le_mono. lia. }
    unfold GRID. lia.
Qed.

Lemma findings_listed_top_down_witness :
  exists boxes,
    clusterDetections Flash.BLOOD_PROFILES
      (patch 12 12 4 2 maroon ++ patch 0 0 4 2 brightRed) 24 24 = Some boxes /\
    StronglySorted (fun f1 f2 => fy f1 <= fy f2) boxes.
Proof.
  apply (findings_listed_top_down Flash.BLOOD_PROFILES
           (patch 12 12 4 2 maroon ++ patch 0 0 4 2 brightRed) 24 24).
  - intros p Hp. apply Nat.ltb_lt. revert p Hp. apply forallb_forall.
    vm_compute. reflexivity.
  - intros p Hp.
    assert (E : existsb (String.eqb (label (profile p)))
                  (map label Flash.BLOOD_PROFILES) = true)
      by (revert p Hp; apply forallb_forall; vm_compute; reflexivity).
    apply existsb_exists in E. destruct E as (k & Hk & E).
    apply String.eqb_eq in E. rewrite E. exact Hk.
Defined.

(** Two groups, the lower one matched first: the upper one is listed
    first. *)
Example findings_order_example :
  option_map (map (fun f => (fx f, fy f, flabel f)))
    (clusterDetections Flash.BLOOD_PROFILES
       (patch 12 12 4 2 maroon ++ patch 0 0 4 2 brightRed) 24 24)
  = Some [(0, 0, "Bright Red"); (12, 12, "Maroon")].
Proof. vm_compute. reflexivity. Qed.

(** ** The analysis entry point *)

Import Bowl BowlSpec.

Lemma fold_left_map {A B C : Type} (f : A -> C -> A) (m : B -> C)
  (l : list B) (a : A) :
  fold_left f (map m l) a = fold_left (fun a b => f a (m b)) l a.
Proof.
  revert a. induction l as [| b l IH]; intros a; simpl; [reflexivity |].
  apply IH.
Qed.

Lemma fold_left_flat_map {A B C : Type} (f : A -> C -> A) (m : B -> list C)
  (l : list B) (a : A) :
  fold_left f (flat_map m l) a
  = fold_left (fun a b => fold_left f (m b) a) l a.
Proof.
  revert a. induction l as [| b l IH]; intros a; simpl; [reflexivity |].
  rewrite fold_left_app. apply IH.
Qed.

Lemma fold_left_pointwise {A B : Type} (f f' : A -> B -> A) (l : list B)
  (a : A) :
  (forall a b, f a b = f' a b) -> fold_left f l a = fold_left f' l a.
Proof.
  intros H. revert a. induction l as [| b l IH]; intros a; simpl;
    [reflexivity |].
  rewrite H. apply IH.
Qed.

(** The two loops, as one loop over the sampled positions. *)
Lemma scan_positions (data : list Z) (width height : nat) :
  scan data width height
  = fold_left (fun st xy => samplePixel data width height (snd xy) st (fst xy))
      (positions width height) (mkScan [] (mkCounts 0 0) 0).
Proof.
  unfold scan, positions. rewrite fold_left_flat_map.
  apply fold_left_pointwise. intros st y. rewrite fold_left_map. reflexivity.
Qed.

Lemma samplePixel_spec (data : list Z) (width height : nat) (st : Scan)
  (xy : nat * nat) :
  samplePixel data width height (snd xy) st (fst xy)
  = if inRegion data width height xy
    then mkScan (bloodPixels st ++ matched data width [xy])
           (match contentAt data width xy with
            | Some key => countContent (contentCounts st) key
            | None => contentCounts st
            end)
           (S (bowlSamples st))
    else st.
Proof.
  unfold samplePixel, inRegion, opaque, matched, bloodAt, contentAt, colourAt.
  destruct (isInBowlMask (fst xy) (snd xy) width height); simpl; [| reflexivity].
  destruct (byteAt data ((snd xy * width + fst xy) * 4 + 3)) as [a |]; simpl.
  - destruct (a <? 128)%Z; simpl; [reflexivity |].
    destruct (byteAt data ((snd xy * width + fst xy) * 4)) as [r |];
      destruct (byteAt data ((snd xy * width + fst xy) * 4 + 1)) as [g |];
      destruct (byteAt data ((snd xy * width + fst xy) * 4 + 2)) as [b |];
      simpl; rewrite ?app_nil_r; try reflexivity.
    destruct (matchesBlood _ _ _); simpl; rewrite ?app_nil_r; reflexivity.
  - destruct (byteAt data ((snd xy * width + fst xy) * 4)) as [r |];
      destruct (byteAt data ((snd xy * width + fst xy) * 4 + 1)) as [g |];
      destruct (byteAt data ((snd xy * width + fst xy) * 4 + 2)) as [b |];
      simpl; rewrite ?app_nil_r; try reflexivity.
    destruct (matchesBlood _ _ _); simpl; rewrite ?app_nil_r; reflexivity.
Qed.

Lemma scan_acc (data : list Z) (width height : nat) (l : list (nat * nat))
  (st : Scan) :
  let st' :=
    fold_left (fun st xy => samplePixel data width height (snd xy) st (fst xy))
      l st in
  let kept := filter (inRegion data width height) l in
  bloodPixels st' = bloodPixels st ++ matched data width kept /\
  bowlSamples st' = (bowlSamples st + List.length kept)%nat /\
  urine (contentCounts st')
  = (urine (contentCounts st)
     + List.length (filter (isUrine data width) kept))%nat /\
  stool (contentCounts st')
  = (stool (contentCounts st)
     + List.length (filter (isStool data width) kept))%nat.
Proof.
  revert st. induction l as [| xy l IH]; intros st; simpl.
  - rewrite app_nil_r. repeat split; lia.
  - specialize (IH (samplePixel data width height (snd xy) st (fst xy))).
    simpl in IH. destruct IH as (H1 & H2 & H3 & H4).
    rewrite H1, H2, H3, H4, samplePixel_spec.
    destruct (inRegion data width height xy); simpl.
    + unfold matched at 2. simpl. fold (matched data width).
      rewrite <- app_assoc. unfold matched at 1. simpl. rewrite app_nil_r.
      unfold isUrine, isStool.
      destruct (bloodAt data width xy);
        destruct (contentAt data width xy) as [[|] |]; simpl;
        repeat split; try lia; reflexivity.
    + repeat split.
Qed.

(** What the scan accumulates: the matched blood pixels among the in-region
    sampled pixels, the number of those pixels, and the numbers of urine and
    stool matches among them. *)
Lemma scan_spec (data : list Z) (width height : nat) :
  let kept := sampled data width height in
  bloodPixels (scan data width height) = matched data width kept /\
  bowlSamples (scan data width height) = List.length kept /\
  urine (contentCounts (scan data width height))
  = List.length (filter (isUrine data width) kept) /\
  stool (contentCounts (scan data width height))
  = List.length (filter (isStool data width) kept).
Proof.
  rewrite scan_positions.
  apply (scan_acc data width height (positions width height)
           (mkScan [] (mkCounts 0 0) 0)).
Qed.

Lemma stride_lt (step n x : nat) : In x (stride step n) -> (x < n)%nat.
Proof.
  unfold stride. rewrite in_map_iff. intros (k & <- & Hk).
  apply in_seq in Hk.
  destruct step as [| step]; [rewrite Nat.div_0_r in Hk; lia |].
  replace (S step - 1)%nat with step in Hk by lia.
  assert (H : (k < (n + step) / S step)%nat) by lia.
  pose proof (Nat.Div0.mul_div_le (n + step) (S step)) as H'.
  nia.
Qed.

Lemma positions_inside (width height : nat) (xy : nat * nat) :
  In xy (positions width height) ->
  (fst xy < width)%nat /\ (snd xy < height)%nat.
Proof.
  unfold positions. rewrite in_flat_map. intros (y & Hy & Hxy).
  apply in_map_iff in Hxy. destruct Hxy as (x & <- & Hx). simpl.
  split; [apply (stride_lt 2), Hx | apply (stride_lt 2), Hy].
Qed.

Lemma matched_spec (data : list Z) (width : nat) (l : list (nat * nat))
  (p : MatchedPixel) :
  In p (matched data width l) <->
  In (px p, py p) l /\ bloodAt data width (px p, py p) = Some (profile p).
Proof.
  unfold matched. rewrite in_flat_map. split.
  - intros ([x y] & Hxy & Hp).
    destruct (bloodAt data width (x, y)) as [q |] eqn:E; [| destruct Hp].
    destruct Hp as [<- | []]. simpl. auto.
  - intros [Hin E]. exists (px p, py p). split; [exact Hin |].
    rewrite E. left. destruct p. reflexivity.
Qed.

Lemma matched_length (data : list Z) (width : nat) (l : list (nat * nat)) :
  (List.length (matched data width l) <= List.length l)%nat.
Proof.
  unfold matched. induction l as [| xy l IH]; simpl; [lia |].
  rewrite length_app. destruct (bloodAt data width xy); simpl; lia.
Qed.

Lemma bloodAt_declared (data : list Z) (width : nat) (xy : nat * nat)
  (p : Profile) :
  bloodAt data width xy = Some p -> In p BLOOD_PROFILES.
Proof.
  unfold bloodAt. destruct (colourAt data width xy) as [[[r g] b] |];
    [| discriminate].
  apply matchesHsl_in.
Qed.

Lemma cell_inside (width height x y : nat) :
  (x < width)%nat -> (y < height)%nat ->
  (cellIndex (ceilDiv width GRID) (mkPixel x y wrapProfile)
   < ceilDiv width GRID * ceilDiv height GRID)%nat.
Proof.
  intros Hx Hy. unfold cellIndex, ceilDiv, GRID. simpl px. simpl py.
  assert (Hgx : (x / 12 < (width + 11) / 12)%nat).
  { apply Nat.Div0.div_lt_upper_bound.
    pose proof (Nat.div_mod_eq (width + 11) 12).
    pose proof (Nat.mod_upper_bound (width + 11) 12). lia. }
  assert (Hgy : (y / 12 < (height + 11) / 12)%nat).
  { apply Nat.Div0.div_lt_upper_bound.
    pose proof (Nat.div_mod_eq (height + 11) 12).
    pose proof (Nat.mod_upper_bound (height + 11) 12). lia. }
  change (12 - 1)%nat with 11%nat. nia.
Qed.

(** [clusterDetections] raises no error on the matched pixels of a scan. *)
Lemma scan_clusters (data : list Z) (width height : nat) :
  exists boxes,
    Bowl.clusterDetections (bloodPixels (scan data width height)) width height
    = Some boxes.
Proof.
  destruct (scan_spec data width height) as (Hb & _). rewrite Hb.
  destruct (clusterDetections_fills BLOOD_PROFILES
              (matched data width (sampled data width height)) width height)
    as (grid & fills & _ & _ & Hres & _).
  - intros p Hp. apply matched_spec in Hp. destruct Hp as [Hin _].
    unfold sampled in Hin. apply filter_In in Hin. destruct Hin as [Hin _].
    apply positions_inside in Hin. simpl in Hin.
    apply (cell_inside width height (px p) (py p)); tauto.
  - intros p Hp. apply matched_spec in Hp. destruct Hp as [_ Hp].
    apply in_map, (bloodAt_declared _ _ _ _ Hp).
  - eexists. exact Hres.
Qed.

(** [analyzeImageData] returns a result on every buffer. *)
Lemma analyzeImageData_total (data : list Z) (width height : nat) :
  exists res, analyzeImageData data width height = Some res.
Proof.
  unfold analyzeImageData.
  destruct (_ || _); [eexists; reflexivity |].
  destruct (scan_clusters data width height) as (boxes & ->).
  eexists. reflexivity.
Qed.

Local Open Scope Q_scope.

Lemma ratio_zero (m : nat) : ratio 0 m == 0.
Proof.
  unfold ratio. destruct m; [reflexivity |].
  unfold Qdiv. apply Qmult_0_l.
Qed.

Lemma Qgeb_zero_false (x t : Q) : x == 0 -> 0 < t -> Qgeb x t = false.
Proof.
  intros Hx Ht. apply not_true_iff_false. rewrite Qgeb_le, Hx.
  apply Qlt_not_le, Ht.
Qed.

(** C1.  When the number of matched blood pixels among the in-region
    sampled pixels is below [MIN_BLOOD_PIXELS] (36), or the blood ratio
    (matched pixels over in-region sampled pixels, 0 when none is sampled)
    is below [MIN_BLOOD_RATIO] (0.002), [analyzeImageData] returns a result
    with no Finding, whose count and ratio are those of the matched
    pixels. *)
Theorem evidence_gate (data : list Z) (width height : nat) :
  let kept := sampled data width height in
  let n := List.length (matched data width kept) in
  (n < 36)%nat \/ ratio n (List.length kept) < 0.002 ->
  MIN_BLOOD_PIXELS = 36%nat /\ MIN_BLOOD_RATIO = 0.002 /\
  exists res,
    analyzeImageData data width height = Some res /\
    detections res = [] /\
    bloodPixelCount res = n /\
    bloodRatio res = ratio n (List.length kept).
Proof.
  intros kept n Hgate. split; [reflexivity |]. split; [reflexivity |].
  unfold analyzeImageData.
  destruct (scan_spec data width height) as (Hb & Hs & _).
  fold kept in Hb, Hs. rewrite Hb, Hs. fold n.
  assert (E : ((n <? MIN_BLOOD_PIXELS)%nat
               || Qltb (ratio n (List.length kept)) MIN_BLOOD_RATIO) = true).
  { apply orb_true_iff. destruct Hgate as [H | H].
    - left. apply Nat.ltb_lt. exact H.
    - right. apply Qltb_lt. exact H. }
  rewrite E. eexists. repeat split.
Qed.

(** Eight matched pixels in one cell, which [clusterDetections] alone would
    report, are below the gate. *)
Lemma evidence_gate_witness :
  List.length (matched redPatchImage 24 (sampled redPatchImage 24 24)) = 8%nat /\
  (exists f, Bowl.clusterDetections
               (matched redPatchImage 24 (sampled redPatchImage 24 24)) 24 24
             = Some [f]) /\
  exists res,
    analyzeImageData redPatchImage 24 24 = Some res /\ detections res = [].
Proof.
  split; [vm_compute; reflexivity |].
  split; [eexists; vm_compute; reflexivity |].
  destruct (evidence_gate redPatchImage 24 24) as (_ & _ & res & H & H' & _).
  - left. vm_compute. lia.
  - exists res. split; assumption.
Defined.




Lemma sameBytes_eq (a b : option Z) : sameBytes a b = true -> a = b.
Proof.
  destruct a, b; simpl; try discriminate; try reflexivity.
  intros H. apply Z.eqb_eq in H. subst. reflexivity.
Qed.


Section Binary64Mask.

Import PrimFloat.

(** A pixel exactly on the ellipse: the exact test holds it, the test in
    binary64, whose sum rounds to just above 1, does not. *)
Example mask_rounded_on_ellipse :
  (((natQ 50 - natQ 100 * 0.5) / (natQ 100 * 0.38))
   * ((natQ 50 - natQ 100 * 0.5) / (natQ 100 * 0.38))
   + ((natQ 12 - natQ 100 * 0.56) / (natQ 100 * 0.44))
     * ((natQ 12 - natQ 100 * 0.56) / (natQ 100 * 0.44)) == 1)%Q /\
  isInBowlMask 50 12 100 100 = true /\
  Binary64.isInBowlMask 50 12 100 100 = false /\
  Binary64.isInBowlMask 50 13 100 100 = true /\
  Binary64.isInBowlMask 50 11 100 100 = false.
Proof. vm_compute. repeat split. Qed.

End Binary64Mask.

Lemma verdict_cases (u s : bool) :
  (verdict u s = "both" <-> u = true /\ s = true) /\
  (verdict u s = "urine" <-> u = true /\ s = false) /\
  (verdict u s = "stool" <-> u = false /\ s = true) /\
  (verdict u s = "unknown" <-> u = false /\ s = false).
Proof.
  destruct u, s; simpl; repeat split; intros; try discriminate;
    try tauto; destruct H; discriminate.
Qed.

(** The content matcher returns the first of the two content profiles that
    matches: urine when the Urine profile matches, stool when it does not
    and the Stool profile matches. *)
Lemma content_first_match (data : list Z) (width : nat) (xy : nat * nat) :
  exists pu ps,
    CONTENT_PROFILES = [(Urine, pu); (Stool, ps)] /\
    let fits p :=
      match colourAt data width xy with
      | Some (r, g, b) => profileMatches p (rgbToHsl r g b)
      | None => false
      end in
    isUrine data width xy = fits pu /\
    isStool data width xy = negb (fits pu) && fits ps.
Proof.
  eexists. eexists. split; [reflexivity |]. cbv zeta.
  unfold isUrine, isStool, contentAt, matchesContent, CONTENT_PROFILES.
  destruct (colourAt data width xy) as [[[r g] b] |]; [| split; reflexivity].
  cbn [find snd].
  destruct (profileMatches _ (rgbToHsl r g b));
    [split; reflexivity |].
  destruct (profileMatches _ (rgbToHsl r g b)); split; reflexivity.
Qed.

(** A quotient of two counts reaches one fiftieth exactly when fifty times
    the numerator reaches the denominator. *)
Lemma fiftieth_reached (n m : nat) :
  (0 < m)%nat -> (0.02 <= natQ n / natQ m <-> (m <= 50 * n)%nat).
Proof.
  intros Hm.
  assert (Hq : 0 < natQ m).
  { unfold natQ. change 0 with (inject_Z 0). rewrite <- Zlt_Qlt. lia. }
  assert (E : natQ n / natQ m * natQ m == natQ n) by (field; lra).
  split.
  - intros H.
    assert (H' : natQ m <= 50 * natQ n).
    { assert (0.02 * natQ m <= natQ n / natQ m * natQ m)
        by (apply Qmult_le_compat_r; lra).
      lra. }
    unfold natQ in H'. change 50 with (inject_Z 50) in H'.
    rewrite <- inject_Z_mult, <- Zle_Qle in H'. lia.
  - intros H. apply Qle_shift_div_l; [exact Hq |].
    assert (H' : natQ m <= 50 * natQ n).
    { unfold natQ. change 50 with (inject_Z 50).
      rewrite <- inject_Z_mult, <- Zle_Qle. lia. }
    lra.
Qed.

(** C3.  [analyzeImageData] returns a result on every image.  Its urine
    ratio is the number of in-region sampled pixels that the Urine profile
    matches, divided by the number of in-region sampled pixels; its stool
    ratio is the number of those that the Stool profile matches and the
    Urine profile does not, divided by the same number; both are 0 when no
    in-region pixel is sampled.  Urine is present exactly when
    [urineRatio >= MIN_URINE_RATIO] (0.02), that is when at least one
    in-region sampled pixel in fifty matches; stool likewise; and the
    verdict is "both" when both are present, "urine" or "stool" when exactly
    one is, "unknown" when neither is. *)
Theorem sample_type_verdict (data : list Z) (width height : nat) :
  exists res pu ps,
    analyzeImageData data width height = Some res /\
    CONTENT_PROFILES = [(Urine, pu); (Stool, ps)] /\
    let fits p xy :=
      match colourAt data width xy with
      | Some (r, g, b) => profileMatches p (rgbToHsl r g b)
      | None => false
      end in
    let kept := sampled data width height in
    let total := List.length kept in
    let nU := List.length (filter (fits pu) kept) in
    let nS :=
      List.length (filter (fun xy => negb (fits pu xy) && fits ps xy) kept) in
    let uR := urineRatio (contentSummary res) in
    let sR := stoolRatio (contentSummary res) in
    (total = 0%nat -> uR = 0 /\ sR = 0) /\
    ((0 < total)%nat ->
     uR = natQ nU / natQ total /\ sR = natQ nS / natQ total) /\
    MIN_URINE_RATIO = 0.02 /\ MIN_STOOL_RATIO = 0.02 /\
    (0.02 <= uR <-> (0 < total /\ total <= 50 * nU)%nat) /\
    (0.02 <= sR <-> (0 < total /\ total <= 50 * nS)%nat) /\
    (sampleType res = "both" <-> 0.02 <= uR /\ 0.02 <= sR) /\
    (sampleType res = "urine" <-> 0.02 <= uR /\ ~ 0.02 <= sR) /\
    (sampleType res = "stool" <-> ~ 0.02 <= uR /\ 0.02 <= sR) /\
    (sampleType res = "unknown" <-> ~ 0.02 <= uR /\ ~ 0.02 <= sR).
Proof.
  destruct (analyzeImageData_total data width height) as (res & Hres).
  destruct (content_first_match data width (0%nat, 0%nat))
    as (pu & ps & Etab & _).
  exists res, pu, ps. split; [exact Hres |]. split; [exact Etab |].
  intros fits kept total nU nS.
  destruct (scan_spec data width height) as (_ & Hs & Hu & Ht).
  fold kept in Hs, Hu, Ht. fold total in Hs.
  assert (EU : List.length (filter (isUrine data width) kept) = nU).
  { unfold nU. f_equal. apply filter_ext. intros xy.
    destruct (content_first_match data width xy) as (pu' & ps' & Etab' & E & _).
    rewrite Etab in Etab'. injection Etab' as <- <-. exact E. }
  assert (ES : List.length (filter (isStool data width) kept) = nS).
  { unfold nS. f_equal. apply filter_ext. intros xy.
    destruct (content_first_match data width xy) as (pu' & ps' & Etab' & _ & E).
    rewrite Etab in Etab'. injection Etab' as <- <-. exact E. }
  rewrite EU in Hu. rewrite ES in Ht.
  unfold analyzeImageData in Hres. rewrite Hs, Hu, Ht in Hres.
  assert (Hfields :
    urineRatio (contentSummary res) = ratio nU total /\
    stoolRatio (contentSummary res) = ratio nS total /\
    sampleType res
    = verdict (Qgeb (ratio nU total) MIN_URINE_RATIO)
        (Qgeb (ratio nS total) MIN_STOOL_RATIO)).
  { destruct (_ || _) in Hres.
    - injection Hres as <-. simpl. auto.
    - destruct (Bowl.clusterDetections _ _ _) in Hres; [| discriminate].
      injection Hres as <-. simpl. auto. }
  destruct Hfields as (Eu & Es & Ev). cbv zeta. rewrite Eu, Es, Ev.
  clearbody nU nS total. clear.
  destruct (verdict_cases (Qgeb (ratio nU total) MIN_URINE_RATIO)
              (Qgeb (ratio nS total) MIN_STOOL_RATIO))
    as (V1 & V2 & V3 & V4).
  rewrite V1, V2, V3, V4, <- !not_true_iff_false, !Qgeb_le.
  unfold MIN_URINE_RATIO, MIN_STOOL_RATIO.
  split; [intros ->; split; reflexivity |].
  split; [intros H; destruct total; [lia | split; reflexivity] |].
  split; [reflexivity |]. split; [reflexivity |].
  assert (Hfifty : forall n, 0.02 <= ratio n total <->
                             (0 < total /\ total <= 50 * n)%nat).
  { intros n. destruct total as [| t].
    - simpl. split; [intros H; exfalso; revert H; apply Qlt_not_le; reflexivity
                    | lia].
    - unfold ratio. rewrite fiftieth_reached by lia. split; [| tauto].
      intros H. split; [lia | exact H]. }
  split; [apply Hfifty |]. split; [apply Hfifty |].
  repeat split; try tauto.
Qed.

(** One yellow pixel among 76 in-region samples is below one in fifty, two
    are above. *)
Example urine_one_in_fifty :
  let image n :=
    imageOf 24 24 (fun x y =>
      if ((y =? 12) && (12 <=? x) && (x <? 12 + 2 * n))%nat
      then [220; 200; 90; 255]%Z else [240; 240; 240; 255]%Z) in
  let view res := (urineRatio (contentSummary res), sampleType res) in
  option_map view (analyzeImageData (image 1%nat) 24 24)
  = Some (natQ 1 / natQ 76, "unknown") /\
  option_map view (analyzeImageData (image 2%nat) 24 24)
  = Some (natQ 2 / natQ 76, "urine").
Proof. vm_compute. split; reflexivity. Qed.

(** C4.  When no in-region pixel is sampled, and when every in-region
    sampled pixel is mid-gray (128, 128, 128), [analyzeImageData] returns a
    result with no Finding, no matched pixel, urine, stool and blood ratios
    equal to 0 and the verdict "unknown". *)
Theorem degenerate_image_unknown (data : list Z) (width height : nat) :
  sampled data width height = [] \/
  (forall xy, In xy (sampled data width height) ->
              colourAt data width xy = Some (128, 128, 128)) ->
  exists res,
    analyzeImageData data width height = Some res /\
    detections res = [] /\
    bloodPixelCount res = 0%nat /\
    bloodRatio res == 0 /\
    urineRatio (contentSummary res) == 0 /\
    stoolRatio (contentSummary res) == 0 /\
    sampleType res = "unknown".
Proof.
  intros Hdeg.
  assert (Hgray : forall xy, In xy (sampled data width height) ->
            bloodAt data width xy = None /\ isUrine data width xy = false /\
            isStool data width xy = false).
  { intros xy Hxy. destruct Hdeg as [E | Hall].
    - rewrite E in Hxy. destruct Hxy.
    - unfold bloodAt, isUrine, isStool, contentAt.
      rewrite (Hall xy Hxy). vm_compute. auto. }
  destruct (scan_spec data width height) as (Hb & Hs & Hu & Ht).
  set (kept := sampled data width height) in *.
  assert (Em : matched data width kept = []).
  { unfold matched. clear - Hgray. induction kept as [| xy l IH]; simpl;
      [reflexivity |].
    rewrite (proj1 (Hgray xy (or_introl eq_refl))). simpl.
    apply IH. intros xy' H'. apply Hgray. right. exact H'. }
  assert (Eu : filter (isUrine data width) kept = []).
  { clear - Hgray. induction kept as [| xy l IH]; simpl; [reflexivity |].
    rewrite (proj1 (proj2 (Hgray xy (or_introl eq_refl)))).
    apply IH. intros xy' H'. apply Hgray. right. exact H'. }
  assert (Et : filter (isStool data width) kept = []).
  { clear - Hgray. induction kept as [| xy l IH]; simpl; [reflexivity |].
    rewrite (proj2 (proj2 (Hgray xy (or_introl eq_refl)))).
    apply IH. intros xy' H'. apply Hgray. right. exact H'. }
  unfold analyzeImageData. rewrite Hb, Hs, Hu, Ht, Em, Eu, Et. simpl.
  eexists. split; [reflexivity |]. simpl.
  pose proof (ratio_zero (List.length kept)) as Hz.
  repeat split; try assumption.
  rewrite !(Qgeb_zero_false _ _ Hz) by reflexivity. reflexivity.
Qed.

(** A fully transparent image has no in-region sample; a fully uniform
    mid-gray one has nothing but mid-gray samples. *)
Lemma degenerate_image_unknown_witness :
  (exists res,
     analyzeImageData transparentImage 8 8 = Some res /\
     detections res = [] /\ bloodRatio res == 0 /\ sampleType res = "unknown") /\
  (exists res,
     analyzeImageData grayImage 24 24 = Some res /\
     detections res = [] /\ bloodRatio res == 0 /\ sampleType res = "unknown").
Proof.
  split.
  - destruct (degenerate_image_unknown transparentImage 8 8)
      as (res & H1 & H2 & _ & H3 & _ & _ & H4).
    + left. vm_compute. reflexivity.
    + exists res. auto.
  - destruct (degenerate_image_unknown grayImage 24 24)
      as (res & H1 & H2 & _ & H3 & _ & _ & H4).
    + right. intros xy Hxy.
      assert (Hall : forallb (fun xy =>
                match colourAt grayImage 24 xy with
                | Some (r, g, b) =>
                    Qeq_bool r 128 && Qeq_bool g 128 && Qeq_bool b 128
                | None => false
                end) (sampled grayImage 24 24) = true)
        by (vm_compute; reflexivity).
      rewrite forallb_forall in Hall. specialize (Hall xy Hxy).
      unfold colourAt in *.
      destruct (byteAt grayImage _) as [r |]; [| discriminate].
      destruct (byteAt grayImage _) as [g |]; [| discriminate].
      destruct (byteAt grayImage _) as [b |]; [| discriminate].
      rewrite !andb_true_iff in Hall. destruct Hall as ((Hr & Hg) & Hb).
      apply Qeq_bool_iff in Hr, Hg, Hb.
      unfold Qeq in Hr, Hg, Hb. simpl in Hr, Hg, Hb.
      rewrite !Z.mul_1_r in Hr, Hg, Hb. subst. reflexivity.
    + exists res. auto.
Defined.

(** A patch of 20 by 20 bright red pixels in the middle of a white image of
    48 by 48 passes the gate and yields one Bright Red Finding. *)
Example red_patch_one_finding :
  option_map
    (fun res => (map (fun f => (fx f, fy f, fw f, fh f, flabel f, fpixels f))
                   (detections res),
                 bloodPixelCount res, sampleType res))
    (analyzeImageData
       (imageOf 48 48 (fun x y =>
          if ((14 <=? x) && (x <? 34) && (14 <=? y) && (y <? 34))%nat
          then [200; 30; 30; 255]%Z else [240; 240; 240; 255]%Z)) 48 48)
  = Some ([(12%nat, 12%nat, 24%nat, 24%nat, "Bright Red", 100%nat)],
          100%nat, "unknown").
Proof. vm_compute. reflexivity. Qed.

(** A yellow image is urine, a brown one stool. *)
Example yellow_is_urine :
  option_map sampleType
    (analyzeImageData (uniformImage 576 220 200 90 255) 24 24)
  = Some "urine".
Proof. vm_compute. reflexivity. Qed.

Example brown_is_stool :
  option_map sampleType
    (analyzeImageData (uniformImage 576 120 80 40 255) 24 24)
  = Some "stool".
Proof. vm_compute. reflexivity. Qed.

(** ** The entry point of the flash version *)

(** The flash version has neither the bowl mask nor the minimum-evidence
    gate: eighteen matched pixels, fewer than 36, are reported as a
    Finding. *)
Example flash_analysis_has_no_gate :
  option_map
    (fun res => (map (fun f => (flabel f, fpixels f)) (Flash.detections res),
                 Flash.sampleType res))
    (Flash.analyzeImageData (uniformImage 72 200 30 30 255) 12 6 false)
  = Some ([("Bright Red", 18%nat)], "stool").
Proof. vm_compute. reflexivity. Qed.

(** Its sample type is one of two verdicts, and "stool" on a mid-gray image
    and on an empty one. *)
Lemma flash_sample_type_binary (data : list Z) (width height : nat)
  (gains : Flash.Gains) (shade : Flash.ShadeGrid) :
  Flash.classifySampleType data width height gains shade = "urine" \/
  Flash.classifySampleType data width height gains shade = "stool".
Proof.
  unfold Flash.classifySampleType.
  destruct (_ && _); [left | right]; reflexivity.
Qed.

Example flash_gray_is_stool :
  option_map
    (fun res => (Flash.detections res, Flash.sampleType res))
    (Flash.analyzeImageData (uniformImage 72 128 128 128 255) 12 6 false)
  = Some ([], "stool").
Proof. vm_compute. reflexivity. Qed.

Example flash_empty_is_stool :
  option_map
    (fun res => (Flash.detections res, Flash.sampleType res))
    (Flash.analyzeImageData [] 0 0 false)
  = Some ([], "stool").
Proof. vm_compute. reflexivity. Qed.

Local Open Scope nat_scope.

(** ** The analysis entry point: ratios, Findings and what is read *)

Lemma stride_even (n x : nat) : In x (stride 2 n) -> Nat.even x = true.
Proof.
  unfold stride. rewrite in_map_iff. intros (k & <- & _).
  rewrite Nat.even_mul. reflexivity.
Qed.

Lemma stride_length (n : nat) : List.length (stride 2 n) = ceilDiv n 2.
Proof. unfold stride, ceilDiv. rewrite length_map, length_seq. reflexivity. Qed.

Lemma positions_length (width height : nat) :
  List.length (positions width height) = (ceilDiv width 2 * ceilDiv height 2)%nat.
Proof.
  unfold positions. rewrite <- !stride_length.
  induction (stride 2 height) as [| y l IH]; simpl; [lia |].
  rewrite length_app, length_map, IH. lia.
Qed.

Lemma content_exclusive (data : list Z) (width : nat) (xy : nat * nat) :
  isUrine data width xy = true -> isStool data width xy = false.
Proof.
  unfold isUrine, isStool.
  destruct (contentAt data width xy) as [[|] |]; intros; congruence.
Qed.

Local Open Scope Q_scope.

Lemma natQ_nonneg (n : nat) : 0 <= natQ n.
Proof.
  unfold natQ. change 0 with (inject_Z 0). rewrite <- Zle_Qle. lia.
Qed.

Lemma natQ_pos (n : nat) : (0 < n)%nat -> 0 < natQ n.
Proof.
  intros H. unfold natQ. change 0 with (inject_Z 0). rewrite <- Zlt_Qlt. lia.
Qed.

Lemma natQ_le (a b : nat) : (a <= b)%nat -> natQ a <= natQ b.
Proof. intros H. unfold natQ. rewrite <- Zle_Qle. lia. Qed.

Lemma natQ_plus (a b : nat) : natQ (a + b) == natQ a + natQ b.
Proof. unfold natQ. rewrite Nat2Z.inj_add, inject_Z_plus. reflexivity. Qed.

(** A ratio of counts lies between 0 and 1, and two ratios over the same
    total whose counts add up to at most the total add up to at most 1. *)
Lemma ratio_bounds (n m : nat) : (n <= m)%nat -> 0 <= ratio n m <= 1.
Proof.
  intros H. unfold ratio. destruct m as [| m]; [lra |].
  pose proof (natQ_pos (S m) ltac:(lia)) as Hm.
  pose proof (natQ_nonneg n) as Hn.
  pose proof (natQ_le n (S m) H) as Hle.
  apply Qdiv_between; lra.
Qed.

Lemma ratio_nonneg (n m : nat) : 0 <= ratio n m.
Proof.
  unfold ratio. destruct m as [| m]; [lra |].
  pose proof (natQ_pos (S m) ltac:(lia)) as Hm.
  pose proof (natQ_nonneg n) as Hn.
  apply Qle_shift_div_l; lra.
Qed.

Lemma ratio_sum (a b m : nat) :
  (a + b <= m)%nat -> ratio a m + ratio b m <= 1.
Proof.
  intros H. unfold ratio. destruct m as [| m]; [lra |].
  pose proof (natQ_pos (S m) ltac:(lia)) as Hm.
  pose proof (natQ_le (a + b) (S m) H) as Hle.
  rewrite natQ_plus in Hle.
  assert (E : natQ a / natQ (S m) + natQ b / natQ (S m)
              == (natQ a + natQ b) / natQ (S m)) by (field; lra).
  rewrite E. apply Qle_shift_div_r; lra.
Qed.

(** The fields of the result of [analyzeImageData] that do not depend on
    the Findings. *)
Lemma analyzeImageData_fields (data : list Z) (width height : nat) :
  let kept := sampled data width height in
  exists res,
    analyzeImageData data width height = Some res /\
    bloodPixelCount res = List.length (matched data width kept) /\
    bloodRatio res
    = ratio (List.length (matched data width kept)) (List.length kept) /\
    urineRatio (contentSummary res)
    = ratio (List.length (filter (isUrine data width) kept)) (List.length kept) /\
    stoolRatio (contentSummary res)
    = ratio (List.length (filter (isStool data width) kept)) (List.length kept) /\
    (detections res = [] \/
     Bowl.clusterDetections (matched data width kept) width height
     = Some (detections res)).
Proof.
  intros kept. unfold analyzeImageData.
  destruct (scan_clusters data width height) as (boxes & Hboxes).
  destruct (scan_spec data width height) as (Hb & Hs & Hu & Ht).
  fold kept in Hb, Hs, Hu, Ht. rewrite Hboxes.
  rewrite Hb in Hboxes. rewrite Hb, Hs, Hu, Ht.
  destruct (_ || _); eexists; (split; [reflexivity |]); simpl;
    repeat split; auto.
Qed.

(** X8.  [analyzeImageData] returns a result on every buffer, and in it the
    matched blood pixels are at most the in-region sampled pixels, which
    are at most [ceil (width / 2) * ceil (height / 2)]; the blood ratio lies
    between 0 and 1; the urine and stool ratios are not negative and add up
    to at most 1. *)
Theorem analysis_ratios_bounded (data : list Z) (width height : nat) :
  exists res,
    analyzeImageData data width height = Some res /\
    (bloodPixelCount res <= List.length (sampled data width height))%nat /\
    (List.length (sampled data width height)
     <= ceilDiv width 2 * ceilDiv height 2)%nat /\
    0 <= bloodRatio res <= 1 /\
    0 <= urineRatio (contentSummary res) /\
    0 <= stoolRatio (contentSummary res) /\
    urineRatio (contentSummary res) + stoolRatio (contentSummary res) <= 1.
Proof.
  destruct (analyzeImageData_fields data width height)
    as (res & Hres & Hn & Hr & Hu & Hs & _).
  exists res. split; [exact Hres |].
  rewrite Hn, Hr, Hu, Hs.
  pose proof (matched_length data width (sampled data width height)) as Hm.
  split; [exact Hm |]. split.
  - unfold sampled. rewrite <- positions_length. apply filter_length_le.
  - split; [apply ratio_bounds, Hm |].
    split; [apply ratio_nonneg |]. split; [apply ratio_nonneg |].
    apply ratio_sum.
    rewrite <- (filter_or_length (isUrine data width) (isStool data width))
      by apply content_exclusive.
    apply filter_length_le.
Qed.

Local Open Scope nat_scope.

(** The matched pixels of a scan lie at sampled positions inside the image
    and carry declared blood profiles. *)
Lemma matched_inside (data : list Z) (width height : nat) (p : MatchedPixel) :
  In p (matched data width (sampled data width height)) ->
  (px p < width /\ py p < height) /\
  In (label (profile p)) (map label BLOOD_PROFILES).
Proof.
  intros Hp. apply matched_spec in Hp. destruct Hp as [Hin Hb]. split.
  - unfold sampled in Hin. apply filter_In in Hin. destruct Hin as [Hin _].
    apply positions_inside in Hin. exact Hin.
  - apply in_map, (bloodAt_declared _ _ _ _ Hb).
Qed.

(** What [analyzeImageData] passes to [clusterDetections], and what it
    returns of it. *)
Lemma analysis_detections (data : list Z) (width height : nat) :
  exists res pixels,
    analyzeImageData data width height = Some res /\
    bloodPixelCount res = List.length pixels /\
    (forall p, In p pixels -> px p < width /\ py p < height) /\
    (forall p, In p pixels ->
       In (label (profile p)) (map label BLOOD_PROFILES)) /\
    (detections res = [] \/
     Bowl.clusterDetections pixels width height = Some (detections res)).
Proof.
  destruct (analyzeImageData_fields data width height)
    as (res & Hres & Hn & _ & _ & _ & Hdet).
  exists res, (matched data width (sampled data width height)).
  split; [exact Hres |]. split; [exact Hn |].
  split; [intros p Hp; apply (matched_inside data width height p Hp) |].
  split; [intros p Hp; apply (matched_inside data width height p Hp) |].
  exact Hdet.
Qed.

(** X9.  In the result of [analyzeImageData] every Finding reports at least
    8 matched pixels and has the label, colour and severity of one declared
    blood profile; the pixel counts of the Findings add up to at most
    [bloodPixelCount]; and the box of a Finding starts inside the image and
    ends less than 12 pixels past its right and bottom edges. *)
Theorem analysis_findings_wellformed (data : list Z) (width height : nat) :
  exists res,
    analyzeImageData data width height = Some res /\
    list_sum (map fpixels (detections res)) <= bloodPixelCount res /\
    forall f, In f (detections res) ->
      8 <= fpixels f /\
      (exists prof,
         In prof BLOOD_PROFILES /\ label prof = flabel f /\
         color prof = fcolor f /\ severity prof = fseverity f) /\
      fx f < width /\ fy f < height /\
      fx f + fw f < width + 12 /\ fy f + fh f < height + 12.
Proof.
  destruct (analysis_detections data width height)
    as (res & pixels & Hres & Hn & Hin & Hlab & Hdet).
  exists res. split; [exact Hres |].
  destruct Hdet as [E | E]; [rewrite E; simpl; split; [lia | intros f []] |].
  destruct (clusterDetections_inside BLOOD_PROFILES pixels width height
              (detections res) Hin Hlab E) as (Hsum & Hbox).
  rewrite Hn. split; [exact Hsum |]. intros f Hf.
  destruct (Hbox f Hf) as (H8 & (prof & P1 & P2 & P3 & P4 & _) & _ & Hb).
  split; [exact H8 |]. split; [exists prof; auto |]. exact Hb.
Qed.

(** X10.  [analyzeImageData] reads the buffer only at the sampled positions
    (even [x] and [y]) inside the bowl mask, and of a pixel whose alpha is
    below 128 only the alpha: two buffers that agree on the alpha of those
    pixels, and on the colour of those among them that are not skipped for
    their alpha, give the same result. *)
Theorem analysis_reads_sampled_region_only (data data' : list Z)
  (width height : nat) :
  (forall x y,
     x < width -> y < height -> Nat.even x = true -> Nat.even y = true ->
     isInBowlMask x y width height = true ->
     byteAt data' ((y * width + x) * 4 + 3)
     = byteAt data ((y * width + x) * 4 + 3) /\
     (opaque data width (x, y) = true ->
      forall k, k < 3 ->
        byteAt data' ((y * width + x) * 4 + k)
        = byteAt data ((y * width + x) * 4 + k))) ->
  analyzeImageData data' width height = analyzeImageData data width height.
Proof.
  intros Hagree.
  assert (Hpix : forall x y st,
            In x (stride 2 width) -> In y (stride 2 height) ->
            samplePixel data' width height y st x
            = samplePixel data width height y st x).
  { intros x y st Hx Hy. unfold samplePixel.
    destruct (isInBowlMask x y width height) eqn:Em; simpl; [| reflexivity].
    destruct (Hagree x y (stride_lt 2 _ _ Hx) (stride_lt 2 _ _ Hy)
                (stride_even _ _ Hx) (stride_even _ _ Hy) Em) as [Ha Hc].
    rewrite Ha. unfold opaque in Hc. simpl fst in Hc. simpl snd in Hc.
    destruct (match byteAt data ((y * width + x) * 4 + 3) with
              | Some a => (a <? 128)%Z
              | None => false
              end) eqn:Ea; [reflexivity |].
    assert (Hop : match byteAt data ((y * width + x) * 4 + 3) with
                  | Some a => negb (a <? 128)%Z
                  | None => true
                  end = true).
    { destruct (byteAt data ((y * width + x) * 4 + 3)); [| reflexivity].
      rewrite Ea. reflexivity. }
    specialize (Hc Hop).
    pose proof (Hc 0 ltac:(lia)) as H0. rewrite Nat.add_0_r in H0.
    rewrite H0, (Hc 1 ltac:(lia)), (Hc 2 ltac:(lia)). reflexivity. }
  assert (Hscan : scan data' width height = scan data width height).
  { unfold scan.
    assert (Hrow : forall y l st,
              In y (stride 2 height) -> (forall x, In x l -> In x (stride 2 width)) ->
              fold_left (samplePixel data' width height y) l st
              = fold_left (samplePixel data width height y) l st).
    { intros y l. induction l as [| x l IH]; intros st Hy Hl; simpl;
        [reflexivity |].
      rewrite Hpix; [| apply Hl; left; reflexivity | exact Hy].
      apply IH; [exact Hy | intros; apply Hl; right; assumption]. }
    assert (Hrows : forall rows st,
              (forall y, In y rows -> In y (stride 2 height)) ->
              fold_left (fun st y =>
                fold_left (samplePixel data' width height y)
                  (stride 2 width) st) rows st
              = fold_left (fun st y =>
                  fold_left (samplePixel data width height y)
                    (stride 2 width) st) rows st).
    { induction rows as [| y rows IH]; intros st Hr; simpl; [reflexivity |].
      rewrite Hrow; [| apply Hr; left; reflexivity | auto].
      apply IH. intros; apply Hr; right; assumption. }
    apply Hrows. auto. }
  unfold analyzeImageData. rewrite Hscan. reflexivity.
Qed.

Lemma analysis_reads_sampled_region_only_witness :
  byteAt unsampledSpotImage ((13 * 24 + 13) * 4) = Some 200%Z /\
  byteAt transparentSpotImage ((13 * 24 + 13) * 4) = Some 240%Z /\
  byteAt unsampledSpotImage ((12 * 24 + 12) * 4) = Some 0%Z /\
  byteAt transparentSpotImage ((12 * 24 + 12) * 4) = Some 200%Z /\
  analyzeImageData unsampledSpotImage 24 24
  = analyzeImageData transparentSpotImage 24 24.
Proof.
  split; [vm_compute; reflexivity |].
  split; [vm_compute; reflexivity |].
  split; [vm_compute; reflexivity |].
  split; [vm_compute; reflexivity |].
  apply (analysis_reads_sampled_region_only transparentSpotImage
           unsampledSpotImage 24 24).
  intros x y Hx Hy Ex Ey Hm.
  assert (Hall : forallb (fun x => forallb (fun y =>
            implb (Nat.even x && Nat.even y && isInBowlMask x y 24 24)
              (sameBytes (byteAt unsampledSpotImage ((y * 24 + x) * 4 + 3))
                 (byteAt transparentSpotImage ((y * 24 + x) * 4 + 3))
               && implb (opaque transparentSpotImage 24 (x, y))
                    (forallb (fun k =>
                       sameBytes (byteAt unsampledSpotImage ((y * 24 + x) * 4 + k))
                         (byteAt transparentSpotImage ((y * 24 + x) * 4 + k)))
                       (seq 0 3))))
            (seq 0 24)) (seq 0 24) = true)
    by (vm_compute; reflexivity).
  rewrite forallb_forall in Hall.
  specialize (Hall x ltac:(apply in_seq; lia)).
  rewrite forallb_forall in Hall.
  specialize (Hall y ltac:(apply in_seq; lia)).
  rewrite Ex, Ey, Hm, !andb_true_l, implb_true_l in Hall.
  apply andb_true_iff in Hall. destruct Hall as [Ha Hc].
  split; [apply sameBytes_eq, Ha |].
  intros Hop k Hk. rewrite Hop, implb_true_l in Hc.
  rewrite forallb_forall in Hc. apply sameBytes_eq, Hc, in_seq. lia.
Defined.

(** X11.  A sampled pixel that both content profiles match is counted once,
    as urine: the urine count of the scan is the number of in-region
    sampled pixels that the Urine profile matches, the stool count the
    number of those that the Stool profile matches and the Urine profile
    does not; and the two profiles do overlap. *)
Theorem content_counted_once_urine_first (data : list Z) (width height : nat) :
  exists pu ps,
    CONTENT_PROFILES = [(Urine, pu); (Stool, ps)] /\
    let fits p xy :=
      match colourAt data width xy with
      | Some (r, g, b) => profileMatches p (rgbToHsl r g b)
      | None => false
      end in
    let kept := sampled data width height in
    urine (contentCounts (scan data width height))
    = List.length (filter (fits pu) kept) /\
    stool (contentCounts (scan data width height))
    = List.length (filter (fun xy => negb (fits pu xy) && fits ps xy) kept) /\
    exists r g b,
      profileMatches pu (rgbToHsl r g b) = true /\
      profileMatches ps (rgbToHsl r g b) = true /\
      matchesContent r g b = Some Urine.
Proof.
  eexists. eexists. split; [reflexivity |].
  intros fits kept.
  destruct (scan_spec data width height) as (_ & _ & Hu & Hs).
  fold kept in Hu, Hs. rewrite Hu, Hs.
  split; [| split].
  - f_equal. apply filter_ext. intros xy.
    unfold isUrine, fits, contentAt, matchesContent, CONTENT_PROFILES.
    destruct (colourAt data width xy) as [[[r g] b] |]; [| reflexivity].
    cbn [find snd].
    destruct (profileMatches _ (rgbToHsl r g b)); [reflexivity |].
    destruct (profileMatches _ (rgbToHsl r g b)); reflexivity.
  - f_equal. apply filter_ext. intros xy.
    unfold isStool, fits, contentAt, matchesContent, CONTENT_PROFILES.
    destruct (colourAt data width xy) as [[[r g] b] |]; [| reflexivity].
    cbn [find snd].
    destruct (profileMatches _ (rgbToHsl r g b)); [reflexivity |].
    destruct (profileMatches _ (rgbToHsl r g b)); reflexivity.
  - exists 147%Q, 107%Q, 51%Q. vm_compute. auto.
Qed.

Local Open Scope Q_scope.

Lemma natQ_minus (a b : nat) : (b <= a)%nat -> natQ (a - b) == natQ a - natQ b.
Proof.
  intros H. unfold natQ. rewrite Nat2Z.inj_sub by exact H.
  unfold Z.sub, Qminus. rewrite inject_Z_plus, inject_Z_opp. reflexivity.
Qed.

(** X12.  The bowl mask holds no pixel of an empty image, none in the
    leftmost and rightmost 12 percent of the columns and none in the top 12
    percent of the rows; and it is symmetric about the vertical centre
    line. *)
Theorem bowl_mask_extent (x y width height : nat) :
  (isInBowlMask x y width height = true ->
   (0 < width)%nat /\ (0 < height)%nat /\
   0.12 * natQ width <= natQ x <= 0.88 * natQ width /\
   0.12 * natQ height <= natQ y <= natQ height) /\
  ((x <= width)%nat ->
   isInBowlMask (width - x) y width height = isInBowlMask x y width height).
Proof.
  unfold isInBowlMask, centerX, centerY, radiusX, radiusY. split.
  - destruct (Qeq_bool (natQ width * 0.38) 0) eqn:Ex; [discriminate |].
    destruct (Qeq_bool (natQ height * 0.44) 0) eqn:Ey; [discriminate |].
    simpl. intros H. apply Qleb_le in H.
    apply Qeq_bool_false in Ex, Ey.
    pose proof (natQ_nonneg width) as Hw. pose proof (natQ_nonneg height) as Hh.
    assert (Hrx : 0 < natQ width * 0.38) by lra.
    assert (Hry : 0 < natQ height * 0.44) by lra.
    assert (Hwpos : (0 < width)%nat).
    { destruct width; [exfalso; apply Ex; reflexivity | lia]. }
    assert (Hhpos : (0 < height)%nat).
    { destruct height; [exfalso; apply Ey; reflexivity | lia]. }
    split; [exact Hwpos |]. split; [exact Hhpos |].
    set (dx := (natQ x - natQ width * 0.5) / (natQ width * 0.38)) in *.
    set (dy := (natQ y - natQ height * 0.56) / (natQ height * 0.44)) in *.
    assert (Edx : natQ x - natQ width * 0.5 == dx * (natQ width * 0.38))
      by (unfold dx; field; lra).
    assert (Edy : natQ y - natQ height * 0.56 == dy * (natQ height * 0.44))
      by (unfold dy; field; lra).
    clearbody dx dy.
    assert (Hdx : -1 <= dx <= 1) by nra.
    assert (Hdy : -1 <= dy <= 1) by nra.
    nra.
  - intros Hx.
    destruct (Qeq_bool (natQ width * 0.38) 0 || Qeq_bool (natQ height * 0.44) 0)
      eqn:E; [reflexivity |].
    apply orb_false_iff in E. destruct E as [Ex Ey].
    apply Qeq_bool_false in Ex, Ey.
    apply eq_true_iff_eq. rewrite !Qleb_le.
    assert (E : (natQ (width - x) - natQ width * 0.5) / (natQ width * 0.38)
                == - ((natQ x - natQ width * 0.5) / (natQ width * 0.38))).
    { rewrite natQ_minus by exact Hx. field. lra. }
    rewrite E.
    set (dx := (natQ x - natQ width * 0.5) / (natQ width * 0.38)).
    assert (E2 : - dx * - dx == dx * dx) by ring.
    rewrite E2. reflexivity.
Qed.

Lemma bowl_mask_extent_witness :
  isInBowlMask 12 12 24 24 = true /\
  0.12 * natQ 24 <= natQ 12 <= 0.88 * natQ 24 /\
  isInBowlMask (24 - 5) 12 24 24 = isInBowlMask 5 12 24 24.
Proof.
  split; [reflexivity |]. split.
  - apply (bowl_mask_extent 12 12 24 24). reflexivity.
  - apply (bowl_mask_extent 5 12 24 24). lia.
Defined.

(** ** The analysis entry point: the gate, open *)

(** X25.  When the matched blood pixels among the in-region sampled pixels
    are at least 36 and their ratio to the in-region sampled pixels is at
    least 0.002, the Findings of [analyzeImageData] are exactly those that
    [clusterDetections] returns on the matched pixels. *)
Theorem evidence_gate_passes (data : list Z) (width height : nat) :
  let kept := sampled data width height in
  let pixels := matched data width kept in
  (36 <= List.length pixels)%nat ->
  0.002 <= ratio (List.length pixels) (List.length kept) ->
  exists res,
    analyzeImageData data width height = Some res /\
    Bowl.clusterDetections pixels width height = Some (detections res) /\
    bloodPixelCount res = List.length pixels.
Proof.
  intros kept pixels Hn Hr. unfold analyzeImageData.
  destruct (scan_spec data width height) as (Hb & Hs & _).
  fold kept in Hb, Hs. rewrite Hb, Hs. fold pixels.
  assert (E : ((List.length pixels <? MIN_BLOOD_PIXELS)%nat
               || Qltb (ratio (List.length pixels) (List.length kept))
                    MIN_BLOOD_RATIO) = false).
  { apply orb_false_iff. split.
    - apply Nat.ltb_ge. exact Hn.
    - apply Qltb_ge. exact Hr. }
  rewrite E.
  destruct (scan_clusters data width height) as (boxes & Hboxes).
  rewrite Hb in Hboxes. fold kept pixels in Hboxes. rewrite Hboxes.
  eexists. split; [reflexivity |]. split; reflexivity.
Qed.

(** A red patch of 20 by 20 pixels on white porcelain: 100 matched pixels
    among 305 in-region samples. *)
Lemma evidence_gate_passes_witness :
  exists res f,
    analyzeImageData
      (imageOf 48 48 (fun x y =>
         if ((14 <=? x) && (x <? 34) && (14 <=? y) && (y <? 34))%nat
         then [200; 30; 30; 255]%Z else [240; 240; 240; 255]%Z)) 48 48
    = Some res /\
    detections res = [f] /\ bloodPixelCount res = 100%nat.
Proof.
  destruct (evidence_gate_passes
              (imageOf 48 48 (fun x y =>
                 if ((14 <=? x) && (x <? 34) && (14 <=? y) && (y <? 34))%nat
                 then [200; 30; 30; 255]%Z else [240; 240; 240; 255]%Z)) 48 48)
    as (res & H1 & H2 & H3).
  - vm_compute. lia.
  - vm_compute. discriminate.
  - exists res.
    assert (E : exists f, detections res = [f] /\ bloodPixelCount res = 100%nat).
    { rewrite H3.
      match type of H2 with
      | ?c = _ =>
          assert (Ec : exists f, c = Some [f]) by (eexists; vm_compute; reflexivity)
      end.
      destruct Ec as (f & Ec). rewrite Ec in H2. injection H2 as <-.
      exists f. split; [reflexivity | vm_compute; reflexivity]. }
    destruct E as (f & E1 & E2). exists f. auto.
Defined.

(** ** The colour classifier on gray pixels *)

Local Open Scope Q_scope.

Lemma max3_same (x : Q) : max3 x x x = x.
Proof.
  unfold max3, Qmax, GenericMinMax.gmax.
  destruct (x ?= x); destruct (x ?= x); reflexivity.
Qed.

Lemma min3_same (x : Q) : min3 x x x = x.
Proof.
  unfold min3, Qmin, GenericMinMax.gmin.
  destruct (x ?= x); destruct (x ?= x); reflexivity.
Qed.

(** A gray pixel has hue 0 and saturation 0. *)
Lemma gray_hsl (v : Q) :
  rgbToHsl v v v = mkHsl (0 * 360) (0 * 100) ((v / 255 + v / 255) / 2 * 100).
Proof.
  unfold rgbToHsl. rewrite max3_same, min3_same.
  assert (E : Qeq_bool (v / 255) (v / 255) = true)
    by (apply Qeq_bool_iff; reflexivity).
  rewrite E. reflexivity.
Qed.

Lemma gray_profile (p : Profile) (L : Q) :
  profileMatches p (mkHsl (0 * 360) (0 * 100) L) = true <->
  hueOk p (0 * 360) = true /\
  (sMin p <= 0 /\ 0 <= sMax p) /\ lMin p <= L <= lMax p.
Proof.
  unfold profileMatches. cbn [hue sat lig].
  rewrite !andb_true_iff, !Qgeb_le, !Qleb_le.
  assert (E : 0 * 100 == 0) by reflexivity. rewrite !E. tauto.
Qed.

(** Of five profiles with the ranges of the blood profiles, a gray pixel of
    lightness [L] matches the fifth when [2 <= L <= 10], and none
    otherwise. *)
Lemma gray_matches_fifth (table : list Profile) (L : Q) :
  map (fun p => (hMin p, hMax p, sMin p, sMax p, lMin p, lMax p)) table
  = [(0, 15, 45, 100, 25, 55); (340, 360, 40, 100, 15, 40);
     (0, 20, 30, 80, 10, 25); (15, 40, 25, 70, 8, 22);
     (0, 360, 0, 30, 2, 10)] ->
  (2 <= L <= 10 ->
   matchesHsl table (mkHsl (0 * 360) (0 * 100) L) = Some (nth 4 table wrapProfile)) /\
  (~ 2 <= L <= 10 ->
   matchesHsl table (mkHsl (0 * 360) (0 * 100) L) = None).
Proof.
  intros Htab.
  destruct table as [| p1 [| p2 [| p3 [| p4 [| p5 [| p6 t]]]]]]; try discriminate.
  cbn [map] in Htab.
  injection Htab as A1 A2 A3 A4 A5 A6 B1 B2 B3 B4 B5 B6 C1 C2 C3 C4 C5 C6
    D1 D2 D3 D4 D5 D6 E1 E2 E3 E4 E5 E6.
  assert (F1 : profileMatches p1 (mkHsl (0 * 360) (0 * 100) L) = false).
  { apply not_true_iff_false. rewrite gray_profile, A3. intros (_ & (H & _) & _).
    revert H. apply Qlt_not_le. reflexivity. }
  assert (F2 : profileMatches p2 (mkHsl (0 * 360) (0 * 100) L) = false).
  { apply not_true_iff_false. rewrite gray_profile, B3. intros (_ & (H & _) & _).
    revert H. apply Qlt_not_le. reflexivity. }
  assert (F3 : profileMatches p3 (mkHsl (0 * 360) (0 * 100) L) = false).
  { apply not_true_iff_false. rewrite gray_profile, C3. intros (_ & (H & _) & _).
    revert H. apply Qlt_not_le. reflexivity. }
  assert (F4 : profileMatches p4 (mkHsl (0 * 360) (0 * 100) L) = false).
  { apply not_true_iff_false. rewrite gray_profile, D3. intros (_ & (H & _) & _).
    revert H. apply Qlt_not_le. reflexivity. }
  assert (F5 : profileMatches p5 (mkHsl (0 * 360) (0 * 100) L) = true
               <-> 2 <= L <= 10).
  { rewrite gray_profile, E3, E4, E5, E6. unfold hueOk. rewrite E1, E2.
    split; [tauto |]. intros H. split; [reflexivity |].
    split; [split; discriminate | exact H]. }
  unfold matchesHsl. cbn [find nth]. rewrite F1, F2, F3, F4.
  split; intros H.
  - apply F5 in H. rewrite H. reflexivity.
  - destruct (profileMatches p5 _) eqn:E; [| reflexivity].
    exfalso. apply H, F5. reflexivity.
Qed.

(** X24.  A gray pixel ([r = g = b = v]) has hue 0 and saturation 0; it
    matches a blood profile exactly when [5.1 <= v <= 25.5] (lightness
    between 2 and 10 percent), and then the last one, Dark/Tarry in the
    flash version and Black (Tarry) in the bowl version: a dark gray pixel
    counts as blood, a lighter or darker one never does. *)
Theorem gray_pixel_is_tarry_or_nothing (v : Q) :
  (hue (rgbToHsl v v v) == 0 /\ sat (rgbToHsl v v v) == 0 /\
   lig (rgbToHsl v v v) == v / 255 * 100) /\
  (5.1 <= v <= 25.5 ->
   (exists p, Flash.matchesBlood v v v = Some p /\ label p = "Dark/Tarry") /\
   (exists p, Bowl.matchesBlood v v v = Some p /\ label p = "Black (Tarry)")) /\
  (~ 5.1 <= v <= 25.5 ->
   Flash.matchesBlood v v v = None /\ Bowl.matchesBlood v v v = None).
Proof.
  assert (EL : (v / 255 + v / 255) / 2 * 100 == v / 255 * 100) by (field).
  assert (Hrange : 2 <= (v / 255 + v / 255) / 2 * 100 <= 10
                   <-> 5.1 <= v <= 25.5).
  { rewrite EL. unfold Qdiv. change (/ 255) with (1 # 255). split; intros; lra. }
  destruct (gray_matches_fifth Flash.BLOOD_PROFILES
              ((v / 255 + v / 255) / 2 * 100) eq_refl) as [HF HF'].
  destruct (gray_matches_fifth Bowl.BLOOD_PROFILES
              ((v / 255 + v / 255) / 2 * 100) eq_refl) as [HB HB'].
  unfold Flash.matchesBlood, Bowl.matchesBlood, matchesRgb.
  rewrite gray_hsl. cbn [hue sat lig].
  split; [split; [reflexivity | split; [reflexivity | exact EL]] |].
  split.
  - intros H. apply Hrange in H. rewrite (HF H), (HB H).
    split; eexists; split; reflexivity.
  - intros H. rewrite Hrange in HF', HB'. rewrite (HF' H), (HB' H). auto.
Qed.

Lemma gray_pixel_is_tarry_or_nothing_witness :
  (exists p, Bowl.matchesBlood 20 20 20 = Some p /\ label p = "Black (Tarry)") /\
  Bowl.matchesBlood 128 128 128 = None /\ Bowl.matchesBlood 3 3 3 = None.
Proof.
  split; [| split].
  - apply (gray_pixel_is_tarry_or_nothing 20). split; discriminate.
  - apply (gray_pixel_is_tarry_or_nothing 128). intros [_ H]. revert H.
    apply Qlt_not_le. reflexivity.
  - apply (gray_pixel_is_tarry_or_nothing 3). intros [H _]. revert H.
    apply Qlt_not_le. reflexivity.
Defined.

(** ** The white-balance estimator: the median, the flash flag and the
    bright threshold *)

Local Open Scope Z_scope.

Lemma sorted_perm_eq (l l' : list Z) :
  StronglySorted Z.le l -> StronglySorted Z.le l' -> Permutation l l' ->
  l = l'.
Proof.
  revert l'. induction l as [| a l IH]; intros l' Hs Hs' Hp.
  - apply Permutation_nil in Hp. symmetry. exact Hp.
  - destruct l' as [| b l'].
    + symmetry in Hp. apply Permutation_nil in Hp. discriminate.
    + inversion Hs as [| ? ? Hl Ha]; subst.
      inversion Hs' as [| ? ? Hl' Hb]; subst.
      rewrite Forall_forall in Ha, Hb.
      assert (E : a = b).
      { assert (Ia : In a (b :: l'))
          by (apply (Permutation_in a Hp); left; reflexivity).
        assert (Ib : In b (a :: l))
          by (apply (Permutation_in b (Permutation_sym Hp)); left; reflexivity).
        destruct Ia as [-> | Ia]; [reflexivity |].
        destruct Ib as [-> | Ib]; [reflexivity |].
        specialize (Ha b Ib). specialize (Hb a Ia). lia. }
      subst b. f_equal. apply IH; [exact Hl | exact Hl' |].
      apply (Permutation_cons_inv Hp).
Qed.

Lemma sortBy_Zleb_strongly (l : list Z) : StronglySorted Z.le (sortBy Z.leb l).
Proof.
  apply Sorted_StronglySorted; [| apply sortBy_Zleb_sorted].
  intros x y z. apply Z.le_trans.
Qed.

(** Sorting forgets the order of the input. *)
Lemma sortBy_Zleb_perm (l l' : list Z) :
  Permutation l l' -> sortBy Z.leb l = sortBy Z.leb l'.
Proof.
  intros Hp. apply sorted_perm_eq; try apply sortBy_Zleb_strongly.
  rewrite !sortBy_perm. exact Hp.
Qed.

Local Open Scope Q_scope.

Lemma median_upper (arr : list Z) (hi : Z) :
  arr <> [] -> (forall x, In x arr -> (x <= hi)%Z) ->
  Flash.median arr <= inject_Z hi.
Proof.
  intros Hne Hall. unfold Flash.median.
  destruct arr as [| a arr]; [contradiction |].
  set (s := sortBy Z.leb (a :: arr)).
  assert (Hlen : (0 < List.length s)%nat)
    by (unfold s; rewrite sortBy_length; cbn; lia).
  assert (Hnth : forall k, (k < List.length s)%nat ->
                 inject_Z (nth k s 0%Z) <= inject_Z hi).
  { intros k Hk. rewrite <- Zle_Qle. apply Hall.
    apply (sortBy_in Z.leb). apply nth_In. exact Hk. }
  assert (Hm : (List.length s / 2 < List.length s)%nat)
    by (apply Nat.div_lt; lia).
  destruct (Nat.odd (List.length s)).
  - apply Hnth, Hm.
  - pose proof (Hnth (List.length s / 2)%nat Hm) as H1.
    assert (Hm' : (List.length s / 2 - 1 < List.length s)%nat) by lia.
    pose proof (Hnth _ Hm') as H2.
    set (u := inject_Z (nth (List.length s / 2 - 1) s 0%Z)) in *.
    set (v := inject_Z (nth (List.length s / 2) s 0%Z)) in *.
    clearbody u v. unfold Qdiv. change (/ 2) with (1 # 2). lra.
Qed.

(** X13.  [median] does not depend on the order of the array: two arrays
    with the same values, each as many times, have the same median; the
    median of a non-empty array lies between any lower and upper bound of
    its values; and the median of the empty array is 0. *)
Theorem median_order_independent (arr arr' : list Z) (lo hi : Z) :
  Permutation arr arr' ->
  (forall x, In x arr -> (lo <= x <= hi)%Z) ->
  Flash.median arr' = Flash.median arr /\
  (arr <> [] -> inject_Z lo <= Flash.median arr <= inject_Z hi) /\
  (arr = [] -> Flash.median arr' = 0).
Proof.
  intros Hp Hb. split; [| split].
  - unfold Flash.median. destruct arr as [| a arr], arr' as [| a' arr'].
    + reflexivity.
    + apply Permutation_nil in Hp. discriminate.
    + symmetry in Hp. apply Permutation_nil in Hp. discriminate.
    + rewrite (sortBy_Zleb_perm (a :: arr) (a' :: arr') Hp). reflexivity.
  - intros Hne. split.
    + apply median_lower; [exact Hne |]. intros x Hx. apply Hb, Hx.
    + apply median_upper; [exact Hne |]. intros x Hx. apply Hb, Hx.
  - intros ->. apply Permutation_nil in Hp. subst arr'. reflexivity.
Qed.

Lemma median_order_independent_witness :
  Flash.median [250; 3; 141; 7]%Z = Flash.median [3; 7; 141; 250]%Z /\
  3 <= Flash.median [3; 7; 141; 250]%Z <= 250.
Proof.
  destruct (median_order_independent [3; 7; 141; 250]%Z [250; 3; 141; 7]%Z
              3%Z 250%Z) as (H1 & H2 & _).
  - apply (Permutation_trans (l' := [3; 250; 7; 141]%Z)).
    + apply perm_skip.
      apply (Permutation_trans (l' := [7; 250; 141]%Z)).
      * apply perm_skip. apply perm_swap.
      * apply perm_swap.
    + apply (Permutation_trans (l' := [250; 3; 7; 141]%Z)).
      * apply perm_swap.
      * apply perm_skip. apply perm_skip. apply perm_swap.
  - intros x Hx. simpl in Hx. lia.
  - split; [exact H1 | apply H2; discriminate].
Defined.

Lemma cl_monotone (u v : Q) : u <= v -> Flash.cl u <= Flash.cl v.
Proof.
  intros H. unfold Flash.cl.
  apply Q.min_le_compat_l, Q.max_le_compat_l, H.
Qed.

(** X14.  On a buffer of whole pixels, the gains do not depend on the
    width and height passed, and turning the flash on never lowers a gain:
    each gain of [computeWhiteBalanceGains] with [flashIsOn] is at least
    the gain without. *)
Theorem flash_never_lowers_gains (data : list Z) (width height : nat) :
  (List.length data mod 4 = 0)%nat ->
  let A := Flash.computeWhiteBalanceGains data width height false in
  let F := Flash.computeWhiteBalanceGains data width height true in
  Flash.gainR A <= Flash.gainR F /\
  Flash.gainG A <= Flash.gainG F /\
  Flash.gainB A <= Flash.gainB F /\
  forall w' h' flashIsOn,
    Flash.computeWhiteBalanceGains data w' h' flashIsOn
    = Flash.computeWhiteBalanceGains data width height flashIsOn.
Proof.
  intros _ A F. unfold A, F, Flash.computeWhiteBalanceGains.
  rewrite !length_map.
  destruct (List.length (Flash.qualifying data) <? 20)%nat eqn:E;
    cbn [Flash.gainR Flash.gainG Flash.gainB].
  - repeat split; apply Qle_refl.
  - apply Nat.ltb_ge in E.
    assert (Hne : Flash.qualifying data <> [])
      by (intros E0; rewrite E0 in E; simpl in E; lia).
    pose proof (median_qualifying data 0 ltac:(lia) Hne) as Mr.
    rewrite (map_ext _ (fun i => nth i data 0%Z)) in Mr
      by (intros; rewrite Nat.add_0_r; reflexivity).
    pose proof (median_qualifying data 1 ltac:(lia) Hne) as Mg.
    pose proof (median_qualifying data 2 ltac:(lia) Hne) as Mb.
    assert (Hdiv : forall m, 140 <= m ->
              Flash.TARGET_WHITE_AMBIENT / m <= Flash.TARGET_WHITE_FLASH / m).
    { intros m Hm. unfold Flash.TARGET_WHITE_AMBIENT, Flash.TARGET_WHITE_FLASH.
      apply Qle_shift_div_l; [lra |].
      assert (E1 : 240 / m * m == 240) by (field; lra). lra. }
    repeat split; try (apply cl_monotone, Hdiv; assumption).
Qed.

(** Eighty white-ish pixels: twenty samples, all of them qualifying. *)
Lemma flash_never_lowers_gains_witness :
  Flash.gainR (Flash.computeWhiteBalanceGains
                 (uniformImage 80 200 220 250 255) 10 8 false)
  <= Flash.gainR (Flash.computeWhiteBalanceGains
                    (uniformImage 80 200 220 250 255) 10 8 true).
Proof.
  assert (E : (List.length (uniformImage 80 200 220 250 255) mod 4 = 0)%nat)
    by (vm_compute; reflexivity).
  pose proof (flash_never_lowers_gains (uniformImage 80 200 220 250 255) 10 8 E)
    as H.
  cbv zeta in H. destruct H as (H & _). exact H.
Defined.

Lemma insertBy_Qleb_sorted (x : Q) (l : list Q) :
  Sorted Qle l -> Sorted Qle (insertBy Qleb x l).
Proof.
  induction l as [| y l IH]; simpl; intros Hs.
  - repeat constructor.
  - destruct (Qleb x y) eqn:E.
    + constructor; [exact Hs |]. constructor. apply Qleb_le, E.
    + assert (Hyx : y <= x).
      { apply Qlt_le_weak, Qnot_le_lt. intros H. apply Qleb_le in H.
        congruence. }
      inversion Hs as [| ? ? Hs' Hd]; subst.
      constructor; [apply IH, Hs' |].
      destruct l as [| z l]; simpl.
      * constructor. exact Hyx.
      * destruct (Qleb x z); constructor; [exact Hyx |].
        inversion Hd; subst. assumption.
Qed.

Lemma sortBy_Qleb_strongly (l : list Q) : StronglySorted Qle (sortBy Qleb l).
Proof.
  apply Sorted_StronglySorted; [intros x y z; apply Qle_trans |].
  induction l as [| x l IH]; simpl; [constructor |].
  apply insertBy_Qleb_sorted, IH.
Qed.

(** In a sorted array, the values from index [k] on are at least the value
    at index [k]. *)
Lemma sorted_suffix_ge (s : list Q) (k : nat) (v : Q) :
  StronglySorted Qle s -> (k < List.length s)%nat -> In v (skipn k s) ->
  nth k s 0 <= v.
Proof.
  revert k. induction s as [| a s IH]; intros k Hs Hk Hv; [simpl in Hk; lia |].
  inversion Hs as [| ? ? Hs' Ha]; subst.
  destruct k as [| k]; simpl in *.
  - destruct Hv as [<- | Hv]; [apply Qle_refl |].
    rewrite Forall_forall in Ha. apply Ha, Hv.
  - apply IH; [exact Hs' | lia | exact Hv].
Qed.

Lemma filter_perm_length {A : Type} (f : A -> bool) (l l' : list A) :
  Permutation l l' -> List.length (filter f l) = List.length (filter f l').
Proof.
  intros Hp. induction Hp as [| x l l' Hp IH | x y l | l l' l'' H1 IH1 H2 IH2];
    simpl.
  - reflexivity.
  - destruct (f x); simpl; lia.
  - destruct (f x), (f y); reflexivity.
  - lia.
Qed.

Lemma filter_negb_length {A : Type} (f : A -> bool) (l : list A) :
  (List.length (filter f l) + List.length (filter (fun x => negb (f x)) l)
   = List.length l)%nat.
Proof.
  induction l as [| x l IH]; simpl; [reflexivity |].
  destruct (f x); simpl; lia.
Qed.

(** X17.  On a non-empty buffer of whole pixels, the bright threshold of
    [computeWhiteBalanceGains] is the luminance of a sampled pixel, taken
    at index [k = floor (0.85 * n)] of the [n] sorted luminances: at least
    [n - k] sampled pixels, which is at least 15 percent of them, have a
    luminance at or above it, and at most [k] have one below it. *)
Theorem bright_threshold_top_share (data : list Z) :
  let lums := Flash.sampledLuminances data in
  let n := List.length lums in
  let k := Z.to_nat (Qfloor (natQ n * 0.85)) in
  let t := Flash.brightThreshold data in
  (List.length data mod 4 = 0)%nat -> (0 < n)%nat ->
  In t lums /\
  (k < n)%nat /\ 0.15 * natQ n <= natQ (n - k) /\
  (n - k <= List.length (filter (fun v => Qleb t v) lums))%nat /\
  (List.length (filter (fun v => Qltb v t) lums) <= k)%nat.
Proof.
  intros lums n k t _ Hn.
  set (s := sortBy Qleb lums).
  assert (Hlen : List.length s = n) by apply sortBy_length.
  assert (Et : t = nth k s 0).
  { unfold t, Flash.brightThreshold. fold lums. fold s. rewrite Hlen.
    reflexivity. }
  pose proof (natQ_pos n Hn) as Hnq.
  pose proof (Qfloor_le (natQ n * 0.85)) as Hfl.
  assert (Hf0 : (0 <= Qfloor (natQ n * 0.85))%Z).
  { change 0%Z with (Qfloor 0). apply Qfloor_resp_le. lra. }
  assert (Ek : natQ k == inject_Z (Qfloor (natQ n * 0.85))).
  { unfold natQ, k. rewrite Z2Nat.id by exact Hf0. reflexivity. }
  assert (Hk : (k < n)%nat).
  { assert (H : natQ k < natQ n) by lra.
    unfold natQ in H. rewrite <- Zlt_Qlt in H. lia. }
  assert (Hge : (n - k <= List.length (filter (fun v => Qleb t v) lums))%nat).
  { rewrite <- (filter_perm_length _ s lums (sortBy_perm Qleb lums)).
    rewrite <- (firstn_skipn k s) at 1. rewrite filter_app, length_app.
    assert (E : filter (fun v => Qleb t v) (skipn k s) = skipn k s).
    { apply forallb_filter_id, forallb_forall. intros v Hv.
      apply Qleb_le. rewrite Et.
      apply sorted_suffix_ge; [apply sortBy_Qleb_strongly | lia | exact Hv]. }
    rewrite E, length_skipn, Hlen. lia. }
  split; [| split; [exact Hk | split; [| split; [exact Hge |]]]].
  - rewrite Et. apply (sortBy_in Qleb). apply nth_In. fold s. lia.
  - rewrite natQ_minus by lia. lra.
  - pose proof (filter_negb_length (fun v => Qleb t v) lums) as Hsum.
    fold n in Hsum.
    assert (E : filter (fun v => Qltb v t) lums
                = filter (fun v => negb (Qleb t v)) lums)
      by (apply filter_ext; reflexivity).
    rewrite E. lia.
Qed.

Lemma bright_threshold_top_share_witness :
  In (Flash.brightThreshold (uniformImage 80 200 220 250 255))
     (Flash.sampledLuminances (uniformImage 80 200 220 250 255)) /\
  (20 - 17
   <= List.length
        (filter (fun v => Qleb (Flash.brightThreshold
                                  (uniformImage 80 200 220 250 255)) v)
           (Flash.sampledLuminances (uniformImage 80 200 220 250 255))))%nat.
Proof.
  destruct (bright_threshold_top_share (uniformImage 80 200 220 250 255))
    as (H1 & _ & _ & H2 & _).
  - vm_compute. reflexivity.
  - vm_compute. lia.
  - split; [exact H1 | exact H2].
Defined.

(** ** The flash version: the shade grid and the entry point *)

Local Open Scope nat_scope.

Lemma shadeIndex_le (v : nat) (cell : Q) : Flash.shadeIndex v cell <= 7.
Proof.
  unfold Flash.shadeIndex, Flash.SHADE_GRID.
  change (Z.of_nat 8 - 1)%Z with 7%Z. lia.
Qed.

Local Open Scope Q_scope.

Lemma channel_byte (data : list Z) (i : nat) :
  (forall v, In v data -> (0 <= v <= 255)%Z) ->
  0 <= channel data i <= 255.
Proof.
  intros H. unfold channel.
  assert (Hb : (0 <= nth i data 0 <= 255)%Z).
  { destruct (nth_in_or_default i data 0%Z) as [Hin | ->]; [apply H, Hin | lia]. }
  change 0 with (inject_Z 0). change 255 with (inject_Z 255).
  rewrite <- !Zle_Qle. exact Hb.
Qed.

Lemma luminance_range (r g b : Q) :
  0 <= r <= 255 -> 0 <= g <= 255 -> 0 <= b <= 255 ->
  0 <= luminance r g b <= 255.
Proof. intros. unfold luminance. lra. Qed.

Lemma gained_range (c gain : Q) :
  0 <= c -> 0 <= gain -> 0 <= Qmin 255 (c * gain) <= 255.
Proof.
  intros Hc Hg. split; [| apply Q.le_min_l].
  apply Q.min_glb; [lra | apply Qmult_le_0_compat; assumption].
Qed.

Lemma natQ_S (n : nat) : natQ (S n) == natQ n + 1.
Proof.
  unfold natQ. rewrite Nat2Z.inj_succ. unfold Z.succ.
  rewrite inject_Z_plus. reflexivity.
Qed.

Section ShadeGrid.

Variables (data : list Z) (width : nat) (gains : Flash.Gains) (cW cH : Q).
Hypothesis bytes : forall v, In v data -> (0 <= v <= 255)%Z.
Hypothesis gains_nonneg :
  0 <= Flash.gainR gains /\ 0 <= Flash.gainG gains /\ 0 <= Flash.gainB gains.

Lemma shadeSample_inv (y x : nat) (acc : list Q * list nat) :
  shadeInv acc -> shadeInv (Flash.shadeSample data width gains cW cH y acc x).
Proof.
  intros (Hs & Hc & Hb). unfold Flash.shadeSample.
  set (i := ((y * width + x) * 4)%nat).
  set (idx := (Flash.shadeIndex y cH * Flash.SHADE_GRID
               + Flash.shadeIndex x cW)%nat).
  assert (Hidx : (idx < 64)%nat).
  { pose proof (shadeIndex_le y cH). pose proof (shadeIndex_le x cW).
    unfold idx, Flash.SHADE_GRID. lia. }
  set (lum := luminance _ _ _).
  assert (Hlum : 0 <= lum <= 255).
  { destruct gains_nonneg as (Gr & Gg & Gb).
    apply luminance_range; apply gained_range;
      try assumption; apply channel_byte, bytes. }
  unfold shadeInv. cbn [fst snd].
  rewrite !setNth_length. split; [exact Hs |]. split; [exact Hc |].
  intros j. destruct (Nat.eq_dec idx j) as [<- | Hne].
  - rewrite !setNth_nth_same by lia. rewrite natQ_S.
    specialize (Hb idx). lra.
  - rewrite !setNth_nth_other by exact Hne. apply Hb.
Qed.

Lemma shadeRows_inv (rows cols : list nat) (acc : list Q * list nat) :
  shadeInv acc ->
  shadeInv
    (fold_left
       (fun acc y =>
          fold_left (Flash.shadeSample data width gains cW cH y) cols acc)
       rows acc).
Proof.
  revert acc. induction rows as [| y rows IH]; intros acc Hacc; simpl;
    [exact Hacc |].
  apply IH. clear IH. revert acc Hacc.
  induction cols as [| x cols IHc]; intros acc Hacc; simpl; [exact Hacc |].
  apply IHc, shadeSample_inv, Hacc.
Qed.

End ShadeGrid.

Lemma shadeInv_start :
  shadeInv (repeat 0 (Flash.SHADE_GRID * Flash.SHADE_GRID),
            repeat 0%nat (Flash.SHADE_GRID * Flash.SHADE_GRID)).
Proof.
  unfold shadeInv. cbn [fst snd]. rewrite !repeat_length.
  split; [reflexivity |]. split; [reflexivity |].
  intros i.
  assert (E1 : nth i (repeat 0 (Flash.SHADE_GRID * Flash.SHADE_GRID)) 0 = 0).
  { destruct (nth_in_or_default i (repeat 0 (Flash.SHADE_GRID * Flash.SHADE_GRID)) 0)
      as [H | H]; [apply repeat_spec in H |]; exact H. }
  assert (E2 : nth i (repeat 0%nat (Flash.SHADE_GRID * Flash.SHADE_GRID)) 0%nat
               = 0%nat).
  { destruct (nth_in_or_default i
                (repeat 0%nat (Flash.SHADE_GRID * Flash.SHADE_GRID)) 0%nat)
      as [H | H]; [apply repeat_spec in H |]; exact H. }
  rewrite E1, E2. change (natQ 0) with 0. lra.
Qed.

Lemma fold_rows_no_columns {A B C : Type} (f : B -> A -> C -> A)
  (rows : list B) (a : A) :
  fold_left (fun acc y => fold_left (f y) [] acc) rows a = a.
Proof. induction rows as [| y rows IH]; simpl; [reflexivity | exact IH]. Qed.

(** The totals of sums and counts that satisfy the bound cell by cell. *)
Lemma shade_totals (sums : list Q) (counts : list nat) (s : Q) (c : nat) :
  List.length sums = List.length counts ->
  (forall i, 0 <= nth i sums 0 <= 255 * natQ (nth i counts 0%nat)) ->
  0 <= s <= 255 * natQ c ->
  0 <= fold_left Qplus sums s
  <= 255 * natQ (fold_left Nat.add counts c).
Proof.
  revert counts s c. induction sums as [| a sums IH];
    intros [| b counts] s c Hlen Hb Hs; simpl in *; try discriminate;
    [exact Hs |].
  apply IH.
  - lia.
  - intros i. apply (Hb (S i)).
  - pose proof (Hb 0%nat) as H0. simpl in H0. rewrite natQ_plus. lra.
Qed.

(** X16.  On a buffer that holds the whole image, with bytes between 0 and
    255, and gains that are not negative, [buildShadeGrid] returns 64 cell
    averages, each between 0 and 255 (128 for a cell without a sample),
    and a global average between 0 and 255; and the shade factor looked up
    in it lies between 0.7 and 1.5 for every cell. *)
Theorem shade_grid_bounded (data : list Z) (width height : nat)
  (gains : Flash.Gains) :
  List.length data = (width * height * 4)%nat ->
  (forall v, In v data -> (0 <= v <= 255)%Z) ->
  0 <= Flash.gainR gains /\ 0 <= Flash.gainG gains /\ 0 <= Flash.gainB gains ->
  let shade := Flash.buildShadeGrid data width height gains in
  List.length (Flash.cellAvg shade) = 64%nat /\
  (forall i, (i < 64)%nat -> 0 <= nth i (Flash.cellAvg shade) 0 <= 255) /\
  0 <= Flash.globalAvg shade <= 255 /\
  (forall gx gy, 0.7 <= Flash.shadeFactor shade gx gy <= 1.5) /\
  ((width = 0%nat \/ height = 0%nat) ->
   Flash.globalAvg shade = 128 /\
   forall i, (i < 64)%nat -> nth i (Flash.cellAvg shade) 0 = 128).
Proof.
  intros _ Hbytes Hgains shade.
  set (cW := natQ width / natQ Flash.SHADE_GRID).
  set (cH := natQ height / natQ Flash.SHADE_GRID).
  pose proof (shadeRows_inv data width gains cW cH Hbytes Hgains
                (stride 2 height) (stride 2 width) _ shadeInv_start) as Hinv.
  set (acc := fold_left _ (stride 2 height) _) in Hinv.
  destruct Hinv as (Hs & Hc & Hb).
  assert (Eavg : Flash.cellAvg shade
                 = map (fun sc => if (snd sc =? 0)%nat then 128
                                  else fst sc / natQ (snd sc))
                     (combine (fst acc) (snd acc))) by reflexivity.
  assert (Eglob : Flash.globalAvg shade
                  = if (fold_left Nat.add (snd acc) 0 =? 0)%nat then 128
                    else fold_left Qplus (fst acc) 0
                         / natQ (fold_left Nat.add (snd acc) 0%nat))
    by reflexivity.
  assert (Hnth : forall i, (i < 64)%nat ->
            nth i (Flash.cellAvg shade) 0
            = if (nth i (snd acc) 0 =? 0)%nat then 128
              else nth i (fst acc) 0 / natQ (nth i (snd acc) 0%nat)).
  { intros i Hi. rewrite Eavg.
    rewrite (nth_indep _ 0
               ((fun sc : Q * nat => if (snd sc =? 0)%nat then 128
                                     else fst sc / natQ (snd sc)) (0, 0%nat)))
      by (rewrite length_map, length_combine, Hs, Hc; simpl; lia).
    rewrite (map_nth (fun sc : Q * nat => if (snd sc =? 0)%nat then 128
                                          else fst sc / natQ (snd sc))).
    rewrite combine_nth by lia. reflexivity. }
  split; [rewrite Eavg, length_map, length_combine, Hs, Hc; reflexivity |].
  split; [| split; [| split]].
  - intros i Hi. rewrite (Hnth i Hi).
    destruct (nth i (snd acc) 0 =? 0)%nat eqn:E0; [lra |].
    apply Nat.eqb_neq in E0.
    pose proof (natQ_pos (nth i (snd acc) 0%nat) ltac:(lia)) as Hpos.
    specialize (Hb i). apply Qdiv_between; lra.
  - rewrite Eglob.
    destruct (fold_left Nat.add (snd acc) 0 =? 0)%nat eqn:E0; [lra |].
    apply Nat.eqb_neq in E0.
    pose proof (natQ_pos (fold_left Nat.add (snd acc) 0%nat) ltac:(lia)) as Hpos.
    pose proof (shade_totals (fst acc) (snd acc) 0 0%nat ltac:(lia) Hb) as Ht.
    apply Qdiv_between; [exact Hpos | |]; apply Ht; change (natQ 0) with 0; lra.
  - intros gx gy. unfold Flash.shadeFactor. split.
    + apply Q.min_glb; [lra | apply Q.le_max_l].
    + apply Q.le_min_l.
  - intros Hzero.
    assert (Eacc : acc = (repeat 0 64, repeat 0%nat 64)).
    { unfold acc. destruct Hzero as [-> | ->].
      - change (stride 2 0) with (@nil nat).
        apply (fold_rows_no_columns
                 (fun y => Flash.shadeSample data 0 gains cW cH y)).
      - reflexivity. }
    split.
    + rewrite Eglob, Eacc. reflexivity.
    + intros i Hi. rewrite (Hnth i Hi), Eacc. cbn [fst snd].
      assert (E2 : nth i (repeat 0%nat 64) 0%nat = 0%nat).
      { destruct (nth_in_or_default i (repeat 0%nat 64) 0%nat) as [H | H];
          [apply repeat_spec in H |]; exact H. }
      rewrite E2. reflexivity.
Qed.

Lemma shade_grid_bounded_witness :
  0 <= Flash.globalAvg
         (Flash.buildShadeGrid (uniformImage 16 200 220 250 255) 4 4
            (Flash.mkGains 1 1 1)) <= 255 /\
  0.7 <= Flash.shadeFactor
           (Flash.buildShadeGrid (uniformImage 16 200 220 250 255) 4 4
              (Flash.mkGains 1 1 1)) 0 0 <= 1.5.
Proof.
  destruct (shade_grid_bounded (uniformImage 16 200 220 250 255) 4 4
              (Flash.mkGains 1 1 1)) as (_ & _ & H1 & H2 & _).
  - vm_compute. reflexivity.
  - intros v Hv.
    assert (E : ((0 <=? v) && (v <=? 255))%Z = true)
      by (revert v Hv; apply forallb_forall; reflexivity).
    apply andb_true_iff in E. rewrite !Z.leb_le in E. exact E.
  - simpl. repeat split; discriminate.
  - split; [exact H1 | apply H2].
Defined.

Local Open Scope nat_scope.

Lemma correctPixel_cases (data : list Z) (width : nat) (gains : Flash.Gains)
  (shade : Flash.ShadeGrid) (y : nat) (acc : list MatchedPixel) (x : nat) :
  Flash.correctPixel data width gains shade y acc x = acc \/
  exists prof,
    In prof Flash.BLOOD_PROFILES /\
    Flash.correctPixel data width gains shade y acc x
    = acc ++ [mkPixel x y prof].
Proof.
  unfold Flash.correctPixel.
  destruct (match byteAt data ((y * width + x) * 4 + 3) with
            | Some a => (a <? 128)%Z
            | None => false
            end); [left; reflexivity |].
  destruct (Flash.matchesBlood _ _ _) as [prof |] eqn:E; [| left; reflexivity].
  right. exists prof. split; [| reflexivity].
  apply (matchesHsl_in _ _ _ E).
Qed.

Lemma flash_pixels_acc (data : list Z) (width : nat) (gains : Flash.Gains)
  (shade : Flash.ShadeGrid) (l : list (nat * nat)) (acc : list MatchedPixel) :
  exists extra,
    fold_left (fun acc xy =>
                 Flash.correctPixel data width gains shade (snd xy) acc (fst xy))
      l acc = acc ++ extra /\
    List.length extra <= List.length l /\
    forall p, In p extra ->
      In (px p, py p) l /\ In (profile p) Flash.BLOOD_PROFILES.
Proof.
  revert acc. induction l as [| [x y] l IH]; intros acc; simpl.
  - exists []. rewrite app_nil_r. split; [reflexivity |].
    split; [simpl; lia | intros p []].
  - destruct (correctPixel_cases data width gains shade y acc x)
      as [-> | (prof & Hprof & ->)].
    + destruct (IH acc) as (extra & E & Hlen & Hp).
      exists extra. split; [exact E |]. split; [lia |].
      intros p Hin. destruct (Hp p Hin). auto.
    + destruct (IH (acc ++ [mkPixel x y prof])) as (extra & E & Hlen & Hp).
      exists (mkPixel x y prof :: extra). rewrite E, <- app_assoc.
      split; [reflexivity |]. split; [simpl; lia |].
      intros p [<- | Hin]; [simpl; auto |].
      destruct (Hp p Hin). auto.
Qed.

(** What the flash version's [analyzeImageData] passes to
    [clusterDetections], and what it returns of it. *)
Lemma flash_analysis_detections (data : list Z) (width height : nat)
  (flashIsOn : bool) :
  exists res pixels,
    Flash.analyzeImageData data width height flashIsOn = Some res /\
    List.length pixels <= ceilDiv width 2 * ceilDiv height 2 /\
    (forall p, In p pixels -> px p < width /\ py p < height) /\
    (forall p, In p pixels ->
       In (label (profile p)) (map label Flash.BLOOD_PROFILES)) /\
    Flash.clusterDetections pixels width height = Some (Flash.detections res) /\
    (Flash.sampleType res = "urine" \/ Flash.sampleType res = "stool").
Proof.
  unfold Flash.analyzeImageData.
  set (gains := Flash.computeWhiteBalanceGains data width height flashIsOn).
  set (shade := Flash.buildShadeGrid data width height gains).
  set (pixels := fold_left _ (stride 2 height) []).
  assert (Epix : pixels
                 = fold_left (fun acc xy =>
                     Flash.correctPixel data width gains shade (snd xy) acc
                       (fst xy)) (positions width height) []).
  { unfold pixels, positions. rewrite fold_left_flat_map.
    apply fold_left_pointwise. intros st y. rewrite fold_left_map. reflexivity. }
  destruct (flash_pixels_acc data width gains shade (positions width height) [])
    as (extra & E & Hlen & Hp).
  rewrite <- Epix in E. simpl in E. subst extra.
  assert (Hin : forall p, In p pixels -> px p < width /\ py p < height).
  { intros p Hin. destruct (Hp p Hin) as [Hpos _].
    apply positions_inside in Hpos. exact Hpos. }
  assert (Hlab : forall p, In p pixels ->
            In (label (profile p)) (map label Flash.BLOOD_PROFILES)).
  { intros p Hin'. apply in_map. apply (Hp p Hin'). }
  destruct (clusterDetections_fills Flash.BLOOD_PROFILES pixels width height)
    as (grid & fills & _ & _ & Hres & _); [| exact Hlab |].
  { intros p Hin'. destruct (Hin p Hin') as [Hx Hy].
    apply (pixel_cell width height p Hx Hy). }
  unfold Flash.clusterDetections. rewrite Hres.
  eexists. exists pixels. split; [reflexivity |].
  split; [rewrite <- positions_length; exact Hlen |].
  split; [exact Hin |]. split; [exact Hlab |].
  split; [exact Hres |]. simpl.
  apply flash_sample_type_binary.
Qed.

(** X15.  On a buffer that holds the whole image, the flash version's
    [analyzeImageData] raises no error; its sample type is "urine" or
    "stool"; every Finding reports at least 8 matched pixels and has the
    label, colour, severity and hatch style of one declared blood profile;
    the pixel counts of the Findings add up to at most the number of
    sampled positions, [ceil (width / 2) * ceil (height / 2)]; and the box
    of a Finding starts inside the image and ends less than 12 pixels past
    its right and bottom edges. *)
Theorem flash_analysis_wellformed (data : list Z) (width height : nat)
  (flashIsOn : bool) :
  List.length data = width * height * 4 ->
  exists res,
    Flash.analyzeImageData data width height flashIsOn = Some res /\
    (Flash.sampleType res = "urine" \/ Flash.sampleType res = "stool") /\
    list_sum (map fpixels (Flash.detections res))
    <= ceilDiv width 2 * ceilDiv height 2 /\
    forall f, In f (Flash.detections res) ->
      8 <= fpixels f /\
      (exists prof,
         In prof Flash.BLOOD_PROFILES /\ label prof = flabel f /\
         color prof = fcolor f /\ severity prof = fseverity f /\
         hatchStyle prof = fhatchStyle f) /\
      fx f < width /\ fy f < height /\
      fx f + fw f < width + 12 /\ fy f + fh f < height + 12.
Proof.
  intros _.
  destruct (flash_analysis_detections data width height flashIsOn)
    as (res & pixels & Hres & Hlen & Hin & Hlab & Hdet & Htype).
  exists res. split; [exact Hres |]. split; [exact Htype |].
  destruct (clusterDetections_inside Flash.BLOOD_PROFILES pixels width height
              (Flash.detections res) Hin Hlab Hdet) as (Hsum & Hbox).
  split; [lia |]. intros f Hf.
  destruct (Hbox f Hf) as (H8 & Hprof & _ & Hb).
  split; [exact H8 |]. split; [exact Hprof |]. exact Hb.
Qed.

Lemma flash_analysis_wellformed_witness :
  exists res,
    Flash.analyzeImageData (uniformImage 72 200 30 30 255) 12 6 false
    = Some res /\
    list_sum (map fpixels (Flash.detections res)) <= 18 /\
    forall f, In f (Flash.detections res) -> 8 <= fpixels f /\ fx f < 12.
Proof.
  destruct (flash_analysis_wellformed (uniformImage 72 200 30 30 255) 12 6 false)
    as (res & H1 & _ & H2 & H3).
  - reflexivity.
  - exists res. split; [exact H1 |]. split; [exact H2 |].
    intros f Hf. destruct (H3 f Hf) as (H8 & _ & Hx & _). auto.
Defined.

(** ** The component of the bowl version: crops and the highest severity *)

Local Open Scope Q_scope.

Lemma jsRound_near (x : Q) :
  x - (1 # 2) < inject_Z (jsRound x) /\ inject_Z (jsRound x) <= x + (1 # 2).
Proof.
  unfold jsRound.
  pose proof (Qfloor_le (x + (1 # 2))) as H1.
  pose proof (Qlt_floor (x + (1 # 2))) as H2.
  rewrite inject_Z_plus in H2. change (inject_Z 1) with 1 in H2.
  split; lra.
Qed.

Lemma jsRound_range (x : Q) (lo hi : Z) :
  inject_Z lo <= x <= inject_Z hi -> (lo <= jsRound x <= hi)%Z.
Proof.
  intros [Hlo Hhi]. destruct (jsRound_near x) as [H1 H2].
  assert (A : inject_Z lo - 1 < inject_Z (jsRound x)) by lra.
  assert (B : inject_Z (jsRound x) < inject_Z hi + 1) by lra.
  change 1 with (inject_Z 1) in A, B.
  unfold Qminus in A. rewrite <- inject_Z_opp, <- inject_Z_plus in A.
  rewrite <- inject_Z_plus in B.
  rewrite <- Zlt_Qlt in A, B. lia.
Qed.

(** The clipped, padded rectangle of a box that starts inside the image. *)
Lemma padded_rect (x w pad W : Z) :
  (0 <= x < W)%Z -> (0 < w)%Z -> (0 <= pad)%Z ->
  let cx := Z.max 0 (x - pad) in
  let cw := Z.min (W - cx) (w + pad * 2) in
  (0 <= cx <= x)%Z /\ (0 < cw)%Z /\ (cx + cw <= W)%Z /\
  (Z.min (x + w) W <= cx + cw)%Z.
Proof. intros Hx Hw Hp cx cw. unfold cx, cw. lia. Qed.

Lemma thumbPlacement_fits (c : HealthScanApp.Crop) :
  (0 < HealthScanApp.cropW c)%Z -> (0 < HealthScanApp.cropH c)%Z ->
  let t := HealthScanApp.thumbPlacement c in
  0 <= HealthScanApp.dx t /\ 0 <= HealthScanApp.dy t /\
  0 < HealthScanApp.dw t <= 96 /\ 0 < HealthScanApp.dh t <= 96 /\
  HealthScanApp.dx t + HealthScanApp.dw t + HealthScanApp.dx t == 96 /\
  HealthScanApp.dy t + HealthScanApp.dh t + HealthScanApp.dy t == 96 /\
  (HealthScanApp.dw t == 96 \/ HealthScanApp.dh t == 96) /\
  HealthScanApp.dw t * inject_Z (HealthScanApp.cropH c)
  == HealthScanApp.dh t * inject_Z (HealthScanApp.cropW c).
Proof.
  intros HW HH t. unfold t, HealthScanApp.thumbPlacement.
  cbn [HealthScanApp.dx HealthScanApp.dy HealthScanApp.dw HealthScanApp.dh].
  set (W := inject_Z (HealthScanApp.cropW c)).
  set (H := inject_Z (HealthScanApp.cropH c)).
  assert (HWq : 0 < W) by (unfold W; change 0 with (inject_Z 0);
                           rewrite <- Zlt_Qlt; exact HW).
  assert (HHq : 0 < H) by (unfold H; change 0 with (inject_Z 0);
                           rewrite <- Zlt_Qlt; exact HH).
  set (a := 96 / W). set (b := 96 / H).
  assert (Ea : a * W == 96) by (unfold a; field; lra).
  assert (Eb : b * H == 96) by (unfold b; field; lra).
  assert (Ha : 0 < a) by (unfold a; apply Qlt_shift_div_l; lra).
  assert (Hb : 0 < b) by (unfold b; apply Qlt_shift_div_l; lra).
  pose proof (Q.le_min_l a b) as Hsa. pose proof (Q.le_min_r a b) as Hsb.
  assert (Hs : Qmin a b == a \/ Qmin a b == b).
  { destruct (Q.min_spec a b) as [[_ E] | [_ E]]; auto. }
  assert (Hpos : 0 < Qmin a b) by (destruct Hs as [E | E]; rewrite E; assumption).
  set (s := Qmin a b) in *. clearbody s a b W H.
  assert (Hdw : W * s <= 96) by nra.
  assert (Hdh : H * s <= 96) by nra.
  assert (Hdw0 : 0 < W * s) by nra.
  assert (Hdh0 : 0 < H * s) by nra.
  split; [unfold Qdiv; change (/ 2) with (1 # 2); lra |].
  split; [unfold Qdiv; change (/ 2) with (1 # 2); lra |].
  split; [split; assumption |]. split; [split; assumption |].
  split; [field |]. split; [field |].
  split; [| ring].
  destruct Hs as [E | E]; [left | right]; rewrite E; lra.
Qed.

Local Open Scope nat_scope.

(** X18.  For every Finding of [analyzeImageData], the crop preview pads
    the box by at least 14 pixels and by 0.32 times its longer side, rounded;
    the crop is a rectangle of positive size inside the image that holds
    the part of the box inside the image; and the crop is drawn in the
    thumbnail of 96 by 96 pixels centred, with its proportions kept,
    filling the thumbnail in width or in height. *)
Theorem finding_crop_inside_image (data : list Z) (width height : nat) :
  exists res,
    analyzeImageData data width height = Some res /\
    forall f, In f (detections res) ->
      let pad := HealthScanApp.cropPad f in
      let c := HealthScanApp.findingCrop f width height in
      let t := HealthScanApp.thumbPlacement c in
      (14 <= pad)%Z /\
      (inject_Z (Z.of_nat (Nat.max (fw f) (fh f))) * 0.32 - (1 # 2)
       < inject_Z pad)%Q /\
      (0 <= HealthScanApp.cropX c <= Z.of_nat (fx f))%Z /\
      (0 <= HealthScanApp.cropY c <= Z.of_nat (fy f))%Z /\
      (0 < HealthScanApp.cropW c)%Z /\ (0 < HealthScanApp.cropH c)%Z /\
      (HealthScanApp.cropX c + HealthScanApp.cropW c <= Z.of_nat width)%Z /\
      (HealthScanApp.cropY c + HealthScanApp.cropH c <= Z.of_nat height)%Z /\
      (Z.min (Z.of_nat (fx f + fw f)) (Z.of_nat width)
       <= HealthScanApp.cropX c + HealthScanApp.cropW c)%Z /\
      (Z.min (Z.of_nat (fy f + fh f)) (Z.of_nat height)
       <= HealthScanApp.cropY c + HealthScanApp.cropH c)%Z /\
      (0 <= HealthScanApp.dx t /\ 0 <= HealthScanApp.dy t /\
       0 < HealthScanApp.dw t <= 96 /\ 0 < HealthScanApp.dh t <= 96 /\
       HealthScanApp.dx t + HealthScanApp.dw t + HealthScanApp.dx t == 96 /\
       HealthScanApp.dy t + HealthScanApp.dh t + HealthScanApp.dy t == 96 /\
       (HealthScanApp.dw t == 96 \/ HealthScanApp.dh t == 96) /\
       HealthScanApp.dw t * inject_Z (HealthScanApp.cropH c)
       == HealthScanApp.dh t * inject_Z (HealthScanApp.cropW c))%Q.
Proof.
  destruct (analysis_detections data width height)
    as (res & pixels & Hres & _ & Hin & Hlab & Hdet).
  exists res. split; [exact Hres |].
  destruct Hdet as [E | E]; [rewrite E; intros f [] |].
  destruct (clusterDetections_inside BLOOD_PROFILES pixels width height
              (detections res) Hin Hlab E) as (_ & Hbox).
  intros f Hf pad c t.
  destruct (Hbox f Hf) as (_ & _ & (a & b & cw & ch & Ex & Ey & Ew & Eh)
                           & Hx & Hy & _).
  assert (Hpad : (14 <= pad)%Z)
    by (unfold pad, HealthScanApp.cropPad, HealthScanApp.FINDING_CROP_MIN_PAD;
        lia).
  assert (Hw : (0 < Z.of_nat (fw f))%Z) by (rewrite Ew; unfold GRID; lia).
  assert (Hh : (0 < Z.of_nat (fh f))%Z) by (rewrite Eh; unfold GRID; lia).
  destruct (padded_rect (Z.of_nat (fx f)) (Z.of_nat (fw f)) pad
              (Z.of_nat width)) as (X1 & X2 & X3 & X4); [lia | lia | lia |].
  destruct (padded_rect (Z.of_nat (fy f)) (Z.of_nat (fh f)) pad
              (Z.of_nat height)) as (Y1 & Y2 & Y3 & Y4); [lia | lia | lia |].
  split; [exact Hpad |]. split.
  - unfold pad, HealthScanApp.cropPad, HealthScanApp.FINDING_CROP_PAD_RATIO.
    rewrite Nat2Z.inj_max.
    set (m := Z.max (Z.of_nat (fw f)) (Z.of_nat (fh f))).
    destruct (jsRound_near (inject_Z m * 0.32)) as [H1 _].
    eapply Qlt_le_trans; [exact H1 |].
    rewrite <- Zle_Qle. lia.
  - rewrite !Nat2Z.inj_add.
    split; [exact X1 |]. split; [exact Y1 |]. split; [exact X2 |].
    split; [exact Y2 |]. split; [exact X3 |]. split; [exact Y3 |].
    split; [exact X4 |]. split; [exact Y4 |].
    apply thumbPlacement_fits; assumption.
Qed.

(** A box of 24 by 12 pixels at the left edge of an image of 100 by 80
    pixels is padded by 14 pixels: 0.32 times 24 rounds to 8. *)
Example finding_crop_example :
  HealthScanApp.findingCrop (mkFinding 0 36 24 12 "Maroon" "#7f1d1d" None None 9)
    100 80
  = HealthScanApp.mkCrop 0 22 52 40.
Proof. reflexivity. Qed.

Lemma severity_by_label (f : Finding) :
  (exists prof,
     In prof BLOOD_PROFILES /\ label prof = flabel f /\
     severity prof = fseverity f) ->
  (HealthScanApp.severityIs "urgent" f = true <->
   flabel f = "Bright Red" \/ flabel f = "Dark Red") /\
  (HealthScanApp.severityIs "warning" f = true <->
   flabel f = "Maroon" \/ flabel f = "Brown Blood") /\
  (HealthScanApp.severityIs "urgent" f = false /\
   HealthScanApp.severityIs "warning" f = false <->
   flabel f = "Black (Tarry)").
Proof.
  intros (prof & Hin & El & Es). unfold HealthScanApp.severityIs.
  rewrite <- Es, <- El.
  simpl in Hin.
  destruct Hin as [<- | [<- | [<- | [<- | [<- | []]]]]]; simpl;
    repeat split; intros; intuition (try discriminate; auto).
Qed.

(** X19.  The highest severity of the Findings of [analyzeImageData] is
    [null] exactly when there is no Finding, "urgent" exactly when some
    Finding is Bright Red or Dark Red, "warning" exactly when none is and
    some Finding is Maroon or Brown Blood, and "caution" exactly when there
    are Findings and all of them are Black (Tarry). *)
Theorem highest_severity_of_findings (data : list Z) (width height : nat) :
  exists res,
    analyzeImageData data width height = Some res /\
    let D := detections res in
    let hs := HealthScanApp.highestSeverity D in
    (hs = None <-> D = []) /\
    (hs = Some "urgent" <->
     exists f, In f D /\ (flabel f = "Bright Red" \/ flabel f = "Dark Red")) /\
    (hs = Some "warning" <->
     (forall f, In f D -> flabel f <> "Bright Red" /\ flabel f <> "Dark Red") /\
     exists f, In f D /\ (flabel f = "Maroon" \/ flabel f = "Brown Blood")) /\
    (hs = Some "caution" <->
     D <> [] /\ forall f, In f D -> flabel f = "Black (Tarry)").
Proof.
  destruct (analysis_detections data width height)
    as (res & pixels & Hres & _ & Hin & Hlab & Hdet).
  exists res. split; [exact Hres |]. intros D hs.
  assert (Hsev : forall f, In f D ->
            (HealthScanApp.severityIs "urgent" f = true <->
             flabel f = "Bright Red" \/ flabel f = "Dark Red") /\
            (HealthScanApp.severityIs "warning" f = true <->
             flabel f = "Maroon" \/ flabel f = "Brown Blood") /\
            (HealthScanApp.severityIs "urgent" f = false /\
             HealthScanApp.severityIs "warning" f = false <->
             flabel f = "Black (Tarry)")).
  { intros f Hf. apply severity_by_label.
    destruct Hdet as [E | E]; [unfold D in Hf; rewrite E in Hf; destruct Hf |].
    destruct (clusterDetections_inside BLOOD_PROFILES pixels width height
                (detections res) Hin Hlab E) as (_ & Hbox).
    destruct (Hbox f Hf) as (_ & (prof & P1 & P2 & _ & P4 & _) & _).
    exists prof. auto. }
  clearbody D. clear Hdet Hres.
  assert (HU : existsb (HealthScanApp.severityIs "urgent") D = true <->
               exists f, In f D /\
                 (flabel f = "Bright Red" \/ flabel f = "Dark Red")).
  { rewrite existsb_exists. split; intros (f & Hf & H); exists f;
      (split; [exact Hf |]); apply (Hsev f Hf); exact H. }
  assert (HW : existsb (HealthScanApp.severityIs "warning") D = true <->
               exists f, In f D /\
                 (flabel f = "Maroon" \/ flabel f = "Brown Blood")).
  { rewrite existsb_exists. split; intros (f & Hf & H); exists f;
      (split; [exact Hf |]); apply (Hsev f Hf); exact H. }
  assert (HnU : existsb (HealthScanApp.severityIs "urgent") D = false <->
                forall f, In f D ->
                  flabel f <> "Bright Red" /\ flabel f <> "Dark Red").
  { rewrite <- not_true_iff_false, HU. split.
    - intros Hno f Hf. split; intros E; apply Hno; exists f; auto.
    - intros Hall (f & Hf & [E | E]); destruct (Hall f Hf); contradiction. }
  unfold hs, HealthScanApp.highestSeverity.
  destruct D as [| d D']; [| set (D := d :: D') in *].
  - split; [tauto |].
    split; [split; [discriminate | intros (f & [] & _)] |].
    split; [split; [discriminate | intros (_ & f & [] & _)] |].
    split; [discriminate | intros (H & _); contradiction].
  - split; [split; [discriminate | intros E; discriminate] |].
    destruct (existsb (HealthScanApp.severityIs "urgent") D) eqn:EU.
    + split; [split; [intros _; apply HU; reflexivity | reflexivity] |].
      split.
      * split; [discriminate |]. intros (Hn & _). apply HnU in Hn. congruence.
      * split; [discriminate |]. intros (_ & Hall).
        destruct (proj1 HU eq_refl) as (f & Hf & [E | E]);
          rewrite (Hall f Hf) in E; discriminate.
    + destruct (existsb (HealthScanApp.severityIs "warning") D) eqn:EW.
      * split; [split; [discriminate |]; intros H; apply HU in H; congruence |].
        split.
        -- split; [| reflexivity]. intros _. split; [apply HnU; reflexivity |].
           apply HW. reflexivity.
        -- split; [discriminate |]. intros (_ & Hall).
           destruct (proj1 HW eq_refl) as (f & Hf & [E | E]);
             rewrite (Hall f Hf) in E; discriminate.
      * split; [split; [discriminate |]; intros H; apply HU in H; congruence |].
        split.
        -- split; [discriminate |]. intros (_ & H). apply HW in H. congruence.
        -- split; [| reflexivity]. intros _. split; [discriminate |].
           intros f Hf. apply (Hsev f Hf). split.
           ++ apply not_true_iff_false. intros H.
              assert (existsb (HealthScanApp.severityIs "urgent") D = true)
                by (apply existsb_exists; exists f; auto).
              congruence.
           ++ apply not_true_iff_false. intros H.
              assert (existsb (HealthScanApp.severityIs "warning") D = true)
                by (apply existsb_exists; exists f; auto).
              congruence.
Qed.

(** ** The component of the flash version: the overlay and the crops *)

Local Open Scope nat_scope.

(** X20.  For every Finding of the flash version's [analyzeImageData], the
    rectangle that the overlay draws, the box padded by 8 pixels and clipped,
    has a positive size, lies inside the image and holds the part of the box
    inside the image; and its number label is never placed above the top
    edge of the image. *)
Theorem overlay_rect_inside_image (data : list Z) (width height : nat)
  (flashIsOn : bool) :
  List.length data = width * height * 4 ->
  exists res,
    Flash.analyzeImageData data width height flashIsOn = Some res /\
    forall f, In f (Flash.detections res) ->
      let r := App.overlayRect f width height in
      (0 <= App.rx r <= Z.of_nat (fx f))%Z /\
      (0 <= App.ry r <= Z.of_nat (fy f))%Z /\
      (0 < App.rw r)%Z /\ (0 < App.rh r)%Z /\
      (App.rx r + App.rw r <= Z.of_nat width)%Z /\
      (App.ry r + App.rh r <= Z.of_nat height)%Z /\
      (Z.min (Z.of_nat (fx f + fw f)) (Z.of_nat width)
       <= App.rx r + App.rw r)%Z /\
      (Z.min (Z.of_nat (fy f + fh f)) (Z.of_nat height)
       <= App.ry r + App.rh r)%Z /\
      (0 <= App.labelTop f width height)%Q.
Proof.
  intros _.
  destruct (flash_analysis_detections data width height flashIsOn)
    as (res & pixels & Hres & _ & Hin & Hlab & Hdet & _).
  exists res. split; [exact Hres |].
  destruct (clusterDetections_inside Flash.BLOOD_PROFILES pixels width height
              (Flash.detections res) Hin Hlab Hdet) as (_ & Hbox).
  intros f Hf r.
  destruct (Hbox f Hf) as (_ & _ & (a & b & cw & ch & Ex & Ey & Ew & Eh)
                           & Hx & Hy & _).
  assert (Hw : (0 < Z.of_nat (fw f))%Z) by (rewrite Ew; unfold GRID; lia).
  assert (Hh : (0 < Z.of_nat (fh f))%Z) by (rewrite Eh; unfold GRID; lia).
  destruct (padded_rect (Z.of_nat (fx f)) (Z.of_nat (fw f)) 8
              (Z.of_nat width)) as (X1 & X2 & X3 & X4); [lia | lia | lia |].
  destruct (padded_rect (Z.of_nat (fy f)) (Z.of_nat (fh f)) 8
              (Z.of_nat height)) as (Y1 & Y2 & Y3 & Y4); [lia | lia | lia |].
  rewrite !Nat2Z.inj_add.
  split; [exact X1 |]. split; [exact Y1 |]. split; [exact X2 |].
  split; [exact Y2 |]. split; [exact X3 |]. split; [exact Y3 |].
  split; [exact X4 |]. split; [exact Y4 |].
  unfold App.labelTop. fold r.
  assert (Hry : (0 <= inject_Z (App.ry r))%Q).
  { change 0%Q with (inject_Z 0). rewrite <- Zle_Qle. apply Y1. }
  assert (Hrh : (0 <= inject_Z (App.rh r))%Q).
  { change 0%Q with (inject_Z 0). rewrite <- Zle_Qle.
    apply Z.lt_le_incl, Y2. }
  destruct (Qltb _ 0) eqn:E.
  - lra.
  - apply Qltb_ge in E. exact E.
Qed.

Lemma overlay_rect_inside_image_witness :
  exists res,
    Flash.analyzeImageData (uniformImage 72 200 30 30 255) 12 6 false
    = Some res /\
    forall f, In f (Flash.detections res) ->
      (App.rx (App.overlayRect f 12 6) + App.rw (App.overlayRect f 12 6)
       <= 12)%Z.
Proof.
  destruct (overlay_rect_inside_image (uniformImage 72 200 30 30 255) 12 6 false)
    as (res & H1 & H2).
  - reflexivity.
  - exists res. split; [exact H1 |]. intros f Hf.
    destruct (H2 f Hf) as (_ & _ & _ & _ & H & _). exact H.
Defined.

(** X21.  For every Finding of the flash version's [analyzeImageData], the
    crop, the box padded by 24 pixels and clipped, has a positive size, lies
    inside the image and holds the part of the box inside the image; but
    the hatch and the outline drawn in the crop start at the left edge of
    the box only when the box starts at [x = 12], and at its top edge only
    when it starts at [y = 12]. *)
Theorem crop_view_outline_offset (data : list Z) (width height : nat)
  (flashIsOn : bool) :
  List.length data = width * height * 4 ->
  exists res,
    Flash.analyzeImageData data width height flashIsOn = Some res /\
    forall f, In f (Flash.detections res) ->
      let c := App.cropView f width height in
      (0 <= App.sx c <= Z.of_nat (fx f))%Z /\
      (0 <= App.sy c <= Z.of_nat (fy f))%Z /\
      (0 < App.sw c)%Z /\ (0 < App.sh c)%Z /\
      (App.sx c + App.sw c <= Z.of_nat width)%Z /\
      (App.sy c + App.sh c <= Z.of_nat height)%Z /\
      (Z.min (Z.of_nat (fx f + fw f)) (Z.of_nat width)
       <= App.sx c + App.sw c)%Z /\
      (Z.min (Z.of_nat (fy f + fh f)) (Z.of_nat height)
       <= App.sy c + App.sh c)%Z /\
      ((App.sx c + App.lx c)%Z = Z.of_nat (fx f) <-> fx f = 12) /\
      ((App.sy c + App.ly c)%Z = Z.of_nat (fy f) <-> fy f = 12).
Proof.
  intros _.
  destruct (flash_analysis_detections data width height flashIsOn)
    as (res & pixels & Hres & _ & Hin & Hlab & Hdet & _).
  exists res. split; [exact Hres |].
  destruct (clusterDetections_inside Flash.BLOOD_PROFILES pixels width height
              (Flash.detections res) Hin Hlab Hdet) as (_ & Hbox).
  intros f Hf c.
  destruct (Hbox f Hf) as (_ & _ & (a & b & cw & ch & Ex & Ey & Ew & Eh)
                           & Hx & Hy & _).
  assert (Hw : (0 < Z.of_nat (fw f))%Z) by (rewrite Ew; unfold GRID; lia).
  assert (Hh : (0 < Z.of_nat (fh f))%Z) by (rewrite Eh; unfold GRID; lia).
  destruct (padded_rect (Z.of_nat (fx f)) (Z.of_nat (fw f)) 24
              (Z.of_nat width)) as (X1 & X2 & X3 & X4); [lia | lia | lia |].
  destruct (padded_rect (Z.of_nat (fy f)) (Z.of_nat (fh f)) 24
              (Z.of_nat height)) as (Y1 & Y2 & Y3 & Y4); [lia | lia | lia |].
  rewrite !Nat2Z.inj_add.
  split; [exact X1 |]. split; [exact Y1 |]. split; [exact X2 |].
  split; [exact Y2 |]. split; [exact X3 |]. split; [exact Y3 |].
  split; [exact X4 |]. split; [exact Y4 |].
  unfold c, App.cropView. cbn [App.sx App.sy App.lx App.ly].
  split.
  - destruct (Z.of_nat (fx f) <? 24)%Z eqn:E;
      [apply Z.ltb_lt in E | apply Z.ltb_ge in E]; lia.
  - destruct (Z.of_nat (fy f) <? 24)%Z eqn:E;
      [apply Z.ltb_lt in E | apply Z.ltb_ge in E]; lia.
Qed.

(** A uniform red image of 12 by 6 pixels: its one Finding starts at
    [x = 0], and the outline in its crop starts 24 pixels to the right of
    the box. *)
Lemma crop_view_outline_offset_witness :
  exists res,
    Flash.analyzeImageData (uniformImage 72 200 30 30 255) 12 6 false
    = Some res /\
    forall f, In f (Flash.detections res) ->
      ((App.sx (App.cropView f 12 6) + App.lx (App.cropView f 12 6))%Z
       = Z.of_nat (fx f) <-> fx f = 12).
Proof.
  destruct (crop_view_outline_offset (uniformImage 72 200 30 30 255) 12 6 false)
    as (res & H1 & H2).
  - reflexivity.
  - exists res. split; [exact H1 |]. intros f Hf.
    destruct (H2 f Hf) as (_ & _ & _ & _ & _ & _ & _ & _ & H & _). exact H.
Defined.

Example crop_view_outline_example :
  option_map
    (fun res => map (fun f => (fx f, App.sx (App.cropView f 12 6),
                               App.lx (App.cropView f 12 6)))
                  (Flash.detections res))
    (Flash.analyzeImageData (uniformImage 72 200 30 30 255) 12 6 false)
  = Some [(0, 0%Z, 24%Z)].
Proof. vm_compute. reflexivity. Qed.

(** ** The lighting check *)

Local Open Scope Q_scope.

Lemma brightness_acc (d : list Z) (l : list nat) (s : Q) (c : nat) :
  (forall v, In v d -> (0 <= v <= 255)%Z) ->
  0 <= s <= 255 * natQ c ->
  let acc :=
    fold_left
      (fun (acc : Q * nat) i =>
         (fst acc + luminance (channel d i) (channel d (i + 1))
                      (channel d (i + 2)),
          S (snd acc))) l (s, c) in
  snd acc = (c + List.length l)%nat /\
  0 <= fst acc <= 255 * natQ (snd acc).
Proof.
  intros Hb. revert s c. induction l as [| i l IH]; intros s c Hs; simpl.
  - split; [lia | exact Hs].
  - destruct (IH (s + luminance (channel d i) (channel d (i + 1))
                        (channel d (i + 2))) (S c)) as (H1 & H2).
    + pose proof (luminance_range _ _ _ (channel_byte d i Hb)
                    (channel_byte d (i + 1) Hb) (channel_byte d (i + 2) Hb)).
      rewrite natQ_S. lra.
    + split; [rewrite H1; lia | exact H2].
Qed.

(** X22.  On a non-empty buffer of whole pixels, with bytes between 0 and
    255, [measureBrightness] reports an average between 0 and 255; the
    status is "dim" exactly when the average is below 38, "bright" exactly when it is
    above 220 and "ok" otherwise, which is exactly when capture is allowed;
    and the level bar, [Math.round (value / 255 * 100)], lies between 0 and
    100.  On an empty buffer the average is not a number and the status is
    "ok". *)
Theorem brightness_status_and_bar (d : list Z) :
  (List.length d mod 4 = 0)%nat ->
  (forall v, In v d -> (0 <= v <= 255)%Z) -> d <> [] ->
  (exists avg pct,
     value (measureBrightness d) = Some avg /\
     0 <= avg <= 255 /\
     (status (measureBrightness d) = "dim" <-> avg < 38) /\
     (status (measureBrightness d) = "bright" <-> 220 < avg) /\
     (status (measureBrightness d) = "ok" <-> 38 <= avg <= 220) /\
     (canCapture (Some (measureBrightness d)) = true <-> 38 <= avg <= 220) /\
     barPct (Some (measureBrightness d)) = Some pct /\
     (0 <= pct <= 100)%Z) /\
  measureBrightness [] = mkLight "ok" None.
Proof.
  intros _ Hb Hne. split; [| reflexivity].
  unfold canCapture, barPct, measureBrightness.
  destruct (brightness_acc d (stride 16 (List.length d)) 0 0%nat Hb)
    as (Hc & Hs); [change (natQ 0) with 0; lra |].
  set (acc := fold_left _ (stride 16 (List.length d)) (0, 0%nat)) in *.
  assert (Hpos : (0 < snd acc)%nat).
  { rewrite Hc. unfold stride. rewrite length_map, length_seq.
    destruct d as [| v d]; [contradiction |]. simpl List.length.
    change (16 - 1)%nat with 15%nat.
    apply Nat.div_str_pos. lia. }
  destruct (snd acc) as [| n] eqn:En; [lia |].
  pose proof (natQ_pos (S n) ltac:(lia)) as Hn.
  set (avg := fst acc / natQ (S n)).
  assert (Havg : 0 <= avg <= 255) by (apply Qdiv_between; lra).
  assert (Hpct : (0 <= jsRound (avg / 255 * 100) <= 100)%Z).
  { apply jsRound_range. change (inject_Z 0) with 0.
    change (inject_Z 100) with 100. unfold Qdiv.
    change (/ 255) with (1 # 255). lra. }
  exists avg, (jsRound (avg / 255 * 100)).
  unfold LIGHT_DIM_MAX, LIGHT_BRIGHT_MIN.
  destruct (Qltb avg 38) eqn:E1.
  - apply Qltb_lt in E1. cbn [value status].
    split; [reflexivity |]. split; [exact Havg |].
    split; [tauto |].
    split; [split; [discriminate | lra] |].
    split; [split; [discriminate | lra] |].
    split; [split; [discriminate | lra] |].
    split; [reflexivity | exact Hpct].
  - apply Qltb_ge in E1. destruct (Qgtb avg 220) eqn:E2.
    + apply Qgtb_lt in E2. cbn [value status].
      split; [reflexivity |]. split; [exact Havg |].
      split; [split; [discriminate | lra] |].
      split; [tauto |].
      split; [split; [discriminate | lra] |].
      split; [split; [discriminate | lra] |].
      split; [reflexivity | exact Hpct].
    + apply Qgtb_le in E2. cbn [value status].
      split; [reflexivity |]. split; [exact Havg |].
      split; [split; [discriminate | lra] |].
      split; [split; [discriminate | lra] |].
      split; [split; [intros _; lra | reflexivity] |].
      split; [split; [intros _; lra | reflexivity] |].
      split; [reflexivity | exact Hpct].
Qed.

(** Sixteen mid-gray pixels: the average is 128 and the bar at 50. *)
Lemma brightness_status_and_bar_witness :
  exists avg pct,
    value (measureBrightness (uniformImage 16 128 128 128 255)) = Some avg /\
    0 <= avg <= 255 /\
    barPct (Some (measureBrightness (uniformImage 16 128 128 128 255)))
    = Some pct /\
    (0 <= pct <= 100)%Z.
Proof.
  destruct (brightness_status_and_bar (uniformImage 16 128 128 128 255))
    as ((avg & pct & H1 & H2 & _ & _ & _ & _ & H3 & H4) & _).
  - vm_compute. reflexivity.
  - intros v Hv.
    assert (E : ((0 <=? v) && (v <=? 255))%Z = true)
      by (revert v Hv; apply forallb_forall; reflexivity).
    apply andb_true_iff in E. rewrite !Z.leb_le in E. exact E.
  - discriminate.
  - exists avg, pct. auto.
Defined.

Example brightness_gray :
  status (measureBrightness (uniformImage 16 128 128 128 255)) = "ok" /\
  barPct (Some (measureBrightness (uniformImage 16 128 128 128 255)))
  = Some 50%Z /\
  status (measureBrightness (uniformImage 16 20 20 20 255)) = "dim" /\
  status (measureBrightness (uniformImage 16 250 250 250 255)) = "bright".
Proof. vm_compute. auto. Qed.

(** ** The QR-like pattern of the flash version *)

Local Open Scope nat_scope.

Lemma setNth_same_list {A : Type} (i : nat) (v : A) (l : list A) :
  List.length l <= i -> setNth i v l = l.
Proof.
  revert i. induction l as [| a l IH]; intros i Hi; [destruct i; reflexivity |].
  destruct i as [| i]; simpl in *; [lia |]. f_equal. apply IH. lia.
Qed.

Lemma setCell_shaped (n : nat) (m : list (list nat)) (y x v : nat) :
  shaped n m -> shaped n (setCell m y x v).
Proof.
  intros [Hlen Hrows]. unfold setCell. split; [rewrite setNth_length; exact Hlen |].
  intros y' Hy'. destruct (Nat.eq_dec y y') as [<- | Hne].
  - rewrite setNth_nth_same by lia. rewrite setNth_length. apply Hrows, Hy'.
  - rewrite setNth_nth_other by exact Hne. apply Hrows, Hy'.
Qed.

Lemma getCell_setCell_same (n : nat) (m : list (list nat)) (y x v : nat) :
  shaped n m -> y < n -> x < n -> getCell (setCell m y x v) y x = v.
Proof.
  intros [Hlen Hrows] Hy Hx. unfold getCell, setCell.
  rewrite setNth_nth_same by lia.
  apply setNth_nth_same. rewrite (Hrows y Hy). exact Hx.
Qed.

Lemma getCell_setCell_other (m : list (list nat)) (y x v y' x' : nat) :
  (y, x) <> (y', x') ->
  getCell (setCell m y x v) y' x' = getCell m y' x'.
Proof.
  intros Hne. unfold getCell, setCell.
  destruct (Nat.eq_dec y y') as [<- | Hy];
    [| rewrite setNth_nth_other by exact Hy; reflexivity].
  assert (Hx : x <> x') by congruence.
  destruct (lt_dec y (List.length m)) as [Hlt | Hge].
  - rewrite setNth_nth_same by exact Hlt.
    apply setNth_nth_other, Hx.
  - rewrite setNth_same_list by lia. reflexivity.
Qed.

(** What the filling loops do to a square matrix, over modules listed
    without repetition: the light modules receive the bits of the text in
    their order, the others are kept. *)
Lemma fill_spec (text : list nat) (n : nat) (ps : list (nat * nat))
  (m : list (list nat)) (ci : nat) :
  shaped n m -> NoDup ps ->
  (forall p, In p ps -> fst p < n /\ snd p < n) ->
  let r := fold_left (fillCell text) ps (m, ci) in
  let light := lightModules m ps in
  shaped n (fst r) /\
  snd r = ci + List.length light /\
  (forall k, k < List.length light ->
     getCell (fst r) (fst (nth k light (0, 0))) (snd (nth k light (0, 0)))
     = textBit text (ci + k) (snd (nth k light (0, 0)))) /\
  (forall y x, ~ In (y, x) ps \/ getCell m y x <> 0 ->
     getCell (fst r) y x = getCell m y x).
Proof.
  revert m ci. induction ps as [| [py px] ps IH]; intros m ci Hm Hnd Hin;
    cbv zeta.
  - simpl. split; [exact Hm |]. split; [lia |].
    split; [intros k Hk; simpl in Hk; lia | reflexivity].
  - inversion Hnd as [| ? ? Hnot Hnd']; subst.
    destruct (Hin (py, px) (or_introl eq_refl)) as [Hy Hx]. simpl in Hy, Hx.
    assert (Hin' : forall p, In p ps -> fst p < n /\ snd p < n)
      by (intros p Hp; apply Hin; right; exact Hp).
    cbn [fold_left].
    change (fillCell text (m, ci) (py, px))
      with (if getCell m py px =? 0
            then (setCell m py px (textBit text ci px), S ci) else (m, ci)).
    unfold lightModules. cbn [fst snd filter].
    destruct (getCell m py px =? 0) eqn:E0.
    + apply Nat.eqb_eq in E0.
      set (m1 := setCell m py px (textBit text ci px)).
      assert (Hm1 : shaped n m1) by (apply setCell_shaped, Hm).
      assert (Hsame : forall p, In p ps ->
                getCell m1 (fst p) (snd p) = getCell m (fst p) (snd p)).
      { intros [qy qx] Hp. apply getCell_setCell_other.
        intros Eq. apply Hnot. rewrite Eq. exact Hp. }
      assert (El : lightModules m1 ps = lightModules m ps).
      { unfold lightModules. apply filter_ext_in. intros p Hp.
        rewrite (Hsame p Hp). reflexivity. }
      destruct (IH m1 (S ci) Hm1 Hnd' Hin') as (I1 & I2 & I3 & I4).
      rewrite El in I2, I3. fold (lightModules m ps).
      split; [exact I1 |]. split; [rewrite I2; simpl; lia |]. split.
      * intros k Hk. destruct k as [| k]; simpl nth.
        -- cbn [fst snd]. rewrite I4 by (left; exact Hnot).
           unfold m1. rewrite (getCell_setCell_same n) by assumption.
           rewrite Nat.add_0_r. reflexivity.
        -- simpl in Hk. rewrite I3 by lia. f_equal. lia.
      * intros y x Hyx.
        assert (Hne : (py, px) <> (y, x)).
        { intros Eq. injection Eq as <- <-.
          destruct Hyx as [H | H]; [apply H; left; reflexivity | contradiction]. }
        rewrite I4.
        -- apply getCell_setCell_other, Hne.
        -- unfold m1. rewrite getCell_setCell_other by exact Hne.
           destruct Hyx as [H | H]; [left | right; exact H].
           intros Hp. apply H. right. exact Hp.
    + apply Nat.eqb_neq in E0.
      destruct (IH m ci Hm Hnd' Hin') as (I1 & I2 & I3 & I4).
      fold (lightModules m ps).
      split; [exact I1 |]. split; [exact I2 |]. split; [exact I3 |].
      intros y x Hyx. apply I4.
      destruct Hyx as [H | H]; [left | right; exact H].
      intros Hp. apply H. right. exact Hp.
Qed.

Lemma moduleOrder_spec (n : nat) (p : nat * nat) :
  In p (moduleOrder n) <-> fst p < n /\ snd p < n.
Proof.
  unfold moduleOrder. rewrite in_flat_map. split.
  - intros (y & Hy & Hp). apply in_map_iff in Hp. destruct Hp as (x & <- & Hx).
    apply in_seq in Hy, Hx. simpl. lia.
  - intros [Hy Hx]. exists (fst p). split; [apply in_seq; lia |].
    apply in_map_iff. exists (snd p). split; [destruct p; reflexivity |].
    apply in_seq. lia.
Qed.

Lemma moduleOrder_NoDup (n : nat) : NoDup (moduleOrder n).
Proof.
  unfold moduleOrder.
  assert (H : forall l : list nat, NoDup l ->
            NoDup (flat_map (fun y : nat => map (fun x : nat => (y, x))
                                              (seq 0 n)) l)).
  { induction l as [| y l IH]; intros Hnd; simpl; [constructor |].
    inversion Hnd as [| ? ? Hnot Hnd']; subst.
    apply NoDup_app; [| apply IH, Hnd' |].
    - apply Finite.Injective_map_NoDup; [| apply seq_NoDup].
      intros a b Hab. congruence.
    - intros [a b] Ha Hb. apply in_map_iff in Ha. destruct Ha as (x & Ex & _).
      apply in_flat_map in Hb. destruct Hb as (y' & Hy' & Hb).
      apply in_map_iff in Hb. destruct Hb as (x' & Ex' & _).
      apply Hnot. congruence. }
  apply H, seq_NoDup.
Qed.

Lemma qrBase_shaped : shaped 21 (qrBase 21).
Proof.
  split; [vm_compute; reflexivity |]. intros y Hy.
  assert (E : forallb (fun y => List.length (nth y (qrBase 21) []) =? 21)
                (seq 0 21) = true) by (vm_compute; reflexivity).
  rewrite forallb_forall in E. apply Nat.eqb_eq, E, in_seq. lia.
Qed.

Lemma qrBase_bits (y x : nat) :
  getCell (qrBase 21) y x = 0 \/ getCell (qrBase 21) y x = 1.
Proof.
  destruct (lt_dec y 21) as [Hy | Hy]; [destruct (lt_dec x 21) as [Hx | Hx] |].
  - assert (E : forallb (fun y => forallb (fun x =>
                  getCell (qrBase 21) y x <=? 1) (seq 0 21)) (seq 0 21) = true)
      by (vm_compute; reflexivity).
    rewrite forallb_forall in E. specialize (E y ltac:(apply in_seq; lia)).
    rewrite forallb_forall in E. specialize (E x ltac:(apply in_seq; lia)).
    apply Nat.leb_le in E. lia.
  - left. unfold getCell. apply nth_overflow.
    destruct qrBase_shaped as [_ H]. rewrite (H y Hy). lia.
  - left. unfold getCell. rewrite (nth_overflow (qrBase 21)).
    + destruct x; reflexivity.
    + destruct qrBase_shaped as [H _]. lia.
Qed.

Lemma textBit_bit (text : list nat) (ci x : nat) :
  textBit text ci x = 0 \/ textBit text ci x = 1.
Proof.
  unfold textBit. destruct text; [left; reflexivity |].
  destruct (Nat.testbit _ _); simpl; auto.
Qed.

Lemma lightModules_In (m : list (list nat)) (ps : list (nat * nat))
  (p : nat * nat) :
  In p (lightModules m ps) <-> In p ps /\ getCell m (fst p) (snd p) = 0.
Proof.
  unfold lightModules. rewrite filter_In, Nat.eqb_eq. reflexivity.
Qed.

(** [makeQRPattern], unfolded. *)
Lemma makeQRPattern_eq (text : list nat) (size : Q) :
  makeQRPattern text size
  = (fst (fold_left (fillCell text) (moduleOrder 21) (qrBase 21, 0)),
     (size / natQ 21)%Q).
Proof. reflexivity. Qed.

(** X23.  [makeQRPattern] returns a matrix of 21 rows of 21 modules, each 0
    or 1, and a cell size of a 21st of [size].  Every module that the three
    finder patterns and the two timing lines set dark is dark in the
    result; the 336 other modules, among them the light rings inside the
    finder patterns, carry the text: the [k]-th of them in row order, in
    column [x], holds bit [x mod 8] of the character at index
    [k mod text.length] (0 when the text is empty). *)
Theorem qr_pattern_modules (text : list nat) (size : Q) :
  let m := fst (makeQRPattern text size) in
  let light := lightModules (qrBase 21) (moduleOrder 21) in
  (snd (makeQRPattern text size) * 21 == size)%Q /\
  shaped 21 m /\
  (forall y x, getCell m y x = 0 \/ getCell m y x = 1) /\
  (forall y x, getCell (qrBase 21) y x = 1 -> getCell m y x = 1) /\
  (forall y x, y < 7 -> x < 7 -> finderDark y x = true ->
     getCell m y x = 1 /\ getCell m y (14 + x) = 1 /\ getCell m (14 + y) x = 1) /\
  List.length light = 336 /\
  In (1, 1) light /\
  forall k, k < 336 ->
    getCell m (fst (nth k light (0, 0))) (snd (nth k light (0, 0)))
    = textBit text k (snd (nth k light (0, 0))).
Proof.
  cbv zeta.
  pose proof (fill_spec text 21 (moduleOrder 21) (qrBase 21) 0 qrBase_shaped
                (moduleOrder_NoDup 21)) as Hfill.
  cbv zeta in Hfill.
  pose proof (makeQRPattern_eq text size) as E.
  set (r := fold_left (fillCell text) (moduleOrder 21) (qrBase 21, 0)) in *.
  clearbody r. rewrite E. clear E. cbn [fst snd].
  set (light := lightModules (qrBase 21) (moduleOrder 21)) in *.
  destruct Hfill as (H1 & H2 & H3 & H4);
    [intros p Hp; apply moduleOrder_spec, Hp |].
  assert (Hlen : List.length light = 336) by (vm_compute; reflexivity).
  assert (Hdark : forall y x,
            getCell (qrBase 21) y x = 1 -> getCell (fst r) y x = 1).
  { intros y x E. rewrite H4; [exact E | right; lia]. }
  split.
  { change (natQ 21) with 21%Q. field. }
  split; [exact H1 |]. split; [| split; [exact Hdark | split; [| split;
    [exact Hlen | split]]]].
  - intros y x.
    destruct (Nat.eq_dec (getCell (qrBase 21) y x) 0) as [E0 | E0].
    + destruct (lt_dec y 21) as [Hy | Hy]; [destruct (lt_dec x 21) as [Hx | Hx] |].
      * assert (Hin : In (y, x) light).
        { apply lightModules_In.
          split; [apply moduleOrder_spec; simpl; lia | exact E0]. }
        apply (In_nth _ _ (0, 0)) in Hin. destruct Hin as (k & Hk & Ek).
        specialize (H3 k Hk). rewrite Ek in H3. cbn [fst snd] in H3.
        rewrite H3.
        apply textBit_bit.
      * left. rewrite H4; [exact E0 |]. left.
        intros Hin. apply moduleOrder_spec in Hin. simpl in Hin. lia.
      * left. rewrite H4; [exact E0 |]. left.
        intros Hin. apply moduleOrder_spec in Hin. simpl in Hin. lia.
    + rewrite H4 by (right; exact E0). apply qrBase_bits.
  - intros y x Hy Hx Hd.
    assert (E : forallb (fun y => forallb (fun x =>
                  implb (finderDark y x)
                    ((getCell (qrBase 21) y x =? 1)
                     && (getCell (qrBase 21) y (14 + x) =? 1)
                     && (getCell (qrBase 21) (14 + y) x =? 1)))
                  (seq 0 7)) (seq 0 7) = true) by (vm_compute; reflexivity).
    rewrite forallb_forall in E. specialize (E y ltac:(apply in_seq; lia)).
    rewrite forallb_forall in E. specialize (E x ltac:(apply in_seq; lia)).
    rewrite Hd, implb_true_l in E.
    rewrite !andb_true_iff, !Nat.eqb_eq in E.
    destruct E as ((E1 & E2) & E3). auto.
  - apply lightModules_In.
    split; [apply moduleOrder_spec; simpl; lia | vm_compute; reflexivity].
  - intros k Hk. rewrite H3 by lia. reflexivity.
Qed.

(** The pattern of the text "A" (code 65, bits 0 and 6): the first light
    module, at row 0 and column 7, holds bit 7 of the code, and the light
    module at row 1 and column 8, inside no finder pattern, bit 0. *)
Example qr_pattern_of_A :
  getCell (fst (makeQRPattern [65%nat] 210%Q)) 0 7 = 0%nat /\
  getCell (fst (makeQRPattern [65%nat] 210%Q)) 1 8 = 1%nat /\
  getCell (fst (makeQRPattern [65%nat] 210%Q)) 1 6 = 1%nat /\
  (snd (makeQRPattern [65%nat] 210%Q) == 10)%Q.
Proof. vm_compute. auto. Qed.
